(** * Land Scraper content script: field parsers, region resolver,
      record store and page crawler (content.js)

    A shallow embedding of the scraping pipeline of content.js.

    Modelling conventions.
    - A JavaScript number is a rational, one of the two infinities or NaN
      ([JsNum]).  The finite results of arithmetic and of parseFloat are
      binary64 values: the exact result rounded to the nearest double, ties
      to even, with overflow to an infinity ([number]).  Every finite result
      is kept in lowest terms ([Qred]) so that equal numbers are equal terms.
      The sign of zero is not modelled.
    - [null] is [None].
    - A JavaScript string is a list of code units below 256 ([text]). *)

From Stdlib Require Import ZArith QArith Qabs Qround Lqa Lia Bool List Ascii
  String.
From stdpp Require Import gmap strings list.
Import ListNotations.

Local Open Scope Z_scope.

(** ** JavaScript numbers *)

Module Js.

Inductive JsNum : Type :=
| Fin (q : Q)
| PInf
| NInf
| NaN.

Definition of_Z (z : Z) : JsNum := Fin (inject_Z z).

(** Sign of a finite value: -1, 0 or 1. *)
Definition Qsgn (q : Q) : Z := Z.sgn (Qnum q).

(** ToBoolean on a number: +0 and NaN are falsy. *)
Definition truthy (x : JsNum) : bool :=
  match x with
  | Fin q => negb (Qeq_bool q 0)
  | PInf | NInf => true
  | NaN => false
  end.

(** ToBoolean on a number-or-null. *)
Definition truthy_opt (x : option JsNum) : bool :=
  match x with
  | Some n => truthy n
  | None => false
  end.

(** ToNumber on a number-or-null: null converts to +0. *)
Definition to_number (x : option JsNum) : JsNum :=
  match x with
  | Some n => n
  | None => Fin 0
  end.

Definition Qlt_bool (a b : Q) : bool := negb (Qle_bool b a).

(** [2^e] for an integer exponent. *)
Definition pow2 (e : Z) : Q :=
  if 0 <=? e then inject_Z (2 ^ e) else 1 # Z.to_pos (2 ^ (- e)).

(** The exponent of the binade of [q]: the [e] with
    [2^e <= |q| < 2^(e+1)], for [q] other than 0. *)
Definition binade (q : Q) : Z :=
  let e := Z.log2 (Z.abs (Qnum q)) - Z.log2 (Zpos (Qden q)) in
  if Qle_bool (pow2 e) (Qabs q) then e else e - 1.

(** The nearest integer, ties to the even one. *)
Definition round_half_even (q : Q) : Z :=
  let f := Qfloor q in
  match (q - inject_Z f ?= 1 # 2)%Q with
  | Lt => f
  | Gt => f + 1
  | Eq => if Z.even f then f else f + 1
  end.

(** The multiple of the unit in the last place nearest to [q], ties to
    even: 53 significant bits, and the fixed unit [2^-1074] below
    [2^-1022]. *)
Definition nearest (q : Q) : Q :=
  if Qeq_bool q 0 then 0%Q
  else
    let ulp := pow2 (Z.max (binade q) (-1022) - 52) in
    Qred (inject_Z (round_half_even (q / ulp)) * ulp).

(** The Number value of a rational: the nearest double, or an infinity
    when rounding reaches [2^1024] in magnitude. *)
Definition number (q : Q) : JsNum :=
  let r := nearest q in
  if Qle_bool (pow2 1024) (Qabs r)
  then if Qle_bool 0 q then PInf else NInf
  else Fin r.

(** [x < y]; any comparison with NaN is false. *)
Definition lt (x y : JsNum) : bool :=
  match x, y with
  | NaN, _ | _, NaN => false
  | Fin a, Fin b => Qlt_bool a b
  | NInf, NInf => false
  | NInf, _ => true
  | _, PInf => match x with PInf => false | _ => true end
  | _, _ => false
  end.

(** [x <= y]. *)
Definition le (x y : JsNum) : bool :=
  match x, y with
  | NaN, _ | _, NaN => false
  | Fin a, Fin b => Qle_bool a b
  | NInf, _ => true
  | _, PInf => true
  | _, _ => false
  end.

Definition gt (x y : JsNum) : bool := lt y x.
Definition ge (x y : JsNum) : bool := le y x.

(** [x * y]. *)
Definition mul (x y : JsNum) : JsNum :=
  match x, y with
  | NaN, _ | _, NaN => NaN
  | Fin a, Fin b => number (a * b)
  | Fin a, PInf | PInf, Fin a =>
      match Qsgn a with 0 => NaN | Zpos _ => PInf | Zneg _ => NInf end
  | Fin a, NInf | NInf, Fin a =>
      match Qsgn a with 0 => NaN | Zpos _ => NInf | Zneg _ => PInf end
  | PInf, PInf | NInf, NInf => PInf
  | PInf, NInf | NInf, PInf => NInf
  end.

(** [x / y]; the zero divisor is +0. *)
Definition div (x y : JsNum) : JsNum :=
  match x, y with
  | NaN, _ | _, NaN => NaN
  | Fin a, Fin b =>
      if Qeq_bool b 0
      then match Qsgn a with 0 => NaN | Zpos _ => PInf | Zneg _ => NInf end
      else number (a / b)
  | Fin _, (PInf | NInf) => Fin 0
  | PInf, Fin b => if Qlt_bool b 0 then NInf else PInf
  | NInf, Fin b => if Qlt_bool b 0 then PInf else NInf
  | (PInf | NInf), (PInf | NInf) => NaN
  end.

(** [Math.round]: the nearest integer, ties towards +Infinity. *)
Definition Math_round (x : JsNum) : JsNum :=
  match x with
  | Fin q => of_Z (Qfloor (q + (1 # 2)))
  | other => other
  end.

Definition isNaN (x : JsNum) : bool :=
  match x with NaN => true | _ => false end.

End Js.

Import Js.

(** ** Price per perch (content.js, calculatePricePerPerch) *)

Definition calculatePricePerPerch (price size : option JsNum)
    (isPricePerPerch : bool) : option JsNum :=
  if negb (truthy_opt price) || negb (truthy_opt size)
     || Js.le (to_number size) (of_Z 0)
  then None
  else
    let p := to_number price in
    let s := to_number size in
    if isPricePerPerch then price
    else if Js.gt p (of_Z 5000000) && Js.lt s (of_Z 50)
    then Some (Math_round (Js.div p s))
    else if Js.lt p (of_Z 500000) then price
    else if Js.gt p (of_Z 1000000) then Some (Math_round (Js.div p s))
    else price.

(** The contract of the derivation as the specification words it: absent
    without both operands or with a non-positive size, the total itself when
    it is explicitly a unit price, then the four heuristic branches. *)
Definition derivePricePerUnit_spec (total size : option Q)
    (isExplicitlyPerUnit : bool) : option JsNum :=
  match total, size with
  | Some p, Some s =>
      if Qle_bool s 0 then None
      else if isExplicitlyPerUnit then Some (Fin p)
      else if Qlt_bool 5000000 p && Qlt_bool s 50
      then Some (Math_round (number (p / s)))
      else if Qlt_bool p 500000 then Some (Fin p)
      else if Qlt_bool 1000000 p
      then Some (Math_round (number (p / s)))
      else Some (Fin p)
  | _, _ => None
  end.


(** ** JavaScript strings *)

Definition text : Type := list ascii.

(** A string literal of the source. *)
Definition txt (s : string) : text := list_ascii_of_string s.

Module Chars.

Definition code (c : ascii) : N := N_of_ascii c.

Definition between (lo hi : N) (c : ascii) : bool :=
  ((lo <=? code c) && (code c <=? hi))%N.

(** [\d] *)
Definition is_digit : ascii -> bool := between 48 57.

Definition is_upper : ascii -> bool := between 65 90.
Definition is_lower : ascii -> bool := between 97 122.
Definition is_alpha (c : ascii) : bool := is_upper c || is_lower c.

(** [\w] *)
Definition is_word (c : ascii) : bool :=
  is_alpha c || is_digit c || (code c =? 95)%N.

(** [\s], and the characters removed by [trim]: tab, line feed, vertical
    tab, form feed, carriage return, space and no-break space. *)
Definition is_space (c : ascii) : bool :=
  between 9 13 c || (code c =? 32)%N || (code c =? 160)%N.

(** Line terminators below 256, which [.] does not match without the
    [s] flag. *)
Definition is_newline (c : ascii) : bool :=
  (code c =? 10)%N || (code c =? 13)%N.

(** Upper-case letters of the first 256 code points. *)
Definition has_lower (c : ascii) : bool :=
  is_upper c || (between 192 222 c && negb (code c =? 215)%N).

Definition to_lower (c : ascii) : ascii :=
  if has_lower c then ascii_of_N (code c + 32) else c.

(** Lower-case letters whose upper case is below 256. *)
Definition has_upper (c : ascii) : bool :=
  is_lower c || (between 224 254 c && negb (code c =? 247)%N).

Definition to_upper (c : ascii) : ascii :=
  if has_upper c then ascii_of_N (code c - 32) else c.

(** Equality of a pattern character and an input character, modulo case
    under the [i] flag. *)
Definition char_eq (ci : bool) (a b : ascii) : bool :=
  if ci then Ascii.eqb (to_lower a) (to_lower b) else Ascii.eqb a b.

Definition digit_value (c : ascii) : Z := Z.of_N (code c) - 48.

End Chars.

Import Chars.

Module Str.

Definition toLowerCase (s : text) : text := map to_lower s.

Fixpoint trimStart (s : text) : text :=
  match s with
  | c :: s' => if is_space c then trimStart s' else s
  | [] => []
  end.

Definition trimEnd (s : text) : text := rev (trimStart (rev s)).

Definition trim (s : text) : text := trimEnd (trimStart s).

Fixpoint startsWith (s p : text) : bool :=
  match p, s with
  | [], _ => true
  | a :: p', b :: s' => Ascii.eqb a b && startsWith s' p'
  | _ :: _, [] => false
  end.

(** [s.includes(sub)] *)
Fixpoint includes (s sub : text) : bool :=
  startsWith s sub ||
  match s with
  | [] => false
  | _ :: s' => includes s' sub
  end.

Definition text_eqb (a b : text) : bool :=
  bool_decide (a = b).

(** [s.split(/[...]/)] for a class of single separator characters. *)
Fixpoint split_on (sep : ascii -> bool) (s : text) : list text :=
  match s with
  | [] => [[]]
  | c :: s' =>
      match split_on sep s' with
      | piece :: pieces =>
          if sep c then [] :: piece :: pieces else (c :: piece) :: pieces
      | [] => [[c]]
      end
  end.

(** [parts.join(sep)] *)
Fixpoint join (sep : text) (parts : list text) : text :=
  match parts with
  | [] => []
  | [p] => p
  | p :: ps => p ++ sep ++ join sep ps
  end.

(** A non-empty string is truthy. *)
Definition truthy (s : text) : bool :=
  match s with [] => false | _ => true end.

Definition truthy_opt (s : option text) : bool :=
  match s with Some t => truthy t | None => false end.

End Str.

(** ** Regular expressions

    A backtracking matcher in the order of ECMAScript: [rmatch] lists the
    ways a pattern can match at a position, most preferred first, and a
    search takes the first way at the leftmost position that has one. *)

Module Re.

Inductive regex : Type :=
| Eps
| Chr (c : ascii)
| Cls (p : ascii -> bool)
| Dot
| Seq (a b : regex)
| Alt (a b : regex)
| Star (greedy : bool) (r : regex)
| Group (n : nat) (r : regex)
| WordB
| Bol
| Eol.

(** Derived forms. *)
Definition Opt (r : regex) : regex := Alt r Eps.
Definition Plus (r : regex) : regex := Seq r (Star true r).
Definition PlusLazy (r : regex) : regex := Seq r (Star false r).
Fixpoint Lit (s : text) : regex :=
  match s with
  | [] => Eps
  | [c] => Chr c
  | c :: s' => Seq (Chr c) (Lit s')
  end.
Fixpoint Seqs (rs : list regex) : regex :=
  match rs with
  | [] => Eps
  | [r] => r
  | r :: rs' => Seq r (Seqs rs')
  end.
Fixpoint Alts (rs : list regex) : regex :=
  match rs with
  | [] => Eps
  | [r] => r
  | r :: rs' => Alt r (Alts rs')
  end.
Fixpoint Rep (n : nat) (r : regex) : regex :=
  match n with
  | O => Eps
  | S O => r
  | S m => Seq r (Rep m r)
  end.
(** At most [n] times, as many as possible. *)
Fixpoint UpTo (n : nat) (r : regex) : regex :=
  match n with
  | O => Eps
  | S m => Opt (Seq r (UpTo m r))
  end.
(** [r{lo,hi}] *)
Definition Range (lo hi : nat) (r : regex) : regex :=
  Seq (Rep lo r) (UpTo (hi - lo) r).

(** Flags [i] and [s]. *)
Record flags : Type := { ignoreCase : bool; dotAll : bool }.

Definition no_flags : flags := {| ignoreCase := false; dotAll := false |}.
Definition flag_i : flags := {| ignoreCase := true; dotAll := false |}.
Definition flag_is : flags := {| ignoreCase := true; dotAll := true |}.

(** The matcher state: the character before the position, the input from
    the position on and the groups captured so far, latest first. *)
Record mstate : Type := {
  prev : option ascii;
  rest : text;
  caps : list (nat * text)
}.

Definition consumed (before after : mstate) : text :=
  firstn (length (rest before) - length (rest after)) (rest before).

Definition step_char (ok : ascii -> bool) (st : mstate) : list mstate :=
  match rest st with
  | x :: xs =>
      if ok x then [{| prev := Some x; rest := xs; caps := caps st |}] else []
  | [] => []
  end.

Definition is_word_opt (c : option ascii) : bool :=
  match c with Some x => is_word x | None => false end.

(** A class holds of a character under [i] when it holds of the character
    or of its other case. *)
Definition cls_ok (ci : bool) (p : ascii -> bool) (x : ascii) : bool :=
  if ci then p x || p (to_lower x) || p (to_upper x) else p x.

(** Iteration of a star: an iteration must consume input, so the number
    of iterations is bounded by the length of the input. *)
Fixpoint star_iter (step : mstate -> list mstate) (greedy : bool)
    (fuel : nat) (st : mstate) : list mstate :=
  match fuel with
  | O => [st]
  | S n =>
      let more :=
        flat_map (fun st' =>
                    if (length (rest st') <? length (rest st))%nat
                    then star_iter step greedy n st' else [])
                 (step st) in
      if greedy then more ++ [st] else st :: more
  end.

Fixpoint rmatch (f : flags) (r : regex) (st : mstate) : list mstate :=
  match r with
  | Eps => [st]
  | Chr c => step_char (char_eq (ignoreCase f) c) st
  | Cls p => step_char (cls_ok (ignoreCase f) p) st
  | Dot => step_char (fun x => dotAll f || negb (is_newline x)) st
  | Seq a b => flat_map (rmatch f b) (rmatch f a st)
  | Alt a b => rmatch f a st ++ rmatch f b st
  | Star g r' => star_iter (rmatch f r') g (S (length (rest st))) st
  | Group n r' =>
      map (fun st' =>
             {| prev := prev st'; rest := rest st';
                caps := (n, consumed st st') :: caps st' |})
          (rmatch f r' st)
  | WordB =>
      if xorb (is_word_opt (prev st)) (is_word_opt (head (rest st)))
      then [st] else []
  | Bol => match prev st with None => [st] | Some _ => [] end
  | Eol => match rest st with [] => [st] | _ => [] end
  end.

(** The result of [text.match(re)] for a pattern without the [g] flag. *)
Record found : Type := {
  index : nat;
  whole : text;
  groups : list (nat * text);
  after : text
}.

Fixpoint lookup_group (n : nat) (g : list (nat * text)) : option text :=
  match g with
  | [] => None
  | (m, t) :: g' => if (m =? n)%nat then Some t else lookup_group n g'
  end.

(** [m[n]] for a group that took part in the match; the empty string
    stands for a group that did not. *)
Definition group (n : nat) (m : found) : text :=
  match lookup_group n (groups m) with
  | Some t => t
  | None => []
  end.

Definition match_at (f : flags) (r : regex) (p : option ascii) (s : text)
    (idx : nat) : option found :=
  let st := {| prev := p; rest := s; caps := [] |} in
  match rmatch f r st with
  | st' :: _ =>
      Some {| index := idx; whole := consumed st st';
              groups := caps st'; after := rest st' |}
  | [] => None
  end.

Fixpoint search_from (f : flags) (r : regex) (p : option ascii) (s : text)
    (idx : nat) : option found :=
  match match_at f r p s idx with
  | Some m => Some m
  | None =>
      match s with
      | [] => None
      | c :: s' => search_from f r (Some c) s' (S idx)
      end
  end.

(** [s.match(re)] *)
Definition exec (f : flags) (r : regex) (s : text) : option found :=
  search_from f r None s 0.

(** [re.test(s)] *)
Definition test (f : flags) (r : regex) (s : text) : bool :=
  match exec f r s with Some _ => true | None => false end.

Fixpoint replace_loop (fuel : nat) (f : flags) (r : regex) (by_ : text)
    (p : option ascii) (s : text) : text :=
  match fuel with
  | O => s
  | S n =>
      match match_at f r p s 0 with
      | Some m =>
          match whole m, s with
          | [], c :: s' => by_ ++ c :: replace_loop n f r by_ (Some c) s'
          | [], [] => by_
          | w, _ =>
              by_ ++ replace_loop n f r by_ (List.last (map Some w) p) (after m)
          end
      | None =>
          match s with
          | [] => []
          | c :: s' => c :: replace_loop n f r by_ (Some c) s'
          end
      end
  end.


(** [s.replace(re, by_)] for a pattern with the [g] flag. *)
Definition replace_all (f : flags) (r : regex) (by_ : text) (s : text) : text :=
  replace_loop (S (length s)) f r by_ None s.

End Re.

(** *** What a pattern matches

    [Matches f r p w s]: the pattern [r] matches the word [w] at a position
    whose previous character is [p] and where [s] follows the word.  An
    iteration of a star is never empty. *)

Module ReSpec.

Import Re.

(** The character before the position reached by reading [w]. *)
Definition lastc (p : option ascii) (w : text) : option ascii :=
  List.last (map Some w) p.

Inductive Matches (f : flags)
  : regex -> option ascii -> text -> text -> Prop :=
| M_Eps p s : Matches f Eps p [] s
| M_Chr c x p s :
    char_eq (ignoreCase f) c x = true -> Matches f (Chr c) p [x] s
| M_Cls q x p s :
    cls_ok (ignoreCase f) q x = true -> Matches f (Cls q) p [x] s
| M_Dot x p s :
    dotAll f || negb (is_newline x) = true -> Matches f Dot p [x] s
| M_Seq a b p w1 w2 s :
    Matches f a p w1 (w2 ++ s) ->
    Matches f b (lastc p w1) w2 s ->
    Matches f (Seq a b) p (w1 ++ w2) s
| M_AltL a b p w s : Matches f a p w s -> Matches f (Alt a b) p w s
| M_AltR a b p w s : Matches f b p w s -> Matches f (Alt a b) p w s
| M_StarNil g r p s : Matches f (Star g r) p [] s
| M_StarCons g r p w1 w2 s :
    w1 <> [] ->
    Matches f r p w1 (w2 ++ s) ->
    Matches f (Star g r) (lastc p w1) w2 s ->
    Matches f (Star g r) p (w1 ++ w2) s
| M_Group n r p w s : Matches f r p w s -> Matches f (Group n r) p w s
| M_WordB p s :
    xorb (is_word_opt p) (is_word_opt (head s)) = true ->
    Matches f WordB p [] s
| M_Bol s : Matches f Bol None [] s
| M_Eol p : Matches f Eol p [] [].

(** The pattern matches somewhere in [s]. *)
Definition occurs (f : flags) (r : regex) (s : text) : Prop :=
  exists pre w post,
    s = pre ++ w ++ post /\ Matches f r (lastc None pre) w post.

(** A result of the matcher at [st]: the word read and the match. *)
Definition result_of (f : flags) (r : regex) (st st' : mstate) : Prop :=
  exists w,
    rest st = w ++ rest st'
    /\ prev st' = lastc (prev st) w
    /\ Matches f r (prev st) w (rest st').

(** The state of the matcher at the position after [pre]. *)
Definition at_position (p : option ascii) (pre s' : text) : mstate :=
  {| prev := lastc p pre; rest := s'; caps := [] |}.

(** A pattern without capture groups. *)
Fixpoint group_free (r : regex) : bool :=
  match r with
  | Group _ _ => false
  | Seq a b | Alt a b => group_free a && group_free b
  | Star _ r' => group_free r'
  | _ => true
  end.

End ReSpec.

Import Re.

(** ** parseFloat

    The longest prefix of the trimmed input that is a decimal literal:
    an optional sign, then [Infinity] or digits with an optional fraction
    and an optional exponent; NaN when there is none.  The result is the
    Number value of the decimal. *)

Fixpoint span (p : ascii -> bool) (s : text) : text * text :=
  match s with
  | c :: s' =>
      if p c then let (a, b) := span p s' in (c :: a, b) else ([], s)
  | [] => ([], [])
  end.

Definition digits_value (ds : text) : Z :=
  fold_left (fun acc c => 10 * acc + digit_value c) ds 0.

(** [m * 10^e] in lowest terms. *)
Definition scale10 (m e : Z) : Q :=
  if 0 <=? e then inject_Z (m * 10 ^ e)
  else Qred (m # Z.to_pos (10 ^ (- e))).

(** The value of an exponent part at the head of [s]; 0 when there is
    none. *)
Definition exponent_part (s : text) : Z :=
  match s with
  | e :: s1 =>
      if Ascii.eqb e "e" || Ascii.eqb e "E" then
        let '(sign, s2) :=
          match s1 with
          | "+"%char :: t => (1, t)
          | "-"%char :: t => (-1, t)
          | _ => (1, s1)
          end in
        match fst (span is_digit s2) with
        | [] => 0
        | ds => sign * digits_value ds
        end
      else 0
  | [] => 0
  end.

Definition unsigned_literal (s : text) : JsNum :=
  if Str.startsWith s (txt "Infinity") then PInf
  else
    let (ip, s1) := span is_digit s in
    let (fp, s2) :=
      match s1 with
      | "."%char :: t => span is_digit t
      | _ => ([], s1)
      end in
    match ip ++ fp with
    | [] => NaN
    | ds => number (scale10 (digits_value ds)
                            (exponent_part s2 - Z.of_nat (length fp)))
    end.

Definition negate (x : JsNum) : JsNum :=
  match x with
  | Fin q => Fin (- q)
  | PInf => NInf
  | NInf => PInf
  | NaN => NaN
  end.

Definition parseFloat (s : text) : JsNum :=
  match Str.trimStart s with
  | "+"%char :: t => unsigned_literal t
  | "-"%char :: t => negate (unsigned_literal t)
  | t => unsigned_literal t
  end.

(** ** Field parsers (content.js, parsePrice and parseSize) *)

(** [\d] and [\s] *)
Definition digit : regex := Cls is_digit.
Definition space : regex := Cls is_space.

(** The number pattern, group 1: digits, an optional dot, digits
    ([\d+], [\.?], [\d*]). *)
Definition re_number : regex :=
  Group 1 (Seqs [Plus digit; Opt (Chr "."); Star true digit]).

(** [/Rs\.?|LKR|,|\s/gi] *)
Definition re_currency : regex :=
  Alts [Seq (Lit (txt "Rs")) (Opt (Chr ".")); Lit (txt "LKR"); Chr ","; space].

(** The number pattern followed by [M], flag [i]. *)
Definition re_million : regex := Seq re_number (Chr "M").

(** The number pattern, optional white space, then [lakhs?], flag [i]. *)
Definition re_lakhs : regex :=
  Seqs [re_number; Star true space; Lit (txt "lakh"); Opt (Chr "s")].

(** The number pattern, optional white space, then [crore], flag [i]. *)
Definition re_crore : regex :=
  Seqs [re_number; Star true space; Lit (txt "crore")].

Definition parsePrice (priceText : text) : option JsNum :=
  if negb (Str.truthy priceText) then None
  else
    let cleaned := Str.trim (replace_all flag_i re_currency [] priceText) in
    match exec flag_i re_million cleaned with
    | Some m =>
        Some (Math_round (Js.mul (parseFloat (group 1 m)) (of_Z 1000000)))
    | None =>
    match exec flag_i re_lakhs priceText with
    | Some m =>
        Some (Math_round (Js.mul (parseFloat (group 1 m)) (of_Z 100000)))
    | None =>
    match exec flag_i re_crore priceText with
    | Some m =>
        Some (Math_round (Js.mul (parseFloat (group 1 m)) (of_Z 10000000)))
    | None =>
        let n := parseFloat cleaned in
        if isNaN n then None else Some (Math_round n)
    end end end.

(** The number pattern, optional white space, then
    [(?:perch|perches|p\b)], flag [i]. *)
Definition re_perch : regex :=
  Seqs [re_number; Star true space;
        Alts [Lit (txt "perch"); Lit (txt "perches"); Seq (Chr "p") WordB]].

(** The number pattern, optional white space, then
    [(?:acre|acres|ac)], flag [i]. *)
Definition re_acre : regex :=
  Seqs [re_number; Star true space;
        Alts [Lit (txt "acre"); Lit (txt "acres"); Lit (txt "ac")]].

(** The number pattern, optional white space, then
    [(?:rood|roods|r\b)], flag [i]. *)
Definition re_rood : regex :=
  Seqs [re_number; Star true space;
        Alts [Lit (txt "rood"); Lit (txt "roods"); Seq (Chr "r") WordB]].

Definition parseSize (sizeText : text) : option JsNum :=
  if negb (Str.truthy sizeText) then None
  else
    let lowerText := Str.toLowerCase sizeText in
    match exec flag_i re_perch lowerText with
    | Some perchMatch => Some (parseFloat (group 1 perchMatch))
    | None =>
    match exec flag_i re_acre lowerText with
    | Some acreMatch =>
        Some (Js.mul (parseFloat (group 1 acreMatch)) (of_Z 160))
    | None =>
    match exec flag_i re_rood lowerText with
    | Some roodMatch =>
        Some (Js.mul (parseFloat (group 1 roodMatch)) (of_Z 40))
    | None => None
    end end end.

(** ** Coordinates *)

Record Coords : Type := { lat : option JsNum; lng : option JsNum }.

Definition no_coords : Coords := {| lat := None; lng := None |}.

(** The signed number pattern, group [n]: [-?], [\d+], [\.?], [\d*]. *)
Definition re_signed (n : nat) : regex :=
  Group n (Seqs [Opt (Chr "-"); Plus digit; Opt (Chr "."); Star true digit]).

(** Two signed numbers separated by a comma, groups 1 and 2. *)
Definition re_pair : regex := Seqs [re_signed 1; Chr ","; re_signed 2].

(** The three patterns of extractCoordsFromGoogleMaps: the pair after
    [place/], after [@] and after [q=]. *)
Definition maps_patterns : list regex :=
  [ Seq (Lit (txt "place/")) re_pair;
    Seq (Chr "@") re_pair;
    Seq (Lit (txt "q=")) re_pair ].

Fixpoint first_match (f : flags) (patterns : list regex) (s : text)
  : option found :=
  match patterns with
  | [] => None
  | r :: rs =>
      match exec f r s with
      | Some m => Some m
      | None => first_match f rs s
      end
  end.

Definition extractCoordsFromGoogleMaps (url : option text) : Coords :=
  match url with
  | None => no_coords
  | Some u =>
      if negb (Str.truthy u) then no_coords
      else
        match first_match no_flags maps_patterns u with
        | Some m =>
            {| lat := Some (parseFloat (group 1 m));
               lng := Some (parseFloat (group 2 m)) |}
        | None => no_coords
        end
  end.

(** The bounds test written at each place that validates coordinates:
    [lat >= 5.9 && lat <= 9.9 && lng >= 79.5 && lng <= 81.9]. *)
Definition in_sri_lanka (la lo : JsNum) : bool :=
  Js.ge la (number 5.9) && Js.le la (number 9.9)
  && Js.ge lo (number 79.5) && Js.le lo (number 81.9).

(** ** Region resolver (content.js, getMunicipalCouncil) *)

(** The separators of the class in [split]: comma, hyphen, slash, bar and
    [>]; its last member, the arrow U+2192, is above 255. *)
Definition is_separator (c : ascii) : bool :=
  Ascii.eqb c "," || Ascii.eqb c "-" || Ascii.eqb c "/"
  || Ascii.eqb c "|" || Ascii.eqb c ">".

Definition location_parts (lowerText : text) : list text :=
  List.filter (fun p => (0 <? length p)%nat)
              (map Str.trim (Str.split_on is_separator lowerText)).

(** The mapping object of gnd_mapping.js, a plain object: its own entries
    in the order in which [Object.entries] lists them, area name to council
    name. *)
Definition Mapping : Type := list (text * text).

(** What getMunicipalCouncil returns: a council name, or, when a part of
    the location names a property that the mapping object inherits from
    [Object.prototype], the value of that property (a function or the
    prototype object; in a stored record, what storage keeps of it). *)
Inductive Council : Type :=
| Name (mc : text)
| Inherited (key : text).

Coercion Name : text >-> Council.

(** The names of the properties of [Object.prototype]. *)
Definition object_prototype : list text :=
  map txt ["constructor"; "__defineGetter__"; "__defineSetter__";
           "hasOwnProperty"; "__lookupGetter__"; "__lookupSetter__";
           "isPrototypeOf"; "propertyIsEnumerable"; "toString"; "valueOf";
           "__proto__"; "toLocaleString"]%string.

(** The own entry of the mapping under [key]. *)
Fixpoint own_entry (m : Mapping) (key : text) : option text :=
  match m with
  | [] => None
  | (k, v) :: m' => if Str.text_eqb k key then Some v else own_entry m' key
  end.

(** [GND_MC_MAPPING[key]]: the own entry, then the property that the object
    inherits, else undefined. *)
Definition mapping_get (m : Mapping) (key : text) : option Council :=
  match own_entry m key with
  | Some v => Some (Name v)
  | None =>
      if existsb (Str.text_eqb key) object_prototype
      then Some (Inherited key) else None
  end.

(** A value in a condition: a name that is not empty, or an object. *)
Definition Council_truthy (c : Council) : bool :=
  match c with
  | Name mc => Str.truthy mc
  | Inherited _ => true
  end.

(** [c === name] for a string [name]. *)
Definition Council_is (c : Council) (name : text) : bool :=
  match c with
  | Name mc => Str.text_eqb mc name
  | Inherited _ => false
  end.

(** The first element of a list on which [f] returns a value, as a loop
    with a [return] inside does. *)
Fixpoint first_some {A B : Type} (f : A -> option B) (l : list A) : option B :=
  match l with
  | [] => None
  | x :: l' =>
      match f x with
      | Some y => Some y
      | None => first_some f l'
      end
  end.

Definition kaduwelaAreas : list text :=
  map txt ["battaramulla"; "pelawatta"; "thalawathugoda"; "malabe";
           "athurugiriya"; "kaduwela"; "ranala"; "hewagama"; "hokandara"]%string.

Definition kotteAreas : list text :=
  map txt ["rajagiriya"; "ethul kotte"; "etul kotte"; "pita kotte";
           "nawala"; "nugegoda"; "pagoda"; "gangodawila"; "welikada"]%string.

Definition colomboAreas : list text :=
  map txt ["mattakkuliya"; "modara"; "borella"; "cinnamon gardens";
           "havelock town"; "wellawatta"; "wellawatte"; "pamankada";
           "kirulapona"; "colombo"]%string.

(** The first loop: a part that is a property with a truthy value. *)
Definition exact_part_lookup (m : Mapping) (parts : list text)
  : option Council :=
  first_some (fun part =>
                match mapping_get m part with
                | Some mc => if Council_truthy mc then Some mc else None
                | None => None
                end) parts.

(** The second loop: a part and an entry, one containing the other. *)
Definition containment_lookup (m : Mapping) (parts : list text)
  : option text :=
  first_some (fun part =>
                first_some (fun '(gnd, mc) =>
                              if Str.includes part gnd || Str.includes gnd part
                              then Some mc else None) m) parts.

(** The third loop: an entry whose key the full text contains. *)
Definition full_text_lookup (m : Mapping) (lowerText : text) : option text :=
  first_some (fun '(gnd, mc) =>
                if Str.includes lowerText gnd then Some mc else None) m.

(** The three tiers over the mapping, when it is loaded. *)
Definition mapping_tiers (m : Mapping) (lowerText : text) (parts : list text)
  : option Council :=
  match exact_part_lookup m parts with
  | Some mc => Some mc
  | None =>
  match containment_lookup m parts with
  | Some mc => Some (Name mc)
  | None => option_map Name (full_text_lookup m lowerText)
  end end.

Definition area_fallback (lowerText : text) : text :=
  if existsb (fun loc => Str.includes lowerText loc) kaduwelaAreas
  then txt "Kaduwela MC"
  else if existsb (fun loc => Str.includes lowerText loc) kotteAreas
  then txt "Sri Jayawardenepura Kotte MC"
  else if existsb (fun loc => Str.includes lowerText loc) colomboAreas
  then txt "Colombo MC"
  else txt "Other".

(** [GND_MC_MAPPING] is [None] when gnd_mapping.js is not loaded. *)
Definition getMunicipalCouncil (GND_MC_MAPPING : option Mapping)
    (locationText : option text) : Council :=
  if negb (Str.truthy_opt locationText) then Name (txt "Unknown")
  else
    let lowerText := Str.trim (Str.toLowerCase (default [] locationText)) in
    let parts := location_parts lowerText in
    match
      match GND_MC_MAPPING with
      | Some m => mapping_tiers m lowerText parts
      | None => None
      end
    with
    | Some mc => mc
    | None => Name (area_fallback lowerText)
    end.

(** ** Sizes as the specification words them

    A size is a numeral, optional white space and a unit token.  The
    numeral is [ip] or [ip.fp] with [ip] a non-empty run of digits; its value
    is the integer that the digits spell, divided by 10 to the number of
    fraction digits. *)

Module SizeSpec.

Definition numeral_text (ip : text) (fp : option text) : text :=
  ip ++ match fp with Some d => "."%char :: d | None => [] end.

Definition is_numeral (ip : text) (fp : option text) : Prop :=
  ip <> [] /\ forallb is_digit ip = true
  /\ forallb is_digit (default [] fp) = true.

Definition numeral_value (ip : text) (fp : option text) : Q :=
  let d := default [] fp in
  scale10 (digits_value (ip ++ d)) (- Z.of_nat (length d)).

Inductive Unit : Type := Perch | Acre | Rood.

(** The unit words, and the single letter that counts at a word boundary. *)
Definition unit_words (u : Unit) : list text :=
  match u with
  | Perch => [txt "perch"; txt "perches"]
  | Acre => [txt "acre"; txt "acres"; txt "ac"]
  | Rood => [txt "rood"; txt "roods"]
  end.

Definition unit_letter (u : Unit) : option ascii :=
  match u with
  | Perch => Some "p"%char
  | Acre => None
  | Rood => Some "r"%char
  end.

(** The size in perches of [v] units, in the arithmetic of doubles: the
    double nearest to [v], and for acres and roods its product with the
    factor of the unit, rounded to a double again. *)
Definition unit_size (u : Unit) (v : Q) : JsNum :=
  match u with
  | Perch => number v
  | Acre => Js.mul (number v) (of_Z 160)
  | Rood => Js.mul (number v) (of_Z 40)
  end.

Definition unit_token (u : Unit) (tok post : text) : Prop :=
  In tok (unit_words u)
  \/ exists c, unit_letter u = Some c /\ tok = [c]
               /\ is_word_opt (head post) = false.

(** The lower-case text [s] holds the numeral [ip.fp], white space and a
    token of the unit [u]. *)
Definition size_phrase (u : Unit) (s : text) (ip : text) (fp : option text)
  : Prop :=
  exists pre ws tok post,
    s = pre ++ numeral_text ip fp ++ ws ++ tok ++ post
    /\ is_numeral ip fp
    /\ forallb is_space ws = true
    /\ unit_token u tok post.

(** The first size phrase of the unit [u] in [s]: the numeral [ip.fp],
    white space and a token of the unit, where no numeral followed by a token
    of the unit starts further to the left. *)
Definition first_size_phrase (u : Unit) (s : text) (ip : text)
    (fp : option text) : Prop :=
  exists pre ws tok post,
    s = pre ++ numeral_text ip fp ++ ws ++ tok ++ post
    /\ is_numeral ip fp
    /\ forallb is_space ws = true
    /\ unit_token u tok post
    /\ forall pre' ip' fp' ws' tok' post',
         s = pre' ++ numeral_text ip' fp' ++ ws' ++ tok' ++ post' ->
         is_numeral ip' fp' ->
         forallb is_space ws' = true ->
         unit_token u tok' post' ->
         (length pre <= length pre')%nat.

(** The pattern of parseSize for a unit. *)
Definition unit_regex (u : Unit) : regex :=
  match u with
  | Perch => re_perch
  | Acre => re_acre
  | Rood => re_rood
  end.

End SizeSpec.

(** The parts of the size patterns: the pattern inside the group and the
    pattern after it. *)
Definition number_body : regex :=
  Seqs [Plus digit; Opt (Chr "."); Star true digit].

Definition unit_tail (u : SizeSpec.Unit) : regex :=
  Seq (Star true space)
      match u with
      | SizeSpec.Perch =>
          Alts [Lit (txt "perch"); Lit (txt "perches"); Seq (Chr "p") WordB]
      | SizeSpec.Acre =>
          Alts [Lit (txt "acre"); Lit (txt "acres"); Lit (txt "ac")]
      | SizeSpec.Rood =>
          Alts [Lit (txt "rood"); Lit (txt "roods"); Seq (Chr "r") WordB]
      end.

(** A text that [toLowerCase] leaves unchanged. *)
Definition lower_case (s : text) : Prop := Str.toLowerCase s = s.

(** ** Region tiers as the specification words them *)

Module RegionSpec.

(** [sub] occurs in [s]. *)
Definition substring (sub s : text) : Prop :=
  exists pre post, s = pre ++ sub ++ post.

(** The text that the tiers look at. *)
Definition lowered (locationText : text) : text :=
  Str.trim (Str.toLowerCase locationText).

(** The separators of a location text. *)
Definition separator (c : ascii) : Prop :=
  In c [","; "-"; "/"; "|"; ">"]%char.

(** [part] is a part of [lowerText]: a stretch of the text that holds no
    separator and reaches on each side to a separator or to the end of the
    text, without the white space around it, and not empty. *)
Definition part_of (part lowerText : text) : Prop :=
  exists pre seg post,
    lowerText = pre ++ seg ++ post
    /\ (forall c, In c seg -> ~ separator c)
    /\ (pre = [] \/ exists pre' c, pre = pre' ++ [c] /\ separator c)
    /\ (post = [] \/ exists c post', post = c :: post' /\ separator c)
    /\ part = Str.trim seg
    /\ part <> [].

(** Exact match of a part with a key of the mapping. *)
Definition exact_tier (m : Mapping) (lowerText : text) : Prop :=
  exists part mc, part_of part lowerText /\ In (part, mc) m.

(** A part contains a key, or a key contains a part. *)
Definition containment_tier (m : Mapping) (lowerText : text) : Prop :=
  exists part gnd mc,
    part_of part lowerText /\ In (gnd, mc) m
    /\ (substring gnd part \/ substring part gnd).

(** The full text contains a key. *)
Definition full_text_tier (m : Mapping) (lowerText : text) : Prop :=
  exists gnd mc, In (gnd, mc) m /\ substring gnd lowerText.

(** The full text contains a name of one of the three hardcoded lists. *)
Definition area_list_tier (lowerText : text) : Prop :=
  exists loc,
    In loc (kaduwelaAreas ++ kotteAreas ++ colomboAreas)
    /\ substring loc lowerText.

Definition some_tier_matches (mapping : option Mapping) (lowerText : text)
  : Prop :=
  (exists m, mapping = Some m
             /\ (exact_tier m lowerText \/ containment_tier m lowerText
                 \/ full_text_tier m lowerText))
  \/ area_list_tier lowerText.

(** A part of the text names a property that every object inherits. *)
Definition inherited_part (lowerText : text) : Prop :=
  exists part, part_of part lowerText /\ In part object_prototype.

End RegionSpec.

(** ** Steps that may throw *)

Inductive outcome (A : Type) : Type :=
| Returned (a : A)
| Threw.

Arguments Returned {A} a.
Arguments Threw {A}.

Definition obind {A B : Type} (c : outcome A) (k : A -> outcome B)
  : outcome B :=
  match c with
  | Returned a => k a
  | Threw => Threw
  end.

(** [try { c } catch (e) { handler }] *)
Definition try_catch {A : Type} (c : outcome A) (handler : A) : A :=
  match c with
  | Returned a => a
  | Threw => handler
  end.

Notation "'let*' x ':=' c 'in' k" := (obind c (fun x => k))
  (at level 10, x name, c at level 100, k at level 200,
   right associativity).

(** ** The page as the content script queries it *)

(** The selectors of content.js, named. *)
Inductive Selector : Type :=
| Sel_ad_link            (* a[href*="/ad/"] *)
| Sel_ikman_title        (* h2, h3, [class*="title"], [class*="heading"] *)
| Sel_location_span      (* [class*="location"] span:not([class*="icon"]) *)
| Sel_location_plain     (* [class*="location"]:not(:has(svg)):not(:has(button)) *)
| Sel_location_testid    (* [data-testid*="location"] *)
| Sel_subtitle           (* span[class*="subtitle"]:not(:has(button)) *)
| Sel_ikman_price        (* [class*="price"], [class*="amount"] *)
| Sel_property_link      (* a[href*="property_details"], a[href*="/land/"] *)
| Sel_lpw_title          (* h2, h3, h4, .title, [class*="title"] *)
| Sel_lpw_location       (* [class*="location"], [class*="address"], .area *)
| Sel_lpw_price          (* [class*="price"], .amount *)
| Sel_lpw_size           (* [class*="size"], [class*="area"], [class*="perch"] *)
| Sel_card_map_link      (* a[href*="google.com/maps"] *)
| Sel_breadcrumb_links   (* [class*="breadcrumb"] a, nav[class*="breadcrumb"] a,
                            ol[class*="breadcrumb"] a *)
| Sel_location_not_icon  (* [class*="location"]:not([class*="icon"]) *)
| Sel_span_contains      (* span:contains("Location") *)
| Sel_div_contains       (* div:contains("Location") *)
| Sel_map_link           (* a[href*="google.com/maps"], a[href*="maps.google"] *)
| Sel_map_iframe         (* iframe[src*="google.com/maps"],
                            iframe[src*="maps.google"] *)
| Sel_script             (* script *)
| Sel_map_container.     (* [data-lat][data-lng], [data-latitude][data-longitude] *)

(** [el.dataset], the four entries that are read. *)
Record Dataset : Type := {
  data_lat : option text;
  data_latitude : option text;
  data_lng : option text;
  data_longitude : option text
}.

Record Element : Type := {
  textContent : text;
  href : option text;
  getAttribute_href : option text;
  src : option text;
  dataset : Dataset
}.

(** A listing card: the element and its [querySelector]. *)
Record Card : Type := {
  card_element : Element;
  card_querySelector : Selector -> outcome (option Element)
}.

(** A parsed detail document. *)
Record Document : Type := {
  body : option Element;
  doc_querySelector : Selector -> outcome (option Element);
  doc_querySelectorAll : Selector -> outcome (list Element)
}.

(** [a || b] on strings that may be undefined. *)
Definition or_text (a b : option text) : option text :=
  if Str.truthy_opt a then a else b.

(** [parseFloat] of a string that may be undefined. *)
Definition parseFloat_opt (s : option text) : JsNum :=
  match s with
  | Some t => parseFloat t
  | None => NaN
  end.

(** ** Dates

    The built-in [Date] is a parameter: parsing of a date string, the
    constructor from year, month and day, and the clock. *)

Record DateEnv : Type := {
  (** [new Date(s)], as [toISOString().split('T')[0]] when valid *)
  Date_parse : text -> option text;
  (** [new Date(year, month, day)], as a date-only ISO string *)
  Date_local : Z -> Z -> Z -> text;
  (** [new Date().toISOString()] *)
  Date_now : text;
  (** [new Date().toISOString().split('T')[0]] *)
  Date_today : text;
  (** [new Date(now.getTime() - ms).toISOString().split('T')[0]]; [Threw]
      for the RangeError of [toISOString] when the date is out of range or
      [ms] is no finite number *)
  Date_before : JsNum -> outcome text
}.

(** [\d{1,2}[\/\-]\d{1,2}[\/\-]\d{4}] *)
Definition is_slash_dash (c : ascii) : bool :=
  Ascii.eqb c "/" || Ascii.eqb c "-".

Definition re_dmy : regex :=
  Seqs [Group 1 (Range 1 2 digit); Cls is_slash_dash;
        Group 2 (Range 1 2 digit); Cls is_slash_dash; Group 3 (Rep 4 digit)].

Definition re_ymd : regex :=
  Seqs [Group 1 (Rep 4 digit); Cls is_slash_dash;
        Group 2 (Range 1 2 digit); Cls is_slash_dash;
        Group 3 (Range 1 2 digit)].

(** [(\d{1,2})\s+(\w{3,})\s+(\d{4})] *)
Definition re_d_mon_y : regex :=
  Seqs [Group 1 (Range 1 2 digit); Plus space;
        Group 2 (Seq (Rep 3 (Cls is_word)) (Star true (Cls is_word)));
        Plus space; Group 3 (Rep 4 digit)].

(** [/^\d{1,2}[\/\-]\d{1,2}[\/\-]\d{4}$/] *)
Definition re_dmy_exact : regex :=
  Seqs [Bol; Range 1 2 digit; Cls is_slash_dash; Range 1 2 digit;
        Cls is_slash_dash; Rep 4 digit; Eol].

(** [parseInt] of a run of digits. *)
Definition parseInt_digits (s : text) : Z :=
  digits_value (fst (span is_digit s)).

Definition parsePostedDate (D : DateEnv) (dateText : text) : option text :=
  if negb (Str.truthy dateText) then None
  else
    first_some
      (fun format =>
         match exec no_flags format dateText with
         | Some m =>
             let dateStr := whole m in
             match Date_parse D dateStr with
             | Some iso => Some iso
             | None =>
                 if test no_flags re_dmy_exact dateStr then
                   match Str.split_on is_slash_dash dateStr with
                   | [d; mo; y] =>
                       Some (Date_local D (parseInt_digits y)
                                        (parseInt_digits mo - 1)
                                        (parseInt_digits d))
                   | _ => None
                   end
                 else None
             end
         | None => None
         end)
      [re_dmy; re_ymd; re_d_mon_y].

(** The own entries of the table [msPerUnit]. *)
Definition msPerUnit (unit : text) : option Z :=
  first_some
    (fun '(name, ms) => if Str.text_eqb (txt name) unit then Some ms else None)
    [("second", 1000); ("minute", 60 * 1000); ("hour", 60 * 60 * 1000);
     ("day", 24 * 60 * 60 * 1000); ("week", 7 * 24 * 60 * 60 * 1000);
     ("month", 30 * 24 * 60 * 60 * 1000);
     ("year", 365 * 24 * 60 * 60 * 1000)]%string.

(** [parseInt] of a run of digits as a number: the double nearest to the
    integer that the digits spell. *)
Definition parseInt_number (s : text) : JsNum :=
  number (inject_Z (parseInt_digits s)).

(** A unit that is no key of the table but names a property that the
    table inherits finds a value that is truthy and no number: the product
    with it is NaN. *)
Definition calculateRelativeDate (D : DateEnv) (num : JsNum) (unit : text)
  : outcome (option text) :=
  match msPerUnit unit with
  | Some ms =>
      let* pastDate := Date_before D (Js.mul num (of_Z ms)) in
      Returned (Some pastDate)
  | None =>
      if existsb (Str.text_eqb unit) object_prototype
      then let* pastDate := Date_before D NaN in
           Returned (Some pastDate)
      else Returned None
  end.

(** ** Detail enricher (content.js, fetchDetailPageInfo) *)

Inductive Site : Type := Ikman | LPW.

Record DetailInfo : Type := {
  info_lat : option JsNum;
  info_lng : option JsNum;
  info_postedDate : option text;
  info_address : option text
}.

(** [{ lat: null, lng: null, postedDate: null, address: null }] *)
Definition no_info : DetailInfo :=
  {| info_lat := None; info_lng := None;
     info_postedDate := None; info_address := None |}.

(** The result of [fetch]: a rejected promise, or a response with its
    status and the result of [text()]. *)
Inductive FetchResult : Type :=
| NetworkError
| Response (status : Z) (response_text : outcome text).

(** [response.ok]: the status is in the range 200 to 299. *)
Definition response_ok (status : Z) : bool :=
  (200 <=? status) && (status <=? 299).

Record Net : Type := {
  fetch : text -> FetchResult;
  DOMParser_parseFromString : text -> outcome Document
}.

Definition quote : regex :=
  Cls (fun c => (code c =? 34)%N || (code c =? 39)%N).

Definition spaces : regex := Star true space.

(** The three patterns for an absolute posted date, flag [i]. *)
Definition postedPatterns : list regex :=
  [ Seqs [Lit (txt "posted"); spaces; Opt (Lit (txt "on")); spaces;
          Opt (Cls (fun c => Ascii.eqb c ":" || Ascii.eqb c "."));
          spaces;
          Group 1 (Seqs [Range 1 2 digit; Plus space;
                         Seq (Rep 3 (Cls is_word)) (Star true (Cls is_word));
                         Plus space; Rep 4 digit])];
    Seqs [Lit (txt "posted"); spaces; Opt (Lit (txt "on")); spaces;
          Opt (Cls (fun c => Ascii.eqb c ":" || Ascii.eqb c "."));
          spaces;
          Group 1 (Seqs [Range 1 2 digit; Cls is_slash_dash;
                         Range 1 2 digit; Cls is_slash_dash;
                         Range 2 4 digit])];
    Group 1 (Seqs [Range 1 2 digit; Plus space;
                   Alts (map (fun m => Lit (txt m))
                             ["Jan"; "Feb"; "Mar"; "Apr"; "May"; "Jun"; "Jul";
                              "Aug"; "Sep"; "Oct"; "Nov"; "Dec"]%string);
                   Star true (Cls is_word); Plus space; Rep 4 digit]) ].

Fixpoint posted_loop (D : DateEnv) (allText : text) (patterns : list regex)
    (postedDate : option text) : option text :=
  match patterns with
  | [] => postedDate
  | pattern :: ps =>
      match exec flag_i pattern allText with
      | Some m =>
          let d := parsePostedDate D (group 1 m) in
          if Str.truthy_opt d then d else posted_loop D allText ps d
      | None => posted_loop D allText ps postedDate
      end
  end.

(** [(\d+)\s*(second|minute|hour|day|week|month|year)s?\s*ago], flag [i] *)
Definition re_relative : regex :=
  Seqs [Group 1 (Plus digit); spaces;
        Group 2 (Alts (map (fun u => Lit (txt u))
                           ["second"; "minute"; "hour"; "day"; "week";
                            "month"; "year"]%string));
        Opt (Chr "s"); spaces; Lit (txt "ago")].

Definition re_yesterday : regex := Seqs [WordB; Lit (txt "yesterday"); WordB].
Definition re_today : regex := Seqs [WordB; Lit (txt "today"); WordB].

Definition ikman_posted_date (D : DateEnv) (allText : text)
  : outcome (option text) :=
  let d1 := posted_loop D allText postedPatterns None in
  let* d2 :=
    (if Str.truthy_opt d1 then Returned d1
     else match exec flag_i re_relative allText with
          | Some m =>
              calculateRelativeDate D (parseInt_number (group 1 m))
                                    (Str.toLowerCase (group 2 m))
          | None => Returned d1
          end) in
  if Str.truthy_opt d2 then Returned d2
  else if test flag_i re_yesterday allText
       then calculateRelativeDate D (of_Z 1) (txt "day")
       else if test flag_i re_today allText
            then Returned (Some (Date_today D))
            else Returned d2.

Definition breadcrumb_skip : list text :=
  map txt ["home"; "ikman"; "all ads"; "land"; "property"; "properties";
           "for sale"]%string.

Definition breadcrumb_keep (t : text) : bool :=
  Str.truthy t
  && negb (existsb (fun skip => Str.text_eqb (Str.toLowerCase t) skip)
                   breadcrumb_skip)
  && (1 <? length t)%nat && (length t <? 50)%nat.

(** [(?:location|area|district)\s*[:.]?\s*(.+)], flag [i] *)
Definition re_location_prefix : regex :=
  Seqs [Alts [Lit (txt "location"); Lit (txt "area"); Lit (txt "district")];
        spaces; Opt (Cls (fun c => Ascii.eqb c ":" || Ascii.eqb c "."));
        spaces; Group 1 (Plus Dot)].

Definition location_text_ok (t : text) : bool :=
  Str.truthy t && (3 <? length t)%nat && (length t <? 100)%nat
  && negb (Str.includes (Str.toLowerCase t) (txt "chat"))
  && negb (Str.includes (Str.toLowerCase t) (txt "login"))
  && negb (Str.includes (Str.toLowerCase t) (txt "post your")).

(** The inner loop over the elements of one selector: the address set by
    the first element whose text qualifies. *)
Fixpoint address_from_elements (els : list Element) (address : option text)
  : option text :=
  match els with
  | [] => address
  | el :: els' =>
      let t := Str.trim (textContent el) in
      if location_text_ok t then
        match exec flag_i re_location_prefix t with
        | Some locMatch => Some (Str.trim (group 1 locMatch))
        | None => Some t
        end
      else address_from_elements els' address
  end.

(** The loop over [locSelectors]; a selector that throws is skipped. *)
Fixpoint address_from_selectors (doc : Document) (sels : list Selector)
    (address : option text) : option text :=
  match sels with
  | [] => address
  | sel :: sels' =>
      match doc_querySelectorAll doc sel with
      | Returned els =>
          let a := address_from_elements els address in
          if Str.truthy_opt a then a
          else address_from_selectors doc sels' a
      | Threw => address_from_selectors doc sels' address
      end
  end.

Definition locSelectors : list Selector :=
  [Sel_location_not_icon; Sel_location_testid; Sel_span_contains;
   Sel_div_contains].

Definition ikman_address (doc : Document) : outcome (option text) :=
  let* breadcrumbLinks := doc_querySelectorAll doc Sel_breadcrumb_links in
   let locationParts :=
     List.filter breadcrumb_keep
                 (map (fun link => Str.trim (textContent link))
                      breadcrumbLinks) in
   let a :=
     match locationParts with
     | [] => None
     | _ => Some (Str.join (txt ", ") (rev locationParts))
     end in
   if Str.truthy_opt a then Returned a
   else Returned (address_from_selectors doc locSelectors a).

(** The four script patterns with their flags. *)
Definition script_patterns : list (flags * regex) :=
  let colon_eq := Cls (fun c => Ascii.eqb c ":" || Ascii.eqb c "=") in
  let brace_pair (name : string) :=
    Seqs [Lit (txt name); Chr ":"; spaces; Chr "{"; spaces;
          Lit (txt "lat:"); spaces; re_signed 1; spaces; Chr ","; spaces;
          Lit (txt "lng:"); spaces; re_signed 2] in
  [ (flag_is,
     Seqs [Opt quote; Lit (txt "lat"); Opt (Lit (txt "itude")); Opt quote;
           spaces; colon_eq; spaces; Opt quote; re_signed 1;
           Star false Dot;
           Opt quote;
           Alts [Lit (txt "lng"); Lit (txt "lon"); Lit (txt "longitude")];
           Opt quote; spaces; colon_eq; spaces; Opt quote; re_signed 2]);
    (flag_i,
     Seqs [Lit (txt "LatLng"); spaces; Chr "("; spaces; re_signed 1; spaces;
           Chr ","; spaces; re_signed 2; spaces; Chr ")"]);
    (flag_i, brace_pair "position");
    (flag_i, brace_pair "center") ].

(** The loop over the patterns on one script: the first match inside the
    bounds. *)
Fixpoint coords_from_patterns (patterns : list (flags * regex)) (t : text)
  : Coords :=
  match patterns with
  | [] => no_coords
  | (f, pattern) :: ps =>
      match exec f pattern t with
      | Some m =>
          let la := parseFloat (group 1 m) in
          let lo := parseFloat (group 2 m) in
          if in_sri_lanka la lo
          then {| lat := Some la; lng := Some lo |}
          else coords_from_patterns ps t
      | None => coords_from_patterns ps t
      end
  end.

Fixpoint coords_from_scripts (scripts : list Element) : Coords :=
  match scripts with
  | [] => no_coords
  | script :: rest_scripts =>
      let c := coords_from_patterns script_patterns (textContent script) in
      if Js.truthy_opt (lat c) then c else coords_from_scripts rest_scripts
  end.

(** Coordinates of a map link or frame, kept when both are truthy. *)
Definition coords_if_truthy (c : Coords) (otherwise : Coords) : Coords :=
  if Js.truthy_opt (lat c) && Js.truthy_opt (lng c) then c else otherwise.

Definition detail_coordinates (doc : Document) : outcome Coords :=
  let* mapLink := doc_querySelector doc Sel_map_link in
   let r1 :=
     match mapLink with
     | Some a => coords_if_truthy (extractCoordsFromGoogleMaps (href a))
                                  no_coords
     | None => no_coords
     end in
   let* r2 := (if Js.truthy_opt (lat r1) then Returned r1
          else
            let* mapIframe := doc_querySelector doc Sel_map_iframe in
            Returned
              match mapIframe with
              | Some fr =>
                  coords_if_truthy (extractCoordsFromGoogleMaps (src fr)) r1
              | None => r1
              end) in
   let* r3 := (if Js.truthy_opt (lat r2) then Returned r2
          else
            let* scripts := doc_querySelectorAll doc Sel_script in
            let c := coords_from_scripts scripts in
            Returned (if Js.truthy_opt (lat c) then c else r2)) in
   if Js.truthy_opt (lat r3) then Returned r3
   else
     let* mapContainer := doc_querySelector doc Sel_map_container in
     Returned
       match mapContainer with
       | Some el =>
           let d := dataset el in
           let la := parseFloat_opt (or_text (data_lat d) (data_latitude d)) in
           let lo := parseFloat_opt (or_text (data_lng d) (data_longitude d)) in
           if Js.truthy la && Js.truthy lo && in_sri_lanka la lo
           then {| lat := Some la; lng := Some lo |}
           else r3
       | None => r3
       end.

(** The body of the [try] block. *)
Definition fetchDetailPageInfo_body (N : Net) (D : DateEnv) (url : text)
    (site : Site) : outcome DetailInfo :=
  match fetch N url with
  | NetworkError => Threw
  | Response status response_text =>
      if negb (response_ok status) then Returned no_info
      else
        let* html := response_text in
        let* doc := DOMParser_parseFromString N html in
         let* dated :=
           match site with
           | Ikman =>
               let allText :=
                 match body doc with
                 | Some b => textContent b
                 | None => []
                 end in
               let* postedDate := ikman_posted_date D allText in
               let* address := ikman_address doc in
               Returned (postedDate, address)
           | LPW => Returned (None, None)
           end in
         let* coords := detail_coordinates doc in
         Returned {| info_lat := lat coords; info_lng := lng coords;
                     info_postedDate := fst dated;
                     info_address := snd dated |}
  end.

Definition fetchDetailPageInfo (N : Net) (D : DateEnv) (url : text)
    (site : Site) : DetailInfo :=
  try_catch (fetchDetailPageInfo_body N D url site) no_info.

(** ** Listing records *)

Record Listing : Type := {
  title : text;
  address : text;
  priceRaw : text;
  priceTotal : option JsNum;
  pricePerPerch : option JsNum;
  sizePerches : option JsNum;
  url : text;
  latitude : option JsNum;
  longitude : option JsNum;
  postedDate : option text;
  source : text;
  municipalCouncil : Council;
  scrapedAt : text
}.

Definition with_coordinates (la lo : option JsNum) (l : Listing) : Listing :=
  {| title := title l; address := address l; priceRaw := priceRaw l;
     priceTotal := priceTotal l; pricePerPerch := pricePerPerch l;
     sizePerches := sizePerches l; url := url l;
     latitude := la; longitude := lo;
     postedDate := postedDate l; source := source l;
     municipalCouncil := municipalCouncil l; scrapedAt := scrapedAt l |}.

Definition with_postedDate (d : option text) (l : Listing) : Listing :=
  {| title := title l; address := address l; priceRaw := priceRaw l;
     priceTotal := priceTotal l; pricePerPerch := pricePerPerch l;
     sizePerches := sizePerches l; url := url l;
     latitude := latitude l; longitude := longitude l;
     postedDate := d; source := source l;
     municipalCouncil := municipalCouncil l; scrapedAt := scrapedAt l |}.

Definition with_address (a : text) (l : Listing) : Listing :=
  {| title := title l; address := a; priceRaw := priceRaw l;
     priceTotal := priceTotal l; pricePerPerch := pricePerPerch l;
     sizePerches := sizePerches l; url := url l;
     latitude := latitude l; longitude := longitude l;
     postedDate := postedDate l; source := source l;
     municipalCouncil := municipalCouncil l; scrapedAt := scrapedAt l |}.

Definition with_municipalCouncil (mc : Council) (l : Listing) : Listing :=
  {| title := title l; address := address l; priceRaw := priceRaw l;
     priceTotal := priceTotal l; pricePerPerch := pricePerPerch l;
     sizePerches := sizePerches l; url := url l;
     latitude := latitude l; longitude := longitude l;
     postedDate := postedDate l; source := source l;
     municipalCouncil := mc; scrapedAt := scrapedAt l |}.

(** ** Card extraction (content.js, IkmanScraper and LPWScraper) *)

(** What a page provides besides its elements: the mapping of
    gnd_mapping.js when it is loaded, the [Date] built-in and the network. *)
Record Env : Type := {
  GND_MC_MAPPING : option Mapping;
  date : DateEnv;
  net : Net
}.

(** [/per\s*perch/i] *)
Definition re_per_perch : regex :=
  Seqs [Lit (txt "per"); spaces; Lit (txt "perch")].

(** [el?.textContent?.trim() || ''] *)
Definition trimmed_text (el : option Element) : text :=
  match el with
  | Some e => Str.trim (textContent e)
  | None => []
  end.

(** [isPricePerPerch && size ? price * size : price] *)
Definition total_price (isPricePerPerch : bool) (price size : option JsNum)
  : option JsNum :=
  if isPricePerPerch && Js.truthy_opt size
  then Some (Js.mul (to_number price) (to_number size))
  else price.

Definition ikman_location_selectors : list Selector :=
  [Sel_location_span; Sel_location_plain; Sel_location_testid; Sel_subtitle].

Definition card_location_ok (t : text) : bool :=
  Str.truthy t
  && negb (Str.includes (Str.toLowerCase t) (txt "chat"))
  && negb (Str.includes (Str.toLowerCase t) (txt "login"))
  && negb (Str.includes (Str.toLowerCase t) (txt "post"))
  && negb (Str.includes (Str.toLowerCase t) (txt "search"))
  && (2 <? length t)%nat && (length t <? 100)%nat.

(** The loop over the location selectors of a card; a selector that
    throws is skipped. *)
Fixpoint location_from_selectors (card : Card) (sels : list Selector) : text :=
  match sels with
  | [] => []
  | sel :: sels' =>
      match card_querySelector card sel with
      | Returned (Some el) =>
          let t := Str.trim (textContent el) in
          if card_location_ok t then t
          else location_from_selectors card sels'
      | Returned None | Threw => location_from_selectors card sels'
      end
  end.

(** [/\/ad\/([a-z\-]+)/i] *)
Definition re_ad_slug : regex :=
  Seq (Lit (txt "/ad/"))
      (Group 1 (Plus (Cls (fun c => is_lower c || Ascii.eqb c "-")))).

(** [/land|sale|for|property/gi] *)
Definition re_slug_noise : regex :=
  Alts [Lit (txt "land"); Lit (txt "sale"); Lit (txt "for");
        Lit (txt "property")].

(** [/(?:in|at)\s+([A-Za-z\s]+?)(?:\s*[-,]|\s+for|\s+land|$)/i] *)
Definition re_title_place : regex :=
  Seqs [Alt (Lit (txt "in")) (Lit (txt "at")); Plus space;
        Group 1 (PlusLazy (Cls (fun c => is_alpha c || is_space c)));
        Alts [Seq spaces (Cls (fun c => Ascii.eqb c "-" || Ascii.eqb c ","));
              Seq (Plus space) (Lit (txt "for"));
              Seq (Plus space) (Lit (txt "land"));
              Eol]].

Definition ikman_location (card : Card) (url title : text) : text :=
  let l1 := location_from_selectors card ikman_location_selectors in
  let l2 :=
    if Str.truthy l1 then l1
    else match exec flag_i re_ad_slug url with
         | Some urlMatch =>
             let urlLocation :=
               Str.trim
                 (replace_all flag_i re_slug_noise []
                    (replace_all no_flags (Chr "-") (txt " ")
                                 (group 1 urlMatch))) in
             if (2 <? length urlLocation)%nat then urlLocation else l1
         | None => l1
         end in
  if negb (Str.truthy l2) && Str.truthy title then
    match exec flag_i re_title_place title with
    | Some titleMatch => Str.trim (group 1 titleMatch)
    | None => l2
    end
  else l2.

(** [a || b] on strings. *)
Definition or_else (a b : text) : text := if Str.truthy a then a else b.

Definition ikman_extract_body (E : Env) (card : Card)
  : outcome (option Listing) :=
  let* found_link := card_querySelector card Sel_ad_link in
  let link := default (card_element card) found_link in
  match or_text (href link) (getAttribute_href link) with
  | None => Returned None
  | Some url =>
      if negb (Str.truthy url) || negb (Str.includes url (txt "/ad/"))
      then Returned None
      else
        let* titleEl := card_querySelector card Sel_ikman_title in
        let title := trimmed_text titleEl in
        let location := ikman_location card url title in
        let* priceEl := card_querySelector card Sel_ikman_price in
        let priceText := trimmed_text priceEl in
        let price := parsePrice priceText in
        let isPricePerPerch := test flag_i re_per_perch priceText in
        let fullText := textContent (card_element card) in
        let size := parseSize fullText in
        let pricePerPerch :=
          calculatePricePerPerch price size isPricePerPerch in
        Returned (Some
          {| title := title;
             address := location;
             priceRaw := priceText;
             priceTotal := total_price isPricePerPerch price size;
             pricePerPerch := pricePerPerch;
             sizePerches := size;
             url := if Str.startsWith url (txt "http") then url
                    else txt "https://ikman.lk" ++ url;
             latitude := None;
             longitude := None;
             postedDate := None;
             source := txt "ikman.lk";
             municipalCouncil :=
               getMunicipalCouncil (GND_MC_MAPPING E)
                                   (Some (or_else location title));
             scrapedAt := Date_now (date E) |})
  end.

Definition lpw_extract_body (E : Env) (card : Card)
  : outcome (option Listing) :=
  let* found_link := card_querySelector card Sel_property_link in
  match found_link with
  | None => Returned None
  | Some link =>
      match href link with
      | None => Threw
      | Some url =>
          let* titleEl := card_querySelector card Sel_lpw_title in
          let title := trimmed_text (Some (default link titleEl)) in
          let* locationEl := card_querySelector card Sel_lpw_location in
          let location := trimmed_text locationEl in
          let* priceEl := card_querySelector card Sel_lpw_price in
          let priceText := trimmed_text priceEl in
          let price := parsePrice priceText in
          let isPricePerPerch := test flag_i re_per_perch priceText in
          let* sizeEl := card_querySelector card Sel_lpw_size in
          let sizeText :=
            or_else (match sizeEl with
                     | Some e => textContent e
                     | None => []
                     end)
                    (textContent (card_element card)) in
          let size := parseSize sizeText in
          let* mapLink := card_querySelector card Sel_card_map_link in
          let coords :=
            match mapLink with
            | Some a => extractCoordsFromGoogleMaps (href a)
            | None => no_coords
            end in
          let pricePerPerch :=
            calculatePricePerPerch price size isPricePerPerch in
          Returned (Some
            {| title := title;
               address := location;
               priceRaw := priceText;
               priceTotal := total_price isPricePerPerch price size;
               pricePerPerch := pricePerPerch;
               sizePerches := size;
               url := if Str.startsWith url (txt "http") then url
                      else txt "https://www.lankapropertyweb.com" ++ url;
               latitude := lat coords;
               longitude := lng coords;
               postedDate := None;
               source := txt "lankapropertyweb.com";
               municipalCouncil :=
                 getMunicipalCouncil (GND_MC_MAPPING E) (Some location);
               scrapedAt := Date_now (date E) |})
      end
  end.

(** The capability set of a site adapter that works on a card. *)
Record Scraper : Type := {
  site : Site;
  extractFromCard : Env -> Card -> option Listing
}.

(** Both adapters wrap their body in [try], and [catch] returns null. *)
Definition IkmanScraper : Scraper :=
  {| site := Ikman;
     extractFromCard := fun E card => try_catch (ikman_extract_body E card) None |}.

Definition LPWScraper : Scraper :=
  {| site := LPW;
     extractFromCard := fun E card => try_catch (lpw_extract_body E card) None |}.

(** ** Persisted state and events *)

(** The keys of [chrome.storage.local] that the content script uses; an
    absent key is [None]. *)
Record Storage : Type := {
  stored_listings : option (list Listing);
  stored_pagesScraped : option Z;
  stored_isScraping : option bool;
  stored_filterLocations : option bool;
  stored_scrapeDetails : option bool;
  stored_pageDelay : option JsNum;
  stored_visitedPages : option (list text)
}.

Inductive Severity : Type := Plain | Info | Success | Error.

(** The lines passed to [log], with the values they interpolate. *)
Inductive LogLine : Type :=
| Log_unknown_website
| Log_found_cards (n : nat)
| Log_fetching_details (title30 : text)
| Log_found_coordinates (la lo : option JsNum)
| Log_posted_date (d : option text)
| Log_municipal_council (mc : Council)
| Log_extracted (n : nat)
| Log_filtered (n : nat)
| Log_navigating
| Log_not_supported
| Log_stopped_by_user
| Log_no_more_pages
| Log_error
| Log_scraper_started
| Log_detail_mode
| Log_scraper_stopped.

(** The messages passed to [chrome.runtime.sendMessage]. *)
Inductive Message : Type :=
| LOG (line : LogLine) (type : Severity)
| UPDATE_COUNT (count newListings : nat)
| UPDATE_PAGES (pages : Z)
| SCRAPING_COMPLETE (total : nat)
| SCRAPING_ERROR.

(** The variables of the content script, the storage, the messages sent
    (oldest first) and the navigation it has started, if any. *)
Record World : Type := {
  isRunning : bool;
  filterLocations : bool;
  scrapeDetails : bool;
  pageDelay : JsNum;
  visitedPages : gset text;
  customLocations : list text;
  storage : Storage;
  sent : list Message;
  navigatedTo : option text
}.

Definition set_isRunning (b : bool) (w : World) : World :=
  {| isRunning := b; filterLocations := filterLocations w;
     scrapeDetails := scrapeDetails w; pageDelay := pageDelay w;
     visitedPages := visitedPages w; customLocations := customLocations w;
     storage := storage w; sent := sent w; navigatedTo := navigatedTo w |}.

Definition set_visitedPages (v : gset text) (w : World) : World :=
  {| isRunning := isRunning w; filterLocations := filterLocations w;
     scrapeDetails := scrapeDetails w; pageDelay := pageDelay w;
     visitedPages := v; customLocations := customLocations w;
     storage := storage w; sent := sent w; navigatedTo := navigatedTo w |}.

Definition set_storage (s : Storage) (w : World) : World :=
  {| isRunning := isRunning w; filterLocations := filterLocations w;
     scrapeDetails := scrapeDetails w; pageDelay := pageDelay w;
     visitedPages := visitedPages w; customLocations := customLocations w;
     storage := s; sent := sent w; navigatedTo := navigatedTo w |}.

Definition send (m : Message) (w : World) : World :=
  {| isRunning := isRunning w; filterLocations := filterLocations w;
     scrapeDetails := scrapeDetails w; pageDelay := pageDelay w;
     visitedPages := visitedPages w; customLocations := customLocations w;
     storage := storage w; sent := sent w ++ [m];
     navigatedTo := navigatedTo w |}.

Definition navigate (u : text) (w : World) : World :=
  {| isRunning := isRunning w; filterLocations := filterLocations w;
     scrapeDetails := scrapeDetails w; pageDelay := pageDelay w;
     visitedPages := visitedPages w; customLocations := customLocations w;
     storage := storage w; sent := sent w; navigatedTo := Some u |}.

Definition store_listings (ls : list Listing) (s : Storage) : Storage :=
  {| stored_listings := Some ls;
     stored_pagesScraped := stored_pagesScraped s;
     stored_isScraping := stored_isScraping s;
     stored_filterLocations := stored_filterLocations s;
     stored_scrapeDetails := stored_scrapeDetails s;
     stored_pageDelay := stored_pageDelay s;
     stored_visitedPages := stored_visitedPages s |}.

Definition store_pagesScraped (n : Z) (s : Storage) : Storage :=
  {| stored_listings := stored_listings s;
     stored_pagesScraped := Some n;
     stored_isScraping := stored_isScraping s;
     stored_filterLocations := stored_filterLocations s;
     stored_scrapeDetails := stored_scrapeDetails s;
     stored_pageDelay := stored_pageDelay s;
     stored_visitedPages := stored_visitedPages s |}.

Definition store_isScraping (b : bool) (s : Storage) : Storage :=
  {| stored_listings := stored_listings s;
     stored_pagesScraped := stored_pagesScraped s;
     stored_isScraping := Some b;
     stored_filterLocations := stored_filterLocations s;
     stored_scrapeDetails := stored_scrapeDetails s;
     stored_pageDelay := stored_pageDelay s;
     stored_visitedPages := stored_visitedPages s |}.

(** The object written before a navigation. *)
Definition store_crawl_state (w : World) (s : Storage) : Storage :=
  {| stored_listings := stored_listings s;
     stored_pagesScraped := stored_pagesScraped s;
     stored_isScraping := Some true;
     stored_filterLocations := Some (filterLocations w);
     stored_scrapeDetails := Some (scrapeDetails w);
     stored_pageDelay := Some (Js.div (pageDelay w) (of_Z 1000));
     stored_visitedPages := Some (elements (visitedPages w)) |}.

(** ** A state monad with exceptions *)

Definition M (A : Type) : Type := World -> outcome A * World.

Definition ret {A : Type} (a : A) : M A := fun w => (Returned a, w).

Definition bind {A B : Type} (c : M A) (k : A -> M B) : M B :=
  fun w =>
    match c w with
    | (Returned a, w') => k a w'
    | (Threw, w') => (Threw, w')
    end.

Definition throw {A : Type} : M A := fun w => (Threw, w).

Definition gets {A : Type} (f : World -> A) : M A :=
  fun w => (Returned (f w), w).

Definition modify (f : World -> World) : M unit :=
  fun w => (Returned tt, f w).

(** A step of the page that may throw. *)
Definition lift {A : Type} (c : outcome A) : M A :=
  fun w => (c, w).

(** [try { c } catch (error) { handler }] *)
Definition catch {A : Type} (c : M A) (handler : M A) : M A :=
  fun w =>
    match c w with
    | (Returned a, w') => (Returned a, w')
    | (Threw, w') => handler w'
    end.

Definition when (b : bool) (c : M unit) : M unit :=
  if b then c else ret tt.

Notation "'let!' x ':=' c 'in' k" := (bind c (fun x => k))
  (at level 10, x name, c at level 100, k at level 200,
   right associativity).
Notation "c ';;' k" := (bind c (fun _ => k))
  (at level 100, k at level 200, right associativity).

(** [log(text, type)] *)
Definition log (line : LogLine) (type : Severity) : M unit :=
  modify (send (LOG line type)).

(** ** Record store (content.js, saveListings and updatePagesCount) *)

(** The collection after a batch is saved: the existing records, then
    the new ones whose url is not the url of an existing record. *)
Definition uniqueNew (existing newListings : list Listing) : list Listing :=
  let existingUrls : gset text := list_to_set (map url existing) in
  List.filter (fun l => negb (bool_decide (url l ∈ existingUrls)))
              newListings.

Definition upsert (existing newListings : list Listing) : list Listing :=
  existing ++ uniqueNew existing newListings.

Definition saveListings (newListings : list Listing) : M nat :=
  let! data := gets (fun w => stored_listings (storage w)) in
  let existing := default [] data in
  let fresh := uniqueNew existing newListings in
  let updated := existing ++ fresh in
  modify (fun w => set_storage (store_listings updated (storage w)) w) ;;
  modify (send (UPDATE_COUNT (length updated) (length fresh))) ;;
  ret (length fresh).

Definition updatePagesCount : M Z :=
  let! data := gets (fun w => stored_pagesScraped (storage w)) in
  let pages := default 0 data + 1 in
  modify (fun w => set_storage (store_pagesScraped pages (storage w)) w) ;;
  modify (send (UPDATE_PAGES pages)) ;;
  ret pages.

(** ** Page crawler (content.js, scrapeCurrentPage, goToNextPage and
       runScraper) *)

(** One page load as the crawler meets it: the location, the adapter's
    view of the document, the URL built-in, and whether a stop command is
    handled while the page is processed or during the page delay. *)
Record Page : Type := {
  hostname : text;
  location_href : text;
  (** [scraper.getListingCards()] of the adapter of this page *)
  listingCards : list Card;
  (** [scraper.getNextPageUrl()] of the adapter of this page *)
  nextPageUrl : option text;
  (** [new URL(u, window.location.origin).toString()]; [Threw] when the
      constructor throws *)
  URL_toString : text -> outcome text;
  env : Env;
  stopWhileProcessing : bool;
  stopWhileWaiting : bool
}.

(** [detectSite] *)
Definition detectSite (P : Page) : option Site :=
  if Str.includes (hostname P) (txt "ikman.lk") then Some Ikman
  else if Str.includes (hostname P) (txt "lankapropertyweb.com") then Some LPW
  else None.

Definition getScraper (P : Page) : option Scraper :=
  match detectSite P with
  | Some Ikman => Some IkmanScraper
  | Some LPW => Some LPWScraper
  | None => None
  end.

Definition matchesTargetLocation (locations : list text) (locationText : text)
  : bool :=
  if negb (Str.truthy locationText) then false
  else
    let lowerText := Str.toLowerCase locationText in
    existsb (fun loc => Str.includes lowerText (Str.toLowerCase loc)) locations.

(** The enrichment of one record from its detail page. *)
Definition enrich (P : Page) (detailSite : Site) (data : Listing) : M Listing :=
  log (Log_fetching_details (firstn 30 (title data))) Info ;;
  let info := fetchDetailPageInfo (net (env P)) (date (env P))
                                  (url data) detailSite in
  let! d1 :=
    (if Js.truthy_opt (info_lat info) && Js.truthy_opt (info_lng info)
     then log (Log_found_coordinates (info_lat info) (info_lng info)) Success ;;
          ret (with_coordinates (info_lat info) (info_lng info) data)
     else ret data) in
  let! d2 :=
    (if Str.truthy_opt (info_postedDate info)
     then log (Log_posted_date (info_postedDate info)) Info ;;
          ret (with_postedDate (info_postedDate info) d1)
     else ret d1) in
  match info_address info with
  | Some a =>
      if (3 <? length a)%nat then
        let d3 := with_address a d2 in
        let newMC := getMunicipalCouncil (GND_MC_MAPPING (env P)) (Some a) in
        if negb (Council_is newMC (txt "Other"))
           && negb (Council_is newMC (txt "Unknown"))
        then log (Log_municipal_council newMC) Info ;;
             ret (with_municipalCouncil newMC d3)
        else ret d3
      else ret d2
  | None => ret d2
  end.

(** The loop over the cards, with the records kept so far and the count
    of records skipped by the location filter. *)
Fixpoint scrape_cards (P : Page) (scraper : Scraper) (detailSite : Site)
    (cards : list Card) (listings : list Listing) (skippedLocation : nat)
  : M (list Listing * nat) :=
  match cards with
  | [] => ret (listings, skippedLocation)
  | card :: cards' =>
      match extractFromCard scraper (env P) card with
      | Some data =>
          let! filtering := gets filterLocations in
          let! locations := gets customLocations in
          let shouldInclude :=
            if filtering
            then matchesTargetLocation locations (address data)
                 || matchesTargetLocation locations (title data)
            else true in
          if shouldInclude then
            let! details := gets scrapeDetails in
            let! data' :=
              (if details && Str.truthy (url data)
               then enrich P detailSite data else ret data) in
            scrape_cards P scraper detailSite cards'
                         (listings ++ [data']) skippedLocation
          else
            scrape_cards P scraper detailSite cards' listings
                         (S skippedLocation)
      | None =>
          scrape_cards P scraper detailSite cards' listings skippedLocation
      end
  end.

Definition scrapeCurrentPage (P : Page) : M (list Listing) :=
  match getScraper P with
  | None => log Log_unknown_website Error ;; ret []
  | Some scraper =>
      let cards := listingCards P in
      log (Log_found_cards (length cards)) Info ;;
      let detailSite :=
        if Str.includes (hostname P) (txt "ikman") then Ikman else LPW in
      let! r := scrape_cards P scraper detailSite cards [] 0 in
      let '(listings, skippedLocation) := r in
      log (Log_extracted (length listings)) Success ;;
      when (0 <? skippedLocation)%nat
           (log (Log_filtered skippedLocation) Info) ;;
      ret listings
  end.

Definition goToNextPage (P : Page) : M bool :=
  match getScraper P with
  | None => ret false
  | Some scraper =>
      let! currentNormalized := lift (URL_toString P (location_href P)) in
      modify (fun w =>
                set_visitedPages ({[currentNormalized]} ∪ visitedPages w) w) ;;
      match nextPageUrl P with
      | Some nextUrl =>
          if Str.truthy nextUrl then
            let! nextNormalized := lift (URL_toString P nextUrl) in
            let! visited := gets visitedPages in
            if bool_decide (nextNormalized ∈ visited) then ret false
            else if negb (Str.text_eqb nextNormalized currentNormalized) then
              log Log_navigating Info ;;
              modify (fun w =>
                        set_storage (store_crawl_state w (storage w)) w) ;;
              modify (navigate nextUrl) ;;
              ret true
            else ret false
          else ret false
      | None => ret false
      end
  end.

(** [stopScraping], run when a stop command is handled. *)
Definition stopScraping : M unit :=
  modify (set_isRunning false) ;;
  log Log_scraper_stopped Info.

Definition runScraper (P : Page) : M unit :=
  let! running := gets isRunning in
  if negb running then ret tt
  else
    match getScraper P with
    | None =>
        log Log_not_supported Error ;;
        modify (set_isRunning false)
    | Some scraper =>
        catch
          (let! listings := scrapeCurrentPage P in
           when (0 <? length listings)%nat
                (let! _n := saveListings listings in ret tt) ;;
           let! _pages := updatePagesCount in
           when (stopWhileProcessing P) stopScraping ;;
           let! running1 := gets isRunning in
           if negb running1 then log Log_stopped_by_user Info
           else
             when (stopWhileWaiting P) stopScraping ;;
             let! running2 := gets isRunning in
             if negb running2 then ret tt
             else
               let! hasNext := goToNextPage P in
               if negb hasNext then
                 log Log_no_more_pages Info ;;
                 modify (set_isRunning false) ;;
                 modify (fun w =>
                           set_storage (store_isScraping false (storage w)) w) ;;
                 let! data := gets (fun w => stored_listings (storage w)) in
                 modify (send (SCRAPING_COMPLETE
                                 (length (default [] data))))
               else ret tt)
          (log Log_error Error ;;
           modify (send SCRAPING_ERROR))
    end.


(** A world that differs from [w] by messages sent after those of [w]. *)
Definition sent_more (msgs : list Message) (w : World) : World :=
  {| isRunning := isRunning w; filterLocations := filterLocations w;
     scrapeDetails := scrapeDetails w; pageDelay := pageDelay w;
     visitedPages := visitedPages w; customLocations := customLocations w;
     storage := storage w; sent := sent w ++ msgs;
     navigatedTo := navigatedTo w |}.

(** A computation that returns and only sends messages. *)
Definition only_sends {A : Type} (c : M A) : Prop :=
  forall w, exists a msgs, c w = (Returned a, sent_more msgs w).


(** ** Price texts as a reader writes them *)

Module PriceSpec.

(** The currency markers that parsePrice strips, in any letter case. *)
Definition is_marker (marker : text) : Prop :=
  In (Str.toLowerCase marker) [[]; txt "rs"; txt "rs."; txt "lkr"].

(** The characters of digits written in groups: digits, commas and white
    space. *)
Definition grouping_char (c : ascii) : bool :=
  is_digit c || Ascii.eqb c "," || is_space c.

(** The characters of a numeral: digits and the dot. *)
Definition numeral_char (c : ascii) : bool := is_digit c || Ascii.eqb c ".".

(** A character that starts no currency marker. *)
Definition unmarked (c : ascii) : Prop :=
  char_eq true "R" c = false /\ char_eq true "L" c = false.

(** A character that stripping keeps when it stands outside a marker. *)
Definition stays (c : ascii) : bool := negb (Ascii.eqb c "," || is_space c).

(** The suffixes and their multipliers. *)
Definition multiplier (suffix : text) : option Z :=
  first_some
    (fun '(name, k) =>
       if Str.text_eqb (txt name) (Str.toLowerCase suffix) then Some k else None)
    [("m", 1000000); ("lakh", 100000); ("lakhs", 100000);
     ("crore", 10000000)]%string.

End PriceSpec.

(** ** Coordinates embedded in scripts (content.js, findEmbeddedCoordinates) *)

Definition colon_or_equals : regex :=
  Cls (fun c => Ascii.eqb c ":" || Ascii.eqb c "=").

(** An optional quote, [lat] with an optional [itude], an optional quote,
    a colon or an equals sign within optional white space, an optional
    quote and a signed number in group 1; flag [i]. *)
Definition re_embedded_lat : regex :=
  Seqs [Opt quote; Lit (txt "lat"); Opt (Lit (txt "itude")); Opt quote;
        spaces; colon_or_equals; spaces; Opt quote; re_signed 1].

(** The same with [lng], [lon] or [longitude] for the name. *)
Definition re_embedded_lng : regex :=
  Seqs [Opt quote;
        Alts [Lit (txt "lng"); Lit (txt "lon"); Lit (txt "longitude")];
        Opt quote; spaces; colon_or_equals; spaces; Opt quote; re_signed 1].

(** [scripts] is [document.querySelectorAll('script')]. *)
Fixpoint findEmbeddedCoordinates (scripts : list Element) : Coords :=
  match scripts with
  | [] => no_coords
  | script :: scripts' =>
      let text := textContent script in
      match exec flag_i re_embedded_lat text,
            exec flag_i re_embedded_lng text with
      | Some latMatch, Some lngMatch =>
          let la := parseFloat (group 1 latMatch) in
          let lo := parseFloat (group 1 lngMatch) in
          if in_sri_lanka la lo
          then {| lat := Some la; lng := Some lo |}
          else findEmbeddedCoordinates scripts'
      | _, _ => findEmbeddedCoordinates scripts'
      end
  end.

(** The pattern inside the group of [re_signed]. *)
Definition signed_body : regex :=
  Seqs [Opt (Chr "-"); Plus digit; Opt (Chr "."); Star true digit].

(** Coordinates as a reader describes them. *)
Module CoordSpec.

Definition absent (c : Coords) : Prop := lat c = None /\ lng c = None.

(** Both present, finite and inside the box of Sri Lanka, whose bounds
    are the Number values of 5.9, 9.9, 79.5 and 81.9. *)
Definition inside_box (c : Coords) : Prop :=
  exists la lo : Q,
    lat c = Some (Fin la) /\ lng c = Some (Fin lo)
    /\ (nearest 5.9 <= la)%Q /\ (la <= nearest 9.9)%Q
    /\ (nearest 79.5 <= lo)%Q /\ (lo <= nearest 81.9)%Q.

(** Both present, and neither is NaN. *)
Definition both_numbers (c : Coords) : Prop :=
  exists la lo : JsNum,
    lat c = Some la /\ lng c = Some lo /\ la <> NaN /\ lo <> NaN.

(** The pair that the two patterns of findEmbeddedCoordinates read in a
    script: the numbers after the first latitude name and after the first
    longitude name of its text, when both names occur. *)
Definition embedded_pair (script : Element) : option (JsNum * JsNum) :=
  match exec flag_i re_embedded_lat (textContent script),
        exec flag_i re_embedded_lng (textContent script) with
  | Some latMatch, Some lngMatch =>
      Some (parseFloat (group 1 latMatch), parseFloat (group 1 lngMatch))
  | _, _ => None
  end.

(** The coordinates that hold the pair [p]. *)
Definition pair_coords (p : JsNum * JsNum) : Coords :=
  {| lat := Some (fst p); lng := Some (snd p) |}.

(** The detail document has no map link and no map frame with a pair of
    coordinates in its URL. *)
Definition no_map_pair (doc : Document) : Prop :=
  (forall a, doc_querySelector doc Sel_map_link = Returned (Some a) ->
             extractCoordsFromGoogleMaps (href a) = no_coords)
  /\ (forall fr, doc_querySelector doc Sel_map_iframe = Returned (Some fr) ->
                 extractCoordsFromGoogleMaps (src fr) = no_coords).

End CoordSpec.

(** The url that an adapter stores for the address [u] of a link:
    [u.startsWith('http') ? u : origin + u]. *)
Definition absolute (origin : string) (u : text) : text :=
  if Str.startsWith u (txt "http") then u else txt origin ++ u.

(** ** Listing cards of ikman.lk (content.js, IkmanScraper.getListingCards) *)

(** The selectors that the adapter passes to [document.querySelectorAll]. *)
Inductive CardSelector : Type :=
| Sel_li_with_ad_link    (* li:has(a[href*="/ad/"]) *)
| Sel_ad_links.          (* a[href*="/ad/"] *)

(** An element that [document.querySelectorAll] finds: the card and its
    tag name. *)
Record Found : Type := {
  found_card : Card;
  tagName : text
}.

(** The listings page: [document.querySelectorAll]. *)
Record Listings : Type := {
  querySelectorAll : CardSelector -> outcome (list Found)
}.

(** [el.tagName === 'A' ? el : el.querySelector('a[href*="/ad/"]')] *)
Definition found_link (el : Found) : outcome (option Element) :=
  if Str.text_eqb (tagName el) (txt "A")
  then Returned (Some (card_element (found_card el)))
  else card_querySelector (found_card el) Sel_ad_link.

(** [link?.href] *)
Definition link_href (link : option Element) : option text :=
  match link with
  | Some a => href a
  | None => None
  end.

(** The loop that keeps the first element of every url. *)
Fixpoint unique_cards (found : list Found) (seenUrls : gset text)
    (uniqueCards : list Found) : outcome (list Found) :=
  match found with
  | [] => Returned uniqueCards
  | el :: found' =>
      let* link := found_link el in
      match link_href link with
      | Some url =>
          if Str.truthy url && negb (bool_decide (url ∈ seenUrls))
          then unique_cards found' ({[url]} ∪ seenUrls) (uniqueCards ++ [el])
          else unique_cards found' seenUrls uniqueCards
      | None => unique_cards found' seenUrls uniqueCards
      end
  end.

(** The loop over the selectors: the unique cards of the first selector
    that gives any; a selector that throws is skipped. *)
Fixpoint cards_of_selectors (L : Listings) (selectors : list CardSelector)
  : list Found :=
  match selectors with
  | [] => []
  | selector :: selectors' =>
      match
        (let* found := querySelectorAll L selector in
         if (0 <? length found)%nat then unique_cards found ∅ []
         else Returned [])
      with
      | Returned (el :: els) => el :: els
      | Returned [] | Threw => cards_of_selectors L selectors'
      end
  end.

Definition IkmanScraper_getListingCards (L : Listings) : list Found :=
  cards_of_selectors L [Sel_li_with_ad_link; Sel_ad_links].

(** The url that the loop reads from a card it keeps. *)
Definition found_url (el : Found) : option text :=
  match found_link el with
  | Returned link => link_href link
  | Threw => None
  end.

(** The cards of a listings page as a reader describes them. *)
Module ListingSpec.

(** The selector yields a card: it finds the elements [found], the link of
    every element can be read, and one of them has a link with a url that
    is not empty. *)
Definition yields_cards (L : Listings) (selector : CardSelector)
    (found : list Found) : Prop :=
  querySelectorAll L selector = Returned found
  /\ (forall el, In el found -> found_link el <> Threw)
  /\ exists el u, In el found /\ found_url el = Some u /\ u <> [].

(** [el] is in [found] the first element with its url, which is not
    empty. *)
Definition first_with_url (found : list Found) (el : Found) : Prop :=
  exists before after u,
    found = before ++ el :: after
    /\ found_url el = Some u /\ u <> []
    /\ forall e, In e before -> found_url e <> Some u.

(** [cards] are the elements of [found] that are the first with their url,
    in the order of the page. *)
Definition kept_of (cards found : list Found) : Prop :=
  sublist cards found
  /\ NoDup (map found_url cards)
  /\ forall el, In el cards <-> first_with_url found el.

End ListingSpec.

(** ** Start and resume (content.js, startScraping and checkAndResume) *)

Definition DEFAULT_LOCATIONS : list text :=
  map txt
    ["battaramulla"; "pelawatta"; "thalawathugoda"; "malabe";
     "athurugiriya"; "kaduwela"; "ranala"; "hewagama"; "hokandara";
     "rajagiriya"; "ethul kotte"; "etul kotte"; "pita kotte";
     "nawala"; "nugegoda"; "pagoda"; "gangodawila"; "welikada";
     "mattakkuliya"; "modara"; "borella"; "cinnamon gardens";
     "havelock town"; "wellawatta"; "wellawatte"; "pamankada"; "kirulapona";
     "colombo 01"; "colombo 02"; "colombo 03"; "colombo 04"; "colombo 05";
     "colombo 06"; "colombo 07"; "colombo 08"; "colombo 09"; "colombo 10";
     "colombo 1"; "colombo 2"; "colombo 3"; "colombo 4"; "colombo 5";
     "colombo 6"; "colombo 7"; "colombo 8"; "colombo 9"]%string.

Definition DEFAULT_PAGE_DELAY : JsNum := of_Z 2500.

Definition set_filterLocations (b : bool) (w : World) : World :=
  {| isRunning := isRunning w; filterLocations := b;
     scrapeDetails := scrapeDetails w; pageDelay := pageDelay w;
     visitedPages := visitedPages w; customLocations := customLocations w;
     storage := storage w; sent := sent w; navigatedTo := navigatedTo w |}.

Definition set_scrapeDetails (b : bool) (w : World) : World :=
  {| isRunning := isRunning w; filterLocations := filterLocations w;
     scrapeDetails := b; pageDelay := pageDelay w;
     visitedPages := visitedPages w; customLocations := customLocations w;
     storage := storage w; sent := sent w; navigatedTo := navigatedTo w |}.

Definition set_pageDelay (d : JsNum) (w : World) : World :=
  {| isRunning := isRunning w; filterLocations := filterLocations w;
     scrapeDetails := scrapeDetails w; pageDelay := d;
     visitedPages := visitedPages w; customLocations := customLocations w;
     storage := storage w; sent := sent w; navigatedTo := navigatedTo w |}.

Definition set_customLocations (l : list text) (w : World) : World :=
  {| isRunning := isRunning w; filterLocations := filterLocations w;
     scrapeDetails := scrapeDetails w; pageDelay := pageDelay w;
     visitedPages := visitedPages w; customLocations := l;
     storage := storage w; sent := sent w; navigatedTo := navigatedTo w |}.

Definition store_visitedPages (v : list text) (s : Storage) : Storage :=
  {| stored_listings := stored_listings s;
     stored_pagesScraped := stored_pagesScraped s;
     stored_isScraping := stored_isScraping s;
     stored_filterLocations := stored_filterLocations s;
     stored_scrapeDetails := stored_scrapeDetails s;
     stored_pageDelay := stored_pageDelay s;
     stored_visitedPages := Some v |}.

(** The options of a start command.  A flag is [None] when the field is
    absent or is not a boolean; the delay is [None] when the field is
    absent, and a finite number of milliseconds otherwise. *)
Record Options : Type := {
  opt_filterLocations : option bool;
  opt_scrapeDetails : option bool;
  opt_pageDelay : option JsNum
}.

(** [v !== false] and [v === true] on such a flag. *)
Definition is_not_false (v : option bool) : bool :=
  match v with Some false => false | _ => true end.

Definition is_true (v : option bool) : bool :=
  match v with Some true => true | _ => false end.

(** [v || otherwise] on such a number. *)
Definition or_number (v : option JsNum) (otherwise : JsNum) : JsNum :=
  match v with
  | Some d => if Js.truthy d then d else otherwise
  | None => otherwise
  end.

Definition startScraping (P : Page) (options : Options) : M unit :=
  modify (set_isRunning true) ;;
  modify (set_filterLocations (is_not_false (opt_filterLocations options))) ;;
  modify (set_scrapeDetails (is_true (opt_scrapeDetails options))) ;;
  modify (set_pageDelay (or_number (opt_pageDelay options)
                                   DEFAULT_PAGE_DELAY)) ;;
  modify (set_visitedPages ∅) ;;
  modify (fun w => set_storage (store_visitedPages [] (storage w)) w) ;;
  log Log_scraper_started Success ;;
  let! details := gets scrapeDetails in
  when details (log Log_detail_mode Info) ;;
  runScraper P.

(** The variables of the content script when a page has loaded it, over
    the storage that the page finds. *)
Definition loaded (s : Storage) : World :=
  {| isRunning := false; filterLocations := true; scrapeDetails := false;
     pageDelay := DEFAULT_PAGE_DELAY; visitedPages := ∅;
     customLocations := DEFAULT_LOCATIONS;
     storage := s; sent := []; navigatedTo := None |}.

(** What a page load sends: the line that checkAndResume logs, which is
    no line of a cycle, and the messages of the cycle. *)
Inductive LoadMessage : Type :=
| LOG_resuming
| Sent (m : Message).

(** The variables that checkAndResume sets before it starts the cycle.
    [storedLocations] is the key customLocations of the storage, which the
    popup writes. *)
Definition resumed_world (storedLocations : option (list text)) (s : Storage)
  : World :=
  let w1 :=
    match storedLocations with
    | Some l => set_customLocations (map Str.toLowerCase l) (loaded s)
    | None => loaded s
    end in
  let w2 :=
    match stored_visitedPages s with
    | Some v => set_visitedPages (list_to_set v) w1
    | None => w1
    end in
  if is_true (stored_isScraping s) then
    set_isRunning true
      (set_pageDelay (Js.mul (or_number (stored_pageDelay s) (number 2.5))
                             (of_Z 1000))
         (set_scrapeDetails (is_true (stored_scrapeDetails s))
            (set_filterLocations (is_not_false (stored_filterLocations s))
               w2)))
  else w2.

(** checkAndResume on a page load: the messages of the load and the
    content script after it. *)
Definition checkAndResume (P : Page) (storedLocations : option (list text))
    (s : Storage) : list LoadMessage * World :=
  let w := resumed_world storedLocations s in
  if is_true (stored_isScraping s) then
    let after := snd (runScraper P w) in
    (LOG_resuming :: map Sent (sent after), after)
  else ([], w).

(** ** What a cycle does to the content script *)

(** The test of the location filter on a record. *)
Definition passes_filter (w : World) (data : Listing) : bool :=
  if filterLocations w
  then matchesTargetLocation (customLocations w) (address data)
       || matchesTargetLocation (customLocations w) (title data)
  else true.

(** Records that agree on what a card alone decides: a detail page may
    change the coordinates, the posted date, the address and the council. *)
Definition same_card_fields (a b : Listing) : Prop :=
  url a = url b /\ title a = title b /\ priceRaw a = priceRaw b
  /\ priceTotal a = priceTotal b /\ pricePerPerch a = pricePerPerch b
  /\ sizePerches a = sizePerches b /\ source a = source b
  /\ scrapedAt a = scrapedAt b.

(** The content script when a cycle has saved the records of the page and
    counted the page. *)
Definition page_done (listings : list Listing) (w : World) : World :=
  snd ((when (0 <? length listings)%nat
             (let! _n := saveListings listings in ret tt) ;;
        let! _pages := updatePagesCount in ret tt) w).

(** After a stop command. *)
Definition stopped (w : World) : World := snd (stopScraping w).

(** After the steps of a cycle that finds no next page. *)
Definition completed (w : World) : World :=
  snd ((log Log_no_more_pages Info ;;
        modify (set_isRunning false) ;;
        modify (fun w => set_storage (store_isScraping false (storage w)) w) ;;
        let! data := gets (fun w => stored_listings (storage w)) in
        modify (send (SCRAPING_COMPLETE (length (default [] data))))) w).

(** After the steps of a cycle that catches an error. *)
Definition failed (w : World) : World :=
  snd ((log Log_error Error ;; modify (send SCRAPING_ERROR)) w).

(** The site that scrapeCurrentPage passes to fetchDetailPageInfo. *)
Definition detail_site (P : Page) : Site :=
  if Str.includes (hostname P) (txt "ikman") then Ikman else LPW.

(** What the detail page of a record may change in it.  The coordinates
    are those of the card or a pair of truthy numbers; on ikman.lk the
    posted date is that of the card or a non-empty text, and the address
    is that of the card or a text longer than 3, with the council of the
    card or the council resolved from the new address when that is
    neither "Other" nor "Unknown"; on the other site these three fields
    are those of the card. *)
Definition enriched (E : Env) (detailSite : Site) (data l : Listing) : Prop :=
  same_card_fields data l
  /\ ((latitude l = latitude data /\ longitude l = longitude data)
      \/ (Js.truthy_opt (latitude l) = true
          /\ Js.truthy_opt (longitude l) = true))
  /\ match detailSite with
     | Ikman =>
         (postedDate l = postedDate data
          \/ Str.truthy_opt (postedDate l) = true)
         /\ ((address l = address data
              /\ municipalCouncil l = municipalCouncil data)
             \/ ((3 < length (address l))%nat
                 /\ (municipalCouncil l = municipalCouncil data
                     \/ (municipalCouncil l
                         = getMunicipalCouncil (GND_MC_MAPPING E)
                                               (Some (address l))
                         /\ municipalCouncil l <> txt "Other"
                         /\ municipalCouncil l <> txt "Unknown"))))
     | LPW =>
         postedDate l = postedDate data
         /\ address l = address data
         /\ municipalCouncil l = municipalCouncil data
     end.

(** What no step of a cycle changes (the settings of the run) and what a
    cycle only extends (the visited pages, the messages sent and the stored
    records). *)
Definition extends (w w' : World) : Prop :=
  filterLocations w' = filterLocations w
  /\ scrapeDetails w' = scrapeDetails w
  /\ pageDelay w' = pageDelay w
  /\ customLocations w' = customLocations w
  /\ visitedPages w ⊆ visitedPages w'
  /\ (exists more, sent w' = sent w ++ more)
  /\ (exists more,
         default [] (stored_listings (storage w'))
         = default [] (stored_listings (storage w)) ++ more).

(** The stored records after a page whose records are [listings]. *)
Definition saved (listings : list Listing) (s : Storage)
  : option (list Listing) :=
  if (0 <? length listings)%nat
  then Some (upsert (default [] (stored_listings s)) listings)
  else stored_listings s.

(** The fields of the content script that the last steps of a cycle
    leave as they are. *)
Definition same_store (w w' : World) : Prop :=
  stored_listings (storage w') = stored_listings (storage w)
  /\ stored_pagesScraped (storage w') = stored_pagesScraped (storage w)
  /\ stored_visitedPages (storage w') = stored_visitedPages (storage w)
  /\ stored_filterLocations (storage w') = stored_filterLocations (storage w)
  /\ stored_scrapeDetails (storage w') = stored_scrapeDetails (storage w)
  /\ visitedPages w' = visitedPages w
  /\ navigatedTo w' = navigatedTo w.

(** ** A crawl: the page loads that follow a start command

    A navigation loads a page, on which the content script starts with its
    initial variables and runs checkAndResume on what storage holds.
    [site u] is the page that loads for the address [u]. *)

(** The page loads after a navigation, at most [fuel] of them: the
    content script after the last one, which starts no navigation. *)
Fixpoint loads (site : text -> Page) (locations : option (list text))
    (fuel : nat) (P : Page) (s : Storage) : option World :=
  match fuel with
  | O => None
  | S n =>
      let after := snd (checkAndResume P locations s) in
      match navigatedTo after with
      | Some u => loads site locations n (site u) (storage after)
      | None => Some after
      end
  end.

(** A start command on the page [P], followed by the page loads of its
    navigations. *)
Definition crawl (site : text -> Page) (locations : option (list text))
    (fuel : nat) (P : Page) (options : Options) (w : World) : option World :=
  let after := snd (startScraping P options w) in
  match navigatedTo after with
  | Some u => loads site locations fuel (site u) (storage after)
  | None => Some after
  end.

(** The pages of a crawl that starts on [P]. *)
Definition on_site (P : Page) (site : text -> Page) (Q : Page) : Prop :=
  Q = P \/ exists u, Q = site u.

(** The addresses of [U] that are not visited. *)
Definition unvisited (U : list text) (V : gset text) : list text :=
  List.filter (fun u => negb (bool_decide (u ∈ V))) U.

(** ** Sample pages *)

Module Sample.

Definition no_dataset : Dataset :=
  {| data_lat := None; data_latitude := None;
     data_lng := None; data_longitude := None |}.

(** An element with text only. *)
Definition element (t : string) : Element :=
  {| textContent := txt t; href := None; getAttribute_href := None;
     src := None; dataset := no_dataset |}.

(** An anchor with its text and its [href]. *)
Definition anchor (t h : string) : Element :=
  {| textContent := txt t; href := Some (txt h);
     getAttribute_href := Some (txt h); src := None; dataset := no_dataset |}.

Definition clock : DateEnv :=
  {| Date_parse := fun _ => None;
     Date_local := fun _ _ _ => txt "2026-02-15";
     Date_now := txt "2026-02-15T08:00:00.000Z";
     Date_today := txt "2026-02-15";
     Date_before := fun _ => Returned (txt "2026-02-14") |}.

Definition empty_document : Document :=
  {| body := None;
     doc_querySelector := fun _ => Returned None;
     doc_querySelectorAll := fun _ => Returned [] |}.

(** A network on which every request is rejected. *)
Definition offline : Net :=
  {| fetch := fun _ => NetworkError;
     DOMParser_parseFromString := fun _ => Returned empty_document |}.

(** A map URL of a place outside Sri Lanka. *)
Definition outside_map_url : string :=
  "https://www.google.com/maps/place/51.5,-0.1".

(** A detail document with a map link, a map frame and one script, each
    optional. *)
Definition detail_document (map_link map_frame script : option string)
  : Document :=
  {| body := Some (element "Land for sale");
     doc_querySelector := fun sel =>
       match sel with
       | Sel_map_link => Returned (option_map (anchor "View on map") map_link)
       | Sel_map_iframe =>
           Returned (option_map
                       (fun s => {| textContent := []; href := None;
                                    getAttribute_href := None;
                                    src := Some (txt s);
                                    dataset := no_dataset |})
                       map_frame)
       | _ => Returned None
       end;
     doc_querySelectorAll := fun sel =>
       match sel with
       | Sel_script =>
           Returned match script with
                    | Some s => [element s]
                    | None => []
                    end
       | _ => Returned []
       end |}.

(** A network on which every request is answered with status 200 and the
    given document. *)
Definition serving (doc : Document) : Net :=
  {| fetch := fun _ => Response 200 (Returned (txt "<html></html>"));
     DOMParser_parseFromString := fun _ => Returned doc |}.

Definition environment : Env :=
  {| GND_MC_MAPPING := Some [(txt "malabe", txt "Kaduwela")];
     date := clock; net := offline |}.

(** A card of lankapropertyweb.com: a link to the property, a price and the
    size in the text of the card. *)
Definition lpw_card (link price : string) (map_link : option string) : Card :=
  {| card_element := element "Land for sale in Malabe 10 perches";
     card_querySelector := fun sel =>
       match sel with
       | Sel_property_link => Returned (Some (anchor "Land in Malabe" link))
       | Sel_lpw_price => Returned (Some (element price))
       | Sel_card_map_link =>
           Returned (option_map (anchor "View on map") map_link)
       | _ => Returned None
       end |}.

(** A card of ikman.lk. *)
Definition ikman_card (link price : string) : Card :=
  {| card_element := element "Land for sale in Malabe 10 perches";
     card_querySelector := fun sel =>
       match sel with
       | Sel_ad_link => Returned (Some (anchor "Land in Malabe" link))
       | Sel_ikman_price => Returned (Some (element price))
       | _ => Returned None
       end |}.

Definition empty_storage : Storage :=
  {| stored_listings := None; stored_pagesScraped := None;
     stored_isScraping := None; stored_filterLocations := None;
     stored_scrapeDetails := None; stored_pageDelay := None;
     stored_visitedPages := None |}.

(** The content script after a start command without the location
    filter and without detail pages. *)
Definition started : World :=
  {| isRunning := true; filterLocations := false; scrapeDetails := false;
     pageDelay := of_Z 2500; visitedPages := ∅; customLocations := [];
     storage := empty_storage; sent := []; navigatedTo := None |}.

(** A listings page of lankapropertyweb.com on which two cards link to
    the same property. *)
Definition lpw_page_with_repeated_card : Page :=
  {| hostname := txt "www.lankapropertyweb.com";
     location_href := txt "https://www.lankapropertyweb.com/land/index.php";
     listingCards :=
       [ lpw_card "https://www.lankapropertyweb.com/land/1" "Rs. 38M" None;
         lpw_card "https://www.lankapropertyweb.com/land/1" "Rs. 38M" None ];
     nextPageUrl := None;
     URL_toString := fun u => Returned u;
     env := environment;
     stopWhileProcessing := false;
     stopWhileWaiting := false |}.

(** The third page of a listing of ikman.lk whose pagination leads back to
    the first page. *)
Definition ikman_page_three : Page :=
  {| hostname := txt "ikman.lk";
     location_href := txt "https://ikman.lk/en/ads/sri-lanka/land?page=3";
     listingCards :=
       [ ikman_card "https://ikman.lk/en/ad/land-in-malabe-for-sale-1"
                    "Rs 450,000 per perch" ];
     nextPageUrl := Some (txt "https://ikman.lk/en/ads/sri-lanka/land?page=1");
     URL_toString := fun u => Returned u;
     env := environment;
     stopWhileProcessing := false;
     stopWhileWaiting := false |}.

(** The content script resumed on the third page, with the first two
    pages visited. *)
Definition resumed : World :=
  {| isRunning := true; filterLocations := false; scrapeDetails := false;
     pageDelay := of_Z 2500;
     visitedPages :=
       {[ txt "https://ikman.lk/en/ads/sri-lanka/land?page=1" ]}
       ∪ {[ txt "https://ikman.lk/en/ads/sri-lanka/land?page=2" ]};
     customLocations := [];
     storage := empty_storage; sent := []; navigatedTo := None |}.

End Sample.

(** ** More sample records and pages *)

Module Scenario.

(** A record with the given url. *)
Definition listing_at (u price : string) : Listing :=
  {| title := txt "Land for sale"; address := txt "Malabe";
     priceRaw := txt price; priceTotal := parsePrice (txt price);
     pricePerPerch := None; sizePerches := None; url := txt u;
     latitude := None; longitude := None; postedDate := None;
     source := txt "ikman.lk"; municipalCouncil := txt "Kaduwela MC";
     scrapedAt := txt "2026-02-15T08:00:00.000Z" |}.

(** A card of ikman.lk priced per perch, and the record extracted from
    it. *)
Definition per_perch_card : Card :=
  Sample.ikman_card "https://ikman.lk/en/ad/land-in-malabe-for-sale-1"
                    "Rs 450,000 per perch".

Definition per_perch_listing : Listing :=
  default (listing_at "" "")
          (extractFromCard IkmanScraper Sample.environment per_perch_card).

(** A card of ikman.lk with a total price and a size of 4.4 perches. *)
Definition small_plot_card : Card :=
  {| card_element := Sample.element "Land for sale in Malabe 4.4 perches";
     card_querySelector := fun sel =>
       match sel with
       | Sel_ad_link =>
           Returned (Some (Sample.anchor "Land in Malabe"
                             "https://ikman.lk/en/ad/land-in-malabe-3"))
       | Sel_ikman_price => Returned (Some (Sample.element "Rs 1,000,021"))
       | _ => Returned None
       end |}.

(** The first page of a listing of ikman.lk, with two cards and a next
    page. *)
Definition ikman_page_one : Page :=
  {| hostname := txt "ikman.lk";
     location_href := txt "https://ikman.lk/en/ads/sri-lanka/land";
     listingCards :=
       [ per_perch_card;
         Sample.ikman_card "https://ikman.lk/en/ad/land-in-kandy-for-sale-2"
                           "Rs 38M" ];
     nextPageUrl := Some (txt "https://ikman.lk/en/ads/sri-lanka/land?page=2");
     URL_toString := fun u => Returned u;
     env := Sample.environment;
     stopWhileProcessing := false;
     stopWhileWaiting := false |}.

(** The same page load with a stop command while the page is processed,
    and with a stop command during the page delay. *)
Definition ikman_page_stopped (processing : bool) : Page :=
  {| hostname := hostname ikman_page_one;
     location_href := location_href ikman_page_one;
     listingCards := listingCards ikman_page_one;
     nextPageUrl := nextPageUrl ikman_page_one;
     URL_toString := URL_toString ikman_page_one;
     env := env ikman_page_one;
     stopWhileProcessing := processing;
     stopWhileWaiting := negb processing |}.

(** The same page with a next-page address that the URL constructor
    rejects. *)
Definition ikman_page_bad_next : Page :=
  {| hostname := hostname ikman_page_one;
     location_href := location_href ikman_page_one;
     listingCards := listingCards ikman_page_one;
     nextPageUrl := Some (txt "https://[");
     URL_toString := fun u =>
       if Str.text_eqb u (txt "https://[") then Threw else Returned u;
     env := env ikman_page_one;
     stopWhileProcessing := false;
     stopWhileWaiting := false |}.

(** The same page on a network that answers every request with a detail
    page that has a map link. *)
Definition ikman_page_with_details : Page :=
  {| hostname := hostname ikman_page_one;
     location_href := location_href ikman_page_one;
     listingCards := listingCards ikman_page_one;
     nextPageUrl := nextPageUrl ikman_page_one;
     URL_toString := URL_toString ikman_page_one;
     env :=
       {| GND_MC_MAPPING := GND_MC_MAPPING Sample.environment;
          date := Sample.clock;
          net :=
            Sample.serving
              (Sample.detail_document
                 (Some "https://www.google.com/maps?q=6.9,79.9") None None) |};
     stopWhileProcessing := false;
     stopWhileWaiting := false |}.

(** The content script after a start command with detail pages and with
    the location filter on malabe. *)
Definition started_with_details : World :=
  {| isRunning := true; filterLocations := true; scrapeDetails := true;
     pageDelay := of_Z 2500; visitedPages := ∅;
     customLocations := [txt "malabe"];
     storage := Sample.empty_storage; sent := []; navigatedTo := None |}.

(** A listings page of ikman.lk on which the first selector finds three
    list items, two of them with the same link. *)
Definition ikman_listings : Listings :=
  {| querySelectorAll := fun selector =>
       match selector with
       | Sel_li_with_ad_link =>
           Returned
             [ {| found_card := per_perch_card; tagName := txt "LI" |};
               {| found_card := per_perch_card; tagName := txt "LI" |};
               {| found_card :=
                    Sample.ikman_card
                      "https://ikman.lk/en/ad/land-in-kandy-for-sale-2"
                      "Rs 38M";
                  tagName := txt "LI" |} ]
       | Sel_ad_links => Returned []
       end |}.

(** The page load whose cards are those that the adapter finds on it. *)
Definition ikman_page_of_listings : Page :=
  {| hostname := hostname ikman_page_one;
     location_href := location_href ikman_page_one;
     listingCards := map found_card (IkmanScraper_getListingCards ikman_listings);
     nextPageUrl := nextPageUrl ikman_page_one;
     URL_toString := URL_toString ikman_page_one;
     env := env ikman_page_one;
     stopWhileProcessing := false;
     stopWhileWaiting := false |}.

(** A listing of three pages whose last page links back to the first. *)
Definition cycle_page (here next : string) : Page :=
  {| hostname := txt "ikman.lk";
     location_href := txt here;
     listingCards := [per_perch_card];
     nextPageUrl := Some (txt next);
     URL_toString := fun u => Returned u;
     env := Sample.environment;
     stopWhileProcessing := false;
     stopWhileWaiting := false |}.

Definition cycle_addresses : list text :=
  map txt ["https://ikman.lk/en/ads/land?page=1";
           "https://ikman.lk/en/ads/land?page=2";
           "https://ikman.lk/en/ads/land?page=3"]%string.

Definition cycle_site (u : text) : Page :=
  if Str.text_eqb u (txt "https://ikman.lk/en/ads/land?page=2")
  then cycle_page "https://ikman.lk/en/ads/land?page=2"
                  "https://ikman.lk/en/ads/land?page=3"
  else if Str.text_eqb u (txt "https://ikman.lk/en/ads/land?page=3")
  then cycle_page "https://ikman.lk/en/ads/land?page=3"
                  "https://ikman.lk/en/ads/land?page=1"
  else cycle_page "https://ikman.lk/en/ads/land?page=1"
                  "https://ikman.lk/en/ads/land?page=2".

(** A start command without the location filter. *)
Definition unfiltered : Options :=
  {| opt_filterLocations := Some false; opt_scrapeDetails := None;
     opt_pageDelay := None |}.

End Scenario.
(** *** Facts about the number model *)

Lemma Qlt_bool_iff (a b : Q) : Qlt_bool a b = true <-> (a < b)%Q.
Proof.
  unfold Qlt_bool. rewrite negb_true_iff.
  split.
  - intros H. apply Qnot_le_lt. intros Hle.
    apply Qle_bool_iff in Hle. congruence.
  - intros H. destruct (Qle_bool b a) eqn:E; [|reflexivity].
    apply Qle_bool_iff in E. exfalso. revert E. apply Qlt_not_le, H.
Qed.

Lemma Qlt_bool_false_iff (a b : Q) : Qlt_bool a b = false <-> (b <= a)%Q.
Proof.
  unfold Qlt_bool. rewrite negb_false_iff. apply Qle_bool_iff.
Qed.

Lemma Qeq_bool_false_iff (a b : Q) : Qeq_bool a b = false <-> ~ (a == b)%Q.
Proof.
  split.
  - intros H E. apply Qeq_bool_iff in E. congruence.
  - intros H. destruct (Qeq_bool a b) eqn:E; [|reflexivity].
    apply Qeq_bool_iff in E. contradiction.
Qed.

Lemma Qle_bool_false_iff (a b : Q) : Qle_bool a b = false <-> (b < a)%Q.
Proof.
  rewrite <- Qlt_bool_iff. unfold Qlt_bool.
  destruct (Qle_bool a b); simpl; split; congruence.
Qed.

Lemma Qfloor_Qred (q r : Q) : Qfloor (Qred q + r) = Qfloor (q + r).
Proof. apply Qfloor_comp. now rewrite Qred_correct. Qed.

Lemma div_fin (p s : Q) :
  ~ (s == 0)%Q -> Js.div (Fin p) (Fin s) = number (p / s).
Proof.
  intros Hs. unfold Js.div. apply Qeq_bool_false_iff in Hs. now rewrite Hs.
Qed.

Lemma calculatePricePerPerch_refines (p s : Q) (flag : bool) :
  ~ (p == 0)%Q ->
  calculatePricePerPerch (Some (Fin p)) (Some (Fin s)) flag
  = derivePricePerUnit_spec (Some p) (Some s) flag.
Proof.
  intros Hp. unfold calculatePricePerPerch, derivePricePerUnit_spec.
  cbn [truthy_opt truthy to_number Js.le Js.lt Js.gt of_Z].
  apply Qeq_bool_false_iff in Hp. rewrite Hp. cbn [negb orb].
  destruct (Qeq_bool s 0) eqn:Es0.
  - apply Qeq_bool_iff in Es0. cbn [negb orb].
    assert (Hle : Qle_bool s 0 = true)
      by (apply Qle_bool_iff; rewrite Es0; apply Qle_refl).
    now rewrite Hle.
  - cbn [negb orb]. change (inject_Z 0) with 0%Q.
    destruct (Qle_bool s 0) eqn:Hle; [reflexivity|].
    destruct flag; [reflexivity|].
    apply Qeq_bool_false_iff in Es0.
    now rewrite (div_fin p s Es0).
Qed.

Lemma calculatePricePerPerch_zero_total (p : Q) size flag :
  (p == 0)%Q -> calculatePricePerPerch (Some (Fin p)) size flag = None.
Proof.
  intros Hp. unfold calculatePricePerPerch. cbn [truthy_opt truthy].
  apply Qeq_bool_iff in Hp. now rewrite Hp.
Qed.

Lemma calculatePricePerPerch_nonpositive_size price (s : Q) flag :
  (s <= 0)%Q -> calculatePricePerPerch price (Some (Fin s)) flag = None.
Proof.
  intros Hs. unfold calculatePricePerPerch.
  cbn [to_number Js.le of_Z]. change (inject_Z 0) with 0%Q.
  apply Qle_bool_iff in Hs. rewrite Hs. now rewrite !orb_true_r.
Qed.

(** *** Price per perch *)

(** C1, as stated: with total 0 and size 10 present and the total not
    explicitly a unit price, the contract gives the total unchanged (the
    branch [total < 500,000]), and calculatePricePerPerch returns null. *)
Lemma derivePricePerUnit_zero_total_counterexample :
  calculatePricePerPerch (Some (Fin 0)) (Some (Fin 10)) false = None
  /\ derivePricePerUnit_spec (Some 0%Q) (Some 10%Q) false = Some (Fin 0).
Proof. split; reflexivity. Qed.

(** C1, amended: for a total p other than 0 and a size s > 0,
    calculatePricePerPerch returns p when the price is explicitly per unit
    and otherwise follows the branch order: round(p / s) when p > 5,000,000
    and s < 50; else p when p < 500,000; else round(p / s) when
    p > 1,000,000; else p, where round(p / s) is Math.round of the quotient
    as the division of doubles gives it.  It returns null when the total or
    the size is missing, when the total is 0 and when the size is at most 0.
    In particular (8000000, 20) gives 400000, (300000, 10) gives 300000 and
    a size of 0 gives null for every total. *)
Theorem calculatePricePerPerch_contract :
  (forall p s : Q, ~ (p == 0)%Q -> (0 < s)%Q ->
     let r := calculatePricePerPerch (Some (Fin p)) (Some (Fin s)) in
     let rounded := Some (Math_round (Js.div (Fin p) (Fin s))) in
     r true = Some (Fin p)
     /\ ((5000000 < p)%Q -> (s < 50)%Q -> r false = rounded)
     /\ (~ ((5000000 < p)%Q /\ (s < 50)%Q) -> (p < 500000)%Q ->
         r false = Some (Fin p))
     /\ (~ ((5000000 < p)%Q /\ (s < 50)%Q) -> (500000 <= p)%Q ->
         (1000000 < p)%Q -> r false = rounded)
     /\ (~ ((5000000 < p)%Q /\ (s < 50)%Q) -> (500000 <= p)%Q ->
         (p <= 1000000)%Q -> r false = Some (Fin p)))
  /\ (forall size flag, calculatePricePerPerch None size flag = None)
  /\ (forall price flag, calculatePricePerPerch price None flag = None)
  /\ (forall (p : Q) size flag,
        (p == 0)%Q -> calculatePricePerPerch (Some (Fin p)) size flag = None)
  /\ (forall price (s : Q) flag,
        (s <= 0)%Q -> calculatePricePerPerch price (Some (Fin s)) flag = None)
  /\ calculatePricePerPerch (Some (Fin 8000000)) (Some (Fin 20)) false
     = Some (Fin 400000)
  /\ calculatePricePerPerch (Some (Fin 300000)) (Some (Fin 10)) false
     = Some (Fin 300000)
  /\ (forall price, calculatePricePerPerch price (Some (Fin 0)) false = None).
Proof.
  split; [|split; [|split; [|split; [|split; [|split; [|split]]]]]].
  - intros p s Hp Hs r rounded. subst r rounded.
    rewrite !(calculatePricePerPerch_refines p s _ Hp).
    rewrite (div_fin p s)
      by (intros E; rewrite E in Hs; revert Hs; apply Qlt_irrefl).
    unfold derivePricePerUnit_spec.
    assert (Hs0 : Qle_bool s 0 = false) by now apply Qle_bool_false_iff.
    rewrite Hs0.
    split; [reflexivity|].
    split; [|split; [|split]].
    + intros H1 H2.
      apply Qlt_bool_iff in H1, H2. now rewrite H1, H2.
    + intros Hn H3.
      destruct (Qlt_bool 5000000 p && Qlt_bool s 50) eqn:E.
      * apply andb_prop in E as [E1 E2].
        apply Qlt_bool_iff in E1, E2. tauto.
      * apply Qlt_bool_iff in H3. now rewrite H3.
    + intros Hn H3 H4.
      destruct (Qlt_bool 5000000 p && Qlt_bool s 50) eqn:E; [reflexivity|].
      apply Qlt_bool_false_iff in H3. apply Qlt_bool_iff in H4.
      now rewrite H3, H4.
    + intros Hn H3 H4.
      destruct (Qlt_bool 5000000 p && Qlt_bool s 50) eqn:E.
      * apply andb_prop in E as [E1 E2].
        apply Qlt_bool_iff in E1, E2. tauto.
      * apply Qlt_bool_false_iff in H3, H4. now rewrite H3, H4.
  - intros size flag. reflexivity.
  - intros price flag. unfold calculatePricePerPerch.
    cbn [truthy_opt negb]. now rewrite orb_true_r.
  - intros p size flag Hp. now apply calculatePricePerPerch_zero_total.
  - intros price s flag Hs. now apply calculatePricePerPerch_nonpositive_size.
  - reflexivity.
  - reflexivity.
  - intros price. apply calculatePricePerPerch_nonpositive_size. apply Qle_refl.
Qed.

Lemma calculatePricePerPerch_contract_witness :
  calculatePricePerPerch (Some (Fin 8000000)) (Some (Fin 20)) false
  = Some (Math_round (Js.div (Fin 8000000) (Fin 20))).
Proof.
  destruct calculatePricePerPerch_contract as [H _].
  destruct (H 8000000%Q 20%Q) as [_ [H1 _]].
  - discriminate.
  - reflexivity.
  - apply H1; reflexivity.
Defined.

(** The quotient is a double before Math.round sees it: 1000001 / 0.4 is
    2500002.5 as a double (the double 0.4 is above 0.4), and 1000021 / 4.4
    falls below 227277.5. *)
Lemma calculatePricePerPerch_double_quotient :
  calculatePricePerPerch (Some (Fin 1000001)) (Some (number 0.4)) false
  = Some (Fin 2500003)
  /\ calculatePricePerPerch (Some (Fin 1000021)) (Some (number 4.4)) false
     = Some (Fin 227277).
Proof. vm_compute. split; reflexivity. Qed.

(** *** The Number value of a rational *)

Module NumberFacts.

Lemma pow2_pos e : (0 < pow2 e)%Q.
Proof.
  unfold pow2. destruct (0 <=? e) eqn:E.
  - apply Z.leb_le in E. unfold Qlt, inject_Z. cbn [Qnum Qden].
    pose proof (Z.pow_pos_nonneg 2 e ltac:(lia) E). lia.
  - reflexivity.
Qed.

Lemma round_half_even_nonneg q : (0 <= q)%Q -> 0 <= round_half_even q.
Proof.
  intros H. unfold round_half_even.
  assert (Hf : 0 <= Qfloor q) by (apply (Qfloor_resp_le 0 q) in H; exact H).
  destruct (q - inject_Z (Qfloor q) ?= 1 # 2)%Q;
    [destruct (Z.even (Qfloor q))| |]; lia.
Qed.

Lemma nearest_nonneg q : (0 <= q)%Q -> (0 <= nearest q)%Q.
Proof.
  intros H. unfold nearest. destruct (Qeq_bool q 0); [apply Qle_refl|].
  cbn zeta. rewrite Qred_correct.
  set (ulp := pow2 _).
  assert (Hu : (0 < ulp)%Q) by apply pow2_pos.
  apply Qmult_le_0_compat; [|now apply Qlt_le_weak].
  assert (Hq : (0 <= q / ulp)%Q).
  { apply Qle_shift_div_l; [exact Hu|]. now rewrite Qmult_0_l. }
  apply round_half_even_nonneg in Hq.
  unfold Qle, inject_Z. cbn [Qnum Qden]. lia.
Qed.

Lemma number_not_NaN q : number q <> NaN.
Proof.
  unfold number. destruct (Qle_bool _ _); [destruct (Qle_bool 0 q)|];
    discriminate.
Qed.

(** The Number value of a rational that is not negative is not negative. *)
Lemma number_nonneg q :
  (0 <= q)%Q ->
  number q = PInf \/ exists r, number q = Fin r /\ (0 <= r)%Q.
Proof.
  intros H. unfold number. destruct (Qle_bool (pow2 1024) _).
  - left. apply Qle_bool_iff in H. now rewrite H.
  - right. eexists. split; [reflexivity | now apply nearest_nonneg].
Qed.

(** Math.round of a Number value is an integer or an infinity. *)
Lemma round_number q :
  (exists z, Math_round (number q) = of_Z z)
  \/ Math_round (number q) = PInf \/ Math_round (number q) = NInf.
Proof.
  unfold number. destruct (Qle_bool (pow2 1024) _).
  - destruct (Qle_bool 0 q); [right; now left | right; now right].
  - left. now eexists.
Qed.

Lemma round_half_even_integer (q : Q) (k : Z) :
  (q == inject_Z k)%Q -> round_half_even q = k.
Proof.
  intros E. unfold round_half_even.
  rewrite (Qfloor_comp _ _ E), Qfloor_Z.
  assert (Hc : (q - inject_Z k ?= 1 # 2)%Q = Lt).
  { apply Qlt_alt. rewrite E. unfold Qminus. rewrite Qplus_opp_r.
    reflexivity. }
  now rewrite Hc.
Qed.

Lemma Qred_inject_Z z : Qred (inject_Z z) = inject_Z z.
Proof.
  unfold Qred, inject_Z.
  pose proof (Z.ggcd_gcd z 1) as Hg.
  pose proof (Z.ggcd_correct_divisors z 1) as Hd.
  destruct (Z.ggcd z 1) as (g & a & b). cbn [fst snd] in *.
  rewrite Z.gcd_1_r in Hg. subst g. destruct Hd as [Ha Hb].
  rewrite Z.mul_1_l in Ha, Hb. now subst a b.
Qed.

Lemma pow2_inv n : 0 <= n -> (pow2 (- n) * inject_Z (2 ^ n) == 1)%Q.
Proof.
  intros Hn. unfold pow2. destruct (0 <=? - n) eqn:E.
  - apply Z.leb_le in E. assert (n = 0) by lia. subst n. reflexivity.
  - rewrite Z.opp_involutive.
    pose proof (Z.pow_pos_nonneg 2 n ltac:(lia) Hn) as Hp.
    unfold Qeq, Qmult, inject_Z. cbn [Qnum Qden].
    rewrite Pos.mul_1_r, Z2Pos.id by exact Hp. lia.
Qed.

(** An integer of at most 53 bits is a double. *)
Lemma nearest_integer z :
  Z.abs z <= 2 ^ 53 -> nearest (inject_Z z) = inject_Z z.
Proof.
  intros Hz.
  destruct (Z.eq_dec z 0) as [->|Hz0]; [reflexivity|].
  set (e := Z.log2 (Z.abs z)).
  assert (He : 0 <= e) by apply Z.log2_nonneg.
  assert (Hspec : 2 ^ e <= Z.abs z < 2 ^ (e + 1)).
  { replace (e + 1) with (Z.succ e) by lia. apply Z.log2_spec. lia. }
  assert (He53 : e <= 53).
  { destruct (Z.le_gt_cases e 53) as [|Hgt]; [assumption|].
    assert (2 ^ 54 <= 2 ^ e) by (apply Z.pow_le_mono_r; lia).
    assert (2 ^ 53 < 2 ^ 54) by (apply Z.pow_lt_mono_r; lia).
    lia. }
  destruct (Z.eq_dec e 53) as [E53|E53].
  { rewrite E53 in Hspec.
    assert (Hc : z = 2 ^ 53 \/ z = - 2 ^ 53) by lia.
    destruct Hc as [-> | ->]; vm_compute; reflexivity. }
  unfold nearest.
  destruct (Qeq_bool (inject_Z z) 0) eqn:E0.
  { apply Qeq_bool_iff in E0. unfold Qeq, inject_Z in E0. cbn in E0. lia. }
  cbn zeta.
  assert (Hb : binade (inject_Z z) = e).
  { unfold binade.
    replace (Z.log2 (Z.abs (Qnum (inject_Z z)))
             - Z.log2 (Zpos (Qden (inject_Z z)))) with e
      by (cbn; unfold e; lia).
    cbn zeta.
    assert (Hle : Qle_bool (pow2 e) (Qabs (inject_Z z)) = true).
    { apply Qle_bool_iff. unfold pow2. rewrite (proj2 (Z.leb_le 0 e) He).
      unfold Qle, inject_Z. cbn. lia. }
    now rewrite Hle. }
  rewrite Hb, Z.max_l by lia.
  set (n := 52 - e).
  replace (e - 52) with (- n) by (unfold n; lia).
  assert (Hn : 0 <= n) by (unfold n; lia).
  pose proof (pow2_inv n Hn) as Hinv.
  pose proof (pow2_pos (- n)) as Hpos.
  set (ulp := pow2 (- n)) in *. set (P := inject_Z (2 ^ n)) in *.
  assert (Hq : (inject_Z z / ulp == inject_Z (z * 2 ^ n))%Q).
  { rewrite inject_Z_mult. fold P.
    rewrite <- (Qmult_1_r (inject_Z z / ulp)), <- Hinv.
    field. intros Hu. rewrite Hu in Hpos. revert Hpos. apply Qlt_irrefl. }
  rewrite (round_half_even_integer _ _ Hq).
  rewrite <- (Qred_inject_Z z). apply Qred_complete.
  rewrite inject_Z_mult. fold P.
  now rewrite <- Qmult_assoc, (Qmult_comm P ulp), Hinv, Qmult_1_r.
Qed.

Lemma number_integer z : Z.abs z <= 2 ^ 53 -> number (inject_Z z) = of_Z z.
Proof.
  intros Hz. unfold number. rewrite (nearest_integer z Hz).
  assert (Hlt : Qle_bool (pow2 1024) (Qabs (inject_Z z)) = false).
  { apply not_true_is_false. intros H. apply Qle_bool_iff in H.
    change (pow2 1024) with (inject_Z (2 ^ 1024)) in H.
    unfold Qle, inject_Z in H. cbn [Qnum Qden Qabs] in H.
    rewrite !Z.mul_1_r in H.
    assert (2 ^ 53 < 2 ^ 1024) by (apply Z.pow_lt_mono_r; lia). lia. }
  now rewrite Hlt.
Qed.

End NumberFacts.

(** *** The matcher and what a pattern matches *)

Module ReFacts.

Import Re ReSpec.

Lemma last_nonempty_default {A : Type} (x : A) (l : list A) (d d' : A) :
  List.last (x :: l) d = List.last (x :: l) d'.
Proof.
  revert x. induction l as [|y l IH]; intros x; [reflexivity|].
  change (List.last (y :: l) d = List.last (y :: l) d'). apply IH.
Qed.

Lemma last_cons_default {A : Type} (x : A) (l : list A) (d : A) :
  List.last (x :: l) d = List.last l x.
Proof.
  destruct l as [|y l]; [reflexivity|].
  change (List.last (y :: l) d = List.last (y :: l) x).
  apply last_nonempty_default.
Qed.

Lemma last_app_default {A : Type} (l1 l2 : list A) (d : A) :
  List.last (l1 ++ l2) d = List.last l2 (List.last l1 d).
Proof.
  revert d. induction l1 as [|x l1 IH]; intros d; [reflexivity|].
  rewrite <- app_comm_cons, !last_cons_default. apply IH.
Qed.

Lemma lastc_app p w1 w2 : lastc (lastc p w1) w2 = lastc p (w1 ++ w2).
Proof. unfold lastc. now rewrite map_app, last_app_default. Qed.

Lemma lastc_nil p : lastc p [] = p.
Proof. reflexivity. Qed.

Lemma lastc_single p x : lastc p [x] = Some x.
Proof. reflexivity. Qed.

Lemma consumed_app (st st' : mstate) w :
  rest st = w ++ rest st' -> consumed st st' = w.
Proof.
  intros H. unfold consumed. rewrite H, length_app.
  replace (length w + length (rest st') - length (rest st'))%nat
    with (length w) by lia.
  now rewrite firstn_app, Nat.sub_diag, firstn_all, firstn_O, app_nil_r.
Qed.

Section Soundness.

Variable f : flags.

Lemma step_char_sound ok st st' :
  In st' (step_char ok st) ->
  exists x, ok x = true /\ rest st = x :: rest st' /\ prev st' = Some x.
Proof.
  unfold step_char. destruct (rest st) as [|x xs]; [intros []|].
  destruct (ok x) eqn:E; [|intros []].
  intros [<- | []]. now exists x.
Qed.

Lemma star_iter_sound r g :
  (forall st st', In st' (rmatch f r st) -> result_of f r st st') ->
  forall fuel st st',
    In st' (star_iter (rmatch f r) g fuel st) ->
    result_of f (Star g r) st st'.
Proof.
  intros IHr. induction fuel as [|n IH]; intros st st' Hin.
  - destruct Hin as [<- | []]. exists []. repeat split. constructor.
  - cbn [star_iter] in Hin.
    assert (Hcases :
      st' = st \/
      In st' (flat_map
                (fun st1 =>
                   if (length (rest st1) <? length (rest st))%nat
                   then star_iter (rmatch f r) g n st1 else [])
                (rmatch f r st))).
    { destruct g.
      - apply in_app_or in Hin as [H | [<- | []]]; [now right | now left].
      - destruct Hin as [<- | H]; [now left | now right]. }
    destruct Hcases as [-> | Hmore].
    + exists []. repeat split. constructor.
    + apply in_flat_map in Hmore as (st1 & H1 & H2).
      destruct (Nat.ltb_spec (length (rest st1)) (length (rest st)))
        as [Hlt|]; [|destruct H2].
      destruct (IHr _ _ H1) as (w1 & E1 & P1 & M1).
      destruct (IH _ _ H2) as (w2 & E2 & P2 & M2).
      exists (w1 ++ w2). split; [|split].
      * now rewrite E1, E2, app_assoc.
      * now rewrite P2, P1, lastc_app.
      * apply M_StarCons.
        -- intros ->. rewrite E1 in Hlt. cbn in Hlt. lia.
        -- now rewrite <- E2.
        -- now rewrite <- P1.
Qed.

Theorem rmatch_sound r :
  forall st st', In st' (rmatch f r st) -> result_of f r st st'.
Proof.
  induction r as [|c|q| |a IHa b IHb|a IHa b IHb|g r IHr|n r IHr| | |];
    intros st st' Hin; cbn [rmatch] in Hin.
  - destruct Hin as [<- | []]. exists []. repeat split. constructor.
  - apply step_char_sound in Hin as (x & Hx & E & Hp).
    exists [x]. repeat split; [exact E | exact Hp | now constructor].
  - apply step_char_sound in Hin as (x & Hx & E & Hp).
    exists [x]. repeat split; [exact E | exact Hp | now constructor].
  - apply step_char_sound in Hin as (x & Hx & E & Hp).
    exists [x]. repeat split; [exact E | exact Hp | now constructor].
  - apply in_flat_map in Hin as (st1 & H1 & H2).
    destruct (IHa _ _ H1) as (w1 & E1 & P1 & M1).
    destruct (IHb _ _ H2) as (w2 & E2 & P2 & M2).
    exists (w1 ++ w2). split; [|split].
    + now rewrite E1, E2, app_assoc.
    + now rewrite P2, P1, lastc_app.
    + apply M_Seq; [now rewrite <- E2 | now rewrite <- P1].
  - apply in_app_or in Hin as [H | H].
    + destruct (IHa _ _ H) as (w & E & Pw & Mw).
      exists w. repeat split; try assumption. now apply M_AltL.
    + destruct (IHb _ _ H) as (w & E & Pw & Mw).
      exists w. repeat split; try assumption. now apply M_AltR.
  - exact (star_iter_sound r g IHr _ _ _ Hin).
  - apply in_map_iff in Hin as (st1 & <- & H1).
    destruct (IHr _ _ H1) as (w & E & Pw & Mw).
    exists w. repeat split; try assumption. now apply M_Group.
  - destruct (xorb _ _) eqn:E; [|destruct Hin].
    destruct Hin as [<- | []]. exists []. repeat split. now constructor.
  - destruct (prev st) eqn:E; [destruct Hin|].
    destruct Hin as [<- | []]. exists []. repeat split.
    rewrite E. constructor.
  - destruct (rest st) eqn:E; [|destruct Hin].
    destruct Hin as [<- | []]. exists []. repeat split.
    rewrite E. constructor.
Qed.

End Soundness.

Section Completeness.

Variable f : flags.

Lemma star_iter_fuel (step : mstate -> list mstate) g :
  forall k1 k2 st,
    (length (rest st) < k1)%nat -> (length (rest st) < k2)%nat ->
    star_iter step g k1 st = star_iter step g k2 st.
Proof.
  induction k1 as [|a IH]; intros k2 st H1 H2; [lia|].
  destruct k2 as [|b]; [lia|]. cbn [star_iter].
  assert (E : forall l,
    flat_map (fun st' => if (length (rest st') <? length (rest st))%nat
                         then star_iter step g a st' else []) l
    = flat_map (fun st' => if (length (rest st') <? length (rest st))%nat
                           then star_iter step g b st' else []) l).
  { intros l. apply flat_map_ext. intros st'.
    destruct (Nat.ltb_spec (length (rest st')) (length (rest st)));
      [|reflexivity].
    apply IH; lia. }
  now rewrite E.
Qed.

Lemma step_char_complete (ok : ascii -> bool) p x s c0 :
  ok x = true ->
  In {| prev := Some x; rest := s; caps := c0 |}
     (step_char ok {| prev := p; rest := x :: s; caps := c0 |}).
Proof. intros H. unfold step_char. cbn. rewrite H. now left. Qed.

Theorem rmatch_complete r p w s :
  Matches f r p w s ->
  forall c0, exists c',
    In {| prev := lastc p w; rest := s; caps := c' |}
       (rmatch f r {| prev := p; rest := w ++ s; caps := c0 |}).
Proof.
  induction 1 as [p s|c x p s Hx|q x p s Hx|x p s Hx
                 |a b p w1 w2 s _ IH1 _ IH2
                 |a b p w s _ IH|a b p w s _ IH
                 |g r p s|g r p w1 w2 s Hne _ IH1 _ IH2
                 |n r p w s _ IH|p s Hb|s|p]; intros c0; cbn [rmatch].
  - exists c0. now left.
  - exists c0. now apply step_char_complete.
  - exists c0. now apply step_char_complete.
  - exists c0. now apply step_char_complete.
  - destruct (IH1 c0) as (c1 & H1). destruct (IH2 c1) as (c2 & H2).
    exists c2. rewrite <- lastc_app, <- app_assoc.
    apply in_flat_map. eexists. split; [exact H1 | exact H2].
  - destruct (IH c0) as (c1 & H1). exists c1. apply in_or_app. now left.
  - destruct (IH c0) as (c1 & H1). exists c1. apply in_or_app. now right.
  - exists c0. cbn [rest app length star_iter].
    destruct g; [apply in_or_app; right|]; now left.
  - destruct (IH1 c0) as (c1 & H1). destruct (IH2 c1) as (c2 & H2).
    exists c2. rewrite <- lastc_app, <- app_assoc.
    cbn [rmatch rest] in H2 |- *. cbn [star_iter].
    assert (Hmore :
      In {| prev := lastc (lastc p w1) w2; rest := s; caps := c2 |}
         (flat_map
            (fun st' =>
               if (length (rest st') <?
                   length (rest {| prev := p; rest := w1 ++ w2 ++ s;
                                   caps := c0 |}))%nat
               then star_iter (rmatch f r) g (length (w1 ++ w2 ++ s)) st'
               else [])
            (rmatch f r {| prev := p; rest := w1 ++ w2 ++ s; caps := c0 |}))).
    { apply in_flat_map. eexists. split; [exact H1|].
      cbn [rest].
      assert (Hlen : (length (w2 ++ s) < length (w1 ++ w2 ++ s))%nat).
      { rewrite (length_app w1). destruct w1; [congruence | cbn; lia]. }
      apply Nat.ltb_lt in Hlen as Hlen'. rewrite Hlen'.
      rewrite (star_iter_fuel (rmatch f r) g (length (w1 ++ w2 ++ s))
                 (S (length (w2 ++ s)))); [exact H2 | exact Hlen | cbn; lia]. }
    destruct g; [apply in_or_app; now left | now right].
  - destruct (IH c0) as (c1 & H1).
    eexists. apply in_map_iff. eexists. split; [|exact H1]. reflexivity.
  - exists c0. cbn [prev rest app]. rewrite Hb. now left.
  - exists c0. now left.
  - exists c0. now left.
Qed.

End Completeness.

Section Captures.

Variable f : flags.

Lemma star_iter_group_free r g :
  (forall st st', In st' (rmatch f r st) -> caps st' = caps st) ->
  forall fuel st st',
    In st' (star_iter (rmatch f r) g fuel st) -> caps st' = caps st.
Proof.
  intros IHr. induction fuel as [|n IH]; intros st st' Hin.
  - now destruct Hin as [<- | []].
  - cbn [star_iter] in Hin.
    assert (Hcases :
      st' = st \/
      In st' (flat_map
                (fun st1 =>
                   if (length (rest st1) <? length (rest st))%nat
                   then star_iter (rmatch f r) g n st1 else [])
                (rmatch f r st))).
    { destruct g.
      - apply in_app_or in Hin as [H | [<- | []]]; [now right | now left].
      - destruct Hin as [<- | H]; [now left | now right]. }
    destruct Hcases as [-> | Hmore]; [reflexivity|].
    apply in_flat_map in Hmore as (st1 & H1 & H2).
    destruct (length (rest st1) <? length (rest st))%nat; [|destruct H2].
    rewrite (IH _ _ H2). now apply IHr.
Qed.

Lemma step_char_caps ok st st' :
  In st' (step_char ok st) -> caps st' = caps st.
Proof.
  unfold step_char. destruct (rest st) as [|x xs]; [intros []|].
  destruct (ok x); [|intros []]. now intros [<- | []].
Qed.

Lemma rmatch_group_free r :
  group_free r = true ->
  forall st st', In st' (rmatch f r st) -> caps st' = caps st.
Proof.
  induction r as [|c|q| |a IHa b IHb|a IHa b IHb|g r IHr|n r IHr| | |];
    intros Hgf st st' Hin; cbn [rmatch group_free] in *;
    try discriminate;
    try (now apply step_char_caps in Hin).
  - now destruct Hin as [<- | []].
  - apply andb_prop in Hgf as [Ha Hb].
    apply in_flat_map in Hin as (st1 & H1 & H2).
    rewrite (IHb Hb _ _ H2). now apply IHa.
  - apply andb_prop in Hgf as [Ha Hb].
    apply in_app_or in Hin as [H | H]; [now apply IHa | now apply IHb].
  - eapply star_iter_group_free; [|exact Hin]. now apply IHr.
  - destruct (xorb _ _); [|destruct Hin]. now destruct Hin as [<- | []].
  - destruct (prev st); [destruct Hin|]. now destruct Hin as [<- | []].
  - destruct (rest st); [|destruct Hin]. now destruct Hin as [<- | []].
Qed.

(** A pattern of the form [(N)R] with a single group: the group holds
    the word matched by [N]. *)
Lemma rmatch_group_then n (N R : regex) :
  group_free N = true -> group_free R = true ->
  forall st st',
    In st' (rmatch f (Seq (Group n N) R) st) ->
    exists w1 w2,
      rest st = w1 ++ w2 ++ rest st'
      /\ prev st' = lastc (prev st) (w1 ++ w2)
      /\ Matches f N (prev st) w1 (w2 ++ rest st')
      /\ Matches f R (lastc (prev st) w1) w2 (rest st')
      /\ caps st' = (n, w1) :: caps st.
Proof.
  intros HN HR st st' Hin. cbn [rmatch] in Hin.
  apply in_flat_map in Hin as (st1 & H1 & H2).
  apply in_map_iff in H1 as (st0 & <- & H0).
  destruct (rmatch_sound f N _ _ H0) as (w1 & E1 & P1 & M1).
  destruct (rmatch_sound f R _ _ H2) as (w2 & E2 & P2 & M2).
  cbn [prev rest caps] in *.
  exists w1, w2. split; [|split; [|split; [|split]]].
  - now rewrite E1, E2.
  - now rewrite P2, P1, lastc_app.
  - now rewrite <- E2.
  - now rewrite <- P1.
  - rewrite (rmatch_group_free R HR _ _ H2). cbn [caps].
    rewrite (rmatch_group_free N HN _ _ H0).
    now rewrite (consumed_app st st0 w1 E1).
Qed.

End Captures.

Section Search.

Variables (f : flags) (r : regex).

Lemma lastc_cons p c pre : lastc p (c :: pre) = lastc (Some c) pre.
Proof. unfold lastc. cbn [map]. apply last_cons_default. Qed.

Lemma search_from_none :
  forall s p idx,
    search_from f r p s idx = None ->
    forall pre s', s = pre ++ s' -> rmatch f r (at_position p pre s') = [].
Proof.
  induction s as [|c s IH]; intros p idx H pre s' E; cbn [search_from] in H;
    unfold match_at in H.
  - apply eq_sym, app_eq_nil in E as [-> ->]. unfold at_position. cbn.
    now destruct (rmatch f r {| prev := p; rest := []; caps := [] |}).
  - destruct (rmatch f r {| prev := p; rest := c :: s; caps := [] |}) eqn:E0;
      [|discriminate].
    destruct pre as [|c' pre]; cbn in E.
    + subst s'. exact E0.
    + injection E as -> ->. unfold at_position. rewrite lastc_cons.
      exact (IH _ _ H pre s' eq_refl).
Qed.

Lemma search_from_some :
  forall s p idx m,
    search_from f r p s idx = Some m ->
    exists pre s' st' others,
      s = pre ++ s'
      /\ rmatch f r (at_position p pre s') = st' :: others
      /\ m = {| index := idx + length pre;
                whole := consumed (at_position p pre s') st';
                groups := caps st'; after := rest st' |}
      /\ forall pre1 s1, s = pre1 ++ s1 -> (length pre1 < length pre)%nat ->
           rmatch f r (at_position p pre1 s1) = [].
Proof.
  induction s as [|c s IH]; intros p idx m H; cbn [search_from] in H;
    unfold match_at in H.
  - destruct (rmatch f r {| prev := p; rest := []; caps := [] |})
      as [|st' others] eqn:E0; [discriminate|].
    injection H as <-. exists [], [], st', others.
    repeat split; try assumption.
    + cbn. now rewrite Nat.add_0_r.
    + intros pre1 s1 _ Hlt. cbn in Hlt. lia.
  - destruct (rmatch f r {| prev := p; rest := c :: s; caps := [] |})
      as [|st' others] eqn:E0.
    + destruct (IH _ _ _ H) as (pre & s' & st' & others & E & Hr & Hm & Hleft).
      exists (c :: pre), s', st', others.
      unfold at_position in *. rewrite lastc_cons.
      split; [now rewrite E|]. split; [exact Hr|]. split.
      * rewrite Hm. cbn [length]. f_equal. lia.
      * intros pre1 s1 E1 Hlt. destruct pre1 as [|c1 pre1]; cbn in E1.
        -- subst s1. exact E0.
        -- injection E1 as -> E1. rewrite lastc_cons.
           apply Hleft; [exact E1 | cbn in Hlt; lia].
    + injection H as <-. exists [], (c :: s), st', others.
      repeat split; try assumption.
      * cbn. now rewrite Nat.add_0_r.
      * intros pre1 s1 _ Hlt. cbn in Hlt. lia.
Qed.

(** No way to match at a position means that no word matches there. *)
Lemma no_result_no_match p pre s' :
  rmatch f r (at_position p pre s') = [] ->
  forall w post, s' = w ++ post -> ~ Matches f r (lastc p pre) w post.
Proof.
  intros Hnil w post -> HM.
  destruct (rmatch_complete f r _ _ _ HM []) as (c' & Hin).
  unfold at_position in Hnil. rewrite Hnil in Hin. destruct Hin.
Qed.

(** [exec] finds a match, and the leftmost position that has one. *)
Theorem exec_some s m :
  exec f r s = Some m ->
  exists pre,
    s = pre ++ whole m ++ after m
    /\ index m = length pre
    /\ Matches f r (lastc None pre) (whole m) (after m)
    /\ forall pre' w' post',
         s = pre' ++ w' ++ post' -> Matches f r (lastc None pre') w' post' ->
         (length pre <= length pre')%nat.
Proof.
  intros H. unfold exec in H.
  destruct (search_from_some _ _ _ _ H)
    as (pre & s' & st' & others & E & Hr & -> & Hleft).
  assert (Hin : In st' (rmatch f r (at_position None pre s')))
    by (rewrite Hr; now left).
  destruct (rmatch_sound f r _ _ Hin) as (w & Ew & Pw & Mw).
  cbn [whole after index]. rewrite (consumed_app _ _ w Ew).
  cbn [at_position rest prev] in Ew, Mw.
  exists pre. split; [now rewrite E, Ew|]. split; [reflexivity|].
  split; [exact Mw|].
  intros pre' w' post' E' HM.
  destruct (Nat.le_gt_cases (length pre) (length pre')) as [|Hlt];
    [assumption|exfalso].
  exact (no_result_no_match None pre' (w' ++ post')
           (Hleft pre' (w' ++ post') E' Hlt) w' post' eq_refl HM).
Qed.

Theorem exec_none_iff s : exec f r s = None <-> ~ occurs f r s.
Proof.
  split.
  - intros H (pre & w & post & E & HM). unfold exec in H.
    exact (no_result_no_match None pre (w ++ post)
             (search_from_none _ _ _ H pre (w ++ post) E) w post eq_refl HM).
  - intros Hno. destruct (exec f r s) as [m|] eqn:E; [|reflexivity].
    exfalso. apply Hno.
    destruct (exec_some _ _ E) as (pre & Es & _ & HM & _).
    now exists pre, (whole m), (after m).
Qed.

Corollary exec_some_iff s : (exists m, exec f r s = Some m) <-> occurs f r s.
Proof.
  split.
  - intros (m & H). destruct (exec_some _ _ H) as (pre & Es & _ & HM & _).
    now exists pre, (whole m), (after m).
  - intros Hocc. destruct (exec f r s) as [m|] eqn:E; [now exists m|].
    apply exec_none_iff in E. contradiction.
Qed.

End Search.

(** The match of a pattern [(N)R] with one group: the group is the word
    matched by [N], at the leftmost position where the pattern matches. *)
Theorem exec_group_then (f : flags) (n : nat) (N R : regex) (s : text) m :
  group_free N = true -> group_free R = true ->
  exec f (Seq (Group n N) R) s = Some m ->
  exists pre tail,
    s = pre ++ group n m ++ tail ++ after m
    /\ Matches f N (lastc None pre) (group n m) (tail ++ after m)
    /\ Matches f R (lastc None (pre ++ group n m)) tail (after m)
    /\ forall pre' w' post',
         s = pre' ++ w' ++ post' ->
         Matches f (Seq (Group n N) R) (lastc None pre') w' post' ->
         (length pre <= length pre')%nat.
Proof.
  intros HN HR H.
  destruct (exec_some _ _ _ _ H) as (pre0 & _ & _ & _ & Hleft0).
  unfold exec in H.
  destruct (search_from_some _ _ _ _ _ _ H)
    as (pre & s' & st' & others & E & Hr & -> & Hleft).
  assert (Hin : In st' (rmatch f (Seq (Group n N) R) (at_position None pre s')))
    by (rewrite Hr; now left).
  destruct (rmatch_group_then f n N R HN HR _ _ Hin)
    as (w1 & w2 & Ew & _ & M1 & M2 & Hc).
  cbn [at_position rest prev caps] in Ew, M1, M2, Hc.
  assert (Hg : group n {| index := 0 + length pre;
                          whole := consumed (at_position None pre s') st';
                          groups := caps st'; after := rest st' |} = w1).
  { unfold group. cbn [groups]. rewrite Hc. cbn [lookup_group].
    now rewrite Nat.eqb_refl. }
  rewrite Hg. cbn [after].
  exists pre, w2. split; [now rewrite E, Ew|]. split; [exact M1|].
  split; [now rewrite <- lastc_app|].
  intros pre' w' post' E' HM.
  destruct (Nat.le_gt_cases (length pre) (length pre')) as [|Hlt];
    [assumption|exfalso].
  exact (no_result_no_match f _ None pre' (w' ++ post')
           (Hleft pre' (w' ++ post') E' Hlt) w' post' eq_refl HM).
Qed.

End ReFacts.

(** *** Record store *)

Section Store.

Implicit Types (existing batch : list Listing) (w : World).

Lemma filter_none {A : Type} (f : A -> bool) (l : list A) :
  (forall x, In x l -> f x = false) -> List.filter f l = [].
Proof.
  induction l as [|x l IH]; intros H; [reflexivity|].
  simpl. rewrite (H x (or_introl eq_refl)).
  apply IH. intros y Hy. apply H. now right.
Qed.

Lemma uniqueNew_In existing batch l :
  In l (uniqueNew existing batch) <->
  In l batch /\ ~ In (url l) (map url existing).
Proof.
  unfold uniqueNew. rewrite filter_In, negb_true_iff, bool_decide_eq_false.
  rewrite elem_of_list_to_set, list_elem_of_In. reflexivity.
Qed.

(** Every url of the batch is a url of the collection after the batch is
    saved. *)
Lemma upsert_covers existing batch l :
  In l batch -> In (url l) (map url (upsert existing batch)).
Proof.
  intros Hl. unfold upsert. rewrite map_app, in_app_iff.
  destruct (decide (url l ∈ map url existing)) as [Hin | Hout].
  - left. now apply list_elem_of_In.
  - right. apply in_map. apply uniqueNew_In. split; [exact Hl|].
    intros Hin. apply Hout. now apply list_elem_of_In.
Qed.

Lemma uniqueNew_after_upsert existing batch :
  uniqueNew (upsert existing batch) batch = [].
Proof.
  apply filter_none. intros l Hl.
  rewrite negb_false_iff, bool_decide_eq_true, elem_of_list_to_set.
  rewrite list_elem_of_In. now apply upsert_covers.
Qed.

Lemma upsert_idempotent existing batch :
  upsert (upsert existing batch) batch = upsert existing batch.
Proof.
  unfold upsert at 1. rewrite uniqueNew_after_upsert. apply app_nil_r.
Qed.

Lemma saveListings_storage batch w :
  stored_listings (storage (snd (saveListings batch w)))
  = Some (upsert (default [] (stored_listings (storage w))) batch).
Proof. reflexivity. Qed.

Lemma uniqueNew_NoDup existing batch :
  NoDup (map url batch) -> NoDup (map url (uniqueNew existing batch)).
Proof.
  unfold uniqueNew. generalize (list_to_set (map url existing) : gset text).
  intros seen. induction batch as [|l batch IH]; simpl; intros H; [constructor|].
  apply NoDup_cons in H as [Hl H].
  destruct (negb (bool_decide (url l ∈ seen))); simpl; [|now apply IH].
  apply NoDup_cons. split; [|now apply IH].
  intros Hin. apply Hl.
  apply list_elem_of_In in Hin. apply list_elem_of_In.
  apply in_map_iff in Hin as (l' & Hu & Hl').
  apply filter_In in Hl' as [Hl' _].
  apply in_map_iff. now exists l'.
Qed.

(** A batch without two records of the same url keeps the urls of the
    collection distinct. *)
Lemma upsert_NoDup existing batch :
  NoDup (map url existing) -> NoDup (map url batch) ->
  NoDup (map url (upsert existing batch)).
Proof.
  intros He Hb. unfold upsert. rewrite map_app.
  apply NoDup_app. split; [exact He|]. split; [|now apply uniqueNew_NoDup].
  intros u Hu Hn.
  apply list_elem_of_In in Hu, Hn.
  apply in_map_iff in Hn as (l & <- & Hl).
  apply uniqueNew_In in Hl as [_ Hl]. contradiction.
Qed.

End Store.

(** C6: saving a batch twice leaves the stored collection as saving it
    once does, for every state of the store and every batch; the second
    save adds no record. *)
Theorem saveListings_idempotent (batch : list Listing) (w : World) :
  let once := snd (saveListings batch w) in
  let twice := snd (saveListings batch once) in
  storage twice = storage once
  /\ stored_listings (storage twice) = stored_listings (storage once)
  /\ fst (saveListings batch once) = Returned 0%nat.
Proof.
  cbn zeta.
  assert (Hs : storage (snd (saveListings batch (snd (saveListings batch w))))
               = storage (snd (saveListings batch w))).
  { unfold saveListings, bind, gets, modify, ret. cbn.
    unfold store_listings. cbn.
    fold (upsert (default [] (stored_listings (storage w))) batch).
    rewrite uniqueNew_after_upsert, app_nil_r. reflexivity. }
  split; [exact Hs|]. split; [now rewrite Hs|].
  unfold saveListings, bind, gets, modify, ret. cbn.
  fold (upsert (default [] (stored_listings (storage w))) batch).
  now rewrite uniqueNew_after_upsert.
Qed.

(** C7, at a batch with a repeated url: on a listings page of
    lankapropertyweb.com whose two cards link to the same property, a cycle
    of runScraper that starts from an empty store (which has no two records
    of one url) persists two records with that url. *)
Theorem saveListings_repeated_url_in_batch :
  let url_1 := txt "https://www.lankapropertyweb.com/land/1" in
  let after := snd (runScraper Sample.lpw_page_with_repeated_card
                               Sample.started) in
  NoDup (map url (default [] (stored_listings (storage Sample.started))))
  /\ option_map (map url) (stored_listings (storage after))
     = Some [url_1; url_1]
  /\ ~ NoDup (map url (default [] (stored_listings (storage after)))).
Proof.
  cbn zeta. split; [constructor|].
  assert (H : option_map (map url)
                (stored_listings
                   (storage (snd (runScraper Sample.lpw_page_with_repeated_card
                                             Sample.started))))
              = Some [txt "https://www.lankapropertyweb.com/land/1";
                      txt "https://www.lankapropertyweb.com/land/1"])
    by (vm_compute; reflexivity).
  split; [exact H|].
  destruct (stored_listings
              (storage (snd (runScraper Sample.lpw_page_with_repeated_card
                                        Sample.started)))) as [ls|];
    [|discriminate].
  unfold option_map in H. injection H as H.
  change (default [] (Some ls)) with ls. rewrite H.
  intros Hnd. apply NoDup_cons in Hnd as [Hnotin _].
  apply Hnotin. constructor.
Qed.

(** *** Characters *)

Module CharFacts.

Ltac ascii_cases x := destruct x as [[|] [|] [|] [|] [|] [|] [|] [|]].

Lemma cls_ok_digit ci x : cls_ok ci is_digit x = is_digit x.
Proof. destruct ci; [|reflexivity]. ascii_cases x; reflexivity. Qed.

Lemma cls_ok_space ci x : cls_ok ci is_space x = is_space x.
Proof. destruct ci; [|reflexivity]. ascii_cases x; reflexivity. Qed.

Lemma to_lower_idem x : to_lower (to_lower x) = to_lower x.
Proof. ascii_cases x; reflexivity. Qed.

Lemma to_lower_digit x : is_digit x = true -> to_lower x = x.
Proof. ascii_cases x; (reflexivity || discriminate). Qed.

Lemma to_lower_space x : is_space x = true -> to_lower x = x.
Proof. ascii_cases x; (reflexivity || discriminate). Qed.

Lemma digit_not_space x : is_digit x = true -> is_space x = false.
Proof. ascii_cases x; (reflexivity || discriminate). Qed.

Lemma digit_is_word x : is_digit x = true -> is_word x = true.
Proof. ascii_cases x; (reflexivity || discriminate). Qed.

(** Under either setting of [i], a pattern character that is its own
    lower case equals an input character that is its own lower case. *)
Lemma char_eq_lower ci c x :
  to_lower c = c -> to_lower x = x -> char_eq ci c x = true -> x = c.
Proof.
  intros Hc Hx. unfold char_eq. destruct ci.
  - rewrite Hc, Hx. intros H. now apply Ascii.eqb_eq in H.
  - intros H. now apply Ascii.eqb_eq in H.
Qed.

Lemma char_eq_refl ci c : char_eq ci c c = true.
Proof. unfold char_eq. destruct ci; apply Ascii.eqb_refl. Qed.

Lemma char_eq_dot ci x : char_eq ci "." x = true -> x = "."%char.
Proof.
  destruct ci; unfold char_eq; [|intros H; now apply Ascii.eqb_eq in H].
  ascii_cases x; (reflexivity || discriminate).
Qed.

Lemma toLowerCase_idem s : Str.toLowerCase (Str.toLowerCase s) = Str.toLowerCase s.
Proof.
  unfold Str.toLowerCase. rewrite map_map.
  apply map_ext. intros x. apply to_lower_idem.
Qed.

Lemma lower_case_chars s :
  lower_case s <-> Forall (fun x => to_lower x = x) s.
Proof.
  unfold lower_case, Str.toLowerCase.
  induction s as [|x s IH]; cbn [map].
  - split; [constructor | reflexivity].
  - split.
    + intros H. injection H as Hx Hs. constructor; [exact Hx | now apply IH].
    + intros H. apply Forall_cons in H as [Hx Hs].
      rewrite Hx. f_equal. now apply IH.
Qed.

Lemma lower_case_app s1 s2 :
  lower_case (s1 ++ s2) <-> lower_case s1 /\ lower_case s2.
Proof. rewrite !lower_case_chars. apply Forall_app. Qed.

End CharFacts.

(** *** Words matched by the parts of the patterns *)

Module WordFacts.

Import Re ReSpec ReFacts CharFacts SizeSpec.

Section Words.

Variable f : flags.

Lemma Matches_eps_inv p w s : Matches f Eps p w s -> w = [].
Proof. now inversion 1. Qed.

Lemma Matches_chr_inv c p w s :
  Matches f (Chr c) p w s ->
  exists x, w = [x] /\ char_eq (ignoreCase f) c x = true.
Proof. inversion 1; subst. now eexists. Qed.

Lemma Matches_cls_inv q p w s :
  Matches f (Cls q) p w s ->
  exists x, w = [x] /\ cls_ok (ignoreCase f) q x = true.
Proof. inversion 1; subst. now eexists. Qed.

Lemma Matches_seq_inv a b p w s :
  Matches f (Seq a b) p w s ->
  exists w1 w2,
    w = w1 ++ w2 /\ Matches f a p w1 (w2 ++ s)
    /\ Matches f b (lastc p w1) w2 s.
Proof. inversion 1; subst. now do 2 eexists. Qed.

Lemma Matches_alt_inv a b p w s :
  Matches f (Alt a b) p w s -> Matches f a p w s \/ Matches f b p w s.
Proof. inversion 1; subst; [now left | now right]. Qed.

Lemma Matches_wordb_inv p w s :
  Matches f WordB p w s ->
  w = [] /\ xorb (is_word_opt p) (is_word_opt (head s)) = true.
Proof. inversion 1; subst. now split. Qed.

Lemma Matches_star_cls g q p w s :
  Matches f (Star g (Cls q)) p w s ->
  forallb (cls_ok (ignoreCase f) q) w = true.
Proof.
  remember (Star g (Cls q)) as r eqn:Er. intros H.
  induction H as [| | | | | | | |g' r' p w1 w2 s Hne H1 _ _ IH2| | | |];
    try discriminate; [reflexivity|].
  injection Er as -> ->.
  apply Matches_cls_inv in H1 as (x & -> & Hx).
  cbn [app forallb]. rewrite Hx. now apply IH2.
Qed.

Lemma star_cls_Matches g q w :
  forallb (cls_ok (ignoreCase f) q) w = true ->
  forall p s, Matches f (Star g (Cls q)) p w s.
Proof.
  induction w as [|x w IH]; intros H p s; [constructor|].
  cbn [forallb] in H. apply andb_prop in H as [Hx Hw].
  change (x :: w) with ([x] ++ w). apply M_StarCons.
  - discriminate.
  - now constructor.
  - now apply IH.
Qed.

(** A literal matches the words that are equal to it character by
    character. *)
Lemma Matches_lit w0 :
  forall p w s,
    Matches f (Lit w0) p w s ->
    Forall2 (fun c x => char_eq (ignoreCase f) c x = true) w0 w.
Proof.
  induction w0 as [|c w0 IH]; intros p w s H.
  - apply Matches_eps_inv in H as ->. constructor.
  - destruct w0 as [|c' w0].
    + apply Matches_chr_inv in H as (x & -> & Hx).
      constructor; [assumption | constructor].
    + cbn [Lit] in H. apply Matches_seq_inv in H as (w1 & w2 & -> & H1 & H2).
      apply Matches_chr_inv in H1 as (x & -> & Hx).
      cbn [app]. constructor; [assumption|].
      eapply IH. eassumption.
Qed.

Lemma lit_Matches w0 : forall p s, Matches f (Lit w0) p w0 s.
Proof.
  induction w0 as [|c w0 IH]; intros p s; [constructor|].
  destruct w0 as [|c' w0].
  - constructor. apply char_eq_refl.
  - cbn [Lit]. change (c :: c' :: w0) with ([c] ++ c' :: w0).
    apply M_Seq; [constructor; apply char_eq_refl | apply IH].
Qed.

Lemma Matches_lit_lower w0 p w s :
  lower_case w0 -> lower_case w -> Matches f (Lit w0) p w s -> w = w0.
Proof.
  intros H0 Hw HM. apply Matches_lit in HM.
  apply lower_case_chars in H0, Hw.
  induction HM as [|c x w0 w Hcx _ IH]; [reflexivity|].
  apply Forall_cons in H0 as [Hc H0]. apply Forall_cons in Hw as [Hx Hw].
  f_equal; [now apply (char_eq_lower (ignoreCase f)) | now apply IH].
Qed.

Lemma forallb_cls_digit w :
  forallb (cls_ok (ignoreCase f) is_digit) w = forallb is_digit w.
Proof.
  induction w as [|x w IH]; [reflexivity|].
  cbn [forallb]. now rewrite cls_ok_digit, IH.
Qed.

Lemma forallb_cls_space w :
  forallb (cls_ok (ignoreCase f) is_space) w = forallb is_space w.
Proof.
  induction w as [|x w IH]; [reflexivity|].
  cbn [forallb]. now rewrite cls_ok_space, IH.
Qed.

(** The number pattern matches the numerals. *)
Lemma Matches_number p w s :
  Matches f number_body p w s ->
  exists ip fp, w = numeral_text ip fp /\ is_numeral ip fp.
Proof.
  intros H. unfold number_body in H. cbn [Seqs] in H.
  apply Matches_seq_inv in H as (w1 & w23 & -> & H1 & H23).
  apply Matches_seq_inv in H23 as (w2 & w3 & -> & H2 & H3).
  apply Matches_seq_inv in H1 as (wx & w1' & -> & Hx & H1').
  apply Matches_cls_inv in Hx as (x & -> & Hdx).
  apply Matches_star_cls in H1', H3.
  rewrite cls_ok_digit in Hdx. rewrite forallb_cls_digit in H1', H3.
  apply Matches_alt_inv in H2 as [Hdot | Heps].
  - apply Matches_chr_inv in Hdot as (y & -> & Hy).
    apply char_eq_dot in Hy as ->.
    exists (x :: w1'), (Some w3). split; [|split; [|split]].
    + unfold numeral_text. cbn. now rewrite <- ?app_assoc.
    + discriminate.
    + cbn. now rewrite Hdx.
    + exact H3.
  - apply Matches_eps_inv in Heps as ->.
    exists (x :: w1' ++ w3), None. split; [|split; [|split]].
    + unfold numeral_text. cbn. now rewrite ?app_nil_r, <- ?app_assoc.
    + discriminate.
    + cbn. rewrite Hdx, forallb_app, H1', H3. reflexivity.
    + reflexivity.
Qed.

Lemma number_Matches ip fp :
  is_numeral ip fp ->
  forall p s, Matches f number_body p (numeral_text ip fp) s.
Proof.
  intros (Hne & Hip & Hfp) p s.
  destruct ip as [|x ip]; [contradiction|].
  cbn [forallb] in Hip. apply andb_prop in Hip as [Hx Hip].
  assert (Hplus : forall s', Matches f (Plus digit) p (x :: ip) s').
  { intros s'. change (x :: ip) with ([x] ++ ip). apply M_Seq.
    - constructor. now rewrite cls_ok_digit.
    - apply star_cls_Matches. now rewrite forallb_cls_digit. }
  unfold number_body. cbn [Seqs]. unfold numeral_text.
  apply M_Seq; [apply Hplus|].
  destruct fp as [d|].
  - change ("."%char :: d) with (["."%char] ++ d). apply M_Seq.
    + apply M_AltL. constructor. apply char_eq_refl.
    + apply star_cls_Matches. now rewrite forallb_cls_digit.
  - change (@nil ascii) with (@nil ascii ++ []) at 1. apply M_Seq.
    + apply M_AltR. constructor.
    + constructor.
Qed.

Lemma Matches_unit_tail u p w s :
  lower_case w ->
  Matches f (unit_tail u) p w s ->
  exists ws tok,
    w = ws ++ tok /\ forallb is_space ws = true /\ unit_token u tok s.
Proof.
  intros Hlow H. unfold unit_tail in H.
  apply Matches_seq_inv in H as (ws & tok & -> & Hws & Htok).
  apply Matches_star_cls in Hws. rewrite forallb_cls_space in Hws.
  apply lower_case_app in Hlow as [_ Hlow].
  exists ws, tok. split; [reflexivity|]. split; [exact Hws|].
  assert (Hword : forall w0, lower_case w0 ->
                    Matches f (Lit w0) (lastc p ws) tok s -> tok = w0)
    by (intros w0 H0; now apply Matches_lit_lower).
  assert (Hletter : forall c, to_lower c = c -> is_word c = true ->
                      Matches f (Seq (Chr c) WordB) (lastc p ws) tok s ->
                      tok = [c] /\ is_word_opt (head s) = false).
  { intros c Hc Hw HM.
    apply Matches_seq_inv in HM as (w1 & w2 & -> & H1 & H2).
    apply Matches_chr_inv in H1 as (x & -> & Hx).
    apply Matches_wordb_inv in H2 as [-> Hb].
    apply lower_case_app in Hlow as [Hlow _].
    apply lower_case_chars, Forall_cons in Hlow as [Hlx _].
    apply (char_eq_lower _ _ _ Hc Hlx) in Hx as ->.
    cbn in Hb. rewrite Hw in Hb. cbn in Hb.
    split; [reflexivity|]. now destruct (is_word_opt (head s)). }
  destruct u; cbn [Alts] in Htok;
    apply Matches_alt_inv in Htok as [H1 | H23];
    try apply Matches_alt_inv in H23 as [H2 | H3].
  - left. apply Hword in H1 as ->; [now left | reflexivity].
  - left. apply Hword in H2 as ->; [right; now left | reflexivity].
  - right. exists "p"%char.
    apply Hletter in H3 as [-> Hb]; [|reflexivity|reflexivity].
    now repeat split.
  - left. apply Hword in H1 as ->; [now left | reflexivity].
  - left. apply Hword in H2 as ->; [right; now left | reflexivity].
  - left. apply Hword in H3 as ->; [right; right; now left | reflexivity].
  - left. apply Hword in H1 as ->; [now left | reflexivity].
  - left. apply Hword in H2 as ->; [right; now left | reflexivity].
  - right. exists "r"%char.
    apply Hletter in H3 as [-> Hb]; [|reflexivity|reflexivity].
    now repeat split.
Qed.

Lemma unit_tail_Matches u ws tok s :
  forallb is_space ws = true -> unit_token u tok s ->
  forall p, Matches f (unit_tail u) p (ws ++ tok) s.
Proof.
  intros Hws Htok p. unfold unit_tail. apply M_Seq.
  - apply star_cls_Matches. now rewrite forallb_cls_space.
  - assert (Hletter : forall c q, is_word c = true ->
                        is_word_opt (head s) = false ->
                        Matches f (Seq (Chr c) WordB) q [c] s).
    { intros c q Hc Hb. change [c] with ([c] ++ []). apply M_Seq.
      - constructor. apply char_eq_refl.
      - constructor. cbn. now rewrite Hc, Hb. }
    destruct Htok as [Hin | (c & Hc & -> & Hb)].
    + destruct u; cbn [unit_words Alts] in *;
        repeat (destruct Hin as [<- | Hin];
                [first [ apply M_AltL; apply lit_Matches
                       | apply M_AltR; apply M_AltL; apply lit_Matches
                       | apply M_AltR; apply M_AltR; apply lit_Matches ]|]);
        destruct Hin.
    + destruct u; cbn [unit_letter] in Hc; try discriminate;
        injection Hc as <-; cbn [Alts];
        apply M_AltR; apply M_AltR; now apply Hletter.
Qed.

End Words.

(** *** Splitting a text at the end of a run *)

Lemma app_prefix {A : Type} (a b x y : list A) :
  (length a <= length b)%nat -> a ++ x = b ++ y ->
  exists z, b = a ++ z /\ x = z ++ y.
Proof.
  revert b. induction a as [|h a IH]; intros b Hlen E.
  - exists b. now split.
  - destruct b as [|h' b]; [cbn in Hlen; lia|].
    cbn in E. injection E as -> E.
    destruct (IH b ltac:(cbn in Hlen; lia) E) as (z & -> & ->).
    now exists z.
Qed.

Lemma run_split {A : Type} (C : A -> bool) (a b : list A) x y r r' :
  forallb C a = true -> forallb C b = true ->
  C x = false -> C y = false ->
  a ++ x :: r = b ++ y :: r' -> a = b.
Proof.
  revert b. induction a as [|h a IH]; intros b Ha Hb Hx Hy E.
  - destruct b as [|h' b]; [reflexivity|].
    cbn in E. injection E as -> _.
    cbn in Hb. apply andb_prop in Hb as [Hb _]. congruence.
  - cbn in Ha. apply andb_prop in Ha as [Hh Ha].
    destruct b as [|h' b].
    + cbn in E. injection E as -> _. congruence.
    + cbn in E. injection E as -> E.
      cbn in Hb. apply andb_prop in Hb as [_ Hb].
      f_equal. now apply IH.
Qed.

Lemma numeral_chars ip fp :
  is_numeral ip fp -> forallb PriceSpec.numeral_char (numeral_text ip fp) = true.
Proof.
  intros (_ & Hip & Hfp). unfold numeral_text. rewrite forallb_app.
  assert (Hd : forall l, forallb is_digit l = true ->
                 forallb PriceSpec.numeral_char l = true).
  { intros l. rewrite !forallb_forall. intros H x Hx.
    unfold PriceSpec.numeral_char. now rewrite (H x Hx). }
  rewrite (Hd ip Hip). destruct fp as [d|]; [|reflexivity].
  cbn [forallb default] in *. now rewrite (Hd d Hfp).
Qed.

Lemma numeral_head ip fp :
  is_numeral ip fp ->
  exists x w, numeral_text ip fp = x :: w /\ is_digit x = true.
Proof.
  intros (Hne & Hip & _). destruct ip as [|x ip]; [contradiction|].
  cbn in Hip. apply andb_prop in Hip as [Hx _].
  exists x. eexists. split; [reflexivity | exact Hx].
Qed.

(** A numeral is spelt in one way. *)
Lemma numeral_text_inj ip fp ip' fp' :
  is_numeral ip fp -> is_numeral ip' fp' ->
  numeral_text ip fp = numeral_text ip' fp' -> ip = ip' /\ fp = fp'.
Proof.
  intros (_ & Hip & Hfp) (_ & Hip' & Hfp') E. unfold numeral_text in E.
  destruct fp as [d|], fp' as [d'|].
  - assert (Ei : ip = ip')
      by (eapply (run_split is_digit); [exact Hip | exact Hip' | | | exact E];
          reflexivity).
    subst ip'. apply app_inv_head in E. injection E as ->. now split.
  - exfalso. rewrite app_nil_r in E. rewrite <- E, forallb_app in Hip'.
    apply andb_prop in Hip' as [_ H]. discriminate H.
  - exfalso. rewrite app_nil_r in E. rewrite E, forallb_app in Hip.
    apply andb_prop in Hip as [_ H]. discriminate H.
  - rewrite !app_nil_r in E. now split.
Qed.

(** What follows the numeral of a size phrase starts with no character of
    a numeral. *)
Lemma after_numeral u ws tok post :
  forallb is_space ws = true -> unit_token u tok post ->
  exists x r, ws ++ tok ++ post = x :: r /\ PriceSpec.numeral_char x = false.
Proof.
  intros Hws Htok. destruct ws as [|x ws].
  - cbn [app]. destruct Htok as [Hin | (c & Hc & -> & _)].
    + destruct u; cbn in Hin;
        repeat (destruct Hin as [<- | Hin]; [eexists; eexists; split;
                                             [reflexivity | reflexivity]|]);
        contradiction.
    + destruct u; try discriminate Hc; injection Hc as <-;
        eexists; eexists; (split; [reflexivity | reflexivity]).
  - cbn [forallb] in Hws. apply andb_prop in Hws as [Hx _].
    exists x, (ws ++ tok ++ post). split; [reflexivity|].
    ascii_cases x; (discriminate Hx || reflexivity).
Qed.

(** *** parseFloat on numerals *)

Lemma span_app (p : ascii -> bool) (a b : text) :
  forallb p a = true ->
  match b with [] => True | c :: _ => p c = false end ->
  span p (a ++ b) = (a, b).
Proof.
  intros Ha Hb. induction a as [|x a IH]; cbn [app].
  - destruct b as [|c b]; [reflexivity|]. cbn [span]. now rewrite Hb.
  - cbn [forallb] in Ha. apply andb_prop in Ha as [Hx Ha].
    cbn [span]. now rewrite Hx, (IH Ha).
Qed.

Lemma parseFloat_digit x s :
  is_digit x = true -> parseFloat (x :: s) = unsigned_literal (x :: s).
Proof.
  intros Hx. unfold parseFloat. cbn [Str.trimStart].
  rewrite (digit_not_space x Hx).
  ascii_cases x; (discriminate Hx || reflexivity).
Qed.

Lemma not_infinity x s :
  is_digit x = true -> Str.startsWith (x :: s) (txt "Infinity") = false.
Proof. intros Hx. ascii_cases x; (discriminate Hx || reflexivity). Qed.

Theorem parseFloat_numeral ip fp :
  is_numeral ip fp ->
  parseFloat (numeral_text ip fp) = number (numeral_value ip fp).
Proof.
  intros (Hne & Hip & Hfp).
  destruct ip as [|x ip]; [contradiction|].
  pose proof Hip as Hip'.
  cbn [forallb] in Hip'. apply andb_prop in Hip' as [Hx _].
  unfold numeral_text. cbn [app]. rewrite (parseFloat_digit _ _ Hx).
  unfold unsigned_literal. rewrite (not_infinity _ _ Hx).
  change (x :: ip ++ match fp with Some d => "."%char :: d | None => [] end)
    with ((x :: ip) ++ match fp with Some d => "."%char :: d | None => [] end).
  unfold numeral_value.
  destruct fp as [d|]; cbn [default] in *.
  - rewrite (span_app is_digit (x :: ip) ("."%char :: d) Hip eq_refl).
    rewrite <- (app_nil_r d) at 1.
    rewrite (span_app is_digit d [] Hfp I).
    cbn [exponent_part app]. rewrite Z.sub_0_l. reflexivity.
  - rewrite (span_app is_digit (x :: ip) [] Hip I).
    cbn [exponent_part app]. reflexivity.
Qed.

Lemma digits_value_fold ds acc :
  0 <= acc -> forallb is_digit ds = true ->
  0 <= fold_left (fun a c => 10 * a + digit_value c) ds acc.
Proof.
  revert acc. induction ds as [|c ds IH]; intros acc Hacc Hds; [exact Hacc|].
  cbn [forallb] in Hds. apply andb_prop in Hds as [Hc Hds].
  cbn [fold_left]. apply IH; [|exact Hds].
  assert (0 <= digit_value c)
    by (ascii_cases c; (discriminate Hc || (vm_compute; discriminate))).
  lia.
Qed.

Lemma scale10_nonneg m e : 0 <= m -> (0 <= scale10 m e)%Q.
Proof.
  intros Hm. unfold scale10. destruct (0 <=? e) eqn:E.
  - apply Z.leb_le in E.
    assert (0 <= m * 10 ^ e)
      by (apply Z.mul_nonneg_nonneg; [exact Hm | now apply Z.pow_nonneg]).
    unfold Qle, inject_Z. cbn [Qnum Qden]. lia.
  - rewrite Qred_correct. unfold Qle. cbn [Qnum Qden]. lia.
Qed.

Lemma numeral_value_nonneg ip fp :
  is_numeral ip fp -> (0 <= numeral_value ip fp)%Q.
Proof.
  intros (_ & Hip & Hfp). unfold numeral_value. apply scale10_nonneg.
  unfold digits_value. apply digits_value_fold; [lia|].
  now rewrite forallb_app, Hip, Hfp.
Qed.

End WordFacts.

(** *** parseSize *)

Module SizeFacts.

Import Re ReSpec ReFacts CharFacts SizeSpec WordFacts.

Lemma unit_regex_shape u :
  unit_regex u = Seq (Group 1 number_body) (unit_tail u).
Proof. destruct u; reflexivity. Qed.

Lemma unit_tail_group_free u : group_free (unit_tail u) = true.
Proof. destruct u; reflexivity. Qed.

(** A size phrase at a position is a match of the pattern of the unit
    there. *)
Lemma phrase_Matches u pre ip fp ws tok post :
  is_numeral ip fp -> forallb is_space ws = true -> unit_token u tok post ->
  Matches flag_i (unit_regex u) (lastc None pre)
          (numeral_text ip fp ++ ws ++ tok) post.
Proof.
  intros Hnum Hws Htok. rewrite unit_regex_shape. apply M_Seq.
  - apply M_Group. now apply number_Matches.
  - now apply unit_tail_Matches.
Qed.

(** A match of the pattern of a unit is the first size phrase of the
    unit, and group 1 is its numeral. *)
Lemma exec_unit_phrase u s m :
  lower_case s ->
  exec flag_i (unit_regex u) s = Some m ->
  exists ip fp, first_size_phrase u s ip fp
                /\ group 1 m = numeral_text ip fp.
Proof.
  intros Hlow H. rewrite unit_regex_shape in H.
  destruct (exec_group_then flag_i 1 number_body (unit_tail u) s m
              eq_refl (unit_tail_group_free u) H)
    as (pre & tail & E & HN & HR & Hleft).
  destruct (Matches_number flag_i _ _ _ HN) as (ip & fp & Eg & Hnum).
  assert (Hlt : lower_case tail).
  { rewrite E in Hlow.
    apply lower_case_app in Hlow as [_ Hlow].
    apply lower_case_app in Hlow as [_ Hlow].
    now apply lower_case_app in Hlow as [Hlow _]. }
  destruct (Matches_unit_tail flag_i u _ _ _ Hlt HR)
    as (ws & tok & -> & Hws & Htok).
  exists ip, fp. split; [|exact Eg].
  exists pre, ws, tok, (after m). rewrite <- Eg.
  split; [rewrite E; now rewrite <- !app_assoc|].
  split; [exact Hnum | split; [assumption | split; [assumption|]]].
  intros pre' ip' fp' ws' tok' post' E' Hnum' Hws' Htok'.
  apply (Hleft pre' (numeral_text ip' fp' ++ ws' ++ tok') post').
  - rewrite E'. now rewrite <- !app_assoc.
  - rewrite <- unit_regex_shape. now apply phrase_Matches.
Qed.

Lemma first_is_phrase u s ip fp :
  first_size_phrase u s ip fp -> size_phrase u s ip fp.
Proof.
  intros (pre & ws & tok & post & E & Hnum & Hws & Htok & _).
  now exists pre, ws, tok, post.
Qed.

Lemma phrase_occurs u s ip fp :
  size_phrase u s ip fp -> occurs flag_i (unit_regex u) s.
Proof.
  intros (pre & ws & tok & post & -> & Hnum & Hws & Htok).
  exists pre, (numeral_text ip fp ++ ws ++ tok), post.
  split; [now rewrite <- !app_assoc|].
  now apply phrase_Matches.
Qed.

(** The first size phrase of a unit is one numeral. *)
Lemma first_size_phrase_unique u s ip fp ip' fp' :
  first_size_phrase u s ip fp -> first_size_phrase u s ip' fp' ->
  ip = ip' /\ fp = fp'.
Proof.
  intros (pre & ws & tok & post & E & Hnum & Hws & Htok & Hleft)
         (pre' & ws' & tok' & post' & E' & Hnum' & Hws' & Htok' & Hleft').
  pose proof (Hleft _ _ _ _ _ _ E' Hnum' Hws' Htok') as H1.
  pose proof (Hleft' _ _ _ _ _ _ E Hnum Hws Htok) as H2.
  rewrite E in E'.
  destruct (app_prefix pre pre' _ _ H1 E') as (z & Ez & Er).
  assert (z = []) as ->.
  { rewrite Ez, length_app in H2. destruct z; [reflexivity | cbn in H2; lia]. }
  cbn [app] in Er.
  destruct (after_numeral u ws tok post Hws Htok) as (x & r & Ex & Hx).
  destruct (after_numeral u ws' tok' post' Hws' Htok') as (y & r' & Ey & Hy).
  rewrite Ex, Ey in Er.
  apply (numeral_text_inj ip fp ip' fp' Hnum Hnum').
  eapply (run_split PriceSpec.numeral_char);
    [now apply numeral_chars | now apply numeral_chars
     | exact Hx | exact Hy | exact Er].
Qed.

Lemma exec_unit_none u s :
  lower_case s ->
  exec flag_i (unit_regex u) s = None <->
  ~ exists ip fp, size_phrase u s ip fp.
Proof.
  intros Hlow. split.
  - intros H (ip & fp & Hp).
    apply exec_none_iff in H. apply H. eapply phrase_occurs, Hp.
  - intros Hno. destruct (exec flag_i (unit_regex u) s) as [m|] eqn:E;
      [|reflexivity].
    exfalso. apply Hno.
    destruct (exec_unit_phrase u s m Hlow E) as (ip & fp & Hp & _).
    exists ip, fp. now apply first_is_phrase.
Qed.

(** When the text holds a size phrase of the unit, the pattern matches, and
    group 1 reads as the value of the numeral of the first one. *)
Lemma exec_unit_some u s :
  lower_case s ->
  (exists ip fp, size_phrase u s ip fp) ->
  exists m,
    exec flag_i (unit_regex u) s = Some m
    /\ (exists ip fp, first_size_phrase u s ip fp)
    /\ forall ip fp,
         first_size_phrase u s ip fp ->
         parseFloat (group 1 m) = number (numeral_value ip fp).
Proof.
  intros Hlow (ip0 & fp0 & Hp0).
  apply phrase_occurs, exec_some_iff in Hp0 as (m & Hm).
  destruct (exec_unit_phrase u s m Hlow Hm) as (ip & fp & Hp & Hg).
  exists m. split; [exact Hm|]. split; [now exists ip, fp|].
  intros ip' fp' Hp'.
  destruct (first_size_phrase_unique u s ip' fp' ip fp Hp' Hp) as [-> ->].
  rewrite Hg. apply parseFloat_numeral.
  now destruct Hp as (_ & _ & _ & _ & _ & Hnum & _).
Qed.

(** The cascade of parseSize; on the empty text no pattern matches. *)
Lemma parseSize_cascade t :
  parseSize t =
  let lowerText := Str.toLowerCase t in
  match exec flag_i re_perch lowerText with
  | Some perchMatch => Some (parseFloat (group 1 perchMatch))
  | None =>
  match exec flag_i re_acre lowerText with
  | Some acreMatch => Some (Js.mul (parseFloat (group 1 acreMatch)) (of_Z 160))
  | None =>
  match exec flag_i re_rood lowerText with
  | Some roodMatch => Some (Js.mul (parseFloat (group 1 roodMatch)) (of_Z 40))
  | None => None
  end end end.
Proof. destruct t; reflexivity. Qed.

End SizeFacts.

Import SizeSpec.

(** C4: parseSize works on the lower-cased text, so letter case does not
    matter.  When the text holds a numeral, white space and a perch token
    (perch, perches, or p at a word boundary), the result is the value of
    the numeral of the first such phrase, the one that starts furthest to
    the left; otherwise, when it holds an acre token (acre, acres, ac) after
    a numeral, the value of the numeral of the first such phrase times 160;
    otherwise, for a rood token (rood, roods, or r at a word boundary), the
    value times 40; and when no unit token follows a numeral the result is
    null.  Values and products are doubles: the value of a numeral is the
    double nearest to it and a product is rounded again.
    parseSize("10 perches") is 10, parseSize("0.5 acres") is 80 and
    parseSize("2 roods") is 80; parseSize("125 perches") is 125, and
    parseSize("0.07 acres") is the double 11.200000000000001. *)
Theorem parseSize_units (t : text) :
  let s := Str.toLowerCase t in
  let has u := exists ip fp, size_phrase u s ip fp in
  let reads u :=
    (exists ip fp, first_size_phrase u s ip fp)
    /\ forall ip fp,
         first_size_phrase u s ip fp ->
         parseSize t = Some (unit_size u (numeral_value ip fp)) in
  (has Perch -> reads Perch)
  /\ (~ has Perch -> has Acre -> reads Acre)
  /\ (~ has Perch -> ~ has Acre -> has Rood -> reads Rood)
  /\ (~ has Perch -> ~ has Acre -> ~ has Rood -> parseSize t = None)
  /\ parseSize (Str.toLowerCase t) = parseSize t
  /\ parseSize (txt "10 perches") = Some (Fin 10)
  /\ parseSize (txt "0.5 acres") = Some (Fin 80)
  /\ parseSize (txt "2 roods") = Some (Fin 80)
  /\ parseSize (txt "125 perches") = Some (Fin 125)
  /\ parseSize (txt "0.07 acres")
     = Some (Fin (6305039478318695 # 562949953421312)).
Proof.
  intros s has reads.
  assert (Hlow : lower_case s) by apply CharFacts.toLowerCase_idem.
  pose proof (SizeFacts.parseSize_cascade t) as Hc. cbn zeta in Hc.
  fold s in Hc.
  change re_perch with (unit_regex Perch) in Hc.
  change re_acre with (unit_regex Acre) in Hc.
  change re_rood with (unit_regex Rood) in Hc.
  split; [|split; [|split; [|split; [|split]]]].
  - intros H.
    destruct (SizeFacts.exec_unit_some Perch s Hlow H) as (m & Hm & Hex & Hv).
    split; [exact Hex|]. intros ip fp Hp.
    now rewrite Hc, Hm, (Hv ip fp Hp).
  - intros Hn1 H.
    apply (SizeFacts.exec_unit_none Perch s Hlow) in Hn1.
    destruct (SizeFacts.exec_unit_some Acre s Hlow H) as (m & Hm & Hex & Hv).
    split; [exact Hex|]. intros ip fp Hp.
    now rewrite Hc, Hn1, Hm, (Hv ip fp Hp).
  - intros Hn1 Hn2 H.
    apply (SizeFacts.exec_unit_none Perch s Hlow) in Hn1.
    apply (SizeFacts.exec_unit_none Acre s Hlow) in Hn2.
    destruct (SizeFacts.exec_unit_some Rood s Hlow H) as (m & Hm & Hex & Hv).
    split; [exact Hex|]. intros ip fp Hp.
    now rewrite Hc, Hn1, Hn2, Hm, (Hv ip fp Hp).
  - intros Hn1 Hn2 Hn3.
    apply (SizeFacts.exec_unit_none Perch s Hlow) in Hn1.
    apply (SizeFacts.exec_unit_none Acre s Hlow) in Hn2.
    apply (SizeFacts.exec_unit_none Rood s Hlow) in Hn3.
    now rewrite Hc, Hn1, Hn2, Hn3.
  - rewrite !SizeFacts.parseSize_cascade. cbn zeta.
    now rewrite CharFacts.toLowerCase_idem.
  - repeat split; vm_compute; reflexivity.
Qed.

Lemma parseSize_units_witness :
  parseSize (txt "20 P")
  = Some (unit_size Perch (numeral_value (txt "20") None)).
Proof.
  assert (Hnum : is_numeral (txt "20") None)
    by (split; [discriminate | split; reflexivity]).
  assert (Htok : unit_token Perch (txt "p") [])
    by (right; exists "p"%char; repeat split).
  apply (proj1 (parseSize_units (txt "20 P"))).
  - exists (txt "20"), None, [], (txt " "), (txt "p"), [].
    split; [reflexivity|]. split; [exact Hnum|].
    split; [reflexivity | exact Htok].
  - exists [], (txt " "), (txt "p"), [].
    split; [reflexivity|]. split; [exact Hnum|].
    split; [reflexivity|]. split; [exact Htok|].
    intros. apply Nat.le_0_l.
Defined.

(** *** Region resolver *)

Module RegionFacts.

Import RegionSpec.

Lemma startsWith_spec s p :
  Str.startsWith s p = true <-> exists post, s = p ++ post.
Proof.
  revert s. induction p as [|a p IH]; intros s.
  - split; [intros _; now exists s | intros _; now destruct s].
  - destruct s as [|b s]; cbn [Str.startsWith].
    + split; [discriminate | intros (post & E); discriminate E].
    + rewrite andb_true_iff, Ascii.eqb_eq, IH. split.
      * intros (-> & post & ->). now exists post.
      * intros (post & E). injection E as -> ->. split; [reflexivity|].
        now exists post.
Qed.

Theorem includes_spec s sub : Str.includes s sub = true <-> substring sub s.
Proof.
  unfold substring. induction s as [|c s IH]; cbn [Str.includes].
  - rewrite orb_false_r, startsWith_spec. split.
    + intros (post & E). now exists [], post.
    + intros (pre & post & E).
      apply eq_sym, app_eq_nil in E as [-> E].
      apply app_eq_nil in E as [-> ->]. now exists [].
  - rewrite orb_true_iff, startsWith_spec, IH. split.
    + intros [(post & E) | (pre & post & E)].
      * now exists [], post.
      * exists (c :: pre), post. now rewrite E.
    + intros (pre & post & E). destruct pre as [|c' pre].
      * left. now exists post.
      * right. injection E as -> E. now exists pre, post.
Qed.

Lemma includes_false s sub : Str.includes s sub = false <-> ~ substring sub s.
Proof.
  rewrite <- includes_spec. destruct (Str.includes s sub); split; congruence.
Qed.

Lemma first_some_None {A B : Type} (g : A -> option B) (l : list A) :
  first_some g l = None <-> forall x, In x l -> g x = None.
Proof.
  induction l as [|x l IH]; cbn [first_some].
  - split; [intros _ x [] | reflexivity].
  - destruct (g x) eqn:E.
    + split; [discriminate|]. intros H.
      specialize (H x (or_introl eq_refl)). congruence.
    + rewrite IH. split.
      * intros H y [<- | Hy]; [exact E | now apply H].
      * intros H y Hy. apply H. now right.
Qed.

Lemma first_some_Some {A B : Type} (g : A -> option B) (l : list A) y :
  first_some g l = Some y -> exists x, In x l /\ g x = Some y.
Proof.
  induction l as [|x l IH]; cbn [first_some]; [discriminate|].
  destruct (g x) eqn:E.
  - intros H. injection H as <-. exists x. split; [now left | exact E].
  - intros H. destruct (IH H) as (x' & Hin & Hx'). exists x'.
    split; [now right | exact Hx'].
Qed.

(** *** The parts of a location text *)

Section Split.

Variable sep : ascii -> bool.

Let free (l : text) : Prop := forallb (fun c => negb (sep c)) l = true.

(** A stretch without separator that reaches on each side to a separator or
    to the end of the text. *)
Let piece (seg s : text) : Prop :=
  exists pre post,
    s = pre ++ seg ++ post
    /\ free seg
    /\ (pre = [] \/ exists pre' c, pre = pre' ++ [c] /\ sep c = true)
    /\ (post = [] \/ exists c post', post = c :: post' /\ sep c = true).

Lemma split_on_shape s :
  exists first rest,
    Str.split_on sep s = first :: rest
    /\ free first
    /\ ((rest = [] /\ s = first)
        \/ exists c s', sep c = true /\ s = first ++ c :: s'
                        /\ rest = Str.split_on sep s').
Proof.
  unfold free. induction s as [|c s IH].
  - exists [], []. split; [reflexivity|]. split; [reflexivity|]. now left.
  - destruct IH as (first & rest & E & Hf & Hr).
    cbn [Str.split_on]. rewrite E. destruct (sep c) eqn:Ec.
    + exists [], (first :: rest). split; [reflexivity|].
      split; [reflexivity|]. right. exists c, s. now rewrite E.
    + exists (c :: first), rest. split; [reflexivity|]. split.
      * cbn [forallb]. now rewrite Ec, Hf.
      * destruct Hr as [[-> ->] | (d & s' & Hd & -> & ->)].
        -- now left.
        -- right. exists d, s'. now repeat split.
Qed.

(** A text begins with one stretch without separator only. *)
Lemma free_prefix_unique (a b ta tb : text) :
  free a -> free b -> a ++ ta = b ++ tb ->
  (ta = [] \/ exists c t, ta = c :: t /\ sep c = true) ->
  (tb = [] \/ exists c t, tb = c :: t /\ sep c = true) ->
  a = b /\ ta = tb.
Proof.
  unfold free. revert b. induction a as [|x a IH]; intros b Ha Hb E Hta Htb.
  - destruct b as [|y b]; [now split|]. exfalso.
    cbn [forallb] in Hb. apply andb_prop in Hb as [Hy _].
    cbn [app] in E. destruct Hta as [-> | (c & t & -> & Hc)];
      [discriminate E|].
    injection E as -> _. rewrite Hc in Hy. discriminate Hy.
  - cbn [forallb] in Ha. apply andb_prop in Ha as [Hx Ha].
    destruct b as [|y b].
    + exfalso. cbn [app] in E.
      destruct Htb as [-> | (c & t & -> & Hc)]; [discriminate E|].
      injection E as -> _. rewrite Hc in Hx. discriminate Hx.
    + cbn [forallb] in Hb. apply andb_prop in Hb as [_ Hb].
      cbn [app] in E. injection E as -> E.
      destruct (IH b Ha Hb E Hta Htb) as [-> ->]. now split.
Qed.

(** A text is without separator, or has a first separator. *)
Lemma first_separator (l : text) :
  free l \/ exists a d b, l = a ++ d :: b /\ free a /\ sep d = true.
Proof.
  unfold free. induction l as [|x l IH]; [now left|].
  destruct (sep x) eqn:Ex.
  - right. exists [], x, l. now repeat split.
  - destruct IH as [Hl | (a & d & b & -> & Ha & Hd)].
    + left. cbn [forallb]. now rewrite Ex, Hl.
    + right. exists (x :: a), d, b. repeat split; [|exact Hd].
      cbn [forallb]. now rewrite Ex, Ha.
Qed.

Lemma split_on_pieces_aux (n : nat) :
  forall s seg, (length s <= n)%nat ->
    (In seg (Str.split_on sep s) <-> piece seg s).
Proof.
  induction n as [|n IH]; intros s seg Hlen.
  - destruct s; [|cbn in Hlen; lia]. cbn [Str.split_on]. split.
    + intros [<- | []]. exists [], []. repeat split; now left.
    + intros (pre & post & E & _).
      apply eq_sym, app_eq_nil in E as [_ E].
      apply app_eq_nil in E as [-> _]. now left.
  - destruct (split_on_shape s) as (first & rest & E & Hf & Hr).
    rewrite E. split.
    + intros [<- | Hin].
      * destruct Hr as [[-> ->] | (c & s' & Hc & -> & ->)].
        -- exists [], []. rewrite app_nil_r.
           repeat split; try (now left). exact Hf.
        -- exists [], (c :: s').
           repeat split; [exact Hf | now left |].
           right. now exists c, s'.
      * destruct Hr as [[-> _] | (c & s' & Hc & -> & ->)]; [destruct Hin|].
        apply (IH s' seg) in Hin;
          [|rewrite length_app in Hlen; cbn [length] in Hlen; lia].
        destruct Hin as (pre & post & -> & Hseg & Hpre & Hpost).
        exists (first ++ c :: pre), post.
        split; [now rewrite <- app_assoc|]. split; [exact Hseg|].
        split; [|exact Hpost]. right.
        destruct Hpre as [-> | (pre' & d & -> & Hd)].
        -- now exists first, c.
        -- exists (first ++ c :: pre'), d.
           split; [now rewrite <- app_assoc | exact Hd].
    + intros (pre & post & Es & Hseg & Hpre & Hpost).
      destruct Hpre as [-> | (pre' & d & -> & Hd)].
      * left. cbn [app] in Es.
        destruct Hr as [[-> ->] | (c & s' & Hc & Es' & ->)].
        -- rewrite <- (app_nil_r first) in Es at 1.
           destruct (free_prefix_unique seg first post [] Hseg Hf
                       (eq_sym Es) Hpost (or_introl eq_refl)) as [-> _].
           reflexivity.
        -- rewrite Es' in Es.
           destruct (free_prefix_unique seg first post (c :: s') Hseg Hf
                       (eq_sym Es) Hpost) as [-> _];
             [right; now exists c, s' | reflexivity].
      * right.
        destruct Hr as [[-> ->] | (c & s' & Hc & -> & ->)].
        { exfalso. unfold free in Hf. rewrite Es in Hf.
          rewrite !forallb_app in Hf. apply andb_prop in Hf as [Hf _].
          apply andb_prop in Hf as [_ Hf]. cbn [forallb] in Hf.
          rewrite Hd in Hf. discriminate Hf. }
        apply (IH s' seg);
          [rewrite length_app in Hlen; cbn [length] in Hlen; lia|].
        destruct (first_separator pre') as [Hfree | (a & e & b & -> & Ha & He)].
        -- rewrite <- !app_assoc in Es. cbn [app] in Es.
           destruct (free_prefix_unique first pre' (c :: s')
                       (d :: seg ++ post) Hf Hfree Es)
             as [_ Et]; [right; now exists c, s' | right; now eexists; eexists|].
           injection Et as _ ->.
           exists [], post. repeat split; [exact Hseg | now left | exact Hpost].
        -- rewrite <- !app_assoc in Es. cbn [app] in Es.
           destruct (free_prefix_unique first a (c :: s')
                       (e :: b ++ d :: seg ++ post) Hf Ha Es)
             as [_ Et]; [right; now exists c, s' | right; now eexists; eexists|].
           injection Et as _ ->.
           exists (b ++ [d]), post.
           split; [now rewrite <- app_assoc|]. split; [exact Hseg|].
           split; [|exact Hpost]. right. now exists b, d.
Qed.

Lemma split_on_pieces s seg :
  In seg (Str.split_on sep s) <-> piece seg s.
Proof. apply (split_on_pieces_aux (length s)). lia. Qed.

End Split.

Lemma is_separator_spec c : is_separator c = true <-> separator c.
Proof.
  unfold is_separator, separator. cbn [In].
  rewrite !orb_true_iff, !Ascii.eqb_eq. intuition congruence.
Qed.

(** The parts that the code computes are the parts of the text. *)
Theorem location_parts_spec (lowerText part : text) :
  In part (location_parts lowerText) <-> part_of part lowerText.
Proof.
  unfold location_parts, part_of.
  rewrite filter_In, in_map_iff. split.
  - intros ((seg & <- & Hin) & Hlen).
    apply split_on_pieces in Hin
      as (pre & post & E & Hfree & Hpre & Hpost).
    exists pre, seg, post. split; [exact E|]. split.
    { intros c Hc Hs. apply is_separator_spec in Hs.
      rewrite forallb_forall in Hfree. specialize (Hfree c Hc).
      rewrite Hs in Hfree. discriminate Hfree. }
    split.
    { destruct Hpre as [-> | (pre' & c & -> & Hc)]; [now left|].
      right. exists pre', c. split; [reflexivity|].
      now apply is_separator_spec. }
    split.
    { destruct Hpost as [-> | (c & post' & -> & Hc)]; [now left|].
      right. exists c, post'. split; [reflexivity|].
      now apply is_separator_spec. }
    split; [reflexivity|].
    destruct (Str.trim seg); [discriminate Hlen | discriminate].
  - intros (pre & seg & post & E & Hfree & Hpre & Hpost & -> & Hne).
    split.
    + exists seg. split; [reflexivity|]. apply split_on_pieces.
      exists pre, post. split; [exact E|]. split.
      { apply forallb_forall. intros c Hc.
        destruct (is_separator c) eqn:Ec; [|reflexivity].
        exfalso. apply (Hfree c Hc). now apply is_separator_spec. }
      split.
      { destruct Hpre as [-> | (pre' & c & -> & Hc)]; [now left|].
        right. exists pre', c. split; [reflexivity|].
        now apply is_separator_spec. }
      { destruct Hpost as [-> | (c & post' & -> & Hc)]; [now left|].
        right. exists c, post'. split; [reflexivity|].
        now apply is_separator_spec. }
    + destruct (Str.trim seg); [contradiction | reflexivity].
Qed.

(** *** The lookup in the mapping object *)

Lemma own_entry_In m key v : own_entry m key = Some v -> In (key, v) m.
Proof.
  induction m as [|[k v'] m IH]; cbn [own_entry]; [discriminate|].
  unfold Str.text_eqb. case_bool_decide as E.
  - intros H. injection H as <-. subst k. now left.
  - intros H. right. now apply IH.
Qed.

Lemma own_entry_None m key :
  own_entry m key = None <-> forall v, ~ In (key, v) m.
Proof.
  induction m as [|[k v'] m IH]; cbn [own_entry].
  - split; [intros _ v [] | reflexivity].
  - unfold Str.text_eqb. case_bool_decide as E.
    + split; [discriminate|]. intros H. exfalso. apply (H v').
      left. now subst k.
    + rewrite IH. split.
      * intros H v [Hv | Hv]; [congruence | now apply (H v)].
      * intros H v Hv. apply (H v). now right.
Qed.

Lemma inherited_spec key :
  existsb (Str.text_eqb key) object_prototype = true
  <-> In key object_prototype.
Proof.
  rewrite existsb_exists. unfold Str.text_eqb. split.
  - intros (x & Hin & Hx). apply bool_decide_eq_true in Hx. now subst x.
  - intros Hin. exists key. split; [exact Hin|].
    now apply bool_decide_eq_true.
Qed.

(** A part that is no key and names no inherited property is no property
    of the mapping object. *)
Lemma mapping_get_None m key :
  mapping_get m key = None
  <-> (forall v, ~ In (key, v) m) /\ ~ In key object_prototype.
Proof.
  unfold mapping_get. rewrite <- own_entry_None, <- inherited_spec.
  destruct (own_entry m key).
  - split; [discriminate | now intros [H _]].
  - destruct (existsb _ object_prototype).
    + split; [discriminate | intros [_ H]; now contradiction H].
    + split; [intros _; split; [reflexivity | discriminate] | reflexivity].
Qed.

(** The tiers over the mapping give nothing exactly when none of the
    three tiers matches and no part names an inherited property. *)
Lemma mapping_tiers_None m lowerText :
  mapping_tiers m lowerText (location_parts lowerText) = None <->
  ~ (exact_tier m lowerText \/ containment_tier m lowerText
     \/ full_text_tier m lowerText)
  /\ ~ inherited_part lowerText.
Proof.
  unfold mapping_tiers. split.
  - destruct (exact_part_lookup m _) eqn:E1; [discriminate|].
    destruct (containment_lookup m _) eqn:E2; [discriminate|].
    intros H.
    destruct (full_text_lookup m lowerText) eqn:E3; [discriminate|]. clear H.
    unfold exact_part_lookup in E1.
    unfold containment_lookup in E2. unfold full_text_lookup in E3.
    rewrite first_some_None in E1. rewrite first_some_None in E2.
    rewrite first_some_None in E3.
    assert (Hcont : ~ containment_tier m lowerText).
    { intros (part & gnd & mc & Hp & Hin & Hsub).
      apply location_parts_spec in Hp.
      specialize (E2 part Hp). rewrite first_some_None in E2.
      specialize (E2 (gnd, mc) Hin). cbn in E2.
      assert (Hor : Str.includes part gnd || Str.includes gnd part = true).
      { apply orb_true_iff. rewrite !includes_spec. exact Hsub. }
      rewrite Hor in E2. discriminate. }
    assert (Hexact : ~ exact_tier m lowerText).
    { intros (part & mc & Hp & Hin). apply Hcont.
      exists part, part, mc. repeat split; try assumption.
      left. exists [], []. now rewrite app_nil_r. }
    split.
    + intros [Hex | [Hc | Hfull]]; [contradiction | contradiction |].
      destruct Hfull as (gnd & mc & Hin & Hsub).
      specialize (E3 (gnd, mc) Hin). cbn in E3.
      apply includes_spec in Hsub. rewrite Hsub in E3. discriminate.
    + intros (part & Hp & Hin).
      pose proof Hp as Hp'. apply location_parts_spec in Hp'.
      specialize (E1 part Hp'). unfold mapping_get in E1.
      destruct (own_entry m part) as [v|] eqn:Eo.
      * apply Hexact. exists part, v. split; [exact Hp|].
        now apply own_entry_In.
      * apply inherited_spec in Hin. rewrite Hin in E1. discriminate E1.
  - intros [Hno Hinh].
    assert (E1 : exact_part_lookup m (location_parts lowerText) = None).
    { apply first_some_None. intros part Hp.
      apply location_parts_spec in Hp.
      assert (Hg : mapping_get m part = None).
      { apply mapping_get_None. split.
        - intros v Hin. apply Hno. left. now exists part, v.
        - intros Hin. apply Hinh. now exists part. }
      now rewrite Hg. }
    rewrite E1.
    assert (E2 : containment_lookup m (location_parts lowerText) = None).
    { apply first_some_None. intros part Hp.
      apply location_parts_spec in Hp.
      apply first_some_None. intros [gnd mc] Hin.
      destruct (Str.includes part gnd || Str.includes gnd part) eqn:E;
        [|reflexivity].
      exfalso. apply Hno. right. left. exists part, gnd, mc.
      repeat split; try assumption.
      apply orb_true_iff in E. now rewrite !includes_spec in E. }
    rewrite E2.
    assert (E3 : full_text_lookup m lowerText = None).
    { apply first_some_None. intros [gnd mc] Hin.
      destruct (Str.includes lowerText gnd) eqn:E; [|reflexivity].
      exfalso. apply Hno. right. right. exists gnd, mc.
      split; [exact Hin | now apply includes_spec]. }
    now rewrite E3.
Qed.

Lemma existsb_includes lowerText areas :
  existsb (fun loc => Str.includes lowerText loc) areas = true <->
  exists loc, In loc areas /\ substring loc lowerText.
Proof.
  rewrite existsb_exists. split; intros (loc & Hin & H); exists loc;
    (split; [exact Hin | now apply includes_spec]).
Qed.

(** The fallback gives "Other" exactly when no name of the three lists
    occurs in the text, and never gives "Unknown". *)
Lemma area_fallback_Other lowerText :
  area_fallback lowerText = txt "Other" <-> ~ area_list_tier lowerText.
Proof.
  unfold area_fallback, area_list_tier.
  destruct (existsb _ kaduwelaAreas) eqn:E1.
  { split; [discriminate|]. intros H. exfalso. apply H.
    apply existsb_includes in E1 as (loc & Hin & Hs).
    exists loc. split; [|exact Hs]. apply in_or_app. now left. }
  destruct (existsb _ kotteAreas) eqn:E2.
  { split; [discriminate|]. intros H. exfalso. apply H.
    apply existsb_includes in E2 as (loc & Hin & Hs).
    exists loc. split; [|exact Hs].
    apply in_or_app. right. apply in_or_app. now left. }
  destruct (existsb _ colomboAreas) eqn:E3.
  { split; [discriminate|]. intros H. exfalso. apply H.
    apply existsb_includes in E3 as (loc & Hin & Hs).
    exists loc. split; [|exact Hs].
    apply in_or_app. right. apply in_or_app. now right. }
  split; [|reflexivity]. intros _ (loc & Hin & Hs).
  assert (Hex : forall areas, In loc areas ->
                  existsb (fun l => Str.includes lowerText l) areas = true)
    by (intros areas Ha; apply existsb_includes; now exists loc).
  apply in_app_or in Hin as [Hin | Hin];
    [|apply in_app_or in Hin as [Hin | Hin]];
    apply Hex in Hin; congruence.
Qed.

Lemma area_fallback_not_Unknown lowerText :
  area_fallback lowerText <> txt "Unknown".
Proof.
  unfold area_fallback.
  repeat match goal with
         | |- context [if ?b then _ else _] => destruct b
         end; discriminate.
Qed.

End RegionFacts.

Import RegionSpec.

(** C5: with the mapping loaded, a location text with a part that names a
    property that every object inherits is answered by the first loop with
    that property.  For the text "Constructor" and a mapping that has no key
    under that name, getMunicipalCouncil returns the inherited value, which
    is no string and so not "Other"; the same holds of "__proto__".  Yet
    with a mapping whose only key is "malabe" no tier matches the text: no
    part equals a key, contains a key or occurs in one, the text contains no
    key and no name of the three hardcoded lists.  The same text without
    the mapping gives "Other", and the absent and the empty text give
    "Unknown". *)
Theorem getMunicipalCouncil_inherited_property :
  let mapping := [(txt "malabe", txt "Kaduwela MC")] in
  (forall m : Mapping,
     own_entry m (txt "constructor") = None ->
     getMunicipalCouncil (Some m) (Some (txt "Constructor"))
     = Inherited (txt "constructor"))
  /\ (forall m : Mapping,
        own_entry m (txt "__proto__") = None ->
        getMunicipalCouncil (Some m) (Some (txt "__proto__"))
        = Inherited (txt "__proto__"))
  /\ getMunicipalCouncil (Some mapping) (Some (txt "Constructor"))
     <> Name (txt "Other")
  /\ ~ some_tier_matches (Some mapping) (lowered (txt "Constructor"))
  /\ getMunicipalCouncil None (Some (txt "Constructor")) = Name (txt "Other")
  /\ getMunicipalCouncil (Some mapping) None = Name (txt "Unknown")
  /\ getMunicipalCouncil (Some mapping) (Some []) = Name (txt "Unknown").
Proof.
  intros mapping.
  assert (Hget : forall (m : Mapping) (t key : text),
            location_parts (lowered t) = [key] -> t <> [] ->
            In key object_prototype ->
            own_entry m key = None ->
            getMunicipalCouncil (Some m) (Some t) = Inherited key).
  { intros m t key Hparts Hne Hin Hown.
    destruct t as [|c t]; [contradiction|].
    unfold getMunicipalCouncil.
    change (default [] (Some (c :: t))) with (c :: t).
    cbn [Str.truthy_opt Str.truthy negb]. fold (lowered (c :: t)).
    rewrite Hparts. unfold mapping_tiers, exact_part_lookup.
    cbn [first_some]. unfold mapping_get. rewrite Hown.
    apply RegionFacts.inherited_spec in Hin. now rewrite Hin. }
  split; [|split; [|split; [|split; [|split; [|split]]]]].
  - intros m Hown. apply Hget; [reflexivity | discriminate | | exact Hown].
    vm_compute. tauto.
  - intros m Hown. apply Hget; [reflexivity | discriminate | | exact Hown].
    vm_compute. tauto.
  - assert (E : getMunicipalCouncil (Some mapping) (Some (txt "Constructor"))
                = Inherited (txt "constructor")).
    { apply Hget; [reflexivity | discriminate | | reflexivity].
      vm_compute. tauto. }
    intros H. rewrite E in H. discriminate H.
  - assert (Hpart : forall part,
              part_of part (lowered (txt "Constructor")) ->
              part = txt "constructor").
    { intros part Hp. apply RegionFacts.location_parts_spec in Hp.
      destruct Hp as [<- | []]. reflexivity. }
    assert (Hkey : forall gnd mc, In (gnd, mc) mapping -> gnd = txt "malabe").
    { intros gnd mc [H | []]. now injection H as <- _. }
    intros [(m & E & Htier) | Harea].
    + injection E as <-.
      destruct Htier as [(part & mc & Hp & Hin)
                        | [(part & gnd & mc & Hp & Hin & Hsub)
                          | (gnd & mc & Hin & Hsub)]].
      * apply Hpart in Hp. apply Hkey in Hin. subst part. discriminate Hin.
      * apply Hpart in Hp. apply Hkey in Hin. subst part gnd.
        rewrite <- !RegionFacts.includes_spec in Hsub.
        destruct Hsub as [H | H]; vm_compute in H; discriminate H.
      * apply Hkey in Hin. subst gnd.
        apply RegionFacts.includes_spec in Hsub.
        vm_compute in Hsub. discriminate Hsub.
    + revert Harea.
      apply (RegionFacts.area_fallback_Other (lowered (txt "Constructor"))).
      reflexivity.
  - reflexivity.
  - reflexivity.
  - reflexivity.
Qed.

(** *** parsePrice *)

(** C3, at a price in lakhs or crores written with a thousands
    separator: the patterns for lakh and crore run on the original text, so
    the separator cuts the number ("Rs 1,250 Lakhs" gives 250 lakhs,
    25,000,000, where the text without the separator gives 125,000,000),
    while the pattern for M runs on the stripped text ("Rs 1,250M" gives
    1,250,000,000).  The three examples of the claim hold. *)
Theorem parsePrice_lakhs_keep_separator :
  parsePrice (txt "Rs 1,250 Lakhs") = Some (Fin 25000000)
  /\ parsePrice (txt "Rs 1250 Lakhs") = Some (Fin 125000000)
  /\ parsePrice (txt "Rs 1,200 Crore") = Some (Fin 2000000000)
  /\ parsePrice (txt "Rs 1200 Crore") = Some (Fin 12000000000)
  /\ parsePrice (txt "Rs 1,250M") = Some (Fin 1250000000)
  /\ parsePrice (txt "Rs 2,500,000") = Some (Fin 2500000)
  /\ parsePrice (txt "Rs. 38M") = Some (Fin 38000000)
  /\ parsePrice (txt "Rs 25 Lakhs") = Some (Fin 2500000).
Proof. repeat split; vm_compute; reflexivity. Qed.

(** What holds of parsePrice on other inputs: letter case of the
    suffixes and of the currency markers, fractions, rounding, and null for
    text without a number. *)
Lemma parsePrice_examples :
  parsePrice (txt "rs. 38m") = Some (Fin 38000000)
  /\ parsePrice (txt "LKR 2.5 LAKHS") = Some (Fin 250000)
  /\ parsePrice (txt "Rs 1.5 crore") = Some (Fin 15000000)
  /\ parsePrice (txt "Rs 1,234.5") = Some (Fin 1235)
  /\ parsePrice (txt "Rs 0.0000004M") = Some (Fin 0)
  /\ parsePrice (txt "Negotiable") = None
  /\ parsePrice (txt "") = None.
Proof. repeat split; vm_compute; reflexivity. Qed.

(** *** priceTotal of a card *)

Import SizeSpec.

(** A parsed size is a number that is not negative, or Infinity. *)
Lemma parseSize_nonneg t x :
  parseSize t = Some x -> x = PInf \/ exists q, x = Fin q /\ (0 <= q)%Q.
Proof.
  rewrite SizeFacts.parseSize_cascade. cbn zeta.
  set (s := Str.toLowerCase t).
  assert (Hlow : lower_case s) by apply CharFacts.toLowerCase_idem.
  assert (Hgroup : forall u m,
    exec flag_i (unit_regex u) s = Some m ->
    parseFloat (group 1 m) = PInf
    \/ exists v, parseFloat (group 1 m) = Fin v /\ (0 <= v)%Q).
  { intros u m Hm.
    destruct (SizeFacts.exec_unit_phrase u s m Hlow Hm)
      as (ip & fp & (_ & _ & _ & _ & _ & Hnum & _) & Hg).
    rewrite Hg, (WordFacts.parseFloat_numeral ip fp Hnum).
    apply NumberFacts.number_nonneg.
    now apply WordFacts.numeral_value_nonneg. }
  assert (Hmul : forall y k,
    (y = PInf \/ exists v, y = Fin v /\ (0 <= v)%Q) -> 0 < k ->
    Js.mul y (of_Z k) = PInf
    \/ exists q, Js.mul y (of_Z k) = Fin q /\ (0 <= q)%Q).
  { intros y k [-> | (v & -> & Hv)] Hk.
    - left. unfold Js.mul, of_Z, Qsgn, inject_Z. cbn [Qnum].
      destruct k; (lia || reflexivity).
    - unfold Js.mul, of_Z. apply NumberFacts.number_nonneg.
      apply Qmult_le_0_compat; [exact Hv|].
      unfold Qle, inject_Z. cbn [Qnum Qden]. lia. }
  destruct (exec flag_i re_perch s) as [m|] eqn:E1.
  { intros H. injection H as <-. exact (Hgroup Perch m E1). }
  destruct (exec flag_i re_acre s) as [m|] eqn:E2.
  { intros H. injection H as <-.
    exact (Hmul _ 160 (Hgroup Acre m E2) ltac:(lia)). }
  destruct (exec flag_i re_rood s) as [m|] eqn:E3; [|discriminate].
  intros H. injection H as <-.
  exact (Hmul _ 40 (Hgroup Rood m E3) ltac:(lia)).
Qed.

(** Both adapters store [total_price] of the per-perch mark of the price
    text, the parsed price and the parsed size. *)
Lemma extractFromCard_priceTotal (scraper : Scraper) E card l :
  scraper = IkmanScraper \/ scraper = LPWScraper ->
  extractFromCard scraper E card = Some l ->
  priceTotal l
  = total_price (Re.test flag_i re_per_perch (priceRaw l))
                (parsePrice (priceRaw l)) (sizePerches l)
  /\ exists sizeText, sizePerches l = parseSize sizeText.
Proof.
  intros [-> | ->]; [unfold IkmanScraper | unfold LPWScraper];
    cbn [extractFromCard]; unfold try_catch.
  - unfold ikman_extract_body.
    destruct (card_querySelector card Sel_ad_link) as [found_link|];
      cbn [obind]; [|now intros H].
    destruct (or_text _ _) as [u|]; [|now intros H].
    destruct (negb (Str.truthy u) || negb (Str.includes u (txt "/ad/")));
      [now intros H|].
    destruct (card_querySelector card Sel_ikman_title) as [titleEl|];
      cbn [obind]; [|now intros H].
    destruct (card_querySelector card Sel_ikman_price) as [priceEl|];
      cbn [obind]; [|now intros H].
    intros H. injection H as <-. cbn [priceTotal priceRaw sizePerches].
    split; [reflexivity | now eexists].
  - unfold lpw_extract_body.
    destruct (card_querySelector card Sel_property_link) as [[link|]|];
      cbn [obind]; try (now intros H).
    destruct (href link) as [u|]; [|now intros H].
    destruct (card_querySelector card Sel_lpw_title) as [titleEl|];
      cbn [obind]; [|now intros H].
    destruct (card_querySelector card Sel_lpw_location) as [locationEl|];
      cbn [obind]; [|now intros H].
    destruct (card_querySelector card Sel_lpw_price) as [priceEl|];
      cbn [obind]; [|now intros H].
    destruct (card_querySelector card Sel_lpw_size) as [sizeEl|];
      cbn [obind]; [|now intros H].
    destruct (card_querySelector card Sel_card_map_link) as [mapLink|];
      cbn [obind]; [|now intros H].
    intros H. injection H as <-. cbn [priceTotal priceRaw sizePerches].
    split; [reflexivity | now eexists].
Qed.

(** With a parsed price: the price times the size when the text is
    marked per perch and the size is a number other than 0, the price
    otherwise. *)
Lemma extractFromCard_priceTotal_parsed (scraper : Scraper) E card l :
  scraper = IkmanScraper \/ scraper = LPWScraper ->
  extractFromCard scraper E card = Some l ->
  let marked := Re.test flag_i re_per_perch (priceRaw l) in
  (forall p x,
     marked = true -> parsePrice (priceRaw l) = Some p ->
     sizePerches l = Some x -> Js.truthy x = true ->
     priceTotal l = Some (Js.mul p x))
  /\ (marked = false -> priceTotal l = parsePrice (priceRaw l))
  /\ (Js.truthy_opt (sizePerches l) = false ->
      priceTotal l = parsePrice (priceRaw l)).
Proof.
  intros Hs Hl marked.
  destruct (extractFromCard_priceTotal scraper E card l Hs Hl)
    as (Ht & sizeText & Hsize).
  fold marked in Ht. rewrite Ht. unfold total_price.
  split; [|split].
  - intros p x Hm Hp Hsz Hx. rewrite Hm, Hp, Hsz. cbn.
    now rewrite Hx.
  - now intros ->.
  - intros ->. now rewrite andb_false_r.
Qed.

(** C10, at a price text marked per perch without a number: both
    adapters parse no price, parse the size 10 and store the priceTotal 0,
    the product of null and the size. *)
Theorem priceTotal_of_missing_price :
  let ikman := Sample.ikman_card "https://ikman.lk/en/ad/land-in-malabe-1"
                                 "Negotiable per perch" in
  let lpw := Sample.lpw_card "https://www.lankapropertyweb.com/land/1"
                             "Negotiable per perch" None in
  let fields l :=
    (parsePrice (priceRaw l), sizePerches l, priceTotal l, pricePerPerch l) in
  option_map fields (extractFromCard IkmanScraper Sample.environment ikman)
  = Some (None, Some (Fin 10), Some (Fin 0), None)
  /\ option_map fields (extractFromCard LPWScraper Sample.environment lpw)
     = Some (None, Some (Fin 10), Some (Fin 0), None).
Proof. split; vm_compute; reflexivity. Qed.

(** *** Page crawler *)

Section Crawler.

Variable P : Page.

Lemma sent_more_nil w : sent_more [] w = w.
Proof. destruct w. unfold sent_more. cbn. now rewrite app_nil_r. Qed.

Lemma sent_more_app a b w :
  sent_more b (sent_more a w) = sent_more (a ++ b) w.
Proof. unfold sent_more. cbn. now rewrite app_assoc. Qed.

Lemma only_sends_ret {A : Type} (a : A) : only_sends (ret a).
Proof. intros w. exists a, []. now rewrite sent_more_nil. Qed.

Lemma only_sends_log line type : only_sends (log line type).
Proof. intros w. exists tt, [LOG line type]. reflexivity. Qed.

Lemma only_sends_gets {A : Type} (f : World -> A) : only_sends (gets f).
Proof. intros w. exists (f w), []. now rewrite sent_more_nil. Qed.

Lemma only_sends_bind {A B : Type} (c : M A) (k : A -> M B) :
  only_sends c -> (forall a, only_sends (k a)) -> only_sends (bind c k).
Proof.
  intros Hc Hk w. unfold bind.
  destruct (Hc w) as (a & m1 & ->).
  destruct (Hk a (sent_more m1 w)) as (b & m2 & ->).
  exists b, (m1 ++ m2). now rewrite sent_more_app.
Qed.

Lemma only_sends_when b (c : M unit) : only_sends c -> only_sends (when b c).
Proof. intros Hc. destruct b; [exact Hc | apply only_sends_ret]. Qed.

Create HintDb sends.
#[local] Hint Resolve only_sends_ret only_sends_log only_sends_gets
  only_sends_when : sends.

Ltac sends :=
  repeat first
    [ apply only_sends_bind; [|intros ?]
    | progress auto with sends
    | match goal with
      | |- only_sends (if ?b then _ else _) => destruct b
      | |- only_sends (match ?x with _ => _ end) => destruct x
      end ].

Lemma only_sends_enrich detailSite data : only_sends (enrich P detailSite data).
Proof. unfold enrich. sends. Qed.

Lemma only_sends_scrape_cards scraper detailSite cards :
  forall listings skipped,
    only_sends (scrape_cards P scraper detailSite cards listings skipped).
Proof.
  induction cards as [|card cards IH]; intros listings skipped; cbn [scrape_cards].
  - apply only_sends_ret.
  - destruct (extractFromCard scraper (env P) card) as [data|]; [|apply IH].
    apply only_sends_bind; [apply only_sends_gets | intros filtering].
    apply only_sends_bind; [apply only_sends_gets | intros locations].
    match goal with |- only_sends (if ?b then _ else _) => destruct b end;
      [|apply IH].
    apply only_sends_bind; [apply only_sends_gets | intros details].
    apply only_sends_bind; [|intros data'; apply IH].
    destruct (details && Str.truthy (url data));
      [apply only_sends_enrich | apply only_sends_ret].
Qed.

Lemma only_sends_scrapeCurrentPage : only_sends (scrapeCurrentPage P).
Proof.
  unfold scrapeCurrentPage.
  destruct (getScraper P) as [scraper|]; [|sends].
  apply only_sends_bind; [apply only_sends_log | intros _].
  apply only_sends_bind; [apply only_sends_scrape_cards | intros [ls k]].
  sends.
Qed.

End Crawler.

Section LoopGuard.

Variable P : Page.
Variable scraper : Scraper.
Variables current nextUrl next : text.

Hypothesis supported : getScraper P = Some scraper.
Hypothesis no_stop_processing : stopWhileProcessing P = false.
Hypothesis no_stop_waiting : stopWhileWaiting P = false.
Hypothesis current_url : URL_toString P (location_href P) = Returned current.
Hypothesis next_found : nextPageUrl P = Some nextUrl.
Hypothesis next_url : URL_toString P nextUrl = Returned next.

(** With the next page already visited, goToNextPage answers false and
    changes only the set of visited pages. *)
Lemma goToNextPage_visited w :
  next ∈ ({[current]} ∪ visitedPages w : gset text) ->
  goToNextPage P w
  = (Returned false, set_visitedPages ({[current]} ∪ visitedPages w) w).
Proof.
  intros Hin. unfold goToNextPage. rewrite supported.
  unfold bind, lift, modify, gets. rewrite current_url, next_found.
  destruct (Str.truthy nextUrl); [|reflexivity].
  rewrite next_url. cbn [visitedPages set_visitedPages].
  now rewrite bool_decide_eq_true_2.
Qed.

Lemma runScraper_completes (w : World) :
  isRunning w = true ->
  next ∈ ({[current]} ∪ visitedPages w : gset text) ->
  exists before after,
    runScraper P w = (Returned tt, after)
    /\ navigatedTo after = navigatedTo w
    /\ isRunning after = false
    /\ stored_isScraping (storage after) = Some false
    /\ stored_listings (storage after) = stored_listings (storage before)
    /\ sent after
       = sent before ++ [LOG Log_no_more_pages Info;
                         SCRAPING_COMPLETE
                           (length (default []
                                      (stored_listings (storage before))))].
Proof.
  intros Hrun Hin. unfold runScraper.
  unfold bind at 1. unfold gets at 1. rewrite Hrun. cbn [negb].
  rewrite supported. unfold catch.
  unfold bind at 1.
  destruct (only_sends_scrapeCurrentPage P w) as (ls & msgs & ->).
  rewrite no_stop_processing, no_stop_waiting.
  destruct (0 <? length ls)%nat; cbn -[goToNextPage uniqueNew];
    repeat (rewrite Hrun; cbn -[goToNextPage uniqueNew]);
    unfold bind at 1;
    match goal with
    | |- context [goToNextPage P ?W] =>
        set (before := W);
        rewrite (goToNextPage_visited before) by exact Hin;
        exists before
    end;
    cbn -[uniqueNew]; eexists; (split; [reflexivity|]);
    cbn -[uniqueNew]; rewrite <- ?app_assoc; repeat split.
Qed.

(** C8: in a cycle that starts running on a supported site and meets no
    stop command, when the canonical form of the next-page URL that the
    adapter resolves is in the set of visited pages (which holds the
    canonical current URL by then), runScraper starts no navigation, clears
    the running flag, persists isScraping = false and sends
    SCRAPING_COMPLETE as its last message. *)
Theorem runScraper_loop_guard (w : World) :
  isRunning w = true ->
  next ∈ ({[current]} ∪ visitedPages w : gset text) ->
  exists after,
    runScraper P w = (Returned tt, after)
    /\ navigatedTo after = navigatedTo w
    /\ isRunning after = false
    /\ stored_isScraping (storage after) = Some false
    /\ last (sent after)
       = Some (SCRAPING_COMPLETE
                 (length (default [] (stored_listings (storage after))))).
Proof.
  intros Hrun Hin.
  destruct (runScraper_completes w Hrun Hin)
    as (before & after & Hrun' & Hnav & Hflag & Hstored & Hlist & Hsent).
  exists after. repeat split; try assumption.
  rewrite Hsent, Hlist.
  change [LOG Log_no_more_pages Info;
          SCRAPING_COMPLETE
            (length (default [] (stored_listings (storage before))))]
    with ([LOG Log_no_more_pages Info]
          ++ [SCRAPING_COMPLETE
                (length (default [] (stored_listings (storage before))))]).
  rewrite app_assoc. apply last_snoc.
Qed.

End LoopGuard.

Lemma runScraper_loop_guard_witness :
  exists after,
    runScraper Sample.ikman_page_three Sample.resumed = (Returned tt, after)
    /\ navigatedTo after = navigatedTo Sample.resumed
    /\ isRunning after = false
    /\ stored_isScraping (storage after) = Some false
    /\ last (sent after)
       = Some (SCRAPING_COMPLETE
                 (length (default [] (stored_listings (storage after))))).
Proof.
  apply (runScraper_loop_guard Sample.ikman_page_three IkmanScraper
           (txt "https://ikman.lk/en/ads/sri-lanka/land?page=3")
           (txt "https://ikman.lk/en/ads/sri-lanka/land?page=1")
           (txt "https://ikman.lk/en/ads/sri-lanka/land?page=1")).
  - reflexivity.
  - reflexivity.
  - reflexivity.
  - reflexivity.
  - reflexivity.
  - reflexivity.
  - reflexivity.
  - apply elem_of_union. right. apply elem_of_union. left.
    now apply elem_of_singleton.
Defined.

(** *** Detail enricher *)

Section Detail.

Variables (N : Net) (D : DateEnv) (url : text) (site : Site).

Lemma fetchDetailPageInfo_caught :
  fetchDetailPageInfo_body N D url site = Threw ->
  fetchDetailPageInfo N D url site = no_info.
Proof. unfold fetchDetailPageInfo. now intros ->. Qed.

Lemma fetchDetailPageInfo_returned info :
  fetchDetailPageInfo_body N D url site = Returned info ->
  fetchDetailPageInfo N D url site = info.
Proof. unfold fetchDetailPageInfo. now intros ->. Qed.

End Detail.

(** C9: fetchDetailPageInfo returns a result for every url and site, the
    result of its body or, whenever the body throws, the result with
    lat, lng, postedDate and address all null.  It is that result when
    the request is rejected, when the status is outside 200..299, when
    reading the response text fails, when parsing throws and when a query
    on the parsed document throws; and the enrichment of a record in
    scrapeCurrentPage returns to the loop over the cards. *)
Theorem fetchDetailPageInfo_never_raises
    (P : Page) (N : Net) (D : DateEnv) (url : text) (site : Site) :
  (fetchDetailPageInfo_body N D url site = Threw
   \/ fetchDetailPageInfo_body N D url site
      = Returned (fetchDetailPageInfo N D url site))
  /\ (fetchDetailPageInfo_body N D url site = Threw ->
      fetchDetailPageInfo N D url site = no_info)
  /\ (fetch N url = NetworkError ->
      fetchDetailPageInfo N D url site = no_info)
  /\ (forall status response_text,
        fetch N url = Response status response_text ->
        ~ (200 <= status <= 299) ->
        fetchDetailPageInfo N D url site = no_info)
  /\ (forall status,
        fetch N url = Response status Threw ->
        fetchDetailPageInfo N D url site = no_info)
  /\ (forall status html,
        fetch N url = Response status (Returned html) ->
        DOMParser_parseFromString N html = Threw ->
        fetchDetailPageInfo N D url site = no_info)
  /\ (forall status html doc,
        fetch N url = Response status (Returned html) ->
        DOMParser_parseFromString N html = Returned doc ->
        doc_querySelector doc Sel_map_link = Threw ->
        fetchDetailPageInfo N D url site = no_info)
  /\ (forall detailSite data, only_sends (enrich P detailSite data)).
Proof.
  split; [|split; [|split; [|split; [|split; [|split; [|split]]]]]].
  - unfold fetchDetailPageInfo.
    destruct (fetchDetailPageInfo_body N D url site); [now right | now left].
  - apply fetchDetailPageInfo_caught.
  - intros H. apply fetchDetailPageInfo_caught.
    unfold fetchDetailPageInfo_body. now rewrite H.
  - intros status response_text H Hstatus.
    unfold fetchDetailPageInfo, fetchDetailPageInfo_body. rewrite H.
    assert (Hok : response_ok status = false).
    { unfold response_ok. apply andb_false_iff.
      destruct (Z.leb_spec 200 status); [right | now left].
      apply Z.leb_gt. lia. }
    now rewrite Hok.
  - intros status H.
    unfold fetchDetailPageInfo, fetchDetailPageInfo_body. rewrite H.
    now destruct (response_ok status).
  - intros status html H Hparse.
    unfold fetchDetailPageInfo, fetchDetailPageInfo_body. rewrite H.
    destruct (response_ok status); [|reflexivity].
    cbn [negb obind]. now rewrite Hparse.
  - intros status html doc H Hparse Hquery.
    unfold fetchDetailPageInfo, fetchDetailPageInfo_body. rewrite H.
    destruct (response_ok status); [|reflexivity].
    cbn [negb obind]. rewrite Hparse. cbn [obind].
    assert (Hc : detail_coordinates doc = Threw).
    { unfold detail_coordinates. now rewrite Hquery. }
    destruct site.
    + destruct (ikman_posted_date D _); [|reflexivity]. cbn [obind].
      destruct (ikman_address doc); [|reflexivity].
      cbn [obind]. now rewrite Hc.
    + cbn [obind]. now rewrite Hc.
  - intros detailSite data. apply only_sends_enrich.
Qed.

Lemma fetchDetailPageInfo_never_raises_witness :
  fetchDetailPageInfo Sample.offline Sample.clock
                      (txt "https://ikman.lk/en/ad/land-1") Ikman
  = no_info.
Proof.
  apply (fetchDetailPageInfo_never_raises
           Sample.ikman_page_three Sample.offline Sample.clock
           (txt "https://ikman.lk/en/ad/land-1") Ikman).
  reflexivity.
Defined.

(** C2, at a pair outside the box: a map link of a detail page, a map
    frame of a detail page and a map link of a listing card carry the pair
    (51.5, -0.1) through to the result, although the test written for the
    script text and the data attributes rejects that pair (and accepts
    (6.9, 79.8)); the same pair found in script text is discarded. *)
Theorem map_link_coordinates_unvalidated :
  let outside := Sample.outside_map_url in
  in_sri_lanka (number 51.5) (number (-0.1)) = false
  /\ in_sri_lanka (number 6.9) (number 79.8) = true
  /\ fetchDetailPageInfo
       (Sample.serving (Sample.detail_document (Some outside) None None))
       Sample.clock (txt "https://www.lankapropertyweb.com/land/2") LPW
     = {| info_lat := Some (number 51.5); info_lng := Some (number (-0.1));
          info_postedDate := None; info_address := None |}
  /\ fetchDetailPageInfo
       (Sample.serving (Sample.detail_document None (Some outside) None))
       Sample.clock (txt "https://www.lankapropertyweb.com/land/2") LPW
     = {| info_lat := Some (number 51.5); info_lng := Some (number (-0.1));
          info_postedDate := None; info_address := None |}
  /\ option_map (fun l => (latitude l, longitude l))
       (extractFromCard LPWScraper Sample.environment
          (Sample.lpw_card "/land/2" "Rs. 38M" (Some outside)))
     = Some (Some (number 51.5), Some (number (-0.1)))
  /\ fetchDetailPageInfo
       (Sample.serving
          (Sample.detail_document None None
             (Some "var map = { lat: 51.5, lng: -0.1 };")))
       Sample.clock (txt "https://www.lankapropertyweb.com/land/2") LPW
     = no_info.
Proof. vm_compute. repeat split. Qed.

(** *** Replacement of the matches of a pattern *)

Module ReplaceFacts.

Import Re ReSpec ReFacts CharFacts.

Section Replace.

Variables (f : flags) (r : regex).

(** A step over a match [w] at the head of the text. *)
Lemma replace_loop_token n p w s st' others :
  rmatch f r {| prev := p; rest := w ++ s; caps := [] |} = st' :: others ->
  rest st' = s -> w <> [] ->
  replace_loop (S n) f r [] p (w ++ s) = replace_loop n f r [] (lastc p w) s.
Proof.
  intros Hr Hrest Hw. cbn [replace_loop]. unfold match_at. rewrite Hr.
  cbn [whole after].
  rewrite (consumed_app _ st' w) by (cbn [rest]; now rewrite Hrest).
  destruct w as [|x w]; [contradiction|]. now rewrite Hrest.
Qed.

(** A step over a character at which the pattern does not match. *)
Lemma replace_loop_keep n p c s :
  rmatch f r {| prev := p; rest := c :: s; caps := [] |} = [] ->
  replace_loop (S n) f r [] p (c :: s) = c :: replace_loop n f r [] (Some c) s.
Proof. intros Hr. cbn [replace_loop]. unfold match_at. now rewrite Hr. Qed.

Lemma replace_loop_nil n p :
  rmatch f r {| prev := p; rest := []; caps := [] |} = [] ->
  replace_loop n f r [] p [] = [].
Proof.
  intros Hr. destruct n; [reflexivity|].
  cbn [replace_loop]. unfold match_at. now rewrite Hr.
Qed.

End Replace.

End ReplaceFacts.

(** *** Patterns with two groups *)

Module CaptureFacts.

Import Re ReSpec ReFacts.

Section Groups.

Variable f : flags.

(** A group over a pattern without groups records the word that the
    pattern matched. *)
Lemma rmatch_group n N st st' :
  group_free N = true ->
  In st' (rmatch f (Group n N) st) ->
  exists w,
    rest st = w ++ rest st' /\ prev st' = lastc (prev st) w
    /\ Matches f N (prev st) w (rest st')
    /\ caps st' = (n, w) :: caps st.
Proof.
  intros HN Hin. cbn [rmatch] in Hin.
  apply in_map_iff in Hin as (st0 & <- & H0).
  destruct (rmatch_sound f N _ _ H0) as (w & E & Hp & HM).
  exists w. cbn [rest prev caps].
  rewrite (rmatch_group_free f N HN _ _ H0), (consumed_app st st0 w E).
  now repeat split.
Qed.

(** A pattern of the form [A(N1)B(N2)]: both groups are recorded, each
    with a word that its pattern matches. *)
Lemma rmatch_two_groups A B N1 N2 n1 n2 st st' :
  group_free A = true -> group_free B = true ->
  group_free N1 = true -> group_free N2 = true ->
  In st' (rmatch f (Seq A (Seq (Group n1 N1) (Seq B (Group n2 N2)))) st) ->
  exists p1 w1 s1 p2 w2 s2,
    Matches f N1 p1 w1 s1 /\ Matches f N2 p2 w2 s2
    /\ caps st' = (n2, w2) :: (n1, w1) :: caps st.
Proof.
  intros HA HB H1 H2 Hin. cbn [rmatch] in Hin.
  apply in_flat_map in Hin as (sa & Ha & Hin).
  apply in_flat_map in Hin as (sg & Hg & Hin).
  apply in_flat_map in Hin as (sb & Hb & Hin).
  destruct (rmatch_group n1 N1 sa sg H1 Hg) as (w1 & _ & _ & M1 & C1).
  destruct (rmatch_group n2 N2 sb st' H2 Hin) as (w2 & _ & _ & M2 & C2).
  exists (prev sa), w1, (rest sg), (prev sb), w2, (rest st').
  split; [exact M1|]. split; [exact M2|].
  rewrite C2, (rmatch_group_free f B HB _ _ Hb), C1.
  now rewrite (rmatch_group_free f A HA _ _ Ha).
Qed.

(** The groups of the match that a search finds. *)
Lemma exec_two_groups A B N1 N2 n1 n2 s m :
  group_free A = true -> group_free B = true ->
  group_free N1 = true -> group_free N2 = true ->
  n1 <> n2 ->
  exec f (Seq A (Seq (Group n1 N1) (Seq B (Group n2 N2)))) s = Some m ->
  exists p1 s1 p2 s2,
    Matches f N1 p1 (group n1 m) s1 /\ Matches f N2 p2 (group n2 m) s2.
Proof.
  intros HA HB H1 H2 Hne H. unfold exec in H.
  destruct (search_from_some _ _ _ _ _ _ H)
    as (pre & s' & st' & others & _ & Hr & -> & _).
  assert (Hin : In st' (rmatch f (Seq A (Seq (Group n1 N1)
                                            (Seq B (Group n2 N2))))
                               (at_position None pre s')))
    by (rewrite Hr; now left).
  destruct (rmatch_two_groups A B N1 N2 n1 n2 _ _ HA HB H1 H2 Hin)
    as (p1 & w1 & s1 & p2 & w2 & s2 & M1 & M2 & Hc).
  exists p1, s1, p2, s2. unfold group. cbn [groups]. rewrite Hc.
  cbn [lookup_group]. rewrite Nat.eqb_refl.
  destruct (Nat.eqb_spec n2 n1) as [E | _]; [now symmetry in E|].
  rewrite Nat.eqb_refl. now split.
Qed.

End Groups.

End CaptureFacts.

(** *** Price per perch: the thresholds *)

(** X1: For a total other than 0 and a positive size, not marked per perch,
    only the threshold 1,000,000 decides: calculatePricePerPerch returns
    Math.round of the quotient p / s, as the division of doubles gives it,
    when p > 1,000,000 and p itself otherwise.  The first branch
    (p > 5,000,000 and s < 50) returns what the last two branches return for
    the same operands, so the size bound 50 never changes the result. *)
Theorem calculatePricePerPerch_one_threshold (p s : Q) :
  ~ (p == 0)%Q -> (0 < s)%Q ->
  ((1000000 < p)%Q ->
   calculatePricePerPerch (Some (Fin p)) (Some (Fin s)) false
   = Some (Math_round (Js.div (Fin p) (Fin s))))
  /\ ((p <= 1000000)%Q ->
      calculatePricePerPerch (Some (Fin p)) (Some (Fin s)) false
      = Some (Fin p)).
Proof.
  intros Hp Hs.
  rewrite (calculatePricePerPerch_refines p s false Hp).
  rewrite (div_fin p s)
    by (intros E; rewrite E in Hs; revert Hs; apply Qlt_irrefl).
  unfold derivePricePerUnit_spec.
  assert (Hs0 : Qle_bool s 0 = false) by now apply Qle_bool_false_iff.
  rewrite Hs0.
  destruct (Qlt_bool 5000000 p) eqn:E5; cbn [andb];
    destruct (Qlt_bool p 500000) eqn:E05;
    destruct (Qlt_bool 1000000 p) eqn:E1;
    destruct (Qlt_bool s 50) eqn:E50;
    repeat match goal with
           | H : Qlt_bool _ _ = true |- _ => apply Qlt_bool_iff in H
           | H : Qlt_bool _ _ = false |- _ => apply Qlt_bool_false_iff in H
           end;
    split; intros H; try reflexivity; exfalso; lra.
Qed.

Lemma calculatePricePerPerch_one_threshold_witness :
  calculatePricePerPerch (Some (Fin 1000001)) (Some (number 0.4)) false
  = Some (Fin 2500003).
Proof.
  apply (calculatePricePerPerch_one_threshold
           1000001 (3602879701896397 # 9007199254740992)).
  - discriminate.
  - reflexivity.
  - reflexivity.
Defined.

(** *** parsePrice: the shape of a result *)

Module PriceFacts.

Import Re ReSpec ReFacts CharFacts SizeSpec WordFacts ReplaceFacts PriceSpec.

(** A suffix pattern is the number pattern in group 1 and a tail. *)
Lemma exec_number_then (tail : regex) (s : text) m :
  group_free tail = true ->
  exec flag_i (Seq (Group 1 number_body) tail) s = Some m ->
  exists ip fp v,
    group 1 m = numeral_text ip fp /\ is_numeral ip fp
    /\ parseFloat (group 1 m) = number v /\ (0 <= v)%Q.
Proof.
  intros Hgf H.
  destruct (exec_group_then flag_i 1 number_body tail s m eq_refl Hgf H)
    as (pre & tl & _ & HN & _).
  destruct (Matches_number flag_i _ _ _ HN) as (ip & fp & Eg & Hnum).
  exists ip, fp, (numeral_value ip fp). rewrite Eg.
  split; [reflexivity|]. split; [exact Hnum|].
  split; [now apply parseFloat_numeral | now apply numeral_value_nonneg].
Qed.

(** The rounded product of a number that is not negative and a positive
    factor is an integer or Infinity. *)
Lemma round_scaled (v : Q) (k : Z) :
  (0 <= v)%Q -> 0 < k ->
  (exists z, Math_round (Js.mul (number v) (of_Z k)) = of_Z z)
  \/ Math_round (Js.mul (number v) (of_Z k)) = PInf.
Proof.
  intros Hv Hk.
  destruct (NumberFacts.number_nonneg v Hv) as [-> | (r & -> & Hr)].
  - right. unfold Js.mul, of_Z, Qsgn, inject_Z. cbn [Qnum].
    destruct k; (lia || reflexivity).
  - unfold Js.mul, of_Z.
    destruct (NumberFacts.round_number (r * inject_Z k))
      as [Hz | [Hp | Hn]]; [now left | now right |].
    exfalso.
    assert (H0 : (0 <= r * inject_Z k)%Q).
    { apply Qmult_le_0_compat; [exact Hr|].
      unfold Qle, inject_Z. cbn [Qnum Qden]. lia. }
    destruct (NumberFacts.number_nonneg _ H0) as [E | (q & E & _)];
      rewrite E in Hn; discriminate Hn.
Qed.

(** The stripping pattern at a character that starts no marker. *)
Lemma currency_head p c s :
  char_eq true "R" c = false -> char_eq true "L" c = false ->
  rmatch flag_i re_currency {| prev := p; rest := c :: s; caps := [] |}
  = (if char_eq true "," c
     then [{| prev := Some c; rest := s; caps := [] |}] else [])
    ++ (if cls_ok true is_space c
        then [{| prev := Some c; rest := s; caps := [] |}] else []).
Proof.
  intros HR HL.
  cbn [re_currency Alts Lit Opt rmatch txt list_ascii_of_string].
  unfold space, step_char. cbn [rest prev caps ignoreCase flag_i rmatch].
  rewrite HR, HL. reflexivity.
Qed.

Lemma currency_end p :
  rmatch flag_i re_currency {| prev := p; rest := []; caps := [] |} = [].
Proof. reflexivity. Qed.


Lemma comma_test c : char_eq true "," c = Ascii.eqb c ",".
Proof. ascii_cases c; reflexivity. Qed.

(** On a text without the letters R and L, stripping removes the commas
    and the white space. *)
Lemma strip_unmarked u :
  Forall unmarked u ->
  forall n p, (length u < n)%nat ->
    replace_loop n flag_i re_currency [] p u = List.filter stays u.
Proof.
  induction 1 as [|c u [HR HL] _ IH]; intros n p Hn.
  - apply replace_loop_nil, currency_end.
  - destruct n as [|n]; [cbn in Hn; lia|].
    cbn [length] in Hn. cbn [List.filter]. unfold stays at 1.
    pose proof (currency_head p c u HR HL) as Hhead.
    rewrite comma_test, cls_ok_space in Hhead.
    destruct (Ascii.eqb c ",") eqn:Ec; [|destruct (is_space c) eqn:Es].
    + cbn [orb negb].
      pose proof (replace_loop_token _ _ n p [c] u _ _ Hhead eq_refl
                    ltac:(discriminate)) as Ht.
      cbn [app] in Ht. rewrite Ht. apply IH. lia.
    + cbn [orb negb].
      pose proof (replace_loop_token _ _ n p [c] u _ _ Hhead eq_refl
                    ltac:(discriminate)) as Ht.
      cbn [app] in Ht. rewrite Ht. apply IH. lia.
    + cbn [orb negb]. cbn [app] in Hhead.
      rewrite (replace_loop_keep _ _ n p c u Hhead). f_equal.
      apply IH. lia.
Qed.

Lemma char_eq_lower_of d x c :
  to_lower x = c -> char_eq true d x = Ascii.eqb (to_lower d) c.
Proof. intros <-. reflexivity. Qed.

Lemma step_char_hit (ok : ascii -> bool) p x s c0 :
  ok x = true ->
  step_char ok {| prev := p; rest := x :: s; caps := c0 |}
  = [{| prev := Some x; rest := s; caps := c0 |}].
Proof. intros H. unfold step_char. cbn. now rewrite H. Qed.

Lemma step_char_miss (ok : ascii -> bool) p x s c0 :
  ok x = false ->
  step_char ok {| prev := p; rest := x :: s; caps := c0 |} = [].
Proof. intros H. unfold step_char. cbn. now rewrite H. Qed.

Lemma step_char_end (ok : ascii -> bool) p c0 :
  step_char ok {| prev := p; rest := []; caps := c0 |} = [].
Proof. reflexivity. Qed.

Ltac lower_test H := rewrite (char_eq_lower_of _ _ _ H); reflexivity.

Ltac steps :=
  repeat first
    [ rewrite step_char_hit by assumption
    | rewrite step_char_miss by assumption
    | rewrite step_char_end
    | progress cbn [flat_map app] ].

Lemma marker_rs p c1 c2 u :
  to_lower c1 = "r"%char -> to_lower c2 = "s"%char ->
  match u with [] => True | h :: _ => char_eq true "." h = false end ->
  exists others,
    rmatch flag_i re_currency {| prev := p; rest := c1 :: c2 :: u; caps := [] |}
    = {| prev := Some c2; rest := u; caps := [] |} :: others.
Proof.
  intros H1 H2 Hu.
  assert (T1 : char_eq true "R" c1 = true) by lower_test H1.
  assert (T2 : char_eq true "s" c2 = true) by lower_test H2.
  cbn [re_currency Alts Lit Opt rmatch txt list_ascii_of_string
       ignoreCase flag_i].
  steps. destruct u as [|h u]; steps; now eexists.
Qed.

Lemma marker_rs_dot p c1 c2 c3 u :
  to_lower c1 = "r"%char -> to_lower c2 = "s"%char ->
  to_lower c3 = "."%char ->
  exists others,
    rmatch flag_i re_currency
           {| prev := p; rest := c1 :: c2 :: c3 :: u; caps := [] |}
    = {| prev := Some c3; rest := u; caps := [] |} :: others.
Proof.
  intros H1 H2 H3.
  assert (T1 : char_eq true "R" c1 = true) by lower_test H1.
  assert (T2 : char_eq true "s" c2 = true) by lower_test H2.
  assert (T3 : char_eq true "." c3 = true) by lower_test H3.
  cbn [re_currency Alts Lit Opt rmatch txt list_ascii_of_string
       ignoreCase flag_i].
  steps. now eexists.
Qed.

Lemma marker_lkr p c1 c2 c3 u :
  to_lower c1 = "l"%char -> to_lower c2 = "k"%char ->
  to_lower c3 = "r"%char ->
  exists others,
    rmatch flag_i re_currency
           {| prev := p; rest := c1 :: c2 :: c3 :: u; caps := [] |}
    = {| prev := Some c3; rest := u; caps := [] |} :: others.
Proof.
  intros H1 H2 H3.
  assert (T0 : char_eq true "R" c1 = false) by lower_test H1.
  assert (T1 : char_eq true "L" c1 = true) by lower_test H1.
  assert (T2 : char_eq true "K" c2 = true) by lower_test H2.
  assert (T3 : char_eq true "R" c3 = true) by lower_test H3.
  cbn [re_currency Alts Lit Opt rmatch txt list_ascii_of_string
       ignoreCase flag_i].
  steps. now eexists.
Qed.

(** Stripping a text that starts with a marker strips what follows the
    marker. *)
Lemma strip_marker marker u :
  is_marker marker ->
  match u with [] => True | h :: _ => char_eq true "." h = false end ->
  exists n p,
    (length u < n)%nat
    /\ replace_all flag_i re_currency [] (marker ++ u)
       = replace_loop n flag_i re_currency [] p u.
Proof.
  intros Hm Hu. unfold replace_all.
  destruct Hm as [E | [E | [E | [E | []]]]];
    destruct marker as [|c1 [|c2 [|c3 [|c4 marker]]]]; try discriminate E;
    cbn [Str.toLowerCase map txt list_ascii_of_string] in E.
  - exists (S (length u)), None. split; [lia | reflexivity].
  - injection E as H1 H2.
    destruct (marker_rs None c1 c2 u (eq_sym H1) (eq_sym H2) Hu) as (o & Hr).
    exists (length ([c1; c2] ++ u)), (lastc None [c1; c2]).
    split; [cbn; lia|].
    now apply (replace_loop_token _ _ _ None [c1; c2] u _ o Hr).
  - injection E as H1 H2 H3.
    destruct (marker_rs_dot None c1 c2 c3 u (eq_sym H1) (eq_sym H2) (eq_sym H3))
      as (o & Hr).
    exists (length ([c1; c2; c3] ++ u)), (lastc None [c1; c2; c3]).
    split; [cbn; lia|].
    now apply (replace_loop_token _ _ _ None [c1; c2; c3] u _ o Hr).
  - injection E as H1 H2 H3.
    destruct (marker_lkr None c1 c2 c3 u (eq_sym H1) (eq_sym H2) (eq_sym H3))
      as (o & Hr).
    exists (length ([c1; c2; c3] ++ u)), (lastc None [c1; c2; c3]).
    split; [cbn; lia|].
    now apply (replace_loop_token _ _ _ None [c1; c2; c3] u _ o Hr).
Qed.

(** *** Trimming *)

Lemma trimStart_id c s : is_space c = false -> Str.trimStart (c :: s) = c :: s.
Proof. intros H. cbn [Str.trimStart]. now rewrite H. Qed.

Lemma trim_id (s : text) :
  match s with [] => True | c :: _ => is_space c = false end ->
  match rev s with [] => True | c :: _ => is_space c = false end ->
  Str.trim s = s.
Proof.
  intros Hhead Hlast. unfold Str.trim, Str.trimEnd.
  destruct s as [|c s]; [reflexivity|].
  rewrite (trimStart_id c s Hhead).
  destruct (rev (c :: s)) as [|d t] eqn:E.
  - now rewrite <- (rev_involutive (c :: s)), E.
  - rewrite (trimStart_id d t Hlast), <- E. apply rev_involutive.
Qed.

Lemma trim_no_space (s : text) :
  forallb (fun c => negb (is_space c)) s = true -> Str.trim s = s.
Proof.
  intros H. rewrite forallb_forall in H.
  apply trim_id.
  - destruct s as [|c s]; [exact I|].
    apply negb_true_iff, H. now left.
  - destruct (rev s) as [|c t] eqn:E; [exact I|].
    apply negb_true_iff, H. apply in_rev. rewrite E. now left.
Qed.

(** *** Rounding an integer *)

Lemma Qfloor_half (z : Z) : Qfloor (inject_Z z + (1 # 2)) = z.
Proof.
  unfold Qfloor, Qplus, inject_Z. cbn [Qnum Qden Pos.mul].
  symmetry. apply (Z.div_unique _ _ _ 1); lia.
Qed.

Lemma round_integer (z : Z) : Math_round (Fin (inject_Z z)) = of_Z z.
Proof. unfold Math_round. now rewrite Qfloor_half. Qed.

(** *** Letters that a suffix pattern needs *)

Lemma occurs_million t :
  occurs flag_i re_million t -> exists x, In x t /\ char_eq true "M" x = true.
Proof.
  intros (pre & w & post & -> & HM).
  apply Matches_seq_inv in HM as (w1 & w2 & -> & _ & H2).
  apply Matches_chr_inv in H2 as (x & -> & Hx).
  exists x. split; [|exact Hx].
  rewrite !in_app_iff. right. left. right. now left.
Qed.

Lemma occurs_lakhs t :
  occurs flag_i re_lakhs t -> exists x, In x t /\ char_eq true "a" x = true.
Proof.
  intros (pre & w & post & -> & HM).
  unfold re_lakhs in HM. cbn [Seqs] in HM.
  apply Matches_seq_inv in HM as (w1 & w2 & -> & _ & H2).
  apply Matches_seq_inv in H2 as (w3 & w4 & -> & _ & H4).
  apply Matches_seq_inv in H4 as (w5 & w6 & -> & H5 & _).
  apply Matches_lit in H5.
  cbn [txt list_ascii_of_string] in H5.
  inversion H5 as [|c1 x1 l1 l1' _ H5a]; subst.
  inversion H5a as [|c2 x2 l2 l2' Hx2 _]; subst.
  exists x2. split; [|exact Hx2].
  rewrite !in_app_iff. cbn [In]. tauto.
Qed.

Lemma occurs_crore t :
  occurs flag_i re_crore t -> exists x, In x t /\ char_eq true "c" x = true.
Proof.
  intros (pre & w & post & -> & HM).
  unfold re_crore in HM. cbn [Seqs] in HM.
  apply Matches_seq_inv in HM as (w1 & w2 & -> & _ & H2).
  apply Matches_seq_inv in H2 as (w3 & w4 & -> & _ & H4).
  apply Matches_lit in H4.
  cbn [txt list_ascii_of_string] in H4.
  inversion H4 as [|c1 x1 l1 l1' Hx1 _]; subst.
  exists x1. split; [|exact Hx1].
  rewrite !in_app_iff. cbn [In]. tauto.
Qed.

(** A text without a character that a pattern needs has no match. *)
Lemma exec_needs (r : regex) (d : ascii) (t : text) :
  (occurs flag_i r t -> exists x, In x t /\ char_eq true d x = true) ->
  (forall x, In x t -> char_eq true d x = false) ->
  exec flag_i r t = None.
Proof.
  intros Hneeds Hnone. apply exec_none_iff. intros Hocc.
  destruct (Hneeds Hocc) as (x & Hin & Hx).
  rewrite (Hnone x Hin) in Hx. discriminate.
Qed.

Lemma grouping_char_facts x :
  grouping_char x = true ->
  char_eq true "R" x = false /\ char_eq true "L" x = false
  /\ char_eq true "M" x = false /\ char_eq true "a" x = false
  /\ char_eq true "c" x = false /\ char_eq true "." x = false
  /\ stays x = is_digit x.
Proof. ascii_cases x; intros H; (discriminate H || now repeat split). Qed.

Lemma marker_char_facts marker x :
  is_marker marker -> In x marker ->
  char_eq true "a" x = false /\ char_eq true "c" x = false
  /\ char_eq true "M" x = false.
Proof.
  intros Hm Hin.
  assert (Hl : In (to_lower x) (Str.toLowerCase marker)) by now apply in_map.
  assert (Hc : In (to_lower x) (txt "rs.lk")).
  { destruct Hm as [E | [E | [E | [E | []]]]]; rewrite <- E in Hl;
      cbn in Hl |- *; tauto. }
  unfold char_eq.
  cbn in Hc. destruct Hc as [E | [E | [E | [E | [E | []]]]]];
    rewrite <- E; now repeat split.
Qed.

Lemma filter_digits body :
  forallb grouping_char body = true ->
  List.filter stays body = List.filter is_digit body.
Proof.
  intros H. rewrite forallb_forall in H. apply filter_ext_in.
  intros x Hx. now apply grouping_char_facts, H.
Qed.

Lemma digits_no_space d :
  forallb is_digit d = true -> forallb (fun c => negb (is_space c)) d = true.
Proof.
  rewrite !forallb_forall. intros H x Hx.
  now rewrite (digit_not_space x (H x Hx)).
Qed.

Lemma parseFloat_digits d :
  d <> [] -> forallb is_digit d = true ->
  parseFloat d = number (inject_Z (digits_value d)).
Proof.
  intros Hne Hd.
  pose proof (parseFloat_numeral d None (conj Hne (conj Hd eq_refl))) as H.
  unfold SizeSpec.numeral_text, SizeSpec.numeral_value in H.
  cbn [default length Z.of_nat Z.opp] in H. rewrite app_nil_r in H.
  rewrite H. unfold scale10. cbn [Z.leb Z.compare Z.pow Z.pow_pos Pos.iter].
  now rewrite Z.mul_1_r.
Qed.



(** *** Characters of a stripped text *)

Lemma replace_loop_In (f : flags) (r : regex) n :
  forall p s x, In x (replace_loop n f r [] p s) -> In x s.
Proof.
  induction n as [|n IH]; intros p s x; [trivial|].
  cbn [replace_loop]. unfold match_at.
  destruct (rmatch f r {| prev := p; rest := s; caps := [] |})
    as [|st' others] eqn:Er.
  - destruct s as [|c s]; [trivial|].
    intros [<- | H]; [now left | right; eapply IH, H].
  - assert (Hin : In st' (rmatch f r {| prev := p; rest := s; caps := [] |}))
      by (rewrite Er; now left).
    destruct (rmatch_sound f r _ _ Hin) as (w & Ew & _).
    cbn [whole after].
    rewrite (consumed_app _ st' w Ew). cbn [rest] in Ew.
    destruct w as [|y w].
    + destruct s as [|c s]; [trivial|].
      cbn [app]. intros [<- | H]; [now left | right; eapply IH, H].
    + cbn [app]. intros H. apply IH in H. rewrite Ew.
      apply in_or_app. now right.
Qed.

Lemma trimStart_In s x : In x (Str.trimStart s) -> In x s.
Proof.
  induction s as [|c s IH]; [trivial|]. cbn [Str.trimStart].
  destruct (is_space c); [intros H; right; now apply IH | trivial].
Qed.

Lemma trim_In s x : In x (Str.trim s) -> In x s.
Proof.
  unfold Str.trim, Str.trimEnd. intros H.
  apply in_rev, trimStart_In, in_rev in H. now apply trimStart_In.
Qed.

Lemma cleaned_In t x :
  In x (Str.trim (replace_all flag_i re_currency [] t)) -> In x t.
Proof. intros H. apply trim_In in H. now apply replace_loop_In in H. Qed.

(** *** The number before a suffix *)

(** In a text whose first digit starts a numeral that is followed by a
    match of the tail, group 1 of the match of the suffix pattern is that
    numeral. *)
Lemma exec_number_suffix (tailre : regex) (pre0 : text) ip fp (rest0 : text) :
  group_free tailre = true ->
  forallb (fun c => negb (is_digit c)) pre0 = true ->
  is_numeral ip fp ->
  (forall p w s, Matches flag_i tailre p w s ->
     exists x w', w = x :: w' /\ numeral_char x = false) ->
  (exists w0 post0,
     rest0 = w0 ++ post0
     /\ Matches flag_i tailre (lastc None (pre0 ++ numeral_text ip fp))
                 w0 post0) ->
  exists m,
    exec flag_i (Seq (Group 1 number_body) tailre)
         (pre0 ++ numeral_text ip fp ++ rest0) = Some m
    /\ group 1 m = numeral_text ip fp.
Proof.
  intros Hgf Hpre Hnum Htail (w0 & post0 & -> & Hw0).
  set (N := numeral_text ip fp) in *.
  assert (Hocc : occurs flag_i (Seq (Group 1 number_body) tailre)
                        (pre0 ++ N ++ w0 ++ post0)).
  { exists pre0, (N ++ w0), post0. split; [now rewrite <- app_assoc|].
    apply M_Seq.
    - apply M_Group. now apply number_Matches.
    - now rewrite <- lastc_app in Hw0. }
  destruct (proj2 (exec_some_iff _ _ _) Hocc) as (m & Hm).
  exists m. split; [exact Hm|].
  destruct (exec_group_then flag_i 1 number_body tailre _ m eq_refl Hgf Hm)
    as (pre & tl & E & HN & HR & Hleft).
  destruct Hocc as (pre1 & w1 & post1 & E1 & HM1).
  pose proof (Hleft pre0 (N ++ w0) post0) as Hlen.
  rewrite <- app_assoc in Hlen. specialize (Hlen eq_refl).
  assert (HM0 : Matches flag_i (Seq (Group 1 number_body) tailre)
                        (lastc None pre0) (N ++ w0) post0).
  { apply M_Seq.
    - apply M_Group. now apply number_Matches.
    - now rewrite <- lastc_app in Hw0. }
  specialize (Hlen HM0).
  destruct (app_prefix pre pre0 _ _ Hlen (eq_sym E)) as (z & Ez & Eg).
  destruct (Matches_number flag_i _ _ _ HN) as (ip' & fp' & Eg' & Hnum').
  destruct (numeral_head ip' fp' Hnum') as (x0 & g' & Ex0 & Hx0).
  assert (Hz : z = []).
  { destruct z as [|h z]; [reflexivity|]. exfalso.
    rewrite Eg', Ex0 in Eg. cbn in Eg. injection Eg as -> _.
    rewrite Ez, forallb_app in Hpre. apply andb_prop in Hpre as [_ Hpre].
    cbn in Hpre. rewrite Hx0 in Hpre. discriminate. }
  subst z. cbn [app] in Eg.
  destruct (Htail _ _ _ HR) as (x & tl' & -> & Hx).
  destruct (Htail _ _ _ Hw0) as (y & w0' & -> & Hy).
  cbn [app] in Eg.
  eapply (run_split numeral_char); [| | exact Hx | exact Hy | exact Eg].
  - rewrite Eg'. now apply numeral_chars.
  - now apply numeral_chars.
Qed.

Lemma lit_Matches_lower (w0 w : text) :
  Str.toLowerCase w = Str.toLowerCase w0 ->
  forall p s, Matches flag_i (Lit w0) p w s.
Proof.
  revert w. induction w0 as [|c w0 IH]; intros w E p s.
  - destruct w; [constructor | discriminate E].
  - destruct w as [|x w]; [discriminate E|].
    cbn [Str.toLowerCase map] in E. injection E as Ex Ew.
    assert (Hx : char_eq (ignoreCase flag_i) c x = true).
    { cbn [ignoreCase flag_i]. unfold char_eq. rewrite Ex.
      apply Ascii.eqb_refl. }
    destruct w0 as [|c' w0].
    + destruct w; [|discriminate Ew]. now constructor.
    + cbn [Lit]. change (x :: w) with ([x] ++ w).
      apply M_Seq; [now constructor | now apply IH].
Qed.

Lemma not_numeral_char x :
  char_eq true "M" x = true \/ char_eq true "l" x = true
  \/ char_eq true "c" x = true \/ is_space x = true ->
  numeral_char x = false /\ is_digit x = false.
Proof. ascii_cases x; intros [H | [H | [H | H]]]; (discriminate H || now split). Qed.

Lemma tail_million p w s :
  Matches flag_i (Chr "M") p w s ->
  exists x w', w = x :: w' /\ numeral_char x = false.
Proof.
  intros H. apply Matches_chr_inv in H as (x & -> & Hx).
  exists x, []. split; [reflexivity|]. apply not_numeral_char. now left.
Qed.

(** A tail of white space and a word starts with no character of a
    numeral. *)
Lemma tail_word (c : ascii) (w0 : text) (more : list regex) p w s :
  char_eq true "l" c = true \/ char_eq true "c" c = true ->
  Matches flag_i (Seqs (Star true space :: Lit (c :: w0) :: more)) p w s ->
  exists x w', w = x :: w' /\ numeral_char x = false.
Proof.
  intros Hc H.
  assert (Hlit : forall q v t, Matches flag_i (Lit (c :: w0)) q v t ->
            exists x v', v = x :: v' /\ numeral_char x = false).
  { intros q v t Hv. apply Matches_lit in Hv.
    inversion Hv as [|c1 x l l' Hx _]; subst.
    exists x, l'. split; [reflexivity|]. apply not_numeral_char.
    cbn [ignoreCase flag_i] in Hx. unfold char_eq in Hx |- *.
    apply Ascii.eqb_eq in Hx. rewrite <- Hx.
    destruct Hc as [Hc | Hc]; unfold char_eq in Hc;
      apply Ascii.eqb_eq in Hc; rewrite <- Hc; cbn; tauto. }
  cbn [Seqs] in H.
  apply Matches_seq_inv in H as (ws & v & -> & Hws & Hv).
  apply Matches_star_cls in Hws. rewrite forallb_cls_space in Hws.
  destruct ws as [|x ws].
  - cbn [app]. destruct more as [|r more].
    + now apply Hlit in Hv.
    + apply Matches_seq_inv in Hv as (v1 & v2 & -> & Hv1 & _).
      destruct (Hlit _ _ _ Hv1) as (x & v' & -> & Hx).
      exists x, (v' ++ v2). now split.
  - cbn in Hws. apply andb_prop in Hws as [Hx _].
    exists x, (ws ++ v). split; [reflexivity|].
    apply not_numeral_char. tauto.
Qed.

Lemma multiplier_cases suffix k :
  multiplier suffix = Some k ->
  (Str.toLowerCase suffix = txt "m" /\ k = 1000000)
  \/ (Str.toLowerCase suffix = txt "lakh" /\ k = 100000)
  \/ (Str.toLowerCase suffix = txt "lakhs" /\ k = 100000)
  \/ (Str.toLowerCase suffix = txt "crore" /\ k = 10000000).
Proof.
  unfold multiplier. cbn [first_some]. unfold Str.text_eqb.
  repeat case_bool_decide; intros Hk; try discriminate Hk;
    injection Hk as <-; auto 8.
Qed.

Lemma lower_In (w : text) (x : ascii) (name : string) :
  Str.toLowerCase w = txt name -> In x w -> In (to_lower x) (txt name).
Proof. intros <- H. now apply in_map. Qed.

Lemma filter_all {A : Type} (f : A -> bool) (l : list A) :
  (forall x, In x l -> f x = true) -> List.filter f l = l.
Proof.
  induction l as [|x l IH]; intros H; [reflexivity|].
  cbn. rewrite (H x (or_introl eq_refl)). f_equal.
  apply IH. intros y Hy. apply H. now right.
Qed.

Lemma space_facts x :
  is_space x = true ->
  unmarked x /\ stays x = false /\ char_eq true "M" x = false
  /\ char_eq true "a" x = false /\ char_eq true "." x = false
  /\ is_digit x = false.
Proof. unfold unmarked. ascii_cases x; intros H; (discriminate H || now repeat split). Qed.

Lemma numeral_char_facts x :
  numeral_char x = true ->
  unmarked x /\ stays x = true /\ char_eq true "M" x = false
  /\ char_eq true "a" x = false /\ is_space x = false.
Proof. unfold unmarked. ascii_cases x; intros H; (discriminate H || now repeat split). Qed.

Lemma marker_no_digit marker x :
  is_marker marker -> In x marker -> is_digit x = false.
Proof.
  intros Hm Hin. destruct (is_digit x) eqn:E; [|reflexivity]. exfalso.
  assert (Hl : In (to_lower x) (Str.toLowerCase marker)) by now apply in_map.
  rewrite (to_lower_digit x E) in Hl.
  destruct Hm as [E0 | [E0 | [E0 | [E0 | []]]]]; rewrite <- E0 in Hl;
    cbn in Hl; repeat (destruct Hl as [<- | Hl]; [discriminate E|]);
    destruct Hl.
Qed.

Section Suffix.

Variables (marker ws1 ip : text) (fp : option text) (ws2 suffix : text).

Hypothesis marked : is_marker marker.
Hypothesis spaces1 : forallb is_space ws1 = true.
Hypothesis spaces2 : forallb is_space ws2 = true.
Hypothesis numeral : is_numeral ip fp.

Let N := numeral_text ip fp.
Let t := marker ++ ws1 ++ N ++ ws2 ++ suffix.

Lemma suffix_truthy : Str.truthy t = true.
Proof.
  destruct (numeral_head ip fp numeral) as (x & w & E & _).
  subst t N. rewrite E. destruct marker, ws1; reflexivity.
Qed.

Lemma suffix_prefix_no_digit :
  forallb (fun c => negb (is_digit c)) (marker ++ ws1) = true.
Proof.
  apply forallb_forall. intros x Hx. apply negb_true_iff.
  apply in_app_or in Hx as [Hx | Hx].
  - now apply (marker_no_digit marker).
  - rewrite forallb_forall in spaces1. now apply space_facts, spaces1.
Qed.

(** A character of the text is a character of the marker, white space, a
    character of the numeral or a character of the suffix. *)
Lemma suffix_chars (bad : ascii) :
  char_eq true bad "r" = false -> char_eq true bad "s" = false ->
  char_eq true bad "." = false -> char_eq true bad "l" = false ->
  char_eq true bad "k" = false ->
  (forall x, is_space x = true -> char_eq true bad x = false) ->
  (forall x, numeral_char x = true -> char_eq true bad x = false) ->
  (forall x, In x suffix -> char_eq true bad x = false) ->
  forall x, In x t -> char_eq true bad x = false.
Proof.
  intros Br Bs Bd Bl Bk Hsp Hnum Hsuf x Hx. subst t.
  rewrite forallb_forall in spaces1, spaces2.
  pose proof (numeral_chars ip fp numeral) as HN.
  rewrite forallb_forall in HN.
  rewrite !in_app_iff in Hx.
  destruct Hx as [Hx | [Hx | [Hx | [Hx | Hx]]]]; auto.
  assert (Hl : In (to_lower x) (Str.toLowerCase marker)) by now apply in_map.
  assert (Hc : In (to_lower x) (txt "rs.lk")).
  { destruct marked as [E | [E | [E | [E | []]]]]; rewrite <- E in Hl;
      cbn in Hl |- *; tauto. }
  unfold char_eq in *. cbn in Hc.
  destruct Hc as [E | [E | [E | [E | [E | []]]]]]; rewrite <- E; assumption.
Qed.

End Suffix.

(** A result of parsePrice is an integer or an infinity. *)
Lemma parsePrice_shape (t : text) (x : JsNum) :
  parsePrice t = Some x ->
  (exists z, x = of_Z z) \/ x = PInf \/ x = NInf.
Proof.
  unfold parsePrice. destruct (negb (Str.truthy t)); [discriminate|].
  set (cleaned := Str.trim (Re.replace_all Re.flag_i re_currency [] t)).
  assert (Hsuffix : forall tail s m k y,
    ReSpec.group_free tail = true -> 0 < k ->
    Re.exec Re.flag_i (Re.Seq (Re.Group 1 number_body) tail) s = Some m ->
    Some (Math_round (Js.mul (parseFloat (Re.group 1 m)) (of_Z k))) = Some y ->
    (exists z, y = of_Z z) \/ y = PInf \/ y = NInf).
  { intros tail s m k y Hgf Hk Hm Hy. injection Hy as <-.
    destruct (exec_number_then tail s m Hgf Hm)
      as (ip & fp & v & _ & _ & -> & Hv).
    destruct (round_scaled v k Hv Hk) as [Hz | Hp];
      [now left | right; now left]. }
  destruct (Re.exec Re.flag_i re_million cleaned) as [m|] eqn:E1.
  { apply (Hsuffix (Re.Chr "M") cleaned m 1000000 x eq_refl ltac:(lia) E1). }
  destruct (Re.exec Re.flag_i re_lakhs t) as [m|] eqn:E2.
  { apply (Hsuffix (Re.Seqs [Re.Star true space; Re.Lit (txt "lakh");
                             Re.Opt (Re.Chr "s")])
                   t m 100000 x eq_refl ltac:(lia) E2). }
  destruct (Re.exec Re.flag_i re_crore t) as [m|] eqn:E3.
  { apply (Hsuffix (Re.Seqs [Re.Star true space; Re.Lit (txt "crore")])
                   t m 10000000 x eq_refl ltac:(lia) E3). }
  destruct (parseFloat cleaned) as [q| | |]; cbn [isNaN Math_round];
    intros H; try discriminate; injection H as <-.
  - left. now eexists.
  - right. now left.
  - right. now right.
Qed.

End PriceFacts.


(** X2: parsePrice never returns NaN: a result is an integer (the suffix
    branches round a product, the last branch rounds the number read), or an
    infinity when the stripped text reads as one. *)
Theorem parsePrice_integer_or_infinite (t : text) (x : JsNum) :
  parsePrice t = Some x ->
  (exists z, x = of_Z z) \/ x = PInf \/ x = NInf.
Proof. apply PriceFacts.parsePrice_shape. Qed.

Lemma parsePrice_integer_or_infinite_witness :
  (exists z, Fin 1235 = of_Z z) \/ Fin 1235 = PInf \/ Fin 1235 = NInf.
Proof.
  apply (parsePrice_integer_or_infinite (txt "Rs 1,234.5")).
  vm_compute. reflexivity.
Defined.

Import ReSpec ReFacts CharFacts WordFacts SizeSpec PriceSpec PriceFacts.

(** *** parsePrice: plain prices and suffixes *)

(** X3: A price written as digits in groups, after an optional currency marker
    (Rs, Rs. or LKR in any letter case): whatever commas and white space
    separate the digits, parsePrice returns Math.round of the double nearest
    to the integer that the digits spell, which is that integer when it is
    at most 2^53; "Rs 9007199254740993" gives 9007199254740992. *)
Theorem parsePrice_grouped_digits (marker body : text) :
  is_marker marker ->
  forallb grouping_char body = true ->
  existsb is_digit body = true ->
  let n := digits_value (List.filter is_digit body) in
  parsePrice (marker ++ body) = Some (Math_round (number (inject_Z n)))
  /\ (n <= 2 ^ 53 -> parsePrice (marker ++ body) = Some (of_Z n))
  /\ parsePrice (txt "Rs 9007199254740993") = Some (of_Z 9007199254740992).
Proof.
  intros Hm Hbody Hdigit n.
  assert (Hmain : parsePrice (marker ++ body)
                  = Some (Math_round (number (inject_Z n)))).
  2:{ split; [exact Hmain|]. split; [|vm_compute; reflexivity].
      intros Hn. rewrite Hmain.
      assert (H0 : 0 <= n).
      { unfold n, digits_value. apply digits_value_fold; [lia|].
        apply forallb_forall. intros x Hx. now apply filter_In in Hx. }
      rewrite (NumberFacts.number_integer n) by lia.
      f_equal. apply round_integer. }
  subst n.
  pose proof Hbody as Hall. rewrite forallb_forall in Hall.
  set (d := List.filter is_digit body).
  assert (Hd : forallb is_digit d = true).
  { apply forallb_forall. intros x Hx. now apply filter_In in Hx. }
  assert (Hne : d <> []).
  { apply existsb_exists in Hdigit as (x & Hx & Hdx).
    intros E. assert (Hin : In x d) by (apply filter_In; now split).
    rewrite E in Hin. destruct Hin. }
  assert (Hclean : Str.trim (replace_all flag_i re_currency [] (marker ++ body))
                   = d).
  { destruct (strip_marker marker body Hm) as (n & p & Hn & ->).
    - destruct body as [|h body']; [exact I|].
      apply grouping_char_facts, Hall. now left.
    - rewrite (strip_unmarked body); [|
        apply Forall_forall; intros x Hx; apply list_elem_of_In in Hx;
        destruct (grouping_char_facts x (Hall x Hx)) as (? & ? & _);
        now split | exact Hn].
      rewrite (filter_digits body Hbody).
      apply trim_no_space, digits_no_space, Hd. }
  unfold parsePrice. rewrite Hclean.
  assert (Htruthy : Str.truthy (marker ++ body) = true).
  { destruct body as [|h body']; [discriminate Hdigit|].
    now destruct marker. }
  rewrite Htruthy. cbn [negb].
  assert (Hchars : forall x, In x (marker ++ body) ->
            char_eq true "a" x = false /\ char_eq true "c" x = false).
  { intros x Hx. apply in_app_or in Hx as [Hx | Hx].
    - destruct (marker_char_facts marker x Hm Hx) as (? & ? & _). now split.
    - destruct (grouping_char_facts x (Hall x Hx)) as (_ & _ & _ & ? & ? & _).
      now split. }
  rewrite (exec_needs re_million "M" d (occurs_million d)).
  2:{ intros x Hx. apply filter_In in Hx as [Hx _].
      now apply grouping_char_facts, Hall. }
  rewrite (exec_needs re_lakhs "a" _ (occurs_lakhs _))
    by (intros x Hx; now apply Hchars).
  rewrite (exec_needs re_crore "c" _ (occurs_crore _))
    by (intros x Hx; now apply Hchars).
  rewrite (parseFloat_digits d Hne Hd).
  pose proof (NumberFacts.number_not_NaN (inject_Z (digits_value d))) as HN.
  destruct (number (inject_Z (digits_value d)));
    try reflexivity; now contradiction HN.
Qed.

Lemma parsePrice_grouped_digits_witness :
  parsePrice (txt "Rs" ++ txt " 2,500,000") = Some (of_Z 2500000).
Proof.
  apply (parsePrice_grouped_digits (txt "Rs") (txt " 2,500,000")).
  - right. left. reflexivity.
  - reflexivity.
  - reflexivity.
  - vm_compute. discriminate.
Defined.

(** X4: A numeral without separators before a suffix, after an optional
    currency marker and with optional white space around the numeral:
    parsePrice returns Math.round of the product of doubles of the value of
    the numeral (the double nearest to it) and 1,000,000 for M, 100,000 for
    lakh or lakhs and 10,000,000 for crore (in any letter case);
    "Rs 4.0000005M" gives 4000000. *)
Theorem parsePrice_suffix (marker ws1 ip : text) (fp : option text)
    (ws2 suffix : text) (k : Z) :
  is_marker marker ->
  forallb is_space ws1 = true -> forallb is_space ws2 = true ->
  is_numeral ip fp ->
  multiplier suffix = Some k ->
  parsePrice (marker ++ ws1 ++ numeral_text ip fp ++ ws2 ++ suffix)
  = Some (Math_round (Js.mul (number (numeral_value ip fp)) (of_Z k)))
  /\ parsePrice (txt "Rs 4.0000005M") = Some (of_Z 4000000).
Proof.
  intros Hm Hws1 Hws2 Hnum Hk.
  split; [|vm_compute; reflexivity].
  set (N := numeral_text ip fp).
  set (t := marker ++ ws1 ++ N ++ ws2 ++ suffix).
  pose proof (suffix_truthy marker ws1 ip fp ws2 suffix Hm Hws1 Hnum)
    as Htruthy.
  pose proof (suffix_prefix_no_digit marker ws1 Hm Hws1) as Hpre.
  pose proof (suffix_chars marker ws1 ip fp ws2 suffix Hm Hws1 Hws2 Hnum)
    as Hchars.
  fold N in Htruthy, Hchars. fold t in Htruthy, Hchars.
  pose proof (parseFloat_numeral ip fp Hnum) as Hvalue. fold N in Hvalue.
  assert (Hsplit : t = (marker ++ ws1) ++ N ++ ws2 ++ suffix)
    by (subst t; now rewrite <- app_assoc).
  unfold parsePrice. rewrite Htruthy. cbn [negb].
  set (cleaned := Str.trim (replace_all flag_i re_currency [] t)).
  (* the word after the numeral, for the patterns that run on the text *)
  assert (Hword : forall (c : ascii) (w0 : text) (more : list regex),
    char_eq true "l" c = true \/ char_eq true "c" c = true ->
    group_free (Seqs (Star true space :: Lit (c :: w0) :: more)) = true ->
    (forall p, exists w1 post,
        suffix = w1 ++ post
        /\ Matches flag_i (Seqs (Lit (c :: w0) :: more)) p w1 post) ->
    exists m,
      exec flag_i (Seq (Group 1 number_body)
                       (Seqs (Star true space :: Lit (c :: w0) :: more))) t
      = Some m
      /\ parseFloat (group 1 m) = number (numeral_value ip fp)).
  { intros c w0 more Hc Hgf Hsuf. rewrite Hsplit.
    destruct (exec_number_suffix
                (Seqs (Star true space :: Lit (c :: w0) :: more))
                (marker ++ ws1) ip fp (ws2 ++ suffix) Hgf Hpre Hnum)
      as (m & Hexec & Hg).
    - intros p w s. now apply tail_word.
    - destruct (Hsuf (lastc None ((marker ++ ws1) ++ N ++ ws2)))
        as (w1 & post & Es & Hw1).
      exists (ws2 ++ w1), post. split; [now rewrite Es, app_assoc|].
      change (Seqs (Star true space :: Lit (c :: w0) :: more))
        with (Seq (Star true space) (Seqs (Lit (c :: w0) :: more))).
      apply M_Seq.
      + apply star_cls_Matches. now rewrite forallb_cls_space.
      + now rewrite lastc_app, <- app_assoc.
    - exists m. split; [exact Hexec|]. now rewrite Hg. }
  (* no M in the stripped text, for the suffixes that are words *)
  assert (Hno_m : (forall x, In x suffix -> char_eq true "M" x = false) ->
                  exec flag_i re_million cleaned = None).
  { intros Hsuf. apply (exec_needs re_million "M" _ (occurs_million _)).
    intros x Hx. apply cleaned_In in Hx. revert x Hx.
    apply Hchars; try reflexivity; try exact Hsuf.
    - intros x Hx. now apply space_facts.
    - intros x Hx. now apply numeral_char_facts. }
  destruct (multiplier_cases suffix k Hk)
    as [[Es ->] | [[Es ->] | [[Es ->] | [Es ->]]]].
  - (* M *)
    destruct suffix as [|c [|c' suffix']]; try discriminate Es.
    cbn [Str.toLowerCase map txt list_ascii_of_string] in Es.
    injection Es as Ec.
    assert (Tc : char_eq true "M" c = true)
      by (unfold char_eq; rewrite Ec; reflexivity).
    assert (Hc : unmarked c /\ stays c = true /\ is_space c = false).
    { clear -Ec. revert Ec. unfold unmarked.
      ascii_cases c; intros Ec; (discriminate Ec || now repeat split). }
    destruct Hc as (Hc1 & Hc2 & Hc3).
    assert (Hclean : cleaned = N ++ [c]).
    { subst cleaned t.
      pose proof (numeral_chars ip fp Hnum) as HN. fold N in HN.
      rewrite forallb_forall in HN, Hws1, Hws2.
      destruct (strip_marker marker (ws1 ++ N ++ ws2 ++ [c]) Hm)
        as (n & p & Hn & ->).
      { destruct ws1 as [|h ws1'].
        - destruct (numeral_head ip fp Hnum) as (x & w & E & Hx).
          fold N in E. rewrite E. cbn [app]. clear -Hx. revert Hx.
          ascii_cases x; intros Hx; (discriminate Hx || reflexivity).
        - cbn [app]. apply space_facts, Hws1. now left. }
      rewrite strip_unmarked; [| |exact Hn].
      - rewrite !List.filter_app.
        rewrite (filter_none stays ws1)
          by (intros x Hx; now apply space_facts, Hws1).
        rewrite (filter_none stays ws2)
          by (intros x Hx; now apply space_facts, Hws2).
        rewrite (filter_all stays N)
          by (intros x Hx; now apply numeral_char_facts, HN).
        cbn [List.filter app]. rewrite Hc2.
        apply trim_no_space. rewrite forallb_app. cbn [forallb].
        rewrite Hc3. cbn [negb andb]. rewrite andb_true_r.
        apply forallb_forall. intros x Hx.
        apply negb_true_iff. now apply numeral_char_facts, HN.
      - apply Forall_forall. intros x Hx. apply list_elem_of_In in Hx.
        rewrite !in_app_iff in Hx.
        destruct Hx as [Hx | [Hx | [Hx | [<- | []]]]].
        + now apply space_facts, Hws1.
        + now apply numeral_char_facts, HN.
        + now apply space_facts, Hws2.
        + exact Hc1. }
    rewrite Hclean.
    destruct (exec_number_suffix (Chr "M") [] ip fp [c] eq_refl eq_refl Hnum)
      as (m & Hexec & Hg).
    + intros p w s. apply tail_million.
    + exists [c], []. split; [reflexivity|]. now constructor.
    + cbn [app] in Hexec. fold N in Hexec.
      change (Seq (Group 1 number_body) (Chr "M")) with re_million in Hexec.
      rewrite Hexec, Hg. fold N. now rewrite Hvalue.
  - (* lakh *)
    rewrite Hno_m.
    2:{ intros x Hx. apply (lower_In _ _ _ Es) in Hx.
        unfold char_eq. cbn in Hx.
        repeat (destruct Hx as [<- | Hx]; [reflexivity|]). destruct Hx. }
    destruct (Hword "l"%char (txt "akh") [Opt (Chr "s")]) as (m & Hexec & Hv).
    + now left.
    + reflexivity.
    + intros p. exists suffix, []. split; [now rewrite app_nil_r|].
      change (Seqs [Lit (txt "lakh"); Opt (Chr "s")])
        with (Seq (Lit (txt "lakh")) (Opt (Chr "s"))).
      rewrite <- (app_nil_r suffix) at 1. apply M_Seq.
      * now apply lit_Matches_lower.
      * apply M_AltR. constructor.
    + change (exec flag_i re_lakhs t = Some m) in Hexec.
      now rewrite Hexec, Hv.
  - (* lakhs *)
    rewrite Hno_m.
    2:{ intros x Hx. apply (lower_In _ _ _ Es) in Hx.
        unfold char_eq. cbn in Hx.
        repeat (destruct Hx as [<- | Hx]; [reflexivity|]). destruct Hx. }
    destruct (Hword "l"%char (txt "akh") [Opt (Chr "s")]) as (m & Hexec & Hv).
    + now left.
    + reflexivity.
    + intros p.
      destruct suffix as [|c1 [|c2 [|c3 [|c4 [|c5 [|c6 suffix']]]]]];
        try discriminate Es.
      cbn [Str.toLowerCase map txt list_ascii_of_string] in Es.
      injection Es as E1 E2 E3 E4 E5.
      exists [c1; c2; c3; c4; c5], []. split; [reflexivity|].
      change (Seqs [Lit (txt "lakh"); Opt (Chr "s")])
        with (Seq (Lit (txt "lakh")) (Opt (Chr "s"))).
      change [c1; c2; c3; c4; c5] with ([c1; c2; c3; c4] ++ [c5]).
      apply M_Seq.
      * apply lit_Matches_lower. cbn. now rewrite E1, E2, E3, E4.
      * apply M_AltL. constructor. cbn [ignoreCase flag_i].
        unfold char_eq. rewrite E5. reflexivity.
    + change (exec flag_i re_lakhs t = Some m) in Hexec.
      now rewrite Hexec, Hv.
  - (* crore *)
    rewrite Hno_m.
    2:{ intros x Hx. apply (lower_In _ _ _ Es) in Hx.
        unfold char_eq. cbn in Hx.
        repeat (destruct Hx as [<- | Hx]; [reflexivity|]). destruct Hx. }
    rewrite (exec_needs re_lakhs "a" t (occurs_lakhs t)).
    2:{ apply Hchars; try reflexivity.
        - intros x Hx. now apply space_facts.
        - intros x Hx. now apply numeral_char_facts.
        - intros x Hx. apply (lower_In _ _ _ Es) in Hx.
          unfold char_eq. cbn in Hx.
          repeat (destruct Hx as [<- | Hx]; [reflexivity|]). destruct Hx. }
    destruct (Hword "c"%char (txt "rore") []) as (m & Hexec & Hv).
    + now right.
    + reflexivity.
    + intros p. exists suffix, []. split; [now rewrite app_nil_r|].
      now apply lit_Matches_lower.
    + change (exec flag_i re_crore t = Some m) in Hexec.
      now rewrite Hexec, Hv.
Qed.

Lemma parsePrice_suffix_witness :
  parsePrice (txt "Rs." ++ txt " " ++ SizeSpec.numeral_text (txt "2") (Some (txt "5"))
              ++ txt " " ++ txt "Lakhs")
  = Some (Math_round
            (Js.mul (number (SizeSpec.numeral_value (txt "2") (Some (txt "5"))))
                    (of_Z 100000))).
Proof.
  apply (parsePrice_suffix (txt "Rs.") (txt " ") (txt "2") (Some (txt "5"))
           (txt " ") (txt "Lakhs") 100000).
  - right. right. left. reflexivity.
  - reflexivity.
  - reflexivity.
  - split; [discriminate | split; reflexivity].
  - reflexivity.
Defined.

(** *** Coordinates *)

Module CoordFacts.

Import Re ReSpec ReFacts CharFacts WordFacts SizeSpec CoordSpec.

Lemma bounds_numbers :
  number 5.9 = Fin (nearest 5.9) /\ number 9.9 = Fin (nearest 9.9)
  /\ number 79.5 = Fin (nearest 79.5) /\ number 81.9 = Fin (nearest 81.9).
Proof. repeat split; vm_compute; reflexivity. Qed.

(** The bounds test holds of the pairs inside the box. *)
Lemma in_sri_lanka_spec la lo :
  in_sri_lanka la lo = true
  <-> inside_box {| lat := Some la; lng := Some lo |}.
Proof.
  unfold in_sri_lanka, Js.ge, inside_box. cbn [lat lng].
  destruct bounds_numbers as (-> & -> & -> & ->).
  rewrite !andb_true_iff. split.
  - intros [[[H1 H2] H3] H4].
    destruct la as [qa| | |]; try discriminate; [].
    destruct lo as [qo| | |]; try discriminate; [].
    cbn [Js.le] in *. apply Qle_bool_iff in H1, H2, H3, H4.
    exists qa, qo. repeat split; assumption.
  - intros (qa & qo & Ea & Eo & H1 & H2 & H3 & H4).
    injection Ea as ->. injection Eo as ->. cbn [Js.le].
    repeat split; now apply Qle_bool_iff.
Qed.

Lemma inside_of_test la lo :
  in_sri_lanka la lo = true ->
  inside_box {| lat := Some la; lng := Some lo |}.
Proof. apply in_sri_lanka_spec. Qed.


Lemma char_eq_minus ci x : char_eq ci "-" x = true -> x = "-"%char.
Proof.
  destruct ci; unfold char_eq; [|intros H; now apply Ascii.eqb_eq in H].
  ascii_cases x; (reflexivity || discriminate).
Qed.

(** The signed number pattern matches a numeral or a numeral after a
    minus sign. *)
Lemma Matches_signed f p w s :
  Matches f signed_body p w s ->
  exists ip fp,
    is_numeral ip fp
    /\ (w = numeral_text ip fp \/ w = "-"%char :: numeral_text ip fp).
Proof.
  intros H. unfold signed_body in H.
  change (Seqs [Opt (Chr "-"); Plus digit; Opt (Chr "."); Star true digit])
    with (Seq (Opt (Chr "-")) number_body) in H.
  apply Matches_seq_inv in H as (w1 & w2 & -> & H1 & H2).
  destruct (Matches_number f _ _ _ H2) as (ip & fp & -> & Hnum).
  exists ip, fp. split; [exact Hnum|].
  apply Matches_alt_inv in H1 as [H1 | H1].
  - apply Matches_chr_inv in H1 as (x & -> & Hx).
    apply char_eq_minus in Hx as ->. now right.
  - apply Matches_eps_inv in H1 as ->. now left.
Qed.

Lemma parseFloat_signed f p w s :
  Matches f signed_body p w s -> parseFloat w <> NaN.
Proof.
  intros H. destruct (Matches_signed f p w s H) as (ip & fp & Hnum & [-> | ->]).
  - rewrite (parseFloat_numeral ip fp Hnum). apply NumberFacts.number_not_NaN.
  - pose proof (parseFloat_numeral ip fp Hnum) as Hv.
    destruct (numeral_head ip fp Hnum) as (x & t & E & Hx).
    rewrite E in Hv |- *. rewrite (parseFloat_digit x t Hx) in Hv.
    unfold parseFloat. cbn [Str.trimStart].
    change (is_space "-") with false. cbv beta iota.
    rewrite Hv.
    pose proof (NumberFacts.number_not_NaN (numeral_value ip fp)) as HN.
    destruct (number (numeral_value ip fp)); (discriminate || exact HN).
Qed.

Lemma first_match_Some f patterns s m :
  first_match f patterns s = Some m ->
  exists r, In r patterns /\ exec f r s = Some m.
Proof.
  induction patterns as [|r rs IH]; cbn [first_match]; [discriminate|].
  destruct (exec f r s) as [m'|] eqn:E.
  - intros H. injection H as <-. exists r. split; [now left | exact E].
  - intros H. destruct (IH H) as (r' & Hin & Hr'). exists r'.
    split; [now right | exact Hr'].
Qed.

(** Both groups of a match of a map pattern read as numbers. *)
Lemma maps_pattern_groups r u m :
  In r maps_patterns -> exec no_flags r u = Some m ->
  parseFloat (group 1 m) <> NaN /\ parseFloat (group 2 m) <> NaN.
Proof.
  intros Hin Hm.
  assert (Hshape : exists A,
    group_free A = true
    /\ r = Seq A (Seq (Group 1 signed_body)
                      (Seq (Chr ",") (Group 2 signed_body)))).
  { destruct Hin as [<- | [<- | [<- | []]]]; eexists; split;
      try reflexivity; reflexivity. }
  destruct Hshape as (A & HA & ->).
  destruct (CaptureFacts.exec_two_groups no_flags A (Chr ",")
              signed_body signed_body 1 2 u m HA eq_refl eq_refl eq_refl
              ltac:(discriminate) Hm)
    as (p1 & s1 & p2 & s2 & M1 & M2).
  split; [exact (parseFloat_signed _ _ _ _ M1)
         | exact (parseFloat_signed _ _ _ _ M2)].
Qed.

(** A pair read from a map URL is absent or a pair of numbers. *)
Lemma extract_pair (url : option text) :
  absent (extractCoordsFromGoogleMaps url)
  \/ both_numbers (extractCoordsFromGoogleMaps url).
Proof.
  unfold extractCoordsFromGoogleMaps.
  destruct url as [u|]; [|left; now split].
  destruct (negb (Str.truthy u)); [left; now split|].
  destruct (first_match no_flags maps_patterns u) as [m|] eqn:E;
    [|left; now split].
  right. apply first_match_Some in E as (r & Hin & Hm).
  destruct (maps_pattern_groups r u m Hin Hm) as (Ha & Ho).
  eexists; eexists. cbn [lat lng]. now repeat split.
Qed.

End CoordFacts.

Import CoordSpec.

(** X5: extractCoordsFromGoogleMaps returns no coordinate or a pair of
    numbers: never one coordinate without the other, and never NaN. *)
Theorem extractCoordsFromGoogleMaps_pair (url : option text) :
  absent (extractCoordsFromGoogleMaps url)
  \/ both_numbers (extractCoordsFromGoogleMaps url).
Proof. apply CoordFacts.extract_pair. Qed.


Module DetailFacts.

Import CoordSpec CoordFacts.

Lemma absent_no_coords : absent no_coords.
Proof. now split. Qed.

Lemma coords_from_patterns_valid patterns t :
  absent (coords_from_patterns patterns t)
  \/ inside_box (coords_from_patterns patterns t).
Proof.
  induction patterns as [|[f pattern] ps IH]; cbn [coords_from_patterns].
  - left. apply absent_no_coords.
  - destruct (Re.exec f pattern t) as [m|]; [|exact IH].
    destruct (in_sri_lanka _ _) eqn:E; [|exact IH].
    right. now apply inside_of_test.
Qed.

Lemma coords_from_scripts_valid scripts :
  absent (coords_from_scripts scripts)
  \/ inside_box (coords_from_scripts scripts).
Proof.
  induction scripts as [|script rest IH]; cbn [coords_from_scripts].
  - left. apply absent_no_coords.
  - destruct (Js.truthy_opt _); [apply coords_from_patterns_valid | exact IH].
Qed.

(** Without a pair in a map link or a map frame, the coordinates of a
    detail document come from a script or from data attributes, after the
    bounds test. *)
Lemma detail_coordinates_valid doc c :
  no_map_pair doc ->
  detail_coordinates doc = Returned c ->
  absent c \/ inside_box c.
Proof.
  intros [Hlink Hframe]. unfold detail_coordinates.
  destruct (doc_querySelector doc Sel_map_link) as [mapLink|] eqn:E1;
    cbn [obind]; [|discriminate].
  assert (Hr1 : match mapLink with
                | Some a => coords_if_truthy
                              (extractCoordsFromGoogleMaps (href a)) no_coords
                | None => no_coords
                end = no_coords).
  { destruct mapLink as [a|]; [|reflexivity].
    now rewrite (Hlink a eq_refl). }
  rewrite Hr1. cbn [lat no_coords Js.truthy_opt].
  destruct (doc_querySelector doc Sel_map_iframe) as [mapIframe|] eqn:E2;
    cbn [obind]; [|discriminate].
  assert (Hr2 : match mapIframe with
                | Some fr => coords_if_truthy
                               (extractCoordsFromGoogleMaps (src fr)) no_coords
                | None => no_coords
                end = no_coords).
  { destruct mapIframe as [fr|]; [|reflexivity].
    now rewrite (Hframe fr eq_refl). }
  rewrite Hr2. cbn [lat no_coords Js.truthy_opt].
  destruct (doc_querySelectorAll doc Sel_script) as [scripts|];
    cbn [obind]; [|discriminate].
  destruct (coords_from_scripts_valid scripts) as [Hs | Hs].
  - destruct Hs as [Hs1 Hs2]. rewrite Hs1. cbn [Js.truthy_opt lat].
    destruct (doc_querySelector doc Sel_map_container) as [[el|]|];
      cbn [obind]; try discriminate.
    + intros H. injection H as <-.
      destruct (_ && _ && in_sri_lanka _ _) eqn:E.
      * right. apply andb_prop in E as [_ E]. now apply inside_of_test.
      * left. apply absent_no_coords.
    + intros H. injection H as <-. left. apply absent_no_coords.
  - pose proof Hs as (la & lo & Hla & Hlo & Hb).
    rewrite Hla. cbn [Js.truthy_opt Js.truthy].
    destruct (negb (Qeq_bool la 0)) eqn:E0.
    + cbn [lat]. rewrite Hla. cbn [Js.truthy_opt Js.truthy]. rewrite E0.
      intros H. injection H as <-. now right.
    + exfalso. apply negb_false_iff, Qeq_bool_iff in E0.
      destruct Hb as (H1 & _). rewrite E0 in H1. now apply H1.
Qed.


End DetailFacts.

(** X6: findEmbeddedCoordinates returns the pair of the first script whose
    pair lies inside the box of Sri Lanka (latitude 5.9 to 9.9, longitude
    79.5 to 81.9, bounds and coordinates as doubles): a script without a
    pair, or whose pair is outside the box, is passed over and the next
    script is tried, and when no script has a pair inside the box the result
    holds no coordinate.  After a script with the pair (51.5, -0.1) a script
    with the pair (6.9, 79.8) gives the second pair. *)
Theorem findEmbeddedCoordinates_in_box (scripts : list Element) :
  let passed_over script :=
    forall p, embedded_pair script = Some p -> ~ inside_box (pair_coords p) in
  (forall before script after p,
     scripts = before ++ script :: after ->
     (forall s, In s before -> passed_over s) ->
     embedded_pair script = Some p ->
     inside_box (pair_coords p) ->
     findEmbeddedCoordinates scripts = pair_coords p)
  /\ ((forall s, In s scripts -> passed_over s) ->
      findEmbeddedCoordinates scripts = no_coords)
  /\ (absent (findEmbeddedCoordinates scripts)
      \/ inside_box (findEmbeddedCoordinates scripts))
  /\ findEmbeddedCoordinates
       [Sample.element "var map = { lat: 51.5, lng: -0.1 };";
        Sample.element "var map = { lat: 6.9, lng: 79.8 };"]
     = pair_coords (number 6.9, number 79.8).
Proof.
  intros passed_over.
  assert (Hstep : forall script rest,
    findEmbeddedCoordinates (script :: rest)
    = match embedded_pair script with
      | Some p => if in_sri_lanka (fst p) (snd p) then pair_coords p
                  else findEmbeddedCoordinates rest
      | None => findEmbeddedCoordinates rest
      end).
  { intros script rest. cbn [findEmbeddedCoordinates]. unfold embedded_pair.
    destruct (Re.exec Re.flag_i re_embedded_lat _) as [latMatch|];
      [|reflexivity].
    destruct (Re.exec Re.flag_i re_embedded_lng _) as [lngMatch|];
      reflexivity. }
  assert (Hskip : forall script rest,
    passed_over script ->
    findEmbeddedCoordinates (script :: rest) = findEmbeddedCoordinates rest).
  { intros script rest Hp. rewrite Hstep.
    destruct (embedded_pair script) as [p|] eqn:E; [|reflexivity].
    destruct (in_sri_lanka (fst p) (snd p)) eqn:Eb; [|reflexivity].
    exfalso. apply (Hp p E). now apply CoordFacts.in_sri_lanka_spec. }
  split; [|split; [|split]].
  - intros before script after p -> Hbefore Hp Hbox.
    induction before as [|s before IH]; cbn [app].
    + rewrite Hstep, Hp.
      apply CoordFacts.in_sri_lanka_spec in Hbox. now rewrite Hbox.
    + rewrite Hskip by (apply Hbefore; now left).
      apply IH. intros s' Hs'. apply Hbefore. now right.
  - intros Hall. induction scripts as [|s rest IH]; [reflexivity|].
    rewrite Hskip by (apply Hall; now left).
    apply IH. intros s' Hs'. apply Hall. now right.
  - induction scripts as [|script rest IH].
    + left. apply DetailFacts.absent_no_coords.
    + rewrite Hstep. destruct (embedded_pair script) as [p|]; [|exact IH].
      destruct (in_sri_lanka (fst p) (snd p)) eqn:E; [|exact IH].
      right. now apply CoordFacts.inside_of_test.
  - vm_compute. reflexivity.
Qed.

(** X7: Coordinates that fetchDetailPageInfo does not read from the URL of a
    map link or a map frame have passed the bounds test: when the detail
    document has no such URL with a pair, the result holds no coordinate or
    a finite pair with 5.9 <= lat <= 9.9 and 79.5 <= lng <= 81.9. *)
Theorem fetchDetailPageInfo_coordinates_validated
    (N : Net) (D : DateEnv) (url : text) (site : Site) :
  (forall status html doc,
     fetch N url = Response status (Returned html) ->
     DOMParser_parseFromString N html = Returned doc ->
     no_map_pair doc) ->
  let info := fetchDetailPageInfo N D url site in
  let c := {| lat := info_lat info; lng := info_lng info |} in
  absent c \/ inside_box c.
Proof.
  intros Hdoc. cbn zeta.
  unfold fetchDetailPageInfo, fetchDetailPageInfo_body.
  destruct (fetch N url) as [|status [html|]] eqn:Ef.
  - left. now split.
  - destruct (negb (response_ok status)); [left; now split|].
    cbn [obind].
    destruct (DOMParser_parseFromString N html) as [doc|] eqn:Ep;
      cbn [obind try_catch]; [|left; now split].
    specialize (Hdoc status html doc eq_refl Ep).
    destruct (match site with
              | Ikman => _
              | LPW => _
              end) as [dated|]; cbn [obind try_catch]; [|left; now split].
    destruct (detail_coordinates doc) as [c|] eqn:Ec;
      cbn [obind try_catch]; [|left; now split].
    cbn [info_lat info_lng].
    destruct (DetailFacts.detail_coordinates_valid doc c Hdoc Ec) as [H | H];
      [left | right]; now destruct c.
  - destruct (negb (response_ok status)); left; now split.
Qed.

Lemma fetchDetailPageInfo_coordinates_validated_witness :
  let info :=
    fetchDetailPageInfo
      (Sample.serving
         (Sample.detail_document None None
            (Some "var map = { lat: 6.9, lng: 79.8 };")))
      Sample.clock (txt "https://www.lankapropertyweb.com/land/2") LPW in
  let c := {| lat := info_lat info; lng := info_lng info |} in
  absent c \/ inside_box c.
Proof.
  apply (fetchDetailPageInfo_coordinates_validated
           (Sample.serving
              (Sample.detail_document None None
                 (Some "var map = { lat: 6.9, lng: 79.8 };")))
           Sample.clock (txt "https://www.lankapropertyweb.com/land/2") LPW).
  intros status html doc _ Hp. cbn in Hp. injection Hp as <-.
  split; intros a H; cbn in H; discriminate H.
Defined.

(** *** Target locations and councils *)

Module LocationFacts.

Import RegionSpec RegionFacts CharFacts.

Lemma truthy_lower t : Str.truthy (Str.toLowerCase t) = Str.truthy t.
Proof. now destruct t. Qed.

Lemma truthy_nonempty t : Str.truthy t = true <-> t <> [].
Proof. destruct t; split; (discriminate || congruence || easy). Qed.

(** matchesTargetLocation holds when the text is not empty and some
    location occurs in it, both in lower case. *)
Lemma matches_iff locations t :
  matchesTargetLocation locations t = true
  <-> t <> []
      /\ exists loc, In loc locations
                     /\ substring (Str.toLowerCase loc) (Str.toLowerCase t).
Proof.
  unfold matchesTargetLocation. destruct t as [|c t]; cbn [Str.truthy negb].
  - split; [discriminate | now intros [H _]].
  - rewrite existsb_exists. split.
    + intros (loc & Hin & H). split; [discriminate|].
      exists loc. split; [exact Hin | now apply includes_spec].
    + intros (_ & loc & Hin & H). exists loc.
      split; [exact Hin | now apply includes_spec].
Qed.

Lemma existsb_mapped {A B : Type} (g : B -> bool) (h : A -> B) (l : list A) :
  existsb g (map h l) = existsb (fun x => g (h x)) l.
Proof. induction l as [|x l IH]; [reflexivity|]. cbn. now rewrite IH. Qed.

Lemma existsb_same {A : Type} (g1 g2 : A -> bool) (l : list A) :
  (forall x, g1 x = g2 x) -> existsb g1 l = existsb g2 l.
Proof.
  intros H. induction l as [|x l IH]; [reflexivity|]. cbn. now rewrite H, IH.
Qed.

Lemma first_some_skip {A B : Type} (g : A -> option B) l1 x l2 y :
  (forall a, In a l1 -> g a = None) -> g x = Some y ->
  first_some g (l1 ++ x :: l2) = Some y.
Proof.
  intros Hnone Hx. induction l1 as [|a l1 IH]; cbn [app first_some].
  - now rewrite Hx.
  - rewrite (Hnone a (or_introl eq_refl)). apply IH.
    intros b Hb. apply Hnone. now right.
Qed.

(** getMunicipalCouncil on a text that is not empty. *)
Lemma getMunicipalCouncil_nonempty (mapping : option Mapping) (t : text) :
  t <> [] ->
  getMunicipalCouncil mapping (Some t)
  = match
      match mapping with
      | Some m => mapping_tiers m (lowered t) (location_parts (lowered t))
      | None => None
      end
    with
    | Some mc => mc
    | None => Name (area_fallback (lowered t))
    end.
Proof. intros Hne. destruct t as [|c t]; [contradiction | reflexivity]. Qed.

End LocationFacts.

Import RegionSpec.

(** X8: matchesTargetLocation holds exactly when the text is not empty and
    contains one of the locations, letter case apart on both sides:
    lower-casing the locations or the text changes nothing. *)
Theorem matchesTargetLocation_substring (locations : list text) (t : text) :
  (matchesTargetLocation locations t = true
   <-> t <> []
       /\ exists loc, In loc locations
                      /\ substring (Str.toLowerCase loc) (Str.toLowerCase t))
  /\ matchesTargetLocation (map Str.toLowerCase locations) t
     = matchesTargetLocation locations t
  /\ matchesTargetLocation locations (Str.toLowerCase t)
     = matchesTargetLocation locations t.
Proof.
  split; [apply LocationFacts.matches_iff|]. split.
  - unfold matchesTargetLocation. destruct (negb (Str.truthy t)); [reflexivity|].
    rewrite LocationFacts.existsb_mapped.
    apply LocationFacts.existsb_same. intros loc.
    now rewrite CharFacts.toLowerCase_idem.
  - unfold matchesTargetLocation.
    rewrite LocationFacts.truthy_lower.
    now rewrite CharFacts.toLowerCase_idem.
Qed.

(** X9: An empty string among the locations matches every text that is not
    empty: with it, the location filter keeps every record. *)
Theorem matchesTargetLocation_empty_location
    (locations : list text) (t : text) :
  In [] locations -> t <> [] -> matchesTargetLocation locations t = true.
Proof.
  intros Hin Hne. apply LocationFacts.matches_iff. split; [exact Hne|].
  exists []. split; [exact Hin|]. now exists [], (Str.toLowerCase t).
Qed.

Lemma matchesTargetLocation_empty_location_witness :
  matchesTargetLocation [txt "malabe"; []] (txt "Kandy") = true.
Proof.
  apply (matchesTargetLocation_empty_location
           [txt "malabe"; []] (txt "Kandy")).
  - right. left. reflexivity.
  - discriminate.
Defined.

(** X10: When the mapping is not loaded, or none of its three tiers matches
    and no part of the text names a property that the mapping object
    inherits, the hardcoded lists decide in a fixed order: a name of the
    Kaduwela list gives "Kaduwela MC" even when names of the other lists
    occur too, then the Kotte list, then the Colombo list, and "Other" when
    no name occurs. *)
Theorem getMunicipalCouncil_fallback_order
    (mapping : option Mapping) (t : text) :
  t <> [] ->
  (forall m, mapping = Some m ->
     ~ (exact_tier m (lowered t) \/ containment_tier m (lowered t)
        \/ full_text_tier m (lowered t))
     /\ ~ inherited_part (lowered t)) ->
  let names areas := exists loc, In loc areas /\ substring loc (lowered t) in
  let council := getMunicipalCouncil mapping (Some t) in
  (names kaduwelaAreas -> council = txt "Kaduwela MC")
  /\ (~ names kaduwelaAreas -> names kotteAreas ->
      council = txt "Sri Jayawardenepura Kotte MC")
  /\ (~ names kaduwelaAreas -> ~ names kotteAreas -> names colomboAreas ->
      council = txt "Colombo MC")
  /\ (~ names kaduwelaAreas -> ~ names kotteAreas -> ~ names colomboAreas ->
      council = txt "Other").
Proof.
  intros Hne Hno names council.
  assert (Hc : council = Name (area_fallback (lowered t))).
  { subst council.
    rewrite (LocationFacts.getMunicipalCouncil_nonempty mapping t Hne).
    destruct mapping as [m|]; [|reflexivity].
    now rewrite (proj2 (RegionFacts.mapping_tiers_None m (lowered t))
                   (Hno m eq_refl)). }
  rewrite Hc. unfold area_fallback.
  assert (Hyes : forall areas, names areas ->
            existsb (fun loc => Str.includes (lowered t) loc) areas = true)
    by (intros areas H; now apply RegionFacts.existsb_includes).
  assert (Hnot : forall areas, ~ names areas ->
            existsb (fun loc => Str.includes (lowered t) loc) areas = false).
  { intros areas H.
    destruct (existsb _ areas) eqn:E; [|reflexivity].
    apply RegionFacts.existsb_includes in E. contradiction. }
  split; [|split; [|split]].
  - intros H1. now rewrite (Hyes _ H1).
  - intros H1 H2. now rewrite (Hnot _ H1), (Hyes _ H2).
  - intros H1 H2 H3. now rewrite (Hnot _ H1), (Hnot _ H2), (Hyes _ H3).
  - intros H1 H2 H3. now rewrite (Hnot _ H1), (Hnot _ H2), (Hnot _ H3).
Qed.

Lemma getMunicipalCouncil_fallback_order_witness :
  getMunicipalCouncil (Some [(txt "kandy", txt "Kandy MC")])
                      (Some (txt "Borella, near Malabe"))
  = txt "Kaduwela MC".
Proof.
  apply (getMunicipalCouncil_fallback_order
           (Some [(txt "kandy", txt "Kandy MC")])
           (txt "Borella, near Malabe")).
  - discriminate.
  - intros m E. injection E as <-.
    apply (RegionFacts.mapping_tiers_None
             [(txt "kandy", txt "Kandy MC")]
             (lowered (txt "Borella, near Malabe"))).
    reflexivity.
  - exists (txt "malabe"). split.
    + right. right. right. left. reflexivity.
    + exists (txt "borella, near "), []. reflexivity.
Defined.

(** X11: The first part of the location that is a property of the mapping
    object with a value that is not empty decides: when that part is a key
    with a council name, and no part before it is such a property (a key
    with a council name or a name that the object inherits),
    getMunicipalCouncil returns that council name, whatever the parts
    before it contain and whatever follows. *)
Theorem getMunicipalCouncil_exact_part
    (m : Mapping) (t : text) (before : list text) (part : text)
    (after : list text) (mc : text) :
  t <> [] ->
  location_parts (lowered t) = before ++ part :: after ->
  (forall p, In p before ->
             mapping_get m p = None \/ mapping_get m p = Some (Name [])) ->
  mapping_get m part = Some (Name mc) -> mc <> [] ->
  getMunicipalCouncil (Some m) (Some t) = mc.
Proof.
  intros Hne Hparts Hbefore Hpart Hmc.
  rewrite (LocationFacts.getMunicipalCouncil_nonempty (Some m) t Hne).
  unfold mapping_tiers, exact_part_lookup. rewrite Hparts.
  rewrite (LocationFacts.first_some_skip _ before part after (Name mc));
    [reflexivity | |].
  - intros p Hp. destruct (Hbefore p Hp) as [E | E]; now rewrite E.
  - rewrite Hpart. destruct mc; [contradiction | reflexivity].
Qed.

Lemma getMunicipalCouncil_exact_part_witness :
  getMunicipalCouncil (Some [(txt "malabe", txt "Kaduwela")])
                      (Some (txt "Colombo Road - Malabe"))
  = txt "Kaduwela".
Proof.
  apply (getMunicipalCouncil_exact_part
           [(txt "malabe", txt "Kaduwela")] (txt "Colombo Road - Malabe")
           [txt "colombo road"] (txt "malabe") []).
  - discriminate.
  - reflexivity.
  - intros p [<- | []]. left. reflexivity.
  - reflexivity.
  - discriminate.
Defined.

(** X12: The second tier also accepts a part that occurs inside a key: when no
    part is a property of the mapping object with a value that is not empty
    (neither a key with a council name nor a name that the object inherits)
    and the first part is a fragment of the first key that
    [Object.entries] lists, getMunicipalCouncil returns the council of that
    key, whatever the rest of the text says. *)
Theorem getMunicipalCouncil_fragment
    (gnd mc : text) (m : Mapping) (t part : text) (others : list text) :
  t <> [] ->
  location_parts (lowered t) = part :: others ->
  (forall p, In p (part :: others) ->
             mapping_get ((gnd, mc) :: m) p = None
             \/ mapping_get ((gnd, mc) :: m) p = Some (Name [])) ->
  substring part gnd ->
  getMunicipalCouncil (Some ((gnd, mc) :: m)) (Some t) = mc.
Proof.
  intros Hne Hparts Hexact Hsub.
  rewrite (LocationFacts.getMunicipalCouncil_nonempty _ t Hne).
  unfold mapping_tiers. rewrite Hparts.
  assert (E1 : exact_part_lookup ((gnd, mc) :: m) (part :: others) = None).
  { apply RegionFacts.first_some_None. intros p Hp.
    destruct (Hexact p Hp) as [E | E]; now rewrite E. }
  rewrite E1. unfold containment_lookup. cbn [first_some].
  apply RegionFacts.includes_spec in Hsub. rewrite Hsub, orb_true_r.
  reflexivity.
Qed.

Lemma getMunicipalCouncil_fragment_witness :
  getMunicipalCouncil (Some [(txt "malabe", txt "Kaduwela")])
                      (Some (txt "A, Kandy"))
  = txt "Kaduwela".
Proof.
  apply (getMunicipalCouncil_fragment
           (txt "malabe") (txt "Kaduwela") [] (txt "A, Kandy")
           (txt "a") [txt "kandy"]).
  - discriminate.
  - reflexivity.
  - intros p [<- | [<- | []]]; left; reflexivity.
  - exists (txt "m"), (txt "labe"). reflexivity.
Defined.

(** *** Records of a card *)

Module CardFacts.

Import RegionSpec RegionFacts CoordSpec.

Lemma substring_app_r (sub s pre : text) :
  substring sub s -> substring sub (pre ++ s).
Proof.
  intros (a & b & ->). exists (pre ++ a), b. now rewrite <- app_assoc.
Qed.

(** The fields of a record in terms of what the adapter reads. *)
Lemma extractFromCard_fields (scraper : Scraper) E card l :
  scraper = IkmanScraper \/ scraper = LPWScraper ->
  extractFromCard scraper E card = Some l ->
  let marked := Re.test Re.flag_i re_per_perch (priceRaw l) in
  priceTotal l = total_price marked (parsePrice (priceRaw l)) (sizePerches l)
  /\ pricePerPerch l
     = calculatePricePerPerch (parsePrice (priceRaw l)) (sizePerches l) marked
  /\ (exists sizeText, sizePerches l = parseSize sizeText)
  /\ postedDate l = None
  /\ scrapedAt l = Date_now (date E)
  /\ (scraper = IkmanScraper ->
      source l = txt "ikman.lk"
      /\ latitude l = None /\ longitude l = None
      /\ exists u, Str.includes u (txt "/ad/") = true
                   /\ url l = absolute "https://ikman.lk" u)
  /\ (scraper = LPWScraper ->
      source l = txt "lankapropertyweb.com"
      /\ (exists u, url l = absolute "https://www.lankapropertyweb.com" u)
      /\ exists h, latitude l = lat (extractCoordsFromGoogleMaps h)
                   /\ longitude l = lng (extractCoordsFromGoogleMaps h)).
Proof.
  intros [-> | ->]; [unfold IkmanScraper | unfold LPWScraper];
    cbn [extractFromCard]; unfold try_catch.
  - unfold ikman_extract_body.
    destruct (card_querySelector card Sel_ad_link) as [found_link|];
      cbn [obind]; [|now intros H].
    destruct (or_text _ _) as [u|]; [|now intros H].
    destruct (negb (Str.truthy u)) eqn:Et; cbn [orb]; [now intros H|].
    destruct (negb (Str.includes u (txt "/ad/"))) eqn:Ei; [now intros H|].
    destruct (card_querySelector card Sel_ikman_title) as [titleEl|];
      cbn [obind]; [|now intros H].
    destruct (card_querySelector card Sel_ikman_price) as [priceEl|];
      cbn [obind]; [|now intros H].
    intros H. injection H as <-.
    cbn [priceTotal priceRaw sizePerches pricePerPerch postedDate scrapedAt
         source latitude longitude url].
    split; [reflexivity|]. split; [reflexivity|]. split; [now eexists|].
    split; [reflexivity|]. split; [reflexivity|]. split.
    + intros _. do 3 (split; [reflexivity|]).
      exists u. split; [now apply negb_false_iff in Ei | reflexivity].
    + intros H. apply (f_equal site) in H. discriminate H.
  - unfold lpw_extract_body.
    destruct (card_querySelector card Sel_property_link) as [[link|]|];
      cbn [obind]; try (now intros H).
    destruct (href link) as [u|]; [|now intros H].
    destruct (card_querySelector card Sel_lpw_title) as [titleEl|];
      cbn [obind]; [|now intros H].
    destruct (card_querySelector card Sel_lpw_location) as [locationEl|];
      cbn [obind]; [|now intros H].
    destruct (card_querySelector card Sel_lpw_price) as [priceEl|];
      cbn [obind]; [|now intros H].
    destruct (card_querySelector card Sel_lpw_size) as [sizeEl|];
      cbn [obind]; [|now intros H].
    destruct (card_querySelector card Sel_card_map_link) as [mapLink|];
      cbn [obind]; [|now intros H].
    intros H. injection H as <-.
    cbn [priceTotal priceRaw sizePerches pricePerPerch postedDate scrapedAt
         source latitude longitude url].
    split; [reflexivity|]. split; [reflexivity|]. split; [now eexists|].
    split; [reflexivity|]. split; [reflexivity|]. split.
    + intros H. apply (f_equal site) in H. discriminate H.
    + intros _. split; [reflexivity|]. split; [now exists u|].
      destruct mapLink as [a|].
      * exists (href a). now split.
      * exists None. now split.
Qed.


Lemma absolute_http origin u :
  Str.startsWith (txt origin) (txt "http") = true ->
  Str.startsWith (absolute origin u) (txt "http") = true.
Proof.
  intros Ho. unfold absolute.
  destruct (Str.startsWith u (txt "http")) eqn:E; [exact E|].
  apply startsWith_spec in Ho as (post & ->).
  apply startsWith_spec. exists (post ++ u). now rewrite <- app_assoc.
Qed.

Lemma absolute_substring origin u sub :
  substring sub u -> substring sub (absolute origin u).
Proof.
  intros H. unfold absolute.
  destruct (Str.startsWith u (txt "http")); [exact H|].
  now apply substring_app_r.
Qed.

(** A result of calculatePricePerPerch comes from a truthy price and a
    truthy size above 0: it is the price, or the rounded quotient when the
    text is not marked per perch. *)
Lemma calculatePricePerPerch_Some price size marked x :
  calculatePricePerPerch price size marked = Some x ->
  exists p sz,
    price = Some p /\ size = Some sz
    /\ Js.truthy p = true /\ Js.truthy sz = true
    /\ Js.le sz (of_Z 0) = false
    /\ (marked = true -> x = p)
    /\ (x = p
        \/ (x = Math_round (Js.div p sz)
            /\ Js.gt p (of_Z 1000000) = true)).
Proof.
  unfold calculatePricePerPerch.
  destruct price as [p|]; [|discriminate].
  destruct size as [sz|]; [|cbn; now rewrite orb_true_r].
  cbn [Js.truthy_opt to_number].
  destruct (Js.truthy p) eqn:Ep; [|discriminate].
  destruct (Js.truthy sz) eqn:Es; [|discriminate].
  destruct (Js.le sz (of_Z 0)) eqn:El; [discriminate|].
  cbn [negb orb]. intros H.
  exists p, sz. do 2 (split; [reflexivity|]).
  split; [exact Ep|]. split; [exact Es|]. split; [exact El|].
  destruct marked.
  - injection H as <-. split; [reflexivity | now left].
  - split; [discriminate|].
    destruct (Js.gt p (of_Z 5000000) && Js.lt sz (of_Z 50)) eqn:E5.
    + injection H as <-. right. split; [reflexivity|].
      apply andb_prop in E5 as [E5 _]. revert E5. clear.
      unfold Js.gt, Js.lt, of_Z, Js.Qlt_bool.
      destruct p as [q| | |]; try (intros H; exact H || discriminate H).
      rewrite !negb_true_iff, !Qle_bool_false_iff.
      intros H. eapply Qlt_trans; [|exact H]. reflexivity.
    + destruct (Js.lt p (of_Z 500000)); [injection H as <-; now left|].
      destruct (Js.gt p (of_Z 1000000)) eqn:E1; injection H as <-;
        [right; now split | now left].
Qed.

(** The rounded quotient of a price above 1,000,000 and a size above 0
    is an integer or Infinity, or NaN when both are infinite. *)
Lemma round_quotient p sz :
  ((exists z, p = of_Z z) \/ p = PInf \/ p = NInf) ->
  Js.gt p (of_Z 1000000) = true ->
  (sz = PInf \/ exists s : Q, sz = Fin s /\ (0 < s)%Q) ->
  ((exists z, Math_round (Js.div p sz) = of_Z z)
   \/ Math_round (Js.div p sz) = PInf
   \/ Math_round (Js.div p sz) = NInf)
  \/ (Math_round (Js.div p sz) = NaN /\ p = PInf /\ sz = PInf).
Proof.
  intros [(z & ->) | [-> | ->]] Hgt [-> | (s & -> & Hs)];
    cbn [Js.div of_Z].
  - left. left. now exists 0.
  - left. destruct (Qeq_bool s 0) eqn:E.
    + apply Qeq_bool_iff in E. rewrite E in Hs. now apply Qlt_irrefl in Hs.
    + apply NumberFacts.round_number.
  - right. now repeat split.
  - left. destruct (Js.Qlt_bool s 0); cbn [Math_round]; auto.
  - discriminate Hgt.
  - discriminate Hgt.
Qed.

End CardFacts.

Import CoordSpec.

(** X13: parseSize reads no sign: a result is a number that is not negative,
    never NaN, and a minus sign before the numeral is left out. *)
Theorem parseSize_not_negative (t : text) (x : JsNum) :
  parseSize t = Some x ->
  x <> NaN
  /\ Js.lt x (of_Z 0) = false
  /\ parseSize (txt "-5 perches") = Some (Fin 5).
Proof.
  intros H. destruct (parseSize_nonneg t x H) as [-> | (q & -> & Hq)].
  { split; [discriminate|]. split; [reflexivity | vm_compute; reflexivity]. }
  split; [discriminate|]. split; [|vm_compute; reflexivity].
  cbn [Js.lt of_Z]. unfold Js.Qlt_bool.
  apply negb_false_iff. now apply Qle_bool_iff.
Qed.

Lemma parseSize_not_negative_witness :
  Fin 80 <> NaN
  /\ Js.lt (Fin 80) (of_Z 0) = false
  /\ parseSize (txt "-5 perches") = Some (Fin 5).
Proof.
  apply (parseSize_not_negative (txt "0.5 acres")).
  vm_compute. reflexivity.
Defined.

(** X14: A record that an adapter extracts from a card is well formed: its url
    is absolute; on ikman.lk it contains /ad/ and the record has no
    coordinates yet; on lankapropertyweb.com the coordinates are both
    absent or both numbers, never NaN; the source names the site and the
    posted date is still absent. *)
Theorem extractFromCard_well_formed
    (scraper : Scraper) (E : Env) (card : Card) (l : Listing) :
  scraper = IkmanScraper \/ scraper = LPWScraper ->
  extractFromCard scraper E card = Some l ->
  Str.startsWith (url l) (txt "http") = true
  /\ postedDate l = None
  /\ source l = match site scraper with
                | Ikman => txt "ikman.lk"
                | LPW => txt "lankapropertyweb.com"
                end
  /\ (site scraper = Ikman ->
      RegionSpec.substring (txt "/ad/") (url l)
      /\ latitude l = None /\ longitude l = None)
  /\ (absent {| lat := latitude l; lng := longitude l |}
      \/ both_numbers {| lat := latitude l; lng := longitude l |}).
Proof.
  intros Hs Hl.
  destruct (CardFacts.extractFromCard_fields scraper E card l Hs Hl)
    as (_ & _ & _ & Hdate & _ & Hikman & Hlpw).
  destruct Hs as [-> | ->].
  - destruct (Hikman eq_refl) as (Hsrc & Hla & Hlo & u & Hu & ->).
    split; [now apply CardFacts.absolute_http|].
    split; [exact Hdate|]. split; [exact Hsrc|].
    split.
    + intros _. split; [|now split].
      apply CardFacts.absolute_substring.
      now apply RegionFacts.includes_spec.
    + left. now split.
  - destruct (Hlpw eq_refl) as (Hsrc & (u & ->) & h & Hla & Hlo).
    split; [now apply CardFacts.absolute_http|].
    split; [exact Hdate|]. split; [exact Hsrc|].
    split; [intros H; discriminate H|].
    rewrite Hla, Hlo.
    destruct (CoordFacts.extract_pair h) as [H | H];
      [left | right]; now destruct (extractCoordsFromGoogleMaps h).
Qed.

Lemma extractFromCard_well_formed_witness :
  let l := Scenario.per_perch_listing in
  Str.startsWith (url l) (txt "http") = true
  /\ postedDate l = None
  /\ source l = match site IkmanScraper with
                | Ikman => txt "ikman.lk"
                | LPW => txt "lankapropertyweb.com"
                end
  /\ (site IkmanScraper = Ikman ->
      RegionSpec.substring (txt "/ad/") (url l)
      /\ latitude l = None /\ longitude l = None)
  /\ (absent {| lat := latitude l; lng := longitude l |}
      \/ both_numbers {| lat := latitude l; lng := longitude l |}).
Proof.
  apply (extractFromCard_well_formed IkmanScraper Sample.environment
           Scenario.per_perch_card Scenario.per_perch_listing).
  - left. reflexivity.
  - vm_compute. reflexivity.
Defined.


(** X15: The price fields of a record agree with each other.  When a record has
    a price per perch, a price was parsed from its price text and its size is
    a number above 0; the price per perch is an integer or an infinity, or
    NaN when the price and the size are both Infinity; for a price text
    marked per perch it is the parsed price and the total is that price
    times the size; otherwise the total is the parsed price and the price
    per perch is the total or Math.round of the quotient of total and size.
    Products and quotients are those of doubles: the card with the price
    Rs 1,000,021 and 4.4 perches has the price per perch 227277. *)
Theorem extractFromCard_price_fields
    (scraper : Scraper) (E : Env) (card : Card) (l : Listing) (x : JsNum) :
  scraper = IkmanScraper \/ scraper = LPWScraper ->
  extractFromCard scraper E card = Some l ->
  pricePerPerch l = Some x ->
  let marked := Re.test Re.flag_i re_per_perch (priceRaw l) in
  (exists p s : JsNum,
     parsePrice (priceRaw l) = Some p
     /\ sizePerches l = Some s /\ Js.lt (of_Z 0) s = true
     /\ (((exists z, x = of_Z z) \/ x = PInf \/ x = NInf)
         \/ (x = NaN /\ p = PInf /\ s = PInf))
     /\ (marked = true -> x = p /\ priceTotal l = Some (Js.mul p s))
     /\ (marked = false ->
         priceTotal l = Some p
         /\ (x = p \/ x = Math_round (Js.div p s))))
  /\ option_map pricePerPerch
       (extractFromCard IkmanScraper Sample.environment
                        Scenario.small_plot_card)
     = Some (Some (Fin 227277)).
Proof.
  intros Hs Hl Hx marked. split; [|vm_compute; reflexivity].
  destruct (CardFacts.extractFromCard_fields scraper E card l Hs Hl)
    as (Htotal & Hppp & (sizeText & Hsize) & _).
  fold marked in Htotal, Hppp. rewrite Hx in Hppp. symmetry in Hppp.
  destruct (CardFacts.calculatePricePerPerch_Some _ _ _ _ Hppp)
    as (p & sz & Hp & Hsz & Tp & Tsz & Hle & Hmarked & Hcases).
  rewrite Hsz in Hsize. symmetry in Hsize.
  assert (Hsize' : sz = PInf \/ exists s : Q, sz = Fin s /\ (0 < s)%Q).
  { destruct (parseSize_nonneg _ _ Hsize) as [-> | (s & -> & Hs0)];
      [now left | right].
    exists s. split; [reflexivity|].
    cbn [Js.le of_Z] in Hle. change (inject_Z 0) with 0%Q in Hle.
    now apply Qle_bool_false_iff in Hle. }
  pose proof (PriceFacts.parsePrice_shape _ _ Hp) as Hshape.
  exists p, sz. split; [exact Hp|]. split; [exact Hsz|].
  split.
  { destruct Hsize' as [-> | (s & -> & Hpos)]; [reflexivity|].
    cbn [Js.lt of_Z]. now apply Qlt_bool_iff. }
  split; [|split].
  - destruct Hcases as [-> | [-> Hgt]]; [now left|].
    now apply CardFacts.round_quotient.
  - intros Hm. split; [now apply Hmarked|].
    rewrite Htotal, Hm, Hp, Hsz. unfold total_price.
    cbn [Js.truthy_opt]. rewrite Tsz. reflexivity.
  - intros Hm. split.
    + rewrite Htotal, Hm, Hp. reflexivity.
    + destruct Hcases as [H | [H _]]; [now left | now right].
Qed.

Lemma extractFromCard_price_fields_witness :
  let l := Scenario.per_perch_listing in
  let marked := Re.test Re.flag_i re_per_perch (priceRaw l) in
  (exists p s : JsNum,
     parsePrice (priceRaw l) = Some p
     /\ sizePerches l = Some s
     /\ Js.lt (of_Z 0) s = true
     /\ (((exists z, Fin 450000 = of_Z z)
          \/ Fin 450000 = PInf \/ Fin 450000 = NInf)
         \/ (Fin 450000 = NaN /\ p = PInf /\ s = PInf))
     /\ (marked = true ->
         Fin 450000 = p /\ priceTotal l = Some (Js.mul p s))
     /\ (marked = false ->
         priceTotal l = Some p
         /\ (Fin 450000 = p \/ Fin 450000 = Math_round (Js.div p s))))
  /\ option_map pricePerPerch
       (extractFromCard IkmanScraper Sample.environment
                        Scenario.small_plot_card)
     = Some (Some (Fin 227277)).
Proof.
  apply (extractFromCard_price_fields IkmanScraper Sample.environment
           Scenario.per_perch_card Scenario.per_perch_listing (Fin 450000)).
  - left. reflexivity.
  - vm_compute. reflexivity.
  - vm_compute. reflexivity.
Defined.

(** *** Cards of a listings page *)

Module ListingFacts.

Lemma found_url_of el link url :
  found_link el = Returned link -> link_href link = Some url ->
  found_url el = Some url.
Proof. unfold found_url. now intros -> ->. Qed.

(** The loop keeps cards with urls that are not empty and differ. *)
Lemma unique_cards_inv found :
  forall seen acc result,
    unique_cards found seen acc = Returned result ->
    (forall u, u ∈ seen <-> Some u ∈ map found_url acc) ->
    NoDup (map found_url acc) ->
    (forall el, In el acc -> exists u, found_url el = Some u /\ u <> []) ->
    NoDup (map found_url result)
    /\ (forall el, In el result -> exists u, found_url el = Some u /\ u <> [])
    /\ exists more, result = acc ++ more /\ sublist more found.
Proof.
  induction found as [|el found IH]; intros seen acc result Hrun Hseen Hnd Hacc.
  - cbn in Hrun. injection Hrun as <-.
    split; [exact Hnd|]. split; [exact Hacc|].
    exists []. split; [now rewrite app_nil_r | constructor].
  - cbn [unique_cards] in Hrun.
    destruct (found_link el) as [link|] eqn:El; [|discriminate Hrun].
    cbn [obind] in Hrun.
    assert (Hskip : unique_cards found seen acc = Returned result ->
              NoDup (map found_url result)
              /\ (forall el0, In el0 result ->
                    exists u, found_url el0 = Some u /\ u <> [])
              /\ exists more, result = acc ++ more
                              /\ sublist more (el :: found)).
    { intros H. destruct (IH seen acc result H Hseen Hnd Hacc)
        as (H1 & H2 & more & -> & Hsub).
      split; [exact H1|]. split; [exact H2|].
      exists more. split; [reflexivity | now apply sublist_cons]. }
    destruct (link_href link) as [url|] eqn:Eu; [|now apply Hskip].
    destruct (Str.truthy url && negb (bool_decide (url ∈ seen))) eqn:Ec;
      [|now apply Hskip].
    apply andb_prop in Ec as [Et Ens].
    apply negb_true_iff, bool_decide_eq_false in Ens.
    pose proof (found_url_of el link url El Eu) as Hurl.
    destruct (IH ({[url]} ∪ seen) (acc ++ [el]) result Hrun)
      as (H1 & H2 & more & -> & Hsub).
    + intros u. rewrite map_app, elem_of_app, elem_of_union, elem_of_singleton.
      cbn [map]. rewrite Hurl, list_elem_of_singleton, Hseen.
      split.
      * intros [-> | H]; [now right | now left].
      * intros [H | H]; [now right | left; congruence].
    + rewrite map_app. cbn [map]. rewrite Hurl.
      apply NoDup_app. split; [exact Hnd|]. split; [|apply NoDup_singleton].
      intros x Hx Hx'. apply list_elem_of_singleton in Hx'. subst x.
      apply Ens. now apply Hseen.
    + intros el0 Hin. apply in_app_or in Hin as [Hin | [<- | []]].
      * now apply Hacc.
      * exists url. split; [exact Hurl|]. intros ->. discriminate Et.
    + split; [exact H1|]. split; [exact H2|].
      exists (el :: more). split; [now rewrite <- app_assoc|].
      now apply sublist_skip.
Qed.

Lemma cards_of_selectors_inv L selectors :
  let cards := cards_of_selectors L selectors in
  NoDup (map found_url cards)
  /\ (forall el, In el cards -> exists u, found_url el = Some u /\ u <> [])
  /\ (cards <> [] ->
      exists selector found,
        In selector selectors
        /\ querySelectorAll L selector = Returned found
        /\ sublist cards found).
Proof.
  induction selectors as [|selector selectors IH]; cbn [cards_of_selectors].
  - split; [constructor|]. split; [intros el []|]. now intros H.
  - assert (Hnext : let cards := cards_of_selectors L selectors in
              NoDup (map found_url cards)
              /\ (forall el, In el cards ->
                    exists u, found_url el = Some u /\ u <> [])
              /\ (cards <> [] ->
                  exists selector0 found,
                    In selector0 (selector :: selectors)
                    /\ querySelectorAll L selector0 = Returned found
                    /\ sublist cards found)).
    { destruct IH as (H1 & H2 & H3). split; [exact H1|]. split; [exact H2|].
      intros Hne. destruct (H3 Hne) as (s0 & found & Hin & Hq & Hsub).
      exists s0, found. split; [now right | now split]. }
    destruct (querySelectorAll L selector) as [found|] eqn:Eq;
      cbn [obind]; [|exact Hnext].
    destruct (0 <? length found)%nat; [|exact Hnext].
    destruct (unique_cards found ∅ []) as [[|el els]|] eqn:Eu;
      [exact Hnext| |exact Hnext].
    destruct (unique_cards_inv found ∅ [] (el :: els) Eu)
      as (H1 & H2 & more & E & Hsub).
    + intros u. cbn [map]. rewrite elem_of_empty, elem_of_nil. tauto.
    + constructor.
    + intros el0 [].
    + cbn [app] in E. subst more.
      split; [exact H1|]. split; [exact H2|].
      intros _. exists selector, found.
      split; [now left | now split].
Qed.

(** The loop returns when the link of every element can be read. *)
Lemma unique_cards_returns found :
  forall seen acc,
    (forall el, In el found -> found_link el <> Threw)
    <-> exists result, unique_cards found seen acc = Returned result.
Proof.
  induction found as [|el found IH]; intros seen acc.
  - cbn [unique_cards]. split; [intros _; now eexists | intros _ el []].
  - cbn [unique_cards].
    assert (Hcons : (forall e, In e (el :: found) -> found_link e <> Threw)
                    <-> found_link el <> Threw
                        /\ forall e, In e found -> found_link e <> Threw).
    { split.
      - intros H. split; [apply H; now left | intros e He; apply H; now right].
      - intros [H1 H2] e [<- | He]; [exact H1 | now apply H2]. }
    rewrite Hcons. destruct (found_link el) as [link|]; cbn [obind].
    + destruct (link_href link) as [url|];
        [destruct (Str.truthy url && negb (bool_decide (url ∈ seen)))|];
        (etransitivity; [|apply IH]);
        (split; [now intros [_ H] | intros H; split; [discriminate | exact H]]).
    + split; [now intros [H _] | intros (r & H); discriminate H].
Qed.

(** What the loop adds to the cards kept so far. *)
Lemma unique_cards_spec found :
  forall seen acc result,
    unique_cards found seen acc = Returned result ->
    exists more,
      result = acc ++ more /\ sublist more found
      /\ (forall before el after u,
            found = before ++ el :: after ->
            found_url el = Some u -> u <> [] -> (u ∉ seen) ->
            (forall e, In e before -> found_url e <> Some u) ->
            In el more)
      /\ (forall el, In el more ->
            exists before after u,
              found = before ++ el :: after
              /\ found_url el = Some u /\ u <> [] /\ (u ∉ seen)
              /\ forall e, In e before -> found_url e <> Some u).
Proof.
  induction found as [|el found IH]; intros seen acc result Hrun.
  - cbn in Hrun. injection Hrun as <-. exists [].
    split; [now rewrite app_nil_r|]. split; [constructor|]. split.
    + intros before e after u E. now destruct before.
    + intros e [].
  - cbn [unique_cards] in Hrun.
    destruct (found_link el) as [link|] eqn:El; [|discriminate Hrun].
    cbn [obind] in Hrun.
    assert (Hskip : (forall u, found_url el = Some u -> u = [] \/ u ∈ seen) ->
              unique_cards found seen acc = Returned result ->
              exists more,
                result = acc ++ more /\ sublist more (el :: found)
                /\ (forall before e after u,
                      el :: found = before ++ e :: after ->
                      found_url e = Some u -> u <> [] -> (u ∉ seen) ->
                      (forall x, In x before -> found_url x <> Some u) ->
                      In e more)
                /\ (forall e, In e more ->
                      exists before after u,
                        el :: found = before ++ e :: after
                        /\ found_url e = Some u /\ u <> [] /\ (u ∉ seen)
                        /\ forall x, In x before -> found_url x <> Some u)).
    { intros Hel H.
      destruct (IH seen acc result H) as (more & -> & Hsub & Ha & Hb).
      exists more. split; [reflexivity|].
      split; [now apply sublist_cons|]. split.
      - intros before e after u E Hu Hne Hns Hbefore.
        destruct before as [|x before]; cbn [app] in E; injection E as <- E.
        + destruct (Hel u Hu); contradiction.
        + apply (Ha before e after u E Hu Hne Hns).
          intros y Hy. apply Hbefore. now right.
      - intros e He.
        destruct (Hb e He) as (before & after & u & E & Hu & Hne & Hns & Hbe).
        exists (el :: before), after, u. split; [now rewrite E|].
        split; [exact Hu|]. split; [exact Hne|]. split; [exact Hns|].
        intros x [<- | Hx]; [|now apply Hbe].
        intros Hx. destruct (Hel u Hx); contradiction. }
    unfold found_url in Hskip. rewrite El in Hskip.
    destruct (link_href link) as [url|] eqn:Eu;
      [|apply Hskip; [intros u Hu; discriminate Hu | exact Hrun]].
    destruct (Str.truthy url) eqn:Et; cbn [andb] in Hrun;
      [|apply Hskip; [|exact Hrun]; intros u Hu; injection Hu as <-;
        left; now destruct url].
    case_bool_decide as Hseen; cbn [negb] in Hrun;
      [apply Hskip; [|exact Hrun]; intros u Hu; injection Hu as <-;
       now right|].
    pose proof (found_url_of el link url El Eu) as Hurl.
    assert (Hne0 : url <> []) by (intros ->; discriminate Et).
    destruct (IH ({[url]} ∪ seen) (acc ++ [el]) result Hrun)
      as (more & -> & Hsub & Ha & Hb).
    exists (el :: more). split; [now rewrite <- app_assoc|].
    split; [now apply sublist_skip|]. split.
    + intros before e after u E Hu Hne Hns Hbefore.
      destruct before as [|x before]; cbn [app] in E; injection E as <- E.
      * now left.
      * right. apply (Ha before e after u E Hu Hne).
        -- rewrite elem_of_union, elem_of_singleton. intros [-> | H];
             [|contradiction].
           apply (Hbefore el); [now left | exact Hurl].
        -- intros y Hy. apply Hbefore. now right.
    + intros e [<- | He].
      * exists [], found, url. split; [reflexivity|].
        split; [exact Hurl|]. split; [exact Hne0|]. split; [exact Hseen|].
        intros x [].
      * destruct (Hb e He) as (before & after & u & E & Hu & Hne & Hns & Hbe).
        rewrite elem_of_union, elem_of_singleton in Hns.
        exists (el :: before), after, u. split; [now rewrite E|].
        split; [exact Hu|]. split; [exact Hne|].
        split; [intros H; apply Hns; now right|].
        intros x [<- | Hx]; [|now apply Hbe].
        rewrite Hurl. intros H. injection H as ->. apply Hns. now left.
Qed.

(** The first element with a given url. *)
Lemma first_occurrence (found : list Found) (el : Found) (u : text) :
  In el found -> found_url el = Some u ->
  exists before e after,
    found = before ++ e :: after /\ found_url e = Some u
    /\ forall x, In x before -> found_url x <> Some u.
Proof.
  induction found as [|x found IH]; intros Hin Hu; [destruct Hin|].
  destruct (decide (found_url x = Some u)) as [Hx | Hx].
  - exists [], x, found. split; [reflexivity|]. split; [exact Hx|].
    intros y [].
  - destruct Hin as [-> | Hin]; [contradiction|].
    destruct (IH Hin Hu) as (before & e & after & -> & He & Hbefore).
    exists (x :: before), e, after. split; [reflexivity|].
    split; [exact He|]. intros y [<- | Hy]; [exact Hx | now apply Hbefore].
Qed.

(** The cards that the loop keeps of the elements of a selector. *)
Lemma unique_cards_kept found result :
  unique_cards found ∅ [] = Returned result ->
  ListingSpec.kept_of result found
  /\ (result <> [] <->
      exists el u, In el found /\ found_url el = Some u /\ u <> []).
Proof.
  intros Hrun.
  destruct (unique_cards_inv found ∅ [] result Hrun) as (Hnd & _ & _).
  { intros u. cbn [map]. rewrite elem_of_empty, elem_of_nil. tauto. }
  { constructor. }
  { intros el []. }
  destruct (unique_cards_spec found ∅ [] result Hrun)
    as (more & E & Hsub & Ha & Hb).
  cbn [app] in E. subst more.
  assert (Hkept : forall el,
            In el result <-> ListingSpec.first_with_url found el).
  { intros el. split.
    - intros Hin.
      destruct (Hb el Hin) as (before & after & u & E & Hu & Hne & _ & Hbe).
      now exists before, after, u.
    - intros (before & after & u & E & Hu & Hne & Hbe).
      apply (Ha before el after u E Hu Hne); [|exact Hbe].
      apply not_elem_of_empty. }
  split; [split; [exact Hsub | split; [exact Hnd | exact Hkept]]|].
  split.
  - intros Hne. destruct result as [|el els]; [contradiction|].
    destruct (proj1 (Hkept el) (or_introl eq_refl))
      as (before & after & u & -> & Hu & Hne' & _).
    exists el, u. split; [|now split].
    apply in_or_app. right. now left.
  - intros (el & u & Hin & Hu & Hne).
    destruct (first_occurrence found el u Hin Hu)
      as (before & e & after & E & He & Hbefore).
    assert (Hin' : In e result).
    { apply Hkept. now exists before, after, u. }
    intros ->. destruct Hin'.
Qed.

(** One round of the loop over the selectors. *)
Lemma cards_of_selectors_step L selector selectors :
  (forall found,
     ListingSpec.yields_cards L selector found ->
     cards_of_selectors L (selector :: selectors) <> []
     /\ ListingSpec.kept_of (cards_of_selectors L (selector :: selectors))
                            found)
  /\ ((forall found, ~ ListingSpec.yields_cards L selector found) ->
      cards_of_selectors L (selector :: selectors)
      = cards_of_selectors L selectors).
Proof.
  cbn [cards_of_selectors]. split.
  - intros found (Hq & Hlinks & Hcard). rewrite Hq. cbn [obind].
    assert (Hlen : (0 <? length found)%nat = true).
    { destruct Hcard as (el & _ & Hin & _). destruct found; [destruct Hin|].
      reflexivity. }
    rewrite Hlen.
    destruct (proj1 (unique_cards_returns found ∅ []) Hlinks)
      as (result & Hrun).
    rewrite Hrun.
    destruct (unique_cards_kept found result Hrun) as (Hkept & Hne).
    apply Hne in Hcard. destruct result as [|el els]; [contradiction|].
    split; [discriminate | exact Hkept].
  - intros Hno.
    destruct (querySelectorAll L selector) as [found|] eqn:Hq;
      cbn [obind]; [|reflexivity].
    destruct (0 <? length found)%nat; [|reflexivity].
    destruct (unique_cards found ∅ []) as [[|el els]|] eqn:Hrun;
      try reflexivity.
    exfalso. apply (Hno found). split; [exact Hq|]. split.
    + apply (unique_cards_returns found ∅ []). eexists. exact Hrun.
    + apply (unique_cards_kept found (el :: els) Hrun). discriminate.
Qed.

End ListingFacts.

(** X16: IkmanScraper.getListingCards returns the cards of the first selector
    that yields a card: those of li:has(a[href*="/ad/"]) when it yields one,
    and those of a[href*="/ad/"] only when the first selector yields none
    (it throws, finds nothing, the link of an element cannot be read, or no
    link has a url); no card when neither yields one.  The cards are the
    elements that the selector finds which are the first with their url, in
    page order, so their urls are not empty and differ from card to card. *)
Theorem IkmanScraper_getListingCards_unique (L : Listings) :
  let cards := IkmanScraper_getListingCards L in
  let yields selector := exists found, ListingSpec.yields_cards L selector found in
  (forall found,
     ListingSpec.yields_cards L Sel_li_with_ad_link found ->
     cards <> [] /\ ListingSpec.kept_of cards found)
  /\ (~ yields Sel_li_with_ad_link ->
      forall found,
        ListingSpec.yields_cards L Sel_ad_links found ->
        cards <> [] /\ ListingSpec.kept_of cards found)
  /\ (~ yields Sel_li_with_ad_link -> ~ yields Sel_ad_links -> cards = [])
  /\ NoDup (map found_url cards)
  /\ (forall el, In el cards -> exists u, found_url el = Some u /\ u <> [])
  /\ map found_url (IkmanScraper_getListingCards Scenario.ikman_listings)
     = [Some (txt "https://ikman.lk/en/ad/land-in-malabe-for-sale-1");
        Some (txt "https://ikman.lk/en/ad/land-in-kandy-for-sale-2")].
Proof.
  intros cards yields. unfold IkmanScraper_getListingCards in cards.
  destruct (ListingFacts.cards_of_selectors_step
              L Sel_li_with_ad_link [Sel_ad_links]) as [H1 H1'].
  destruct (ListingFacts.cards_of_selectors_step L Sel_ad_links [])
    as [H2 H2'].
  assert (Hno : forall selector,
            ~ yields selector ->
            forall found, ~ ListingSpec.yields_cards L selector found).
  { intros selector H found Hy. apply H. now exists found. }
  split; [exact H1|]. split; [|split; [|split; [|split]]].
  - intros Hn1 found Hy. subst cards.
    rewrite (H1' (Hno _ Hn1)). now apply H2.
  - intros Hn1 Hn2. subst cards.
    rewrite (H1' (Hno _ Hn1)), (H2' (Hno _ Hn2)). reflexivity.
  - apply ListingFacts.cards_of_selectors_inv.
  - apply ListingFacts.cards_of_selectors_inv.
  - vm_compute. reflexivity.
Qed.

(** *** Record store: what a save keeps *)

(** X17: A batch without two records of one url, saved into a collection
    without two records of one url, leaves such a collection, and every url
    of the batch is the url of a stored record afterwards. *)
Theorem saveListings_keeps_urls_distinct (batch : list Listing) (w : World) :
  NoDup (map url (default [] (stored_listings (storage w)))) ->
  NoDup (map url batch) ->
  let stored := default [] (stored_listings
                              (storage (snd (saveListings batch w)))) in
  NoDup (map url stored)
  /\ forall l, In l batch -> In (url l) (map url stored).
Proof.
  intros Hstore Hbatch stored. subst stored.
  rewrite (saveListings_storage batch w).
  change (default [] (Some ?x)) with x.
  split.
  - now apply upsert_NoDup.
  - intros l Hl. now apply upsert_covers.
Qed.

Lemma saveListings_keeps_urls_distinct_witness :
  let batch := [Scenario.listing_at "https://ikman.lk/en/ad/a" "Rs 1,000";
                Scenario.listing_at "https://ikman.lk/en/ad/b" "Rs 2,000"] in
  let stored := default [] (stored_listings
                              (storage (snd (saveListings batch
                                                          Sample.started)))) in
  NoDup (map url stored)
  /\ forall l, In l batch -> In (url l) (map url stored).
Proof.
  apply (saveListings_keeps_urls_distinct
           [Scenario.listing_at "https://ikman.lk/en/ad/a" "Rs 1,000";
            Scenario.listing_at "https://ikman.lk/en/ad/b" "Rs 2,000"]
           Sample.started).
  - constructor.
  - apply NoDup_cons. split.
    + intros H. apply list_elem_of_In in H. destruct H as [H | []].
      discriminate H.
    + apply NoDup_cons. split; [|constructor].
      intros H. apply list_elem_of_In in H. destruct H.
Defined.

(** X18: A save never changes or removes a stored record: the collection
    after it is the collection before it followed by the records added, the
    result and the UPDATE_COUNT message count those, and a stored record
    whose url was stored before is one of the old records, so a record
    scraped again under a stored url is dropped whatever its other fields
    say. *)
Theorem saveListings_first_write_wins (batch : list Listing) (w : World) :
  let existing := default [] (stored_listings (storage w)) in
  let after := snd (saveListings batch w) in
  let stored := default [] (stored_listings (storage after)) in
  (exists added,
     stored = existing ++ added
     /\ fst (saveListings batch w) = Returned (length added)
     /\ sent after = sent w ++ [UPDATE_COUNT (length stored) (length added)])
  /\ forall l, In l stored -> In (url l) (map url existing) -> In l existing.
Proof.
  intros existing after stored. subst after stored.
  rewrite (saveListings_storage batch w).
  change (default [] (Some ?x)) with x. fold existing.
  split.
  - exists (uniqueNew existing batch). repeat split.
  - intros l Hl Hu. unfold upsert in Hl.
    apply in_app_or in Hl as [Hl | Hl]; [exact Hl|].
    apply uniqueNew_In in Hl as [_ Hl]. contradiction.
Qed.

(** *** Records of a page *)

Module PageFacts.

Lemma same_card_fields_refl l : same_card_fields l l.
Proof. repeat split. Qed.

Lemma enriched_refl E ds l : enriched E ds l l.
Proof.
  split; [apply same_card_fields_refl|].
  split; [left; now split|].
  destruct ds; [split; [now left | left; now split] | repeat split].
Qed.

Lemma fetchDetailPageInfo_lpw N D u :
  info_postedDate (fetchDetailPageInfo N D u LPW) = None
  /\ info_address (fetchDetailPageInfo N D u LPW) = None.
Proof.
  unfold fetchDetailPageInfo, fetchDetailPageInfo_body.
  destruct (fetch N u) as [|status [html|]]; cbn; try (now split).
  - destruct (response_ok status); cbn; [|now split].
    destruct (DOMParser_parseFromString N html) as [doc|]; cbn; [|now split].
    destruct (detail_coordinates doc); cbn; now split.
  - destruct (response_ok status); cbn; now split.
Qed.

Lemma Council_is_false (c : Council) (name : text) :
  Council_is c name = false -> c <> Name name.
Proof.
  destruct c as [mc|key]; cbn [Council_is]; [|discriminate].
  unfold Str.text_eqb. intros H E. injection E as ->.
  now apply bool_decide_eq_false in H.
Qed.

Lemma enrich_result P ds data w :
  exists l, fst (enrich P ds data w) = Returned l /\ enriched (env P) ds data l.
Proof.
  unfold enrich.
  pose proof (fetchDetailPageInfo_lpw (net (env P)) (date (env P)) (url data))
    as Hlpw.
  set (info := fetchDetailPageInfo _ _ _ ds).
  assert (Hds : ds = LPW ->
                info_postedDate info = None /\ info_address info = None).
  { intros ->. exact Hlpw. }
  clearbody info. clear Hlpw. destruct info as [la lo pd ad].
  cbn [info_lat info_lng info_postedDate info_address] in *.
  unfold bind, log, modify, ret.
  destruct (Js.truthy_opt la && Js.truthy_opt lo) eqn:Ec;
    destruct (Str.truthy_opt pd) eqn:Ed;
    destruct ad as [a|]; cbn [fst].
  all: try (destruct (3 <? length a)%nat eqn:Ea;
            [apply Nat.ltb_lt in Ea;
             destruct (negb (Council_is _ (txt "Other"))
                       && negb (Council_is _ (txt "Unknown"))) eqn:Em|]).
  all: cbn [fst]; eexists; (split; [reflexivity|]).
  all: split; [repeat split|].
  all: split;
    [first [left; split; reflexivity
           | right; apply andb_prop in Ec; exact Ec]|].
  all: destruct ds;
    [|destruct (Hds eq_refl) as [Hp Ha]; subst;
      first [discriminate | repeat split]].
  all: cbn [postedDate address municipalCouncil with_coordinates
            with_postedDate with_address with_municipalCouncil].
  all: split; [first [now left | right; exact Ed]|].
  all: try (left; split; reflexivity).
  all: right; split; [exact Ea|].
  all: try (left; reflexivity).
  all: right; apply andb_prop in Em; destruct Em as [E1 E2];
    apply negb_true_iff in E1, E2; apply Council_is_false in E1, E2;
    repeat split; assumption.
Qed.

Section Cards.

Variables (P : Page) (scraper : Scraper) (ds : Site).

Lemma filter_length {A : Type} (f : A -> bool) (l : list A) :
  (length (List.filter f l) <= length l)%nat.
Proof.
  induction l as [|x l IH]; cbn [List.filter length]; [lia|].
  destruct (f x); cbn [length]; lia.
Qed.

Lemma enrich_step data w :
  exists l msgs,
    enrich P ds data w = (Returned l, sent_more msgs w)
    /\ enriched (env P) ds data l.
Proof.
  destruct (only_sends_enrich P ds data w) as (l & msgs & E).
  destruct (enrich_result P ds data w) as (l' & E' & Hl).
  rewrite E in E'. cbn [fst] in E'. injection E' as <-.
  now exists l, msgs.
Qed.

Lemma scrape_cards_enriched cards :
  forall acc k w,
  exists ls msgs,
    scrape_cards P scraper ds cards acc k w
    = (Returned (acc ++ ls,
                 (k + (length (omap (extractFromCard scraper (env P)) cards)
                       - length ls))%nat),
       sent_more msgs w)
    /\ Forall2 (enriched (env P) ds)
         (List.filter (passes_filter w)
                      (omap (extractFromCard scraper (env P)) cards))
         ls.
Proof.
  induction cards as [|card cards IH]; intros acc k w.
  - exists [], []. cbn. rewrite app_nil_r, sent_more_nil, Nat.add_0_r.
    split; [reflexivity | constructor].
  - cbn [scrape_cards omap list_omap].
    destruct (extractFromCard scraper (env P) card) as [data|] eqn:E;
      [|apply IH].
    unfold bind at 1 2. unfold gets at 1 2.
    change (if filterLocations w
            then matchesTargetLocation (customLocations w) (address data)
                 || matchesTargetLocation (customLocations w) (title data)
            else true) with (passes_filter w data).
    cbn [List.filter].
    destruct (passes_filter w data) eqn:Ef.
    + unfold bind at 1 2. unfold gets at 1.
      assert (Hd : exists l msgs,
                 (if scrapeDetails w && Str.truthy (url data)
                  then enrich P ds data else ret data) w
                 = (Returned l, sent_more msgs w)
                 /\ enriched (env P) ds data l).
      { destruct (scrapeDetails w && Str.truthy (url data)).
        - apply enrich_step.
        - exists data, []. rewrite sent_more_nil.
          split; [reflexivity | apply enriched_refl]. }
      destruct Hd as (l & msgs1 & -> & Hl).
      destruct (IH (acc ++ [l]) k (sent_more msgs1 w)) as (ls & msgs2 & -> & Hls).
      exists (l :: ls), (msgs1 ++ msgs2).
      rewrite sent_more_app, <- app_assoc. cbn [app length Nat.sub].
      split; [reflexivity|]. constructor; assumption.
    + destruct (IH acc (S k) w) as (ls & msgs & -> & Hls).
      exists ls, msgs. split; [|exact Hls].
      apply Forall2_length in Hls.
      pose proof (filter_length (passes_filter w)
                    (omap (extractFromCard scraper (env P)) cards)) as Hle.
      cbn [length]. do 3 f_equal. lia.
Qed.

Lemma scrape_cards_plain cards :
  forall acc k w,
    scrapeDetails w = false ->
    let records := omap (extractFromCard scraper (env P)) cards in
    let kept := List.filter (passes_filter w) records in
    scrape_cards P scraper ds cards acc k w
    = (Returned (acc ++ kept, (k + (length records - length kept))%nat), w).
Proof.
  induction cards as [|card cards IH]; intros acc k w Hd; cbn zeta.
  - cbn. now rewrite app_nil_r, Nat.add_0_r.
  - cbn [scrape_cards omap list_omap].
    destruct (extractFromCard scraper (env P) card) as [data|] eqn:E;
      [|now apply IH].
    unfold bind at 1 2. unfold gets at 1 2.
    change (if filterLocations w
            then matchesTargetLocation (customLocations w) (address data)
                 || matchesTargetLocation (customLocations w) (title data)
            else true) with (passes_filter w data).
    cbn [List.filter].
    destruct (passes_filter w data) eqn:Ef.
    + unfold bind at 1 2. unfold gets at 1. rewrite Hd. cbn [andb].
      unfold ret at 1. rewrite (IH _ _ _ Hd). cbn zeta.
      rewrite <- app_assoc. reflexivity.
    + rewrite (IH _ _ _ Hd). cbn zeta.
      pose proof (filter_length (passes_filter w)
                    (omap (extractFromCard scraper (env P)) cards)) as Hle.
      cbn [length]. do 3 f_equal. lia.
Qed.

End Cards.

End PageFacts.

(** X19: Without detail pages, scrapeCurrentPage on a supported site returns,
    in the order of the cards, the records that the adapter extracts and
    the location filter passes, unchanged, and changes nothing but the
    messages: it reports the number of cards, the number of records kept
    and, when the filter skipped any, their number; a card without a record
    is counted nowhere. *)
Theorem scrapeCurrentPage_without_details
    (P : Page) (scraper : Scraper) (w : World) :
  getScraper P = Some scraper ->
  scrapeDetails w = false ->
  let records := omap (extractFromCard scraper (env P)) (listingCards P) in
  let kept := List.filter (passes_filter w) records in
  let skipped := (length records - length kept)%nat in
  scrapeCurrentPage P w
  = (Returned kept,
     sent_more
       ([LOG (Log_found_cards (length (listingCards P))) Info;
         LOG (Log_extracted (length kept)) Success]
        ++ (if (0 <? skipped)%nat
            then [LOG (Log_filtered skipped) Info] else []))
       w).
Proof.
  intros Hs Hd. cbn zeta. unfold scrapeCurrentPage. rewrite Hs.
  unfold bind at 1. unfold log at 1. unfold modify at 1.
  unfold bind at 1.
  rewrite PageFacts.scrape_cards_plain by exact Hd. cbn zeta.
  cbn [app Nat.add].
  change (passes_filter (send _ w)) with (passes_filter w).
  set (records := omap (extractFromCard scraper (env P)) (listingCards P)).
  set (kept := List.filter (passes_filter w) records).
  destruct (0 <? length records - length kept)%nat;
    cbn; unfold sent_more, send; cbn; rewrite <- ?app_assoc; reflexivity.
Qed.

Lemma scrapeCurrentPage_without_details_witness :
  let P := Sample.lpw_page_with_repeated_card in
  let w := Sample.started in
  let records := omap (extractFromCard LPWScraper (env P)) (listingCards P) in
  let kept := List.filter (passes_filter w) records in
  let skipped := (length records - length kept)%nat in
  scrapeCurrentPage P w
  = (Returned kept,
     sent_more
       ([LOG (Log_found_cards (length (listingCards P))) Info;
         LOG (Log_extracted (length kept)) Success]
        ++ (if (0 <? skipped)%nat
            then [LOG (Log_filtered skipped) Info] else []))
       w).
Proof.
  apply (scrapeCurrentPage_without_details
           Sample.lpw_page_with_repeated_card LPWScraper Sample.started);
    reflexivity.
Defined.

(** X20: With or without detail pages, scrapeCurrentPage on a supported site
    never throws and changes nothing but the messages; its records
    correspond one to one, in order, to the records of the cards that pass
    the location filter, and each differs from the record of its card at
    most in the coordinates, the posted date, the address and the council,
    the latter three only on ikman.lk. *)
Theorem scrapeCurrentPage_enriches
    (P : Page) (scraper : Scraper) (w : World) :
  getScraper P = Some scraper ->
  exists listings msgs,
    scrapeCurrentPage P w = (Returned listings, sent_more msgs w)
    /\ Forall2 (enriched (env P) (detail_site P))
         (List.filter (passes_filter w)
            (omap (extractFromCard scraper (env P)) (listingCards P)))
         listings.
Proof.
  intros Hs. unfold scrapeCurrentPage. rewrite Hs.
  unfold bind at 1. unfold log at 1. unfold modify at 1.
  unfold bind at 1.
  destruct (PageFacts.scrape_cards_enriched P scraper (detail_site P)
              (listingCards P) [] 0%nat
              (send (LOG (Log_found_cards (length (listingCards P))) Info) w))
    as (ls & msgs & E & Hls).
  unfold detail_site in E. rewrite E. cbn [app].
  exists ls.
  destruct (0 <? 0 + (length (omap (extractFromCard scraper (env P))
                                   (listingCards P)) - length ls))%nat;
    cbn; eexists; (split; [|exact Hls]);
    unfold sent_more, send; cbn; rewrite <- ?app_assoc; reflexivity.
Qed.
Lemma scrapeCurrentPage_enriches_witness :
  let P := Scenario.ikman_page_with_details in
  let w := Scenario.started_with_details in
  exists listings msgs,
    scrapeCurrentPage P w = (Returned listings, sent_more msgs w)
    /\ Forall2 (enriched (env P) (detail_site P))
         (List.filter (passes_filter w)
            (omap (extractFromCard IkmanScraper (env P)) (listingCards P)))
         listings.
Proof.
  apply (scrapeCurrentPage_enriches Scenario.ikman_page_with_details
           IkmanScraper Scenario.started_with_details).
  reflexivity.
Defined.

(** *** Navigation *)

Module NavFacts.

(** The content script when goToNextPage has started a navigation. *)
Lemma goToNextPage_shape (P : Page) (w w' : World) (r : outcome bool) :
  goToNextPage P w = (r, w') ->
  (r = Returned true
   /\ exists current nextUrl next,
       URL_toString P (location_href P) = Returned current
       /\ nextPageUrl P = Some nextUrl
       /\ Str.truthy nextUrl = true
       /\ URL_toString P nextUrl = Returned next
       /\ (next ∉ ({[current]} ∪ visitedPages w : gset text))
       /\ next <> current
       /\ let v := set_visitedPages ({[current]} ∪ visitedPages w) w in
          w' = navigate nextUrl
                 (set_storage (store_crawl_state v (storage v))
                    (send (LOG Log_navigating Info) v)))
  \/ (r <> Returned true
      /\ (w' = w
          \/ exists current,
              URL_toString P (location_href P) = Returned current
              /\ w' = set_visitedPages ({[current]} ∪ visitedPages w) w)).
Proof.
  unfold goToNextPage.
  destruct (getScraper P) as [scraper|].
  2:{ intros H. injection H as <- <-. right. split; [discriminate | now left]. }
  unfold bind at 1. unfold lift at 1.
  destruct (URL_toString P (location_href P)) as [current|] eqn:Ec.
  2:{ intros H. injection H as <- <-. right. split; [discriminate | now left]. }
  unfold bind at 1. unfold modify at 1.
  set (v := set_visitedPages ({[current]} ∪ visitedPages w) w).
  assert (Hstay : forall b, b <> true -> (Returned b, v) = (r, w') ->
            r <> Returned true
            /\ (w' = w
                \/ exists current0,
                    Returned current = Returned current0
                    /\ w' = set_visitedPages ({[current0]} ∪ visitedPages w) w)).
  { intros b Hb H. injection H as <- <-. split; [congruence|].
    right. now exists current. }
  destruct (nextPageUrl P) as [nextUrl|] eqn:En.
  2:{ intros H. right. apply (Hstay false); [discriminate | exact H]. }
  destruct (Str.truthy nextUrl) eqn:Et.
  2:{ intros H. right. apply (Hstay false); [discriminate | exact H]. }
  unfold bind at 1. unfold lift at 1.
  destruct (URL_toString P nextUrl) as [next|] eqn:Ex.
  2:{ intros H. injection H as <- <-. right. split; [discriminate|].
      right. now exists current. }
  unfold bind at 1. unfold gets at 1.
  case_bool_decide as Hin.
  { intros H. right. apply (Hstay false); [discriminate | exact H]. }
  unfold Str.text_eqb. case_bool_decide as Hne; cbn [negb].
  { intros H. right. apply (Hstay false); [discriminate | exact H]. }
  intros H. cbn in H. injection H as <- <-. left.
  split; [reflexivity|].
  exists current, nextUrl, next. repeat split; try assumption.
Qed.


Section Next.

Variables (P : Page) (scraper : Scraper) (current nextUrl : text).

Hypothesis supported : getScraper P = Some scraper.
Hypothesis current_url : URL_toString P (location_href P) = Returned current.
Hypothesis next_found : nextPageUrl P = Some nextUrl.
Hypothesis next_truthy : Str.truthy nextUrl = true.

Lemma goToNextPage_fresh next w :
  URL_toString P nextUrl = Returned next ->
  next ∉ ({[current]} ∪ visitedPages w : gset text) ->
  goToNextPage P w
  = (Returned true,
     let v := set_visitedPages ({[current]} ∪ visitedPages w) w in
     navigate nextUrl
       (set_storage (store_crawl_state v (storage v))
          (send (LOG Log_navigating Info) v))).
Proof.
  intros Hx Hin. unfold goToNextPage. rewrite supported.
  unfold bind, lift, modify, gets, log, ret.
  rewrite current_url, next_found, next_truthy, Hx.
  cbn [visitedPages set_visitedPages].
  rewrite bool_decide_eq_false_2 by exact Hin.
  unfold Str.text_eqb. rewrite bool_decide_eq_false_2 by set_solver.
  reflexivity.
Qed.

Lemma goToNextPage_throws w :
  URL_toString P nextUrl = Threw ->
  goToNextPage P w
  = (Threw, set_visitedPages ({[current]} ∪ visitedPages w) w).
Proof.
  intros Hx. unfold goToNextPage. rewrite supported.
  unfold bind, lift, modify.
  now rewrite current_url, next_found, next_truthy, Hx.
Qed.

End Next.

Lemma extends_refl w : extends w w.
Proof.
  repeat split; try reflexivity; exists []; now rewrite app_nil_r.
Qed.

Lemma extends_trans w1 w2 w3 : extends w1 w2 -> extends w2 w3 -> extends w1 w3.
Proof.
  intros (F1 & D1 & P1 & C1 & V1 & (m1 & S1) & (l1 & L1))
         (F2 & D2 & P2 & C2 & V2 & (m2 & S2) & (l2 & L2)).
  repeat split; try congruence.
  - set_solver.
  - exists (m1 ++ m2). now rewrite S2, S1, app_assoc.
  - exists (l1 ++ l2). now rewrite L2, L1, app_assoc.
Qed.

Lemma extends_sent_more msgs w : extends w (sent_more msgs w).
Proof.
  repeat split; try reflexivity; [now exists msgs | exists []].
  now rewrite app_nil_r.
Qed.

Lemma extends_send m w : extends w (send m w).
Proof. apply (extends_sent_more [m]). Qed.

Lemma extends_visited v w :
  visitedPages w ⊆ v -> extends w (set_visitedPages v w).
Proof.
  intros Hv. repeat split; try reflexivity; try exact Hv;
    exists []; now rewrite app_nil_r.
Qed.

Lemma goToNextPage_extends P w r w' :
  goToNextPage P w = (r, w') ->
  extends w w' /\ isRunning w' = isRunning w
  /\ stored_listings (storage w') = stored_listings (storage w)
  /\ stored_pagesScraped (storage w') = stored_pagesScraped (storage w).
Proof.
  intros H. apply goToNextPage_shape in H.
  destruct H as [(_ & current & nextUrl & next & _ & _ & _ & _ & _ & _ & ->)
                | (_ & [-> | (current & _ & ->)])].
  - cbn zeta. split; [|repeat split].
    repeat split; try reflexivity.
    + cbn. set_solver.
    + now exists [LOG Log_navigating Info].
    + exists []. cbn. now rewrite app_nil_r.
  - split; [apply extends_refl | repeat split].
  - split; [apply extends_visited; set_solver | repeat split].
Qed.

Lemma page_done_fields ls w :
  let w2 := page_done ls w in
  extends w w2 /\ isRunning w2 = isRunning w
  /\ visitedPages w2 = visitedPages w
  /\ navigatedTo w2 = navigatedTo w
  /\ stored_listings (storage w2) = saved ls (storage w)
  /\ stored_pagesScraped (storage w2)
     = Some (default 0 (stored_pagesScraped (storage w)) + 1)
  /\ stored_isScraping (storage w2) = stored_isScraping (storage w)
  /\ stored_filterLocations (storage w2) = stored_filterLocations (storage w)
  /\ stored_scrapeDetails (storage w2) = stored_scrapeDetails (storage w)
  /\ stored_pageDelay (storage w2) = stored_pageDelay (storage w)
  /\ stored_visitedPages (storage w2) = stored_visitedPages (storage w)
  /\ last (sent w2)
     = Some (UPDATE_PAGES (default 0 (stored_pagesScraped (storage w)) + 1)).
Proof.
  cbn zeta. unfold page_done, saved.
  destruct (0 <? length ls)%nat; cbn -[uniqueNew upsert];
    unfold send, set_storage, store_pagesScraped, store_listings;
    cbn -[uniqueNew upsert].
  - split; [|repeat split; try reflexivity].
    + repeat split; try reflexivity.
      * eexists. rewrite <- app_assoc. reflexivity.
      * eexists. reflexivity.
    + apply last_snoc.
  - split; [|repeat split; try reflexivity].
    + repeat split; try reflexivity.
      * eexists. reflexivity.
      * exists []. now rewrite app_nil_r.
    + apply last_snoc.
Qed.

End NavFacts.

(** X21: goToNextPage answers true only after it has started the navigation to
    the next-page URL of the adapter, whose canonical form is neither the
    canonical current URL nor a visited page; by then the current page is in
    the visited set and storage holds isScraping = true, the two flags of
    the run and the visited pages, while the stored records and the page
    count are as before. *)
Theorem goToNextPage_navigates (P : Page) (w w' : World) :
  goToNextPage P w = (Returned true, w') ->
  exists current nextUrl next,
    URL_toString P (location_href P) = Returned current
    /\ nextPageUrl P = Some nextUrl
    /\ URL_toString P nextUrl = Returned next
    /\ next <> current
    /\ (next ∉ visitedPages w)
    /\ navigatedTo w' = Some nextUrl
    /\ visitedPages w' = {[current]} ∪ visitedPages w
    /\ stored_isScraping (storage w') = Some true
    /\ stored_filterLocations (storage w') = Some (filterLocations w)
    /\ stored_scrapeDetails (storage w') = Some (scrapeDetails w)
    /\ stored_visitedPages (storage w') = Some (elements (visitedPages w'))
    /\ stored_listings (storage w') = stored_listings (storage w)
    /\ stored_pagesScraped (storage w') = stored_pagesScraped (storage w)
    /\ sent w' = sent w ++ [LOG Log_navigating Info].
Proof.
  intros H. apply NavFacts.goToNextPage_shape in H.
  destruct H as [(_ & current & nextUrl & next & Hc & Hn & _ & Hx & Hin
                  & Hne & ->)
                | (Hr & _)]; [|now contradiction Hr].
  exists current, nextUrl, next. cbn zeta.
  repeat split; try assumption. set_solver.
Qed.

Lemma goToNextPage_navigates_witness :
  let P := Scenario.ikman_page_one in
  let w := Sample.started in
  let w' := snd (goToNextPage P w) in
  exists current nextUrl next,
    URL_toString P (location_href P) = Returned current
    /\ nextPageUrl P = Some nextUrl
    /\ URL_toString P nextUrl = Returned next
    /\ next <> current
    /\ (next ∉ visitedPages w)
    /\ navigatedTo w' = Some nextUrl
    /\ visitedPages w' = {[current]} ∪ visitedPages w
    /\ stored_isScraping (storage w') = Some true
    /\ stored_filterLocations (storage w') = Some (filterLocations w)
    /\ stored_scrapeDetails (storage w') = Some (scrapeDetails w)
    /\ stored_visitedPages (storage w') = Some (elements (visitedPages w'))
    /\ stored_listings (storage w') = stored_listings (storage w)
    /\ stored_pagesScraped (storage w') = stored_pagesScraped (storage w)
    /\ sent w' = sent w ++ [LOG Log_navigating Info].
Proof.
  apply (goToNextPage_navigates Scenario.ikman_page_one Sample.started
           (snd (goToNextPage Scenario.ikman_page_one Sample.started))).
  vm_compute. reflexivity.
Defined.

(** X22: When goToNextPage answers false or throws, it has started no
    navigation, written nothing to storage and sent no message; it has at
    most added the canonical current URL to the visited pages. *)
Theorem goToNextPage_otherwise
    (P : Page) (w w' : World) (r : outcome bool) :
  goToNextPage P w = (r, w') ->
  r <> Returned true ->
  navigatedTo w' = navigatedTo w
  /\ storage w' = storage w
  /\ sent w' = sent w
  /\ isRunning w' = isRunning w
  /\ (visitedPages w' = visitedPages w
      \/ exists current,
          URL_toString P (location_href P) = Returned current
          /\ visitedPages w' = {[current]} ∪ visitedPages w).
Proof.
  intros H Hr. apply NavFacts.goToNextPage_shape in H.
  destruct H as [(Hr' & _) | (_ & [-> | (current & Hc & ->)])].
  - contradiction.
  - repeat split. now left.
  - repeat split. right. now exists current.
Qed.

Lemma goToNextPage_otherwise_witness :
  let P := Sample.ikman_page_three in
  let w := Sample.resumed in
  let w' := snd (goToNextPage P w) in
  navigatedTo w' = navigatedTo w
  /\ storage w' = storage w
  /\ sent w' = sent w
  /\ isRunning w' = isRunning w
  /\ (visitedPages w' = visitedPages w
      \/ exists current,
          URL_toString P (location_href P) = Returned current
          /\ visitedPages w' = {[current]} ∪ visitedPages w).
Proof.
  apply (goToNextPage_otherwise Sample.ikman_page_three Sample.resumed
           (snd (goToNextPage Sample.ikman_page_three Sample.resumed))
           (Returned false)).
  - vm_compute. reflexivity.
  - discriminate.
Defined.

(** *** One cycle of the crawler *)

Module CycleFacts.

Import NavFacts.

(** The paths of a cycle that starts running on a supported site. *)
Lemma runScraper_cases (P : Page) (scraper : Scraper) (w : World) :
  isRunning w = true -> getScraper P = Some scraper ->
  exists listings msgs,
    scrapeCurrentPage P w = (Returned listings, sent_more msgs w)
    /\ let w2 := page_done listings (sent_more msgs w) in
       runScraper P w
       = if stopWhileProcessing P
         then (Returned tt, send (LOG Log_stopped_by_user Info) (stopped w2))
         else if stopWhileWaiting P then (Returned tt, stopped w2)
         else match goToNextPage P w2 with
              | (Returned true, w3) => (Returned tt, w3)
              | (Returned false, w3) => (Returned tt, completed w3)
              | (Threw, w3) => (Returned tt, failed w3)
              end.
Proof.
  intros Hrun Hs.
  destruct (only_sends_scrapeCurrentPage P w) as (ls & msgs & Hscrape).
  exists ls, msgs. split; [exact Hscrape|]. cbn zeta.
  unfold runScraper.
  unfold bind at 1. unfold gets at 1. rewrite Hrun. cbn [negb].
  rewrite Hs. unfold catch.
  unfold bind at 1. rewrite Hscrape.
  unfold page_done.
  destruct (stopWhileProcessing P); [|destruct (stopWhileWaiting P)].
  - destruct (0 <? length ls)%nat; reflexivity.
  - destruct (0 <? length ls)%nat; cbn -[goToNextPage uniqueNew];
      rewrite Hrun; reflexivity.
  - destruct (0 <? length ls)%nat;
      cbn -[goToNextPage uniqueNew completed failed];
      rewrite Hrun; cbn -[goToNextPage uniqueNew completed failed];
      rewrite Hrun; cbn -[goToNextPage uniqueNew completed failed];
      unfold bind at 1;
      match goal with
      | |- context [goToNextPage P ?W] =>
          destruct (goToNextPage P W) as [[[|]|] w3]
      end; reflexivity.
Qed.

Ltac frame :=
  repeat split; try reflexivity; cbn;
  first [ exists []; now rewrite app_nil_r
        | eexists; reflexivity
        | eexists; rewrite <- app_assoc; reflexivity ].

Lemma stopped_fields w :
  extends w (stopped w) /\ same_store w (stopped w)
  /\ storage (stopped w) = storage w
  /\ isRunning (stopped w) = false
  /\ last (sent (stopped w)) = Some (LOG Log_scraper_stopped Info).
Proof.
  split; [frame|]. split; [repeat split|]. split; [reflexivity|].
  split; [reflexivity|]. apply last_snoc.
Qed.

Lemma completed_fields w :
  extends w (completed w) /\ same_store w (completed w)
  /\ isRunning (completed w) = false
  /\ stored_isScraping (storage (completed w)) = Some false.
Proof. split; [frame|]. repeat split. Qed.

Lemma failed_fields w :
  extends w (failed w) /\ same_store w (failed w)
  /\ storage (failed w) = storage w
  /\ isRunning (failed w) = isRunning w
  /\ last (sent (failed w)) = Some SCRAPING_ERROR.
Proof.
  split; [frame|]. split; [repeat split|]. split; [reflexivity|].
  split; [reflexivity|]. apply last_snoc.
Qed.

(** What every cycle does and does not do. *)
Lemma runScraper_summary (P : Page) (w : World) :
  exists after,
    runScraper P w = (Returned tt, after)
    /\ extends w after
    /\ (isRunning after = true -> isRunning w = true)
    /\ (isRunning w = false -> after = w).
Proof.
  destruct (isRunning w) eqn:Hrun.
  2:{ exists w. unfold runScraper, bind, gets. rewrite Hrun.
      split; [reflexivity|]. split; [apply extends_refl|]. now split. }
  destruct (getScraper P) as [scraper|] eqn:Hs.
  2:{ unfold runScraper, bind, gets. rewrite Hrun, Hs. cbn [negb].
      eexists. split; [reflexivity|]. split; [frame|].
      split; [reflexivity | discriminate]. }
  destruct (runScraper_cases P scraper w Hrun Hs) as (ls & msgs & _ & ->).
  cbn zeta.
  pose proof (extends_sent_more msgs w) as H1.
  destruct (page_done_fields ls (sent_more msgs w)) as (H2 & _).
  cbn zeta in H2.
  pose proof (extends_trans _ _ _ H1 H2) as H12.
  set (w2 := page_done ls (sent_more msgs w)) in *.
  destruct (stopWhileProcessing P); [|destruct (stopWhileWaiting P)].
  - eexists. split; [reflexivity|].
    split; [|split; [reflexivity | discriminate]].
    eapply extends_trans; [exact H12|].
    eapply extends_trans; [apply stopped_fields | apply extends_send].
  - eexists. split; [reflexivity|].
    split; [|split; [reflexivity | discriminate]].
    eapply extends_trans; [exact H12 | apply stopped_fields].
  - destruct (goToNextPage P w2) as [r w3] eqn:Eg.
    destruct (goToNextPage_extends _ _ _ _ Eg) as (H3 & _).
    pose proof (extends_trans _ _ _ H12 H3) as H13.
    destruct r as [[|]|]; eexists; (split; [reflexivity|]);
      (split; [|split; [reflexivity | discriminate]]).
    + exact H13.
    + eapply extends_trans; [exact H13 | apply completed_fields].
    + eapply extends_trans; [exact H13 | apply failed_fields].
Qed.

(** The records and the page count that a cycle on a supported site
    stores. *)
Lemma runScraper_stores (P : Page) (scraper : Scraper) (w : World) :
  isRunning w = true -> getScraper P = Some scraper ->
  exists listings msgs after,
    scrapeCurrentPage P w = (Returned listings, sent_more msgs w)
    /\ runScraper P w = (Returned tt, after)
    /\ stored_listings (storage after) = saved listings (storage w)
    /\ stored_pagesScraped (storage after)
       = Some (default 0 (stored_pagesScraped (storage w)) + 1).
Proof.
  intros Hrun Hs.
  destruct (runScraper_cases P scraper w Hrun Hs) as (ls & msgs & Hsc & ->).
  exists ls, msgs. cbn zeta.
  destruct (page_done_fields ls (sent_more msgs w))
    as (_ & _ & _ & _ & Hl & Hp & _).
  cbn zeta in Hl, Hp.
  change (storage (sent_more msgs w)) with (storage w) in Hl, Hp.
  set (w2 := page_done ls (sent_more msgs w)) in *.
  destruct (stopWhileProcessing P); [|destruct (stopWhileWaiting P)].
  - eexists. split; [exact Hsc|]. split; [reflexivity|]. now split.
  - eexists. split; [exact Hsc|]. split; [reflexivity|]. now split.
  - destruct (goToNextPage P w2) as [r w3] eqn:Eg.
    destruct (goToNextPage_extends _ _ _ _ Eg) as (_ & _ & Hl3 & Hp3).
    destruct r as [[|]|]; eexists; (split; [exact Hsc|]);
      (split; [reflexivity|]); cbn; rewrite ?Hl3, ?Hp3; now split.
Qed.

End CycleFacts.

(** X23: Every cycle returns: there is no page, no state and no failure of the
    page on which runScraper throws.  A cycle changes none of the settings
    of the run (the two flags, the page delay, the target locations);
    it removes no visited page, no stored record and no sent message; it
    never sets the running flag; and when the flag is not set it does
    nothing at all. *)
Theorem runScraper_only_extends (P : Page) (w : World) :
  exists after,
    runScraper P w = (Returned tt, after)
    /\ extends w after
    /\ (isRunning after = true -> isRunning w = true)
    /\ (isRunning w = false -> after = w).
Proof. apply CycleFacts.runScraper_summary. Qed.

(** X24: A cycle that starts running on a supported site saves the records of
    the page (the stored records are the existing ones followed by the
    records of the page with a new url, and are untouched when the page
    gives none) and adds 1 to the stored page count, whatever ends the
    cycle: a stop command, a navigation, the end of the listing or a caught
    error. *)
Theorem runScraper_saves_and_counts
    (P : Page) (scraper : Scraper) (w : World) :
  isRunning w = true ->
  getScraper P = Some scraper ->
  exists listings msgs after,
    scrapeCurrentPage P w = (Returned listings, sent_more msgs w)
    /\ runScraper P w = (Returned tt, after)
    /\ stored_listings (storage after) = saved listings (storage w)
    /\ stored_pagesScraped (storage after)
       = Some (default 0 (stored_pagesScraped (storage w)) + 1).
Proof. apply CycleFacts.runScraper_stores. Qed.

Lemma runScraper_saves_and_counts_witness :
  exists listings msgs after,
    scrapeCurrentPage Scenario.ikman_page_bad_next Sample.started
    = (Returned listings, sent_more msgs Sample.started)
    /\ runScraper Scenario.ikman_page_bad_next Sample.started
       = (Returned tt, after)
    /\ stored_listings (storage after)
       = saved listings (storage Sample.started)
    /\ stored_pagesScraped (storage after)
       = Some (default 0 (stored_pagesScraped (storage Sample.started)) + 1).
Proof.
  apply (runScraper_saves_and_counts Scenario.ikman_page_bad_next IkmanScraper
           Sample.started); reflexivity.
Defined.

(** X25: In a cycle that starts running on a supported site and meets no stop
    command, when the adapter resolves a next-page URL whose canonical form
    is neither the canonical current URL nor a visited page, runScraper
    starts the navigation to it and keeps running; the current page is then
    visited, and storage holds isScraping = true, the two flags and the
    visited pages, so that checkAndResume on the next page load starts a
    cycle with the same flags and the same visited pages. *)
Theorem runScraper_navigates
    (P : Page) (scraper : Scraper) (current nextUrl next : text) (w : World) :
  isRunning w = true ->
  getScraper P = Some scraper ->
  stopWhileProcessing P = false ->
  stopWhileWaiting P = false ->
  URL_toString P (location_href P) = Returned current ->
  nextPageUrl P = Some nextUrl ->
  Str.truthy nextUrl = true ->
  URL_toString P nextUrl = Returned next ->
  next ∉ ({[current]} ∪ visitedPages w : gset text) ->
  exists after,
    runScraper P w = (Returned tt, after)
    /\ navigatedTo after = Some nextUrl
    /\ isRunning after = true
    /\ visitedPages after = {[current]} ∪ visitedPages w
    /\ stored_isScraping (storage after) = Some true
    /\ stored_visitedPages (storage after)
       = Some (elements (visitedPages after))
    /\ last (sent after) = Some (LOG Log_navigating Info)
    /\ forall (P' : Page) (locations : option (list text)),
        exists w',
          checkAndResume P' locations (storage after)
          = (LOG_resuming :: map Sent (sent (snd (runScraper P' w'))),
             snd (runScraper P' w'))
          /\ isRunning w' = true
          /\ filterLocations w' = filterLocations w
          /\ scrapeDetails w' = scrapeDetails w
          /\ visitedPages w' = visitedPages after
          /\ storage w' = storage after
          /\ sent w' = [].
Proof.
  intros Hrun Hs Hp Hw Hc Hn Ht Hx Hin.
  destruct (CycleFacts.runScraper_cases P scraper w Hrun Hs)
    as (ls & msgs & _ & ->).
  cbn zeta. rewrite Hp, Hw.
  destruct (NavFacts.page_done_fields ls (sent_more msgs w))
    as (Hext & Hr2 & Hv2 & _).
  cbn zeta in Hext, Hr2, Hv2.
  destruct Hext as (Hf & Hd & _).
  change (isRunning (sent_more msgs w)) with (isRunning w) in Hr2.
  change (visitedPages (sent_more msgs w)) with (visitedPages w) in Hv2.
  change (filterLocations (sent_more msgs w)) with (filterLocations w) in Hf.
  change (scrapeDetails (sent_more msgs w)) with (scrapeDetails w) in Hd.
  rewrite Hrun in Hr2.
  set (w2 := page_done ls (sent_more msgs w)) in *.
  rewrite (NavFacts.goToNextPage_fresh P scraper current nextUrl Hs Hc Hn Ht
             next w2 Hx)
    by (rewrite Hv2; exact Hin).
  cbn zeta. eexists. split; [reflexivity|].
  split; [reflexivity|]. split; [exact Hr2|].
  split; [cbn; now rewrite Hv2|].
  split; [reflexivity|]. split; [reflexivity|].
  split; [apply last_snoc|].
  intros P' locations. eexists. unfold checkAndResume.
  cbn [storage navigate set_storage store_crawl_state stored_isScraping
       is_true].
  split; [reflexivity|].
  unfold resumed_world.
  cbn [storage navigate set_storage store_crawl_state stored_isScraping
       stored_visitedPages stored_filterLocations stored_scrapeDetails
       is_true is_not_false].
  destruct locations; cbn; rewrite ?list_to_set_elements_L, ?Hf, ?Hd;
    repeat split; try reflexivity;
    destruct (filterLocations w), (scrapeDetails w); reflexivity.
Qed.

Lemma runScraper_navigates_witness :
  let P := Scenario.ikman_page_one in
  let w := Sample.started in
  let current := txt "https://ikman.lk/en/ads/sri-lanka/land" in
  let nextUrl := txt "https://ikman.lk/en/ads/sri-lanka/land?page=2" in
  exists after,
    runScraper P w = (Returned tt, after)
    /\ navigatedTo after = Some nextUrl
    /\ isRunning after = true
    /\ visitedPages after = {[current]} ∪ visitedPages w
    /\ stored_isScraping (storage after) = Some true
    /\ stored_visitedPages (storage after)
       = Some (elements (visitedPages after))
    /\ last (sent after) = Some (LOG Log_navigating Info)
    /\ forall (P' : Page) (locations : option (list text)),
        exists w',
          checkAndResume P' locations (storage after)
          = (LOG_resuming :: map Sent (sent (snd (runScraper P' w'))),
             snd (runScraper P' w'))
          /\ isRunning w' = true
          /\ filterLocations w' = filterLocations w
          /\ scrapeDetails w' = scrapeDetails w
          /\ visitedPages w' = visitedPages after
          /\ storage w' = storage after
          /\ sent w' = [].
Proof.
  apply (runScraper_navigates Scenario.ikman_page_one IkmanScraper
           (txt "https://ikman.lk/en/ads/sri-lanka/land")
           (txt "https://ikman.lk/en/ads/sri-lanka/land?page=2")
           (txt "https://ikman.lk/en/ads/sri-lanka/land?page=2")
           Sample.started); try reflexivity.
  apply (bool_decide_eq_false_1
           (txt "https://ikman.lk/en/ads/sri-lanka/land?page=2"
            ∈ ({[txt "https://ikman.lk/en/ads/sri-lanka/land"]}
               ∪ visitedPages Sample.started : gset text))).
  vm_compute. reflexivity.
Defined.

(** X26: A stop command handled before the page delay of a cycle is over,
    while the page is scraped, saved and counted or during the delay, ends
    the cycle on a supported site: the running flag is cleared, no
    navigation is started and no page is added to the visited pages; the
    content script writes neither isScraping nor the visited pages to
    storage.  The cycle ends with the line that reports the stop by the user
    when the command came while the page was processed, and with the line
    of stopScraping when it came during the page delay.  These are the two
    moments of a stop that a page load carries here; a command handled
    after the delay, while goToNextPage waits for the storage write, is not
    among them. *)
Theorem runScraper_stopped (P : Page) (scraper : Scraper) (w : World) :
  isRunning w = true ->
  getScraper P = Some scraper ->
  stopWhileProcessing P = true \/ stopWhileWaiting P = true ->
  exists after,
    runScraper P w = (Returned tt, after)
    /\ isRunning after = false
    /\ navigatedTo after = navigatedTo w
    /\ visitedPages after = visitedPages w
    /\ stored_isScraping (storage after) = stored_isScraping (storage w)
    /\ stored_visitedPages (storage after) = stored_visitedPages (storage w)
    /\ last (sent after)
       = Some (LOG (if stopWhileProcessing P then Log_stopped_by_user
                    else Log_scraper_stopped) Info).
Proof.
  intros Hrun Hs Hstop.
  destruct (CycleFacts.runScraper_cases P scraper w Hrun Hs)
    as (ls & msgs & _ & ->).
  cbn zeta.
  destruct (NavFacts.page_done_fields ls (sent_more msgs w))
    as (_ & _ & Hv & Hn & _ & _ & Hi & _ & _ & _ & Hsv & _).
  cbn zeta in Hv, Hn, Hi, Hsv.
  set (w2 := page_done ls (sent_more msgs w)) in *.
  destruct (stopWhileProcessing P) eqn:Hp.
  - eexists. split; [reflexivity|]. repeat split; try assumption.
    apply last_snoc.
  - destruct Hstop as [Hstop | Hstop]; [discriminate|]. rewrite Hstop.
    eexists. split; [reflexivity|]. repeat split; try assumption.
    apply last_snoc.
Qed.

Lemma runScraper_stopped_witness :
  let P := Scenario.ikman_page_stopped true in
  let w := Sample.started in
  exists after,
    runScraper P w = (Returned tt, after)
    /\ isRunning after = false
    /\ navigatedTo after = navigatedTo w
    /\ visitedPages after = visitedPages w
    /\ stored_isScraping (storage after) = stored_isScraping (storage w)
    /\ stored_visitedPages (storage after) = stored_visitedPages (storage w)
    /\ last (sent after)
       = Some (LOG (if stopWhileProcessing P then Log_stopped_by_user
                    else Log_scraper_stopped) Info).
Proof.
  apply (runScraper_stopped (Scenario.ikman_page_stopped true) IkmanScraper
           Sample.started); [reflexivity | reflexivity | left; reflexivity].
Defined.

(** X27: When the URL constructor rejects the next-page address of the adapter,
    the cycle catches the error: runScraper returns with SCRAPING_ERROR as
    its last message and starts no navigation, and it leaves the running
    flag set and the storage as it was after the page was saved and
    counted, with the stored isScraping flag untouched. *)
Theorem runScraper_reports_error
    (P : Page) (scraper : Scraper) (current nextUrl : text) (w : World) :
  isRunning w = true ->
  getScraper P = Some scraper ->
  stopWhileProcessing P = false ->
  stopWhileWaiting P = false ->
  URL_toString P (location_href P) = Returned current ->
  nextPageUrl P = Some nextUrl ->
  Str.truthy nextUrl = true ->
  URL_toString P nextUrl = Threw ->
  exists after,
    runScraper P w = (Returned tt, after)
    /\ last (sent after) = Some SCRAPING_ERROR
    /\ isRunning after = true
    /\ navigatedTo after = navigatedTo w
    /\ visitedPages after = {[current]} ∪ visitedPages w
    /\ stored_isScraping (storage after) = stored_isScraping (storage w)
    /\ stored_visitedPages (storage after) = stored_visitedPages (storage w).
Proof.
  intros Hrun Hs Hp Hw Hc Hn Ht Hx.
  destruct (CycleFacts.runScraper_cases P scraper w Hrun Hs)
    as (ls & msgs & _ & ->).
  cbn zeta. rewrite Hp, Hw.
  destruct (NavFacts.page_done_fields ls (sent_more msgs w))
    as (_ & Hr & Hv & Hnav & _ & _ & Hi & _ & _ & _ & Hsv & _).
  cbn zeta in Hr, Hv, Hnav, Hi, Hsv.
  change (isRunning (sent_more msgs w)) with (isRunning w) in Hr.
  rewrite Hrun in Hr.
  set (w2 := page_done ls (sent_more msgs w)) in *.
  rewrite (NavFacts.goToNextPage_throws P scraper current nextUrl Hs Hc Hn Ht
             w2 Hx).
  eexists. split; [reflexivity|].
  split; [apply last_snoc|].
  repeat split; try assumption. cbn. now rewrite Hv.
Qed.

Lemma runScraper_reports_error_witness :
  let P := Scenario.ikman_page_bad_next in
  let w := Sample.started in
  let current := txt "https://ikman.lk/en/ads/sri-lanka/land" in
  exists after,
    runScraper P w = (Returned tt, after)
    /\ last (sent after) = Some SCRAPING_ERROR
    /\ isRunning after = true
    /\ navigatedTo after = navigatedTo w
    /\ visitedPages after = {[current]} ∪ visitedPages w
    /\ stored_isScraping (storage after) = stored_isScraping (storage w)
    /\ stored_visitedPages (storage after) = stored_visitedPages (storage w).
Proof.
  apply (runScraper_reports_error Scenario.ikman_page_bad_next IkmanScraper
           (txt "https://ikman.lk/en/ads/sri-lanka/land")
           (txt "https://[") Sample.started); reflexivity.
Defined.

(** *** Start of a run, and the records of ikman.lk *)

Module EntryFacts.

Import NavFacts CycleFacts.

(** A cycle adds at most the canonical current URL to the visited
    pages. *)
Lemma runScraper_visited (P : Page) (w : World) (u : text) :
  u ∈ visitedPages (snd (runScraper P w)) ->
  u ∈ visitedPages w \/ URL_toString P (location_href P) = Returned u.
Proof.
  destruct (isRunning w) eqn:Hrun.
  2:{ unfold runScraper, bind, gets. rewrite Hrun. cbn. now left. }
  destruct (getScraper P) as [scraper|] eqn:Hs.
  2:{ unfold runScraper, bind, gets. rewrite Hrun, Hs. cbn. now left. }
  destruct (runScraper_cases P scraper w Hrun Hs) as (ls & msgs & _ & ->).
  cbn zeta.
  destruct (page_done_fields ls (sent_more msgs w)) as (_ & _ & Hv & _).
  cbn zeta in Hv.
  change (visitedPages (sent_more msgs w)) with (visitedPages w) in Hv.
  set (w2 := page_done ls (sent_more msgs w)) in *.
  destruct (stopWhileProcessing P); [|destruct (stopWhileWaiting P)].
  - cbn. rewrite Hv. now left.
  - cbn. rewrite Hv. now left.
  - destruct (goToNextPage P w2) as [r w3] eqn:Eg.
    assert (Hw3 : u ∈ visitedPages w3 ->
                  u ∈ visitedPages w
                  \/ URL_toString P (location_href P) = Returned u).
    { apply goToNextPage_shape in Eg.
      destruct Eg as [(_ & current & nextUrl & next & Hc & _ & _ & _ & _ & _
                       & ->)
                     | (_ & [-> | (current & Hc & ->)])];
        cbn; rewrite ?Hv; intros H; try (now left);
        apply elem_of_union in H as [H | H]; try (now left);
        apply elem_of_singleton in H; subst u; now right. }
    destruct r as [[|]|]; exact Hw3.
Qed.

Lemma NoDup_filter_map {A B : Type} (g : A -> B) (p : A -> bool) (l : list A) :
  NoDup (map g l) -> NoDup (map g (List.filter p l)).
Proof.
  induction l as [|x l IH]; cbn [List.filter map]; intros H; [constructor|].
  apply NoDup_cons in H as [Hx H].
  destruct (p x); cbn [map]; [|now apply IH].
  apply NoDup_cons. split; [|now apply IH].
  intros Hin. apply Hx.
  apply list_elem_of_In in Hin. apply list_elem_of_In.
  apply in_map_iff in Hin as (y & Hy & Hin).
  apply filter_In in Hin as [Hin _].
  apply in_map_iff. now exists y.
Qed.

Lemma enriched_urls E ds records ls :
  Forall2 (enriched E ds) records ls -> map url ls = map url records.
Proof.
  induction 1 as [|data l records ls Hl _ IH]; [reflexivity|].
  cbn [map]. rewrite IH. f_equal.
  destruct Hl as ((Hu & _) & _). now symmetry.
Qed.

(** The url of the record of a card that getListingCards keeps is the url
    that getListingCards read from it. *)
Lemma ikman_record_url E el u l :
  found_url el = Some u ->
  Str.startsWith u (txt "http") = true ->
  (tagName el = txt "A" ->
   card_querySelector (found_card el) Sel_ad_link = Returned None) ->
  u <> [] ->
  extractFromCard IkmanScraper E (found_card el) = Some l ->
  url l = u.
Proof.
  intros Hu Hhttp Hanchor Hne.
  unfold found_url, found_link in Hu.
  cbn [IkmanScraper extractFromCard]. unfold try_catch, ikman_extract_body.
  assert (Hlink : exists a,
             card_querySelector (found_card el) Sel_ad_link
             = Returned a
             /\ href (default (card_element (found_card el)) a) = Some u).
  { unfold Str.text_eqb in Hu. case_bool_decide as Ht.
    - exists None. split; [now apply Hanchor | exact Hu].
    - destruct (card_querySelector (found_card el) Sel_ad_link) as [a|];
        [|discriminate Hu].
      exists a. split; [reflexivity|].
      destruct a as [a|]; [exact Hu | discriminate Hu]. }
  destruct Hlink as (a & -> & Hh). cbn [obind]. rewrite Hh.
  unfold or_text. cbn [Str.truthy_opt].
  assert (Ht : Str.truthy u = true) by (destruct u; [now contradiction Hne | reflexivity]).
  rewrite Ht. cbn match. rewrite Ht. cbn [negb orb].
  destruct (negb (Str.includes u (txt "/ad/"))); [intros H; discriminate H|].
  destruct (card_querySelector (found_card el) Sel_ikman_title);
    cbn [obind]; [|intros H; discriminate H].
  destruct (card_querySelector (found_card el) Sel_ikman_price);
    cbn [obind]; [|intros H; discriminate H].
  intros H. injection H as <-. cbn [url].
  change (Str.startsWith u ["h"; "t"; "t"; "p"]%char)
    with (Str.startsWith u (txt "http")).
  now rewrite Hhttp.
Qed.

Lemma ikman_batch_distinct E (cards : list Found) :
  NoDup (map found_url cards) ->
  (forall el l, In el cards ->
                extractFromCard IkmanScraper E (found_card el) = Some l ->
                found_url el = Some (url l)) ->
  NoDup (map url (omap (extractFromCard IkmanScraper E)
                       (map found_card cards))).
Proof.
  induction cards as [|el cards IH]; intros Hnd Hurl; [constructor|].
  cbn [map] in Hnd. apply NoDup_cons in Hnd as [Hel Hnd].
  assert (Hrest : forall l,
             In l (omap (extractFromCard IkmanScraper E)
                        (map found_card cards)) ->
             exists el', In el' cards /\ found_url el' = Some (url l)).
  { clear IH Hel Hnd. induction cards as [|el' cards IH']; intros l Hl.
    - destruct Hl.
    - cbn [map omap list_omap] in Hl.
      destruct (extractFromCard IkmanScraper E (found_card el')) as [l'|] eqn:E';
        [destruct Hl as [<- | Hl]|].
      + exists el'. split; [now left|]. apply Hurl; [right; now left | exact E'].
      + destruct (IH' (fun e l0 H => Hurl e l0 (match H with
                                                 | or_introl H0 => or_introl H0
                                                 | or_intror H0 =>
                                                     or_intror (or_intror H0)
                                                 end)) l Hl)
          as (e & He & Hf).
        exists e. split; [now right | exact Hf].
      + destruct (IH' (fun e l0 H => Hurl e l0 (match H with
                                                 | or_introl H0 => or_introl H0
                                                 | or_intror H0 =>
                                                     or_intror (or_intror H0)
                                                 end)) l Hl)
          as (e & He & Hf).
        exists e. split; [now right | exact Hf]. }
  cbn [map omap list_omap].
  assert (IH' : NoDup (map url (omap (extractFromCard IkmanScraper E)
                                     (map found_card cards)))).
  { apply IH; [exact Hnd|]. intros e l He. apply Hurl. now right. }
  destruct (extractFromCard IkmanScraper E (found_card el)) as [l|] eqn:El;
    [|exact IH'].
  cbn [map]. apply NoDup_cons. split; [|exact IH'].
  intros Hin. apply Hel.
  apply list_elem_of_In in Hin. apply in_map_iff in Hin as (l' & Hu & Hl').
  destruct (Hrest l' Hl') as (e & He & Hf).
  rewrite (Hurl el l (or_introl eq_refl) El), <- Hu, <- Hf.
  apply list_elem_of_In. apply in_map_iff. now exists e.
Qed.

(** The content script when startScraping runs its cycle. *)
Lemma startScraping_world (P : Page) (options : Options) (w : World) :
  exists w0,
    startScraping P options w = runScraper P w0
    /\ isRunning w0 = true
    /\ filterLocations w0 = is_not_false (opt_filterLocations options)
    /\ scrapeDetails w0 = is_true (opt_scrapeDetails options)
    /\ pageDelay w0 = or_number (opt_pageDelay options) DEFAULT_PAGE_DELAY
    /\ customLocations w0 = customLocations w
    /\ visitedPages w0 = ∅
    /\ stored_visitedPages (storage w0) = Some []
    /\ navigatedTo w0 = navigatedTo w.
Proof.
  unfold startScraping, bind, modify, log, gets.
  cbn -[runScraper].
  destruct (is_true (opt_scrapeDetails options)) eqn:E;
    cbn -[runScraper]; eexists; (split; [reflexivity|]);
    cbn; rewrite ?E; repeat split.
Qed.

End EntryFacts.

(** X28: On ikman.lk the stored records keep distinct urls.  When the cards of
    the page are those that getListingCards returns, with links whose href
    is absolute and anchors that hold no further ad link, a cycle that
    starts from stored records with distinct urls ends with stored records
    with distinct urls. *)
Theorem runScraper_ikman_urls_distinct
    (P : Page) (L : Listings) (w : World) :
  getScraper P = Some IkmanScraper ->
  listingCards P = map found_card (IkmanScraper_getListingCards L) ->
  (forall el, In el (IkmanScraper_getListingCards L) ->
              tagName el = txt "A" ->
              card_querySelector (found_card el) Sel_ad_link = Returned None) ->
  (forall el u, In el (IkmanScraper_getListingCards L) ->
                found_url el = Some u ->
                Str.startsWith u (txt "http") = true) ->
  NoDup (map url (default [] (stored_listings (storage w)))) ->
  NoDup (map url (default [] (stored_listings
                                (storage (snd (runScraper P w)))))).
Proof.
  intros Hs Hcards Hanchor Hhttp Hstore.
  destruct (isRunning w) eqn:Hrun.
  2:{ destruct (CycleFacts.runScraper_summary P w) as (after & E & _ & _ & H).
      rewrite E. cbn [snd]. now rewrite (H Hrun). }
  destruct (CycleFacts.runScraper_stores P IkmanScraper w Hrun Hs)
    as (ls & msgs & after & Hscrape & -> & Hl & _).
  cbn [snd]. rewrite Hl. unfold saved.
  destruct (0 <? length ls)%nat; [|exact Hstore].
  change (default [] (Some ?x)) with x.
  apply upsert_NoDup; [exact Hstore|].
  destruct (PageFacts.scrape_cards_enriched P IkmanScraper (detail_site P)
              (listingCards P) [] 0%nat
              (send (LOG (Log_found_cards (length (listingCards P))) Info) w))
    as (ls' & msgs' & E & Hls).
  assert (Els : ls = ls').
  { unfold scrapeCurrentPage in Hscrape. rewrite Hs in Hscrape.
    unfold bind at 1 in Hscrape. unfold log at 1 in Hscrape.
    unfold modify at 1 in Hscrape. unfold bind at 1 in Hscrape.
    unfold detail_site in E. rewrite E in Hscrape. cbn [app] in Hscrape.
    destruct (0 <? _)%nat in Hscrape; cbn in Hscrape;
      now injection Hscrape as <-. }
  subst ls'. rewrite (EntryFacts.enriched_urls _ _ _ _ Hls).
  apply EntryFacts.NoDup_filter_map. rewrite Hcards.
  destruct (ListingFacts.cards_of_selectors_inv L
              [Sel_li_with_ad_link; Sel_ad_links]) as (Hnd & Hurl & _).
  apply EntryFacts.ikman_batch_distinct; [exact Hnd|].
  intros el l Hel El.
  destruct (Hurl el Hel) as (u & Hu & Hne).
  rewrite Hu. f_equal. symmetry.
  apply (EntryFacts.ikman_record_url (env P) el u l Hu); try assumption.
  - now apply (Hhttp el).
  - now apply Hanchor.
Qed.

Lemma runScraper_ikman_urls_distinct_witness :
  NoDup (map url (default [] (stored_listings
                                (storage (snd (runScraper
                                                 Scenario.ikman_page_of_listings
                                                 Sample.started)))))).
Proof.
  apply (runScraper_ikman_urls_distinct Scenario.ikman_page_of_listings
           Scenario.ikman_listings Sample.started).
  - reflexivity.
  - reflexivity.
  - intros el Hel Ht. vm_compute in Hel.
    destruct Hel as [<- | [<- | []]]; discriminate Ht.
  - intros el u Hel Hu. vm_compute in Hel.
    destruct Hel as [<- | [<- | []]]; vm_compute in Hu;
      injection Hu as <-; reflexivity.
  - constructor.
Defined.

(** X29: A start command sets the flags and the delay from its options (the
    location filter unless the option is false, detail pages only when the
    option is true, the default delay when the option is missing or 0),
    leaves the target locations as they are, and runs a cycle from an empty
    set of visited pages: afterwards the visited pages hold at most the
    canonical current URL, whatever was visited before, so that a
    next page visited in an earlier run is navigated to again. *)
Theorem startScraping_starts_fresh
    (P : Page) (options : Options) (w : World) :
  exists after,
    startScraping P options w = (Returned tt, after)
    /\ filterLocations after = is_not_false (opt_filterLocations options)
    /\ scrapeDetails after = is_true (opt_scrapeDetails options)
    /\ pageDelay after = or_number (opt_pageDelay options) DEFAULT_PAGE_DELAY
    /\ customLocations after = customLocations w
    /\ (forall u, u ∈ visitedPages after ->
                  URL_toString P (location_href P) = Returned u)
    /\ (forall scraper current nextUrl next,
          getScraper P = Some scraper ->
          stopWhileProcessing P = false ->
          stopWhileWaiting P = false ->
          URL_toString P (location_href P) = Returned current ->
          nextPageUrl P = Some nextUrl ->
          Str.truthy nextUrl = true ->
          URL_toString P nextUrl = Returned next ->
          next <> current ->
          navigatedTo after = Some nextUrl
          /\ visitedPages after = {[current]}
          /\ stored_visitedPages (storage after) = Some [current]).
Proof.
  destruct (EntryFacts.startScraping_world P options w)
    as (w0 & -> & Hrun & Hf & Hd & Hp & Hc & Hv & Hsv & _).
  destruct (CycleFacts.runScraper_summary P w0)
    as (after & E & (Hf' & Hd' & Hp' & Hc' & _) & _).
  exists after. split; [exact E|].
  split; [congruence|]. split; [congruence|]. split; [congruence|].
  split; [congruence|]. split.
  - intros u Hu.
    assert (Hu' : u ∈ visitedPages (snd (runScraper P w0)))
      by now rewrite E.
    apply EntryFacts.runScraper_visited in Hu' as [Hu' | Hu']; [|exact Hu'].
    rewrite Hv in Hu'. now apply elem_of_empty in Hu'.
  - intros scraper current nextUrl next Hs Hsp Hsw Hcur Hn Ht Hx Hne.
    destruct (CycleFacts.runScraper_cases P scraper w0 Hrun Hs)
      as (ls & msgs & _ & E').
    cbn zeta in E'. rewrite Hsp, Hsw in E'.
    destruct (NavFacts.page_done_fields ls (sent_more msgs w0))
      as (_ & _ & Hv2 & _).
    cbn zeta in Hv2.
    change (visitedPages (sent_more msgs w0)) with (visitedPages w0) in Hv2.
    rewrite Hv in Hv2.
    set (w2 := page_done ls (sent_more msgs w0)) in *.
    rewrite (NavFacts.goToNextPage_fresh P scraper current nextUrl Hs Hcur Hn
               Ht next w2 Hx) in E'
      by (rewrite Hv2; intros Hin;
          apply elem_of_union in Hin as [Hin | Hin];
          [apply elem_of_singleton in Hin; contradiction
          | now apply elem_of_empty in Hin]).
    rewrite E in E'. injection E' as ->.
    cbn. rewrite Hv2, union_empty_r_L. split; [reflexivity|]. split; [reflexivity|].
    now rewrite elements_singleton.
Qed.

(** *** A crawl ends *)

Module CrawlFacts.

Import NavFacts CycleFacts.

Lemma unvisited_le (U : list text) (c : text) (V : gset text) :
  (length (unvisited U ({[c]} ∪ V)) <= length (unvisited U V))%nat.
Proof.
  unfold unvisited. induction U as [|u U IH]; cbn [List.filter]; [lia|].
  destruct (bool_decide (u ∈ V)) eqn:E.
  - apply bool_decide_eq_true in E.
    rewrite bool_decide_eq_true_2 by (apply elem_of_union; now right).
    exact IH.
  - cbn [negb]. destruct (negb (bool_decide (u ∈ {[c]} ∪ V)));
      cbn [length]; lia.
Qed.

Lemma unvisited_lt (U : list text) (c : text) (V : gset text) :
  In c U -> c ∉ V ->
  (length (unvisited U ({[c]} ∪ V)) < length (unvisited U V))%nat.
Proof.
  intros Hin Hc. unfold unvisited.
  induction U as [|u U IH]; [destruct Hin|].
  cbn [List.filter].
  pose proof (unvisited_le U c V) as Hle. unfold unvisited in Hle.
  destruct Hin as [-> | Hin].
  - rewrite (bool_decide_eq_false_2 (c ∈ V)) by exact Hc.
    rewrite bool_decide_eq_true_2
      by (apply elem_of_union; left; now apply elem_of_singleton).
    cbn [negb length]. lia.
  - specialize (IH Hin).
    destruct (bool_decide (u ∈ V)) eqn:E.
    + apply bool_decide_eq_true in E.
      rewrite bool_decide_eq_true_2 by (apply elem_of_union; now right).
      exact IH.
    + cbn [negb]. destruct (negb (bool_decide (u ∈ {[c]} ∪ V)));
        cbn [length]; lia.
Qed.

(** A cycle that starts a navigation. *)
Lemma runScraper_navigated (P : Page) (w : World) (u : text) :
  navigatedTo w = None ->
  navigatedTo (snd (runScraper P w)) = Some u ->
  exists current next,
    URL_toString P (location_href P) = Returned current
    /\ nextPageUrl P = Some u
    /\ URL_toString P u = Returned next
    /\ (next ∉ ({[current]} ∪ visitedPages w : gset text))
    /\ visitedPages (snd (runScraper P w)) = {[current]} ∪ visitedPages w
    /\ stored_isScraping (storage (snd (runScraper P w))) = Some true
    /\ stored_visitedPages (storage (snd (runScraper P w)))
       = Some (elements ({[current]} ∪ visitedPages w : gset text)).
Proof.
  intros Hnone.
  destruct (isRunning w) eqn:Hrun.
  2:{ destruct (runScraper_summary P w) as (after & E & _ & _ & H).
      rewrite E. cbn [snd]. rewrite (H Hrun), Hnone. discriminate. }
  destruct (getScraper P) as [scraper|] eqn:Hs.
  2:{ unfold runScraper, bind, gets. rewrite Hrun, Hs. cbn.
      rewrite Hnone. discriminate. }
  destruct (runScraper_cases P scraper w Hrun Hs) as (ls & msgs & _ & ->).
  cbn zeta.
  destruct (page_done_fields ls (sent_more msgs w))
    as (_ & _ & Hv & Hn & _).
  cbn zeta in Hv, Hn.
  change (visitedPages (sent_more msgs w)) with (visitedPages w) in Hv.
  change (navigatedTo (sent_more msgs w)) with (navigatedTo w) in Hn.
  rewrite Hnone in Hn.
  set (w2 := page_done ls (sent_more msgs w)) in *.
  destruct (stopWhileProcessing P); [|destruct (stopWhileWaiting P)].
  - cbn. rewrite Hn. discriminate.
  - cbn. rewrite Hn. discriminate.
  - destruct (goToNextPage P w2) as [r w3] eqn:Eg.
    apply goToNextPage_shape in Eg.
    destruct Eg as [(-> & current & nextUrl & next & Hc & Hnext & _ & Hx
                     & Hin & _ & ->)
                   | (Hr & Hw3)].
    + cbn. intros H. injection H as <-.
      exists current, next. rewrite Hv in *.
      repeat split; assumption.
    + assert (H3 : navigatedTo w3 = None).
      { destruct Hw3 as [-> | (current & _ & ->)]; exact Hn. }
      destruct r as [[|]|]; cbn; rewrite ?H3; discriminate.
Qed.

(** The cycle of a page load after a navigation. *)
Lemma checkAndResume_running (P : Page)
    (locations : option (list text)) (s : Storage)
    (V : gset text) :
  stored_isScraping s = Some true ->
  stored_visitedPages s = Some (elements V) ->
  exists w0,
    snd (checkAndResume P locations s) = snd (runScraper P w0)
    /\ navigatedTo w0 = None
    /\ visitedPages w0 = V.
Proof.
  intros Hi Hv. unfold checkAndResume, resumed_world.
  rewrite Hi, Hv. cbn [is_true]. eexists. split; [reflexivity|].
  destruct locations; cbn; now rewrite list_to_set_elements_L.
Qed.

Section Crawl.

Variables (P0 : Page) (site : text -> Page) (locations : option (list text)).
Variable U : list text.

Hypothesis listed :
  forall Q c, on_site P0 site Q ->
              URL_toString Q (location_href Q) = Returned c -> In c U.
Hypothesis loaded_as_linked :
  forall Q u next, on_site P0 site Q ->
                   nextPageUrl Q = Some u ->
                   URL_toString Q u = Returned next ->
                   URL_toString (site u) (location_href (site u))
                   = Returned next.

Lemma loads_end fuel :
  forall (P : Page) (s : Storage) (V : gset text) (c : text),
    on_site P0 site P ->
    stored_isScraping s = Some true ->
    stored_visitedPages s = Some (elements V) ->
    URL_toString P (location_href P) = Returned c ->
    c ∉ V ->
    (length (unvisited U V) <= fuel)%nat ->
    exists final,
      loads site locations fuel P s = Some final
      /\ navigatedTo final = None.
Proof.
  induction fuel as [|n IH]; intros P s V c HP Hi Hv Hc Hnew Hfuel.
  - pose proof (unvisited_lt U c V (listed P c HP Hc) Hnew). lia.
  - cbn [loads].
    destruct (checkAndResume_running P locations s V Hi Hv)
      as (w0 & -> & Hnone & Hv0).
    destruct (navigatedTo (snd (runScraper P w0))) as [u|] eqn:En.
    + destruct (runScraper_navigated P w0 u Hnone En)
        as (current & next & Hc' & Hn & Hx & Hin & _ & Hi' & Hv').
      rewrite Hc in Hc'. injection Hc' as <-. rewrite Hv0 in *.
      apply (IH (site u) _ ({[c]} ∪ V) next).
      * right. now exists u.
      * exact Hi'.
      * exact Hv'.
      * now apply (loaded_as_linked P u next).
      * exact Hin.
      * pose proof (unvisited_lt U c V (listed P c HP Hc) Hnew). lia.
    + now eexists.
Qed.

End Crawl.

End CrawlFacts.

(** X30: A crawl ends.  When the canonical URLs of the pages of a site are
    among finitely many addresses and the page that loads for a next-page
    address has the canonical URL of that address, a start command is
    followed by at most as many page loads as there are addresses: the
    last cycle starts no navigation. *)
Theorem crawl_ends
    (P : Page) (site : text -> Page) (locations : option (list text))
    (U : list text) (options : Options) (w : World) :
  navigatedTo w = None ->
  (forall Q c, on_site P site Q ->
               URL_toString Q (location_href Q) = Returned c -> In c U) ->
  (forall Q u next, on_site P site Q ->
                    nextPageUrl Q = Some u ->
                    URL_toString Q u = Returned next ->
                    URL_toString (site u) (location_href (site u))
                    = Returned next) ->
  exists final,
    crawl site locations (length U) P options w = Some final
    /\ navigatedTo final = None.
Proof.
  intros Hnone Hlisted Hlinked. unfold crawl.
  destruct (EntryFacts.startScraping_world P options w)
    as (w0 & -> & _ & _ & _ & _ & _ & Hv & _ & Hnone0).
  rewrite Hnone in Hnone0.
  destruct (navigatedTo (snd (runScraper P w0))) as [u|] eqn:En;
    [|now eexists].
  destruct (CrawlFacts.runScraper_navigated P w0 u Hnone0 En)
    as (current & next & Hc & Hn & Hx & Hin & _ & Hi & Hs).
  apply (CrawlFacts.loads_end P site locations U Hlisted Hlinked (length U)
           (site u) _ ({[current]} ∪ visitedPages w0) next).
  - right. now exists u.
  - exact Hi.
  - exact Hs.
  - apply (Hlinked P u next); [now left | exact Hn | exact Hx].
  - exact Hin.
  - apply PageFacts.filter_length.
Qed.

Lemma crawl_ends_witness :
  exists final,
    crawl Scenario.cycle_site None (length Scenario.cycle_addresses)
          (Scenario.cycle_site []) Scenario.unfiltered
          (loaded Sample.empty_storage)
    = Some final
    /\ navigatedTo final = None.
Proof.
  apply (crawl_ends (Scenario.cycle_site []) Scenario.cycle_site None
           Scenario.cycle_addresses Scenario.unfiltered
           (loaded Sample.empty_storage)).
  - reflexivity.
  - intros Q c HQ H.
    assert (HU : In (location_href Q) Scenario.cycle_addresses
                 /\ URL_toString Q (location_href Q)
                    = Returned (location_href Q)).
    { destruct HQ as [-> | (x & ->)]; [vm_compute; split; [tauto | reflexivity]|].
      unfold Scenario.cycle_site.
      destruct (Str.text_eqb x _); [|destruct (Str.text_eqb x _)];
        vm_compute; split; tauto. }
    destruct HU as [HU E]. rewrite E in H. injection H as <-. exact HU.
  - intros Q u next HQ Hn Hx.
    assert (HQ' : exists here nxt, Q = Scenario.cycle_page here nxt
                    /\ Scenario.cycle_site (txt nxt)
                       = Scenario.cycle_page
                           nxt (match nextPageUrl
                                        (Scenario.cycle_site (txt nxt)) with
                                | Some t => string_of_list_ascii t
                                | None => EmptyString
                                end)).
    { destruct HQ as [-> | (x & ->)].
      - do 2 eexists. split; reflexivity.
      - unfold Scenario.cycle_site at 1.
        destruct (Str.text_eqb x _); [|destruct (Str.text_eqb x _)];
          do 2 eexists; split; reflexivity. }
    destruct HQ' as (here & nxt & -> & E).
    cbn in Hn, Hx. injection Hn as <-. injection Hx as <-.
    rewrite E. reflexivity.
Defined.
